(** * Radix-tree router of lierbai/web: shallow embedding of node.go and
      the registry entry point of web.go, with the properties of its
      specification.

    Go strings are byte sequences: they are modelled as [list ascii]
    (one [ascii] per byte).  Unsigned machine integers are modelled in [Z]
    with their wrap-around written out.  The tree is single-owner (no node
    is shared between two parents), so in-place mutation is modelled by
    returning the updated node; since a Go panic leaves the mutations done
    so far in place, every mutating operation returns the node together
    with a status. *)

From Stdlib Require Import ZArith Ascii String Lia.
From stdpp Require Import base decidable option list numbers.

Local Open Scope Z_scope.
Local Open Scope nat_scope.

(** ** Strings *)

Abbreviation str := (list ascii).

(** A string literal as a Go string. *)
Definition B (s : string) : str := list_ascii_of_string s.

#[global] Instance ascii_eq_dec : EqDecision ascii := ascii_dec.

Definition slash : ascii := "/"%char.
Definition colon : ascii := ":"%char.
Definition star : ascii := "*"%char.

(** [is_sigil c] is the test [c == ':' || c == '*']. *)
Definition is_sigil (c : ascii) : bool :=
  bool_decide (c = colon) || bool_decide (c = star).

(** ** Utility functions (node.go:556-608) *)

(** The loop of [longestCommonPrefix], started at index [i] with the two
    strings already advanced by [i] bytes; the bound
    [max = min(len(a), len(b))] is one of the two lists running out. *)
Fixpoint lcp_from (i : nat) (a b : str) : nat :=
  match a, b with
  | x :: a', y :: b' => if decide (x = y) then lcp_from (S i) a' b' else i
  | _, _ => i
  end.

Definition longestCommonPrefix (a b : str) : nat := lcp_from 0 a b.

(** The counting loop of [countParams]: [n] is the running [uint] counter
    (64 bits). *)
Fixpoint countParams_loop (pth : str) (n : Z) : Z :=
  match pth with
  | [] => n
  | c :: rest =>
      countParams_loop rest (if is_sigil c then ((n + 1) mod 2 ^ 64)%Z else n)
  end.

Definition countParams (pth : str) : Z :=
  let n := countParams_loop pth 0%Z in
  if decide (255 <= n)%Z then 255%Z else (n mod 2 ^ 8)%Z.

(** The inner loop of [findWildcard]: scans [rest], the path after the sigil, from
    offset [end_]; returns the offset of the first '/' (or [None] when the
    segment runs to the end of the path) and the [valid] flag. *)
Fixpoint findWildcard_end (rest : str) (end_ : nat) (valid : bool)
  : option nat * bool :=
  match rest with
  | [] => (None, valid)
  | c :: rest' =>
      if decide (c = slash) then (Some end_, valid)
      else if is_sigil c then findWildcard_end rest' (S end_) false
      else findWildcard_end rest' (S end_) valid
  end.

(** The outer loop of [findWildcard], at index [start] of the original
    path; [pth] is the part not yet scanned. *)
Fixpoint findWildcard_from (pth : str) (start : nat) : str * Z * bool :=
  match pth with
  | [] => ([], (-1)%Z, false)
  | c :: rest =>
      if is_sigil c then
        match findWildcard_end rest 0 true with
        | (Some end_, valid) => (c :: take end_ rest, Z.of_nat start, valid)
        | (None, valid) => (c :: rest, Z.of_nat start, valid)
        end
      else findWildcard_from rest (S start)
  end.

Definition findWildcard (pth : str) : str * Z * bool :=
  findWildcard_from pth 0.

(** ** Nodes (node.go:9-28) *)

Inductive nodeType := static | root | param | catchAll.

#[global] Instance nodeType_eq_dec : EqDecision nodeType.
Proof. solve_decision. Defined.

(** Handler functions are opaque to the router: they are only stored and
    returned.  A chain is a slice, which may be [nil] ([None]). *)
Definition HandlerFunc := nat.
Definition HandlersChain := option (list HandlerFunc).

Definition chain_len (h : HandlersChain) : nat :=
  match h with None => 0 | Some l => length l end.

Local Unset Elimination Schemes.
Inductive node := mkNode {
  path : str;
  indices : str;
  children : list node;
  handlers : HandlersChain;
  priority : Z;
  nType : nodeType;
  maxParams : Z;
  wildChild : bool;
  fullPath : str
}.
Local Set Elimination Schemes.

(** The zero value [node{}]. *)
Definition zeroNode : node := mkNode [] [] [] None 0 static 0 false [].

Definition set_path (v : str) (n : node) : node :=
  mkNode v (indices n) (children n) (handlers n) (priority n) (nType n)
    (maxParams n) (wildChild n) (fullPath n).
Definition set_indices (v : str) (n : node) : node :=
  mkNode (path n) v (children n) (handlers n) (priority n) (nType n)
    (maxParams n) (wildChild n) (fullPath n).
Definition set_children (v : list node) (n : node) : node :=
  mkNode (path n) (indices n) v (handlers n) (priority n) (nType n)
    (maxParams n) (wildChild n) (fullPath n).
Definition set_handlers (v : HandlersChain) (n : node) : node :=
  mkNode (path n) (indices n) (children n) v (priority n) (nType n)
    (maxParams n) (wildChild n) (fullPath n).
Definition set_priority (v : Z) (n : node) : node :=
  mkNode (path n) (indices n) (children n) (handlers n) v (nType n)
    (maxParams n) (wildChild n) (fullPath n).
Definition set_nType (v : nodeType) (n : node) : node :=
  mkNode (path n) (indices n) (children n) (handlers n) (priority n) v
    (maxParams n) (wildChild n) (fullPath n).
Definition set_maxParams (v : Z) (n : node) : node :=
  mkNode (path n) (indices n) (children n) (handlers n) (priority n) (nType n)
    v (wildChild n) (fullPath n).
Definition set_wildChild (v : bool) (n : node) : node :=
  mkNode (path n) (indices n) (children n) (handlers n) (priority n) (nType n)
    (maxParams n) v (fullPath n).
Definition set_fullPath (v : str) (n : node) : node :=
  mkNode (path n) (indices n) (children n) (handlers n) (priority n) (nType n)
    (maxParams n) (wildChild n) v.

(** [priority++] on a [uint32] and [numParams--] on a [uint8]. *)
Definition incr32 (p : Z) : Z := ((p + 1) mod 2 ^ 32)%Z.
Definition decr32 (p : Z) : Z := ((p - 1) mod 2 ^ 32)%Z.
Definition decr8 (p : Z) : Z := ((p - 1) mod 2 ^ 8)%Z.

Definition bump_priority (n : node) : node :=
  set_priority (incr32 (priority n)) n.

(** [if numParams > n.maxParams { n.maxParams = numParams }] *)
Definition raise_maxParams (numParams : Z) (n : node) : node :=
  if decide (maxParams n < numParams)%Z then set_maxParams numParams n else n.

(** Number of levels of a tree. *)
Fixpoint height (n : node) : nat :=
  S ((fix hs (l : list node) : nat :=
        match l with
        | [] => 0
        | c :: l' => Nat.max (height c) (hs l')
        end) (children n)).

(** ** Panics

    A registration error is a Go [panic].  The message texts are not
    modelled; each [panic] statement of the source has its own
    constructor, and run-time errors (index or slice bounds out of range)
    have [RuntimeError]. *)

Inductive panicKind :=
| WildcardConflict          (* node.go:134 *)
| HandlersAlreadyRegistered (* node.go:175 *)
| OneWildcardPerSegment     (* node.go:192 *)
| WildcardWithoutName       (* node.go:197 *)
| WildcardChildConflict     (* node.go:202 *)
| CatchAllNotAtEnd          (* node.go:244 *)
| CatchAllRootConflict      (* node.go:248 *)
| NoSlashBeforeCatchAll     (* node.go:254 *)
| InvalidNodeType           (* node.go:428 *)
| AssertionFailed (which : nat) (* web.go:157-159, assert1 *)
| RuntimeError.

Inductive status :=
| Done
| Panicked (k : panicKind)
| OutOfFuel.

#[global] Instance panicKind_eq_dec : EqDecision panicKind.
Proof. solve_decision. Defined.
#[global] Instance status_eq_dec : EqDecision status.
Proof. solve_decision. Defined.

(** ** insertChild (node.go:182-293)

    One call of [insertChild_loop] is one test of the loop condition
    [numParams > 0] followed by one loop body (or by the code after the
    loop).  The receiver [n] is returned updated. *)

Fixpoint insertChild_loop (fuel : nat) (n : node) (numParams : Z)
    (pth fullPth : str) (hs : HandlersChain) : node * status :=
  let finish :=
    (set_fullPath fullPth (set_handlers hs (set_path pth n)), Done) in
  if decide (0 < numParams)%Z then
    match fuel with
    | 0 => (n, OutOfFuel)
    | S fuel' =>
      let '(wildcard, i, valid) := findWildcard pth in
      if decide (i < 0)%Z then finish
      else if negb valid then (n, Panicked OneWildcardPerSegment)
      else if decide (length wildcard < 2) then (n, Panicked WildcardWithoutName)
      else if decide (0 < length (children n)) then
        (n, Panicked WildcardChildConflict)
      else if decide (wildcard !! 0 = Some colon) then
        (* param *)
        let '(n, pth) :=
          if decide (0 < i)%Z
          then (set_path (take (Z.to_nat i) pth) n, drop (Z.to_nat i) pth)
          else (n, pth) in
        let n := set_wildChild true n in
        let child :=
          mkNode wildcard [] [] None 0 param numParams false fullPth in
        let child := bump_priority child in
        let numParams := decr8 numParams in
        if decide (length wildcard < length pth) then
          let pth := drop (length wildcard) pth in
          let child2 := mkNode [] [] [] None 1 static numParams false fullPth in
          let '(child2, st) :=
            insertChild_loop fuel' child2 numParams pth fullPth hs in
          (set_children [set_children [child2] child] n, st)
        else
          (set_children [set_handlers hs child] n, Done)
      else
        (* catchAll *)
        if decide (i + Z.of_nat (length wildcard) <> Z.of_nat (length pth)
                   \/ 1 < numParams)%Z
        then (n, Panicked CatchAllNotAtEnd)
        else if decide (0 < length (path n)
                        /\ path n !! (length (path n) - 1) = Some slash)
        then (n, Panicked CatchAllRootConflict)
        else
          let i := (i - 1)%Z in
          if decide (i < 0)%Z then (n, Panicked RuntimeError)
          else if decide (pth !! Z.to_nat i <> Some slash)
          then (n, Panicked NoSlashBeforeCatchAll)
          else
            let n := set_path (take (Z.to_nat i) pth) n in
            let child := mkNode [] [] [] None 0 catchAll 1 true fullPth in
            let n := if decide (maxParams n < 1)%Z then set_maxParams 1 n else n in
            let n := set_indices [slash] n in
            let child := bump_priority child in
            let child2 :=
              mkNode (drop (Z.to_nat i) pth) [] [] hs 1 catchAll 1
                false fullPth in
            (set_children [set_children [child2] child] n, Done)
    end
  else finish.

Definition insertChild (n : node) (numParams : Z) (pth fullPth : str)
    (hs : HandlersChain) : node * status :=
  insertChild_loop (Z.to_nat numParams) n numParams pth fullPth hs.

(** ** incrementChildPrio (node.go:31-51) *)

(** The reordering loop: while [newPos > 0] and the left neighbour has a
    lower priority, swap the two. *)
Fixpoint bubble (cs : list node) (newPos : nat) (prio : Z) : list node * nat :=
  match newPos with
  | 0 => (cs, 0)
  | S p =>
      match cs !! p, cs !! S p with
      | Some a, Some b =>
          if decide (priority a < prio)%Z
          then bubble (<[p := b]> (<[S p := a]> cs)) p prio
          else (cs, S p)
      | _, _ => (cs, S p)
      end
  end.

(** Returns the updated node and the new position, or [None] for an index
    or slice bound out of range. *)
Definition incrementChildPrio (n : node) (pos : nat) : node * option nat :=
  match children n !! pos with
  | None => (n, None)
  | Some c =>
      let cs := <[pos := bump_priority c]> (children n) in
      let prio := incr32 (priority c) in
      let '(cs, newPos) := bubble cs pos prio in
      let n := set_children cs n in
      if decide (newPos <> pos) then
        let ind := indices n in
        if decide (pos + 1 <= length ind) then
          (set_indices (take newPos ind ++ take 1 (drop pos ind)
                        ++ drop newPos (take pos ind) ++ drop (pos + 1) ind) n,
           Some newPos)
        else (n, None)
      else (n, Some newPos)
  end.

(** ** addRoute (node.go:54-180) *)

(** The scan [for i := 0; i < len(indices); i++ { if c == indices[i] ... }]:
    the first position of [c]. *)
Fixpoint index_of (c : ascii) (ind : str) : option nat :=
  match ind with
  | [] => None
  | x :: ind' => if decide (c = x) then Some 0 else S <$> index_of c ind'
  end.

(** The split of an edge at offset [i] (node.go:79-104).  The flag is
    false when the slice [fullPath[:parentFullPathIndex+i]] is out of
    range. *)
Definition split (n : node) (i : nat) (pth fullPth : str)
    (parentFullPathIndex : nat) : node * bool :=
  let child :=
    mkNode (drop i (path n)) (indices n) (children n) (handlers n)
      (decr32 (priority n)) static 0 (wildChild n) (fullPath n) in
  let child :=
    foldl (fun ch v => if decide (maxParams ch < maxParams v)%Z
                       then set_maxParams (maxParams v) ch else ch)
      child (children child) in
  let n := set_children [child] n in
  let n := set_indices (take 1 (drop i (path n))) n in
  let n := set_path (take i pth) n in
  let n := set_handlers None n in
  let n := set_wildChild false n in
  if decide (parentFullPathIndex + i <= length fullPth)
  then (set_fullPath (take (parentFullPathIndex + i) fullPth) n, true)
  else (n, false).

(** The loop labelled [walk] is modelled in two parts.  [walk_below] is
    the body of an iteration from line 106 on, once the edge of the
    current node has been split at the common prefix of length [i]; a
    [continue walk] is the call of [self] on the child the cursor moves
    to, whose result replaces that child. *)
Definition walk_below (self : node -> str -> Z -> nat -> node * status)
    (n : node) (i : nat) (pth fullPth : str) (hs : HandlersChain)
    (numParams : Z) (parentFullPathIndex : nat) : node * status :=
  if decide (i < length pth) then
    let pth := drop i pth in
    if wildChild n then
      let parentFullPathIndex := parentFullPathIndex + length (path n) in
      match children n with
      | [] => (n, Panicked RuntimeError)
      | c :: cs =>
          let c := bump_priority c in
          let c := raise_maxParams numParams c in
          let numParams := decr8 numParams in
          if decide (length (path c) <= length pth
                     /\ path c = take (length (path c)) pth
                     /\ (length pth <= length (path c)
                         \/ pth !! length (path c) = Some slash))
          then
            let '(c, st) := self c pth numParams parentFullPathIndex in
            (set_children (c :: cs) n, st)
          else (set_children (c :: cs) n, Panicked WildcardConflict)
      end
    else
      match pth with
      | [] => (n, Panicked RuntimeError)
      | c :: _ =>
        if decide (nType n = param /\ c = slash /\ length (children n) = 1)
        then
          let parentFullPathIndex := parentFullPathIndex + length (path n) in
          match children n with
          | [] => (n, Panicked RuntimeError)
          | ch :: cs =>
              let ch := bump_priority ch in
              let '(ch, st) := self ch pth numParams parentFullPathIndex in
              (set_children (ch :: cs) n, st)
          end
        else
          match index_of c (indices n) with
          | Some k =>
              let parentFullPathIndex :=
                parentFullPathIndex + length (path n) in
              let '(n, r) := incrementChildPrio n k in
              match r with
              | None => (n, Panicked RuntimeError)
              | Some k =>
                  match children n !! k with
                  | None => (n, Panicked RuntimeError)
                  | Some ch =>
                      let '(ch, st) :=
                        self ch pth numParams parentFullPathIndex in
                      (set_children (<[k := ch]> (children n)) n, st)
                  end
              end
          | None =>
              if negb (is_sigil c) then
                let n := set_indices (indices n ++ [c]) n in
                let child :=
                  mkNode [] [] [] None 0 static numParams false fullPth in
                let n := set_children (children n ++ [child]) n in
                let pos := length (indices n) - 1 in
                let '(n, r) := incrementChildPrio n pos in
                match r with
                | None => (n, Panicked RuntimeError)
                | Some newPos =>
                    (* where the pointer [child] now lives *)
                    let k := if decide (pos = length (children n) - 1)
                             then newPos else length (children n) - 1 in
                    match children n !! k with
                    | None => (n, Panicked RuntimeError)
                    | Some ch =>
                        let '(ch, st) :=
                          insertChild ch numParams pth fullPth hs in
                        (set_children (<[k := ch]> (children n)) n, st)
                    end
                end
              else insertChild n numParams pth fullPth hs
          end
      end
  else if decide (handlers n <> None)
  then (n, Panicked HandlersAlreadyRegistered)
  else (set_handlers hs n, Done).

(** One call of [walk] is one iteration of the loop: lines 70-104, then
    [walk_below]. *)
Fixpoint walk (fuel : nat) (n : node) (pth fullPth : str) (hs : HandlersChain)
    (numParams : Z) (parentFullPathIndex : nat) : node * status :=
  match fuel with
  | 0 => (n, OutOfFuel)
  | S fuel' =>
    let n := raise_maxParams numParams n in
    let i := longestCommonPrefix pth (path n) in
    let '(n, ok) :=
      if decide (i < length (path n))
      then split n i pth fullPth parentFullPathIndex
      else (n, true) in
    if negb ok then (n, Panicked RuntimeError)
    else
      walk_below (fun c p k f => walk fuel' c p fullPth hs k f)
        n i pth fullPth hs numParams parentFullPathIndex
  end.

Definition addRoute (n : node) (pth : str) (hs : HandlersChain)
  : node * status :=
  let fullPth := pth in
  let n := bump_priority n in
  let numParams := countParams pth in
  if decide (length (path n) = 0 /\ length (children n) = 0) then
    let '(n, st) := insertChild n numParams pth fullPth hs in
    match st with
    | Done => (set_nType root n, Done)
    | _ => (n, st)
    end
  else walk (S (S (height n))) n pth fullPth hs numParams 0.

(** ** Lookup results (node.go:295-301) *)

Record Param := mkParam { Key : str; Value : str }.

(** A [Params] slice: its elements and the capacity of its backing array.
    [nil] is [mkParams [] 0]. *)
Record Params := mkParams { elems : list Param; cap : nat }.

Record nodeValue := mkValue {
  v_handlers : HandlersChain;
  v_params : Params;
  v_tsr : bool;
  v_fullPath : str
}.

Inductive outcome (A : Type) :=
| Ret (a : A)
| Crash (k : panicKind).
Arguments Ret {A} a.
Arguments Crash {A} k.

Definition set_v_handlers (h : HandlersChain) (v : nodeValue) : nodeValue :=
  mkValue h (v_params v) (v_tsr v) (v_fullPath v).
Definition set_v_params (p : Params) (v : nodeValue) : nodeValue :=
  mkValue (v_handlers v) p (v_tsr v) (v_fullPath v).
Definition set_v_tsr (b : bool) (v : nodeValue) : nodeValue :=
  mkValue (v_handlers v) (v_params v) b (v_fullPath v).
Definition set_v_fullPath (f : str) (v : nodeValue) : nodeValue :=
  mkValue (v_handlers v) (v_params v) (v_tsr v) f.

Definition not_nil (h : HandlersChain) : bool :=
  match h with Some _ => true | None => false end.

(** ** getValue (node.go:305-438) *)

(** [pick f cs i] is [f] applied to [cs[i]], when there is one. *)
Definition pick {A} (f : node -> A) : list node -> nat -> option A :=
  fix go cs i :=
    match cs with
    | [] => None
    | c :: cs' => match i with 0 => Some (f c) | S i' => go cs' i' end
    end.

(** The scan for the end of a parameter value: the first '/' or the end
    of the path. *)
Fixpoint param_end (pth : str) (end_ : nat) : nat :=
  match pth with
  | [] => end_
  | c :: rest => if decide (c = slash) then end_ else param_end rest (S end_)
  end.

Section Lookup.

(** [url.QueryUnescape] of the Go library; [None] is an error. *)
Variable QueryUnescape : str -> option str.

(** Appends one parameter to [value.params] (node.go:366-380 and
    408-421): allocation when the capacity is below [maxParams], extension
    of the slice by one within its capacity, then the two field writes.
    [key] is [None] when the slice of [n.path] that yields the key is out
    of range. *)
Definition save_param (n : node) (key : option str) (val : str)
    (value : nodeValue) (unescape : bool) : outcome nodeValue :=
  let ps := v_params value in
  let ps := if decide (cap ps < Z.to_nat (maxParams n))
            then mkParams [] (Z.to_nat (maxParams n)) else ps in
  let i := length (elems ps) in
  if decide (cap ps < i + 1) then Crash RuntimeError
  else
    match key with
    | None => Crash RuntimeError
    | Some key =>
        let v := if unescape
                 then match QueryUnescape val with
                      | Some v => v
                      | None => val
                      end
                 else val in
        Ret (set_v_params (mkParams (elems ps ++ [mkParam key v]) (cap ps)) value)
    end.

(** [s[k:]], or [None] when [k] is beyond the length. *)
Definition slice_from (k : nat) (s : str) : option str :=
  if decide (k <= length s) then Some (drop k s) else None.

(** One iteration of the loop labelled [walk]; [self] stands for the
    following iterations, at the child the cursor moves to. *)
Definition getValue_step
    (self : node -> str -> nodeValue -> bool -> outcome nodeValue)
    (n : node) (pth : str) (value : nodeValue) (unescape : bool)
  : outcome nodeValue :=
  let prefix := path n in
  if decide (pth = prefix) then
    let value := set_v_handlers (handlers n) value in
    if not_nil (v_handlers value) then Ret (set_v_fullPath (fullPath n) value)
    else if decide (pth = [slash] /\ wildChild n = true /\ nType n <> root)
    then Ret (set_v_tsr true value)
    else
      match index_of slash (indices n) with
      | Some i =>
          match children n !! i with
          | None => Crash RuntimeError
          | Some c =>
              if bool_decide (length (path c) = 1) && not_nil (handlers c)
              then Ret (set_v_tsr true value)
              else if decide (nType c = catchAll) then
                match children c with
                | [] => Crash RuntimeError
                | c0 :: _ => Ret (set_v_tsr (not_nil (handlers c0)) value)
                end
              else Ret (set_v_tsr false value)
          end
      | None => Ret value
      end
  else if decide (length prefix < length pth /\ take (length prefix) pth = prefix)
  then
    let pth := drop (length prefix) pth in
    if negb (wildChild n) then
      match pth with
      | [] => Crash RuntimeError
      | c :: _ =>
          match index_of c (indices n) with
          | Some i =>
              match pick self (children n) i with
              | None => Crash RuntimeError
              | Some continue => continue pth value unescape
              end
          | None =>
              Ret (set_v_tsr (bool_decide (pth = [slash]) && not_nil (handlers n))
                     value)
          end
      end
    else
      match children n with
      | [] => Crash RuntimeError
      | n :: _ =>
          match nType n with
          | param =>
              let end_ := param_end pth 0 in
              match save_param n (slice_from 1 (path n)) (take end_ pth)
                      value unescape with
              | Crash k => Crash k
              | Ret value =>
                  if decide (end_ < length pth) then
                    if decide (0 < length (children n)) then
                      match pick self (children n) 0 with
                      | None => Crash RuntimeError
                      | Some continue => continue (drop end_ pth) value unescape
                      end
                    else
                      Ret (set_v_tsr (bool_decide (length pth = end_ + 1)) value)
                  else
                    let value := set_v_handlers (handlers n) value in
                    if not_nil (v_handlers value)
                    then Ret (set_v_fullPath (fullPath n) value)
                    else
                      match children n with
                      | [c] =>
                          Ret (set_v_tsr (bool_decide (path c = [slash])
                                          && not_nil (handlers c)) value)
                      | _ => Ret value
                      end
              end
          | catchAll =>
              match save_param n (slice_from 2 (path n)) pth value unescape with
              | Crash k => Crash k
              | Ret value =>
                  Ret (set_v_fullPath (fullPath n)
                         (set_v_handlers (handlers n) value))
              end
          | _ => Crash InvalidNodeType
          end
      end
  else
    Ret (set_v_tsr
           (bool_decide (pth = [slash])
            || (bool_decide (length prefix = length pth + 1)
                && bool_decide (prefix !! length pth = Some slash)
                && bool_decide (pth = take (length prefix - 1) prefix)
                && not_nil (handlers n)))
           value).

Fixpoint getValue_walk (n : node) (pth : str) (value : nodeValue)
    (unescape : bool) {struct n} : outcome nodeValue :=
  getValue_step getValue_walk n pth value unescape.

Definition getValue (n : node) (pth : str) (po : Params) (unescape : bool)
  : outcome nodeValue :=
  getValue_walk n pth (mkValue None po false []) unescape.

End Lookup.

(** ** The registry entry point (web.go:156-169) *)

Record methodTree := mkMethodTree { method : str; tree_root : node }.
Definition methodTrees := list methodTree.

(** Of the fields of [Centre] only [trees] is read or written by
    [addRoute]. *)
Record Centre := mkCentre { trees : methodTrees }.

(** [New()] (web.go:46-70): no tree yet. *)
Definition New : Centre := mkCentre [].

(** Modelled from the spec: [methodTrees.get] is not among the sources; the
    specification (section 4.1) describes it as a simple linear scan over
    the (method, root) pairs.  The position of the first tree of the
    method is returned, since the caller mutates the root it obtains. *)
Fixpoint get (ts : methodTrees) (m : str) : option (nat * node) :=
  match ts with
  | [] => None
  | t :: ts' =>
      if decide (method t = m) then Some (0, tree_root t)
      else (fun '(k, r) => (S k, r)) <$> get ts' m
  end.

(** [root = new(node); root.fullPath = "/"] *)
Definition newTree : node := set_fullPath [slash] zeroNode.

(** [debugPrintRoute] only prints, and is left out. *)
Definition Centre_addRoute (centre : Centre) (m pth : str) (hs : HandlersChain)
  : Centre * status :=
  match pth with
  | [] => (centre, Panicked RuntimeError)
  | c :: _ =>
      if decide (c <> slash) then (centre, Panicked (AssertionFailed 1))
      else if decide (m = []) then (centre, Panicked (AssertionFailed 2))
      else if decide (~ 0 < chain_len hs)
      then (centre, Panicked (AssertionFailed 3))
      else
        let '(k, r, ts) :=
          match get (trees centre) m with
          | Some (k, r) => (k, r, trees centre)
          | None =>
              (length (trees centre), newTree,
               trees centre ++ [mkMethodTree m newTree])
          end in
        let '(r, st) := addRoute r pth hs in
        (mkCentre (<[k := mkMethodTree m r]> ts), st)
  end.

(** ** Specification-side notions *)

(** The number of ':' and '*' bytes of a pattern. *)
Fixpoint count_sigils (pth : str) : nat :=
  match pth with
  | [] => 0
  | c :: rest => (if is_sigil c then 1 else 0) + count_sigils rest
  end.

(** The handler chain a lookup returned, if it returned. *)
Definition found_handlers (r : outcome nodeValue) : option HandlersChain :=
  match r with
  | Ret v => Some (v_handlers v)
  | Crash _ => None
  end.

(** A text without '/'. *)
Definition no_slash (v : str) : Prop := Forall (fun c => c <> slash) v.

(** The text up to the next '/' (or to the end). *)
Fixpoint segment (s : str) : str :=
  match s with
  | [] => []
  | c :: rest => if decide (c = slash) then [] else c :: segment rest
  end.

(** The captures of a pattern, left to right: each ':' or '*' outside a
    capture name opens a capture, whose name runs to the next '/' or to
    the end.  [in_name] tells that the scan is inside a capture name. *)
Fixpoint captures_go (in_name : bool) (p : str) : list (ascii * str) :=
  match p with
  | [] => []
  | c :: rest =>
      if in_name then captures_go (negb (bool_decide (c = slash))) rest
      else if is_sigil c then (c, segment rest) :: captures_go true rest
      else captures_go false rest
  end.

Definition captures (p : str) : list (ascii * str) := captures_go false p.

(** The concrete path obtained by writing the values [vals], in order, in
    place of the captures (sigil and name) of the pattern. *)
Fixpoint substitute_go (in_name : bool) (p : str) (vals : list str) : str :=
  match p with
  | [] => []
  | c :: rest =>
      if in_name then
        if decide (c = slash) then c :: substitute_go false rest vals
        else substitute_go true rest vals
      else if is_sigil c then
        match vals with
        | v :: vs => v ++ substitute_go true rest vs
        | [] => substitute_go true rest []
        end
      else c :: substitute_go false rest vals
  end.

Definition substitute (p : str) (vals : list str) : str :=
  substitute_go false p vals.

(** A substitution fits a pattern when it has one value per capture and
    the value of every ':' capture is non-empty and free of '/'. *)
Definition values_ok (p : str) (vals : list str) : Prop :=
  Forall2 (fun cap v => cap.1 = colon -> v <> [] /\ no_slash v)
    (captures p) vals.

(** What [getValue] stores for a captured text: the text itself, or its
    decoding when [unescape] is set and the decoding succeeds. *)
Definition stored (qu : str -> option str) (unescape : bool) (val : str) : str :=
  if unescape then match qu val with Some v => v | None => val end else val.

(** The parameters a lookup of the substituted path is to produce: one
    per capture, in order; a catch-all captures the '/' in front of it
    together with its value. *)
Definition expected_params (qu : str -> option str) (unescape : bool)
    (p : str) (vals : list str) : list Param :=
  zip_with
    (fun cap v =>
       mkParam cap.2
         (stored qu unescape (if decide (cap.1 = star) then slash :: v else v)))
    (captures p) vals.

(** What follows the segment: nothing, or a text starting with '/'. *)
Definition after (s : str) : str := drop (length (segment s)) s.

(** A parameter buffer has room for [k] more parameters when it is empty
    (it is then replaced if too small) or has [k] free slots. *)
Definition room (value : nodeValue) (k : nat) : Prop :=
  elems (v_params value) = []
  \/ length (elems (v_params value)) + k <= cap (v_params value).

(** The capacity of the buffer after a lookup that saved up to [k]
    parameters. *)
Definition grown (value : nodeValue) (k : nat) : nat :=
  if decide (cap (v_params value) < k) then k else cap (v_params value).

(** ** Properties of every node of a tree *)

(** [tree_all P n]: [P] holds of [n] and of all its descendants. *)
Fixpoint tree_all (P : node -> Prop) (n : node) : Prop :=
  P n /\ (fix go (l : list node) : Prop :=
            match l with
            | [] => True
            | c :: l' => tree_all P c /\ go l'
            end) (children n).
Arguments tree_all P n : simpl never.

(** A chain is acceptable at a node when it is absent or non-empty. *)
Definition chain_ok (h : HandlersChain) : Prop := h <> Some [].
Definition handlers_ok (n : node) : Prop := chain_ok (handlers n).

(** The registries that a program can build: [New()] followed by any
    calls of [addRoute], failed ones included (a recovered panic leaves
    the mutations done before it). *)
Inductive registered : Centre -> Prop :=
| registered_New : registered New
| registered_addRoute c m p h :
    registered c -> registered (fst (Centre_addRoute c m p h)).

Definition termini_nonempty (c : Centre) : Prop :=
  Forall (fun t => tree_all handlers_ok (tree_root t)) (trees c).

(** ** The shape of a tree: indices, children and wildcard children *)

(** The element at [pos] moved to [newPos <= pos], the elements in between
    shifted right by one: the formula of [incrementChildPrio] for the
    index string. *)
Definition move {A} (l : list A) (pos newPos : nat) : list A :=
  take newPos l ++ take 1 (drop pos l) ++ drop newPos (take pos l)
  ++ drop (pos + 1) l.

Definition index_for (c : node) : ascii :=
  match path c with
  | [] => slash
  | b :: _ => b
  end.

Definition wild_type (c : node) : Prop := nType c = param \/ nType c = catchAll.

Definition plain_child (c : node) : Prop :=
  nType c <> param /\ (nType c = catchAll -> path c = [])
  /\ count_sigils (path c) = 0.

Definition node_inv (n : node) : Prop :=
  if wildChild n
  then exists c, children n = [c] /\ wild_type c /\ count_sigils (path c) = 1
  else Forall plain_child (children n)
       /\ if decide (nType n = param)
          then length (children n) <= 1
               /\ Forall (fun c => index_for c = slash) (children n)
               /\ (indices n = [] \/ indices n = index_for <$> children n)
          else indices n = index_for <$> children n.

(** [c'] shows its parent the same face as [c]. *)
Definition same_face (c c' : node) : Prop :=
  nType c' = nType c /\ index_for c' = index_for c
  /\ count_sigils (path c') = count_sigils (path c)
  /\ (nType c = catchAll -> path c' = path c).

(** [n'] differs from [n] in no field that the invariant reads. *)
Definition same_shape (n n' : node) : Prop :=
  path n' = path n /\ indices n' = indices n /\ children n' = children n
  /\ nType n' = nType n /\ wildChild n' = wildChild n.

Definition walk_pre (n : node) (pth : str) (numParams : Z) : Prop :=
  (wild_type n ->
   take (length (path n)) pth = path n
   /\ (length pth <= length (path n) \/ pth !! length (path n) = Some slash))
  /\ (~ wild_type n -> count_sigils (path n) = 0)
  /\ count_sigils pth <= 255
  /\ Z.of_nat (count_sigils pth) = (numParams + Z.of_nat (count_sigils (path n)))%Z.

Definition walk_post (n n' : node) (pth : str) : Prop :=
  tree_all node_inv n' /\ nType n' = nType n
  /\ count_sigils (path n') = count_sigils (path n)
  /\ (wild_type n -> path n' = path n)
  /\ (path n = [] \/ head (path n) = head pth -> index_for n' = index_for n).

(** What the claim reads off a node, amended: without wildcard child the
    index string lists the first byte of each child's path, a child with
    an empty path counting as '/'; a parameter node has at most one child
    and may leave it unindexed. *)
Definition indices_ok (n : node) : Prop :=
  if wildChild n
  then exists c, children n = [c] /\ (nType c = param \/ nType c = catchAll)
  else if decide (nType n = param)
       then length (children n) <= 1
            /\ (indices n = [] \/ indices n = index_for <$> children n)
       else indices n = index_for <$> children n.

(** The invariant as the specification words it. *)
Definition indices_strict (n : node) : Prop :=
  if wildChild n
  then exists c, children n = [c] /\ (nType c = param \/ nType c = catchAll)
  else length (indices n) = length (children n)
       /\ forall i c, children n !! i = Some c -> indices n !! i = head (path c).

(** The trees built by successful registrations of patterns with at most
    255 captures. *)
Inductive built : node -> Prop :=
| built_new : built newTree
| built_add n p h n' :
    built n -> count_sigils p <= 255 -> addRoute n p h = (n', Done) ->
    built n'.

Definition root_inv (n : node) : Prop :=
  tree_all node_inv n /\ ~ wild_type n /\ count_sigils (path n) = 0.

Definition node_ind' (P : node -> Prop)
    (H : forall n, Forall P (children n) -> P n) : forall n, P n :=
  fix IH (n : node) : P n :=
    H n ((fix go (l : list node) : Forall P l :=
            match l with
            | [] => List.Forall_nil P
            | c :: l' => List.Forall_cons P c l' (IH c) (go l')
            end) (children n)).


(** ** Notions for the lookups of trees with several routes *)

(** What a lookup finds: a handler chain and the captured texts, without
    the parameter buffer, the decoding and the trailing-slash hint. *)
Definition hit : Type := list HandlerFunc * list Param.

(** The switch on the wildcard child (node.go:359-425). *)
Definition find_wild (self : node -> str -> option hit) (n : node) (pth : str)
  : option hit :=
  match nType n with
  | param =>
      let end_ := param_end pth 0 in
      match slice_from 1 (path n) with
      | None => None
      | Some key =>
          let sub :=
            if decide (end_ < length pth) then
              match pick self (children n) 0 with
              | Some continue => continue (drop end_ pth)
              | None => None
              end
            else
              match handlers n with
              | Some h => Some (h, [])
              | None => None
              end in
          match sub with
          | Some (h, ps) => Some (h, mkParam key (take end_ pth) :: ps)
          | None => None
          end
      end
  | catchAll =>
      match slice_from 2 (path n), handlers n with
      | Some key, Some h => Some (h, [mkParam key pth])
      | _, _ => None
      end
  | _ => None
  end.

(** A step of the lookup (node.go:305-438), without the buffer. *)
Definition find_step (self : node -> str -> option hit) (n : node) (pth : str)
  : option hit :=
  if decide (pth = path n) then
    match handlers n with
    | Some h => Some (h, [])
    | None => None
    end
  else if decide (length (path n) < length pth
                  /\ take (length (path n)) pth = path n)
  then
    let pth := drop (length (path n)) pth in
    if negb (wildChild n) then
      match pth with
      | [] => None
      | c :: _ =>
          match index_of c (indices n) with
          | Some i =>
              match pick self (children n) i with
              | Some continue => continue pth
              | None => None
              end
          | None => None
          end
      end
    else
      match children n with
      | [] => None
      | c :: _ => find_wild self c pth
      end
  else None.

Fixpoint find (n : node) (pth : str) {struct n} : option hit :=
  find_step find n pth.

(** [n'] finds whatever [n] finds. *)
Definition sim (n n' : node) : Prop :=
  forall q r, find n q = Some r -> find n' q = Some r.

Definition simW (c c' : node) : Prop :=
  forall q r, find_wild find c q = Some r -> find_wild find c' q = Some r.

(** A node that holds a capture. *)
Definition capt (n : node) : Prop := count_sigils (path n) <> 0.

(** The largest number of capture nodes on a way down from [n]. *)
Fixpoint wdepth (n : node) : nat :=
  (if decide (count_sigils (path n) = 0) then 0 else 1)
  + (fix go (l : list node) : nat :=
       match l with
       | [] => 0
       | c :: l' => Nat.max (wdepth c) (go l')
       end) (children n).

(** No capture node of the tree asks for a buffer larger than [B]. *)
Definition bounded (B : nat) (n : node) : Prop :=
  tree_all (fun d => capt d -> Z.to_nat (maxParams d) <= B) n.

(** A capture node asks for a buffer that holds every capture below it,
    and no capture node below it asks for more. *)
Definition cap_inv (n : node) : Prop :=
  capt n ->
  wdepth n <= Z.to_nat (maxParams n) /\ bounded (Z.to_nat (maxParams n)) n.

(** The buffer is empty, or large enough for the lookup below [n] never
    to replace it or to run over its end. *)
Definition fits (n : node) (value : nodeValue) : Prop :=
  elems (v_params value) = []
  \/ (bounded (cap (v_params value)) n
      /\ length (elems (v_params value)) + wdepth n <= cap (v_params value)).

(** A captured text as [getValue] stores it. *)
Definition decoded (qu : str -> option str) (ue : bool) (p : Param) : Param :=
  mkParam (Key p) (stored qu ue (Value p)).

(** What [find] finds, [getValue] returns, in a buffer that fits. *)
Definition returns (qu : str -> option str) (ue : bool)
    (n : node) (q : str) (value : nodeValue) (r : hit) : Prop :=
  exists v', getValue_walk qu n q value ue = Ret v'
             /\ v_handlers v' = Some r.1
             /\ elems (v_params v')
                = elems (v_params value) ++ (decoded qu ue <$> r.2).

(** The captured texts a lookup of the substituted path is to find. *)
Definition raw_params (p : str) (vals : list str) : list Param :=
  zip_with
    (fun cap v => mkParam cap.2 (if decide (cap.1 = star) then slash :: v else v))
    (captures p) vals.

(** No '/' follows a '*': a catch-all ends the pattern. *)
Fixpoint star_last (p : str) : Prop :=
  match p with
  | [] => True
  | c :: rest => (c = star -> no_slash rest) /\ star_last rest
  end.

(** The path of a capture node: ':' and a name for a parameter, "/*" and a
    name for a catch-all. *)
Definition shape_capt (n : node) : Prop :=
  (nType n = param
   /\ exists nm, path n = colon :: nm /\ no_slash nm /\ count_sigils nm = 0)
  \/ (nType n = catchAll
      /\ exists nm, path n = slash :: star :: nm /\ no_slash nm
                    /\ count_sigils nm = 0).

Definition sem_inv (n : node) : Prop :=
  (nType n = param -> capt n)
  /\ (capt n -> wildChild n = false /\ shape_capt n)
  /\ cap_inv n
  /\ (wildChild n = true -> indices n = [])
  /\ (nType n = catchAll -> ~ capt n -> wildChild n = true).

(** [n'] is [m] with other indices and children. *)
Definition same_but (m n' : node) : Prop :=
  path n' = path m /\ handlers n' = handlers m /\ nType n' = nType m
  /\ wildChild n' = wildChild m /\ maxParams n' = maxParams m.

(** What the loop of [addRoute] keeps of the buffer sizes, at a node
    entered with the pattern [pth] left. *)
Definition cap_post (n n' : node) (pth : str) : Prop :=
  tree_all sem_inv n'
  /\ (forall B, bounded B n -> count_sigils pth <= B -> bounded B n')
  /\ wdepth n' <= Nat.max (wdepth n) (count_sigils pth).

(** 1 for a capture node, 0 for another. *)
Definition cw (n : node) : nat :=
  if decide (count_sigils (path n) = 0) then 0 else 1.

(** Two nodes with the same path, type, wildcard flag and children, and
    the same [maxParams] if they hold a capture. *)
Definition cap_alike (n n' : node) : Prop :=
  path n' = path n /\ nType n' = nType n /\ wildChild n' = wildChild n
  /\ children n' = children n /\ (capt n -> maxParams n' = maxParams n)
  /\ indices n' = indices n.

(** What a child of the rebuilt node owes to the node [m] it hangs
    from, when [cnt] captures of the pattern are left below [m]. *)
Definition child_ok (m : node) (cnt : nat) (c : node) : Prop :=
  tree_all sem_inv c
  /\ (forall B, bounded B m -> cnt <= B -> bounded B c)
  /\ cw m + wdepth c <= Nat.max (wdepth m) (cw m + cnt).

(** The child a byte selects: the child at the first position of the
    byte in the index string. *)
Definition child_at (ind : str) (cs : list node) (x : ascii) : option node :=
  match index_of x ind with
  | Some i => cs !! i
  | None => None
  end.

(** What a lookup does at a node: [find] for a node entered by its path,
    the switch on the wildcard child for a capture node. *)
Definition probe (n : node) (q : str) : option hit :=
  if decide (count_sigils (path n) = 0) then find n q else find_wild find n q.

(** What the loop of [addRoute] does to the lookups, at a node entered
    with the pattern [pth] left: the node finds what it found, and it
    finds the new route. *)
Definition pr_post (hs : HandlersChain) (n n' : node) (pth : str) : Prop :=
  count_sigils (path n') = count_sigils (path n)
  /\ (forall q r, probe n q = Some r -> probe n' q = Some r)
  /\ (forall h vals, hs = Some h -> star_last pth -> values_ok pth vals ->
        probe n' (substitute pth vals) = Some (h, raw_params pth vals)).

(** A root that is not an empty tree that holds handlers. *)
Definition root_live (n : node) : Prop :=
  handlers n = None \/ path n <> [] \/ children n <> [].

(** The trees built by successful registrations of non-empty patterns
    with at most 255 captures, with the routes they hold. *)
Inductive built_with : list (str * list HandlerFunc) -> node -> Prop :=
| built_with_new : built_with [] newTree
| built_with_add rs n p h n' :
    built_with rs n -> p <> [] -> count_sigils p <= 255 ->
    addRoute n p (Some h) = (n', Done) ->
    built_with ((p, h) :: rs) n'.

(** ** Examples *)

(** The pattern with [k] parameters "/:a/:a/.../:a". *)
Definition many (k : nat) : str := concat (replicate k (B "/:a")).

(** ** The list of routes (web.go:172-197, unnamed/part_001) *)

(** [HandlersChain.Last] (unnamed/part_001:10-15): the last handler of a
    chain, [nil] for an empty one. *)
Definition Last (c : HandlersChain) : option HandlerFunc :=
  match c with
  | Some l => if decide (0 < length l) then l !! (length l - 1) else None
  | None => None
  end.

(** [Route] (unnamed/part_001:18-23); the field [HandlerFunc] is named
    [Route_HandlerFunc] here, [HandlerFunc] being the type. *)
Record Route := mkRoute {
  Method : str;
  Path : str;
  Handler : str;
  Route_HandlerFunc : option HandlerFunc
}.

(** [iterate] (web.go:179-197).  [nameOfFunction], which reads the name
    of a function through [reflect] and [runtime], is a parameter. *)
Fixpoint iterate (nameOfFunction : option HandlerFunc -> str)
    (pth method : str) (routes : list Route) (root : node) {struct root}
  : list Route :=
  let pth := pth ++ path root in
  let routes :=
    if decide (0 < chain_len (handlers root)) then
      let handlerFunc := Last (handlers root) in
      routes ++ [mkRoute method pth (nameOfFunction handlerFunc) handlerFunc]
    else routes in
  foldl (fun routes child => iterate nameOfFunction pth method routes child)
    routes (children root).

(** [Centre.Routes] (web.go:172-177). *)
Definition Routes (nameOfFunction : option HandlerFunc -> str)
    (centre : Centre) : list Route :=
  foldl (fun routes tree =>
           iterate nameOfFunction [] (method tree) routes (tree_root tree))
    [] (trees centre).

(** The nodes that hold handlers, each with the concatenation of the paths
    from the root to it. *)
Fixpoint termini (pre : str) (n : node) : list (str * list HandlerFunc) :=
  match handlers n with
  | Some h => [(pre ++ path n, h)]
  | None => []
  end
  ++ (fix go (l : list node) : list (str * list HandlerFunc) :=
        match l with
        | [] => []
        | c :: l' => termini (pre ++ path n) c ++ go l'
        end) (children n).

(** The route that a registration adds below the prefix [pre]. *)
Definition new_route (pre pth : str) (hs : HandlersChain)
  : list (str * list HandlerFunc) :=
  match hs with
  | Some h => [(pre ++ pth, h)]
  | None => []
  end.

(** What the loop of [addRoute] does to the routes of a node entered
    with the pattern [pth] left: one route more. *)
Definition rt_post (hs : HandlersChain) (n n' : node) (pth : str) : Prop :=
  forall pre, termini pre n' ≡ₚ termini pre n ++ new_route pre pth hs.

(** The route held by the node itself. *)
Definition here (pre : str) (n : node) : list (str * list HandlerFunc) :=
  new_route pre (path n) (handlers n).

(** The entry of [Routes] for a pattern registered with a chain. *)
Definition route_of (nameOfFunction : option HandlerFunc -> str) (m : str)
    (r : str * list HandlerFunc) : Route :=
  mkRoute m r.1 (nameOfFunction (Last (Some r.2))) (Last (Some r.2)).

(** The registries built from [New()] by successful calls of
    [Centre.addRoute] with patterns of at most 255 captures, with the
    routes they hold (method, pattern, chain), the last one first. *)
Inductive serving : list (str * (str * list HandlerFunc)) -> Centre -> Prop :=
| serving_New : serving [] New
| serving_add rs c m p h c' :
    serving rs c -> count_sigils p <= 255 ->
    Centre_addRoute c m p (Some h) = (c', Done) ->
    serving ((m, (p, h)) :: rs) c'.

(** The entries of [iterate] for the nodes that hold a non-empty chain. *)
Definition listed (nameOfFunction : option HandlerFunc -> str) (m : str)
    (l : list (str * list HandlerFunc)) : list Route :=
  route_of nameOfFunction m <$> filter (fun r => r.2 <> []) l.

(** ** Parameters by name (unnamed/part_006) *)

(** The loop of [Params.Get] (unnamed/part_006:13-20): the value of the
    first entry with the key. *)
Fixpoint Get_from (ps : list Param) (name : str) : str * bool :=
  match ps with
  | [] => ([], false)
  | entry :: ps' =>
      if decide (Key entry = name) then (Value entry, true)
      else Get_from ps' name
  end.

(** [Params.Get]. *)
Definition Get (ps : Params) (name : str) : str * bool :=
  Get_from (elems ps) name.

(** [Params.ByName] (unnamed/part_006:23-26). *)
Definition ByName (ps : Params) (name : str) : str := fst (Get ps name).

(** ** Serving a request (web.go:263-342) *)

(** The fields of [Centre] (web.go:25-43) that [handleHTTPRequest] reads
    besides [trees]; they are kept in a record of their own, [Centre]
    above holding what [addRoute] reads and writes. *)
Record Settings := mkSettings {
  RedirectTrailingSlash : bool;
  HandleMethodNotAllowed : bool;
  UseRawPath : bool;
  UnescapePathValues : bool;
  RemoveExtraSlash : bool;
  allNoRoute : HandlersChain;
  allNoMethod : HandlersChain
}.

(** The fields of the request that [handleHTTPRequest] reads. *)
Record Request := mkRequest {
  Request_Method : str;
  URL_Path : str;
  URL_RawPath : str
}.

(** What [handleHTTPRequest] does with the context: it sets the chain,
    the parameters and the full path of the route found and runs the
    chain ([c.Next()], web.go:308-313); or it calls
    [redirectTrailingSlash] (web.go:317); or it returns with nothing done
    (web.go:320); or it sets the chain of the error and calls
    [serveError] with the status code (web.go:334-341).  What the
    handlers and the writer do then is outside the router. *)
Inductive served :=
| Handled (handlers : HandlersChain) (params : Params) (fullPath : str)
| Redirected
| Ignored
| Failed (code : nat) (handlers : HandlersChain).

Definition StatusMethodNotAllowed : nat := 405.
Definition StatusNotFound : nat := 404.

Section Serve.
Variable QueryUnescape : str -> option str.
Variable cleanPath : str -> str.
Variable cfg : Settings.

(** The first loop of [handleHTTPRequest] (web.go:300-326); [None] when
    the loop is left for the code after it. *)
Fixpoint serve_method (t : methodTrees) (httpMethod rPath : str)
    (params : Params) (unescape : bool) : outcome (option served) :=
  match t with
  | [] => Ret None
  | tr :: t' =>
      if decide (method tr <> httpMethod)
      then serve_method t' httpMethod rPath params unescape
      else
        match getValue QueryUnescape (tree_root tr) rPath params unescape with
        | Crash k => Crash k
        | Ret value =>
            if not_nil (v_handlers value) then
              Ret (Some (Handled (v_handlers value) (v_params value)
                           (v_fullPath value)))
            else if decide (httpMethod <> B "CONNECT" /\ rPath <> [slash]) then
              if v_tsr value && RedirectTrailingSlash cfg
              then Ret (Some Redirected)
              else Ret (Some Ignored)
            else Ret None
        end
  end.

(** The second loop (web.go:329-339): whether another method has the
    path. *)
Fixpoint other_method (t : methodTrees) (httpMethod rPath : str)
    (unescape : bool) : outcome bool :=
  match t with
  | [] => Ret false
  | tr :: t' =>
      if decide (method tr = httpMethod)
      then other_method t' httpMethod rPath unescape
      else
        match getValue QueryUnescape (tree_root tr) rPath (mkParams [] 0)
                unescape with
        | Crash k => Crash k
        | Ret value =>
            if not_nil (v_handlers value) then Ret true
            else other_method t' httpMethod rPath unescape
        end
  end.

(** [handleHTTPRequest] (web.go:285-342); [params] is [c.Params].
    [cleanPath], which is not among the sources, is a parameter. *)
Definition handleHTTPRequest (centre : Centre) (req : Request)
    (params : Params) : outcome served :=
  let httpMethod := Request_Method req in
  let rPath := URL_Path req in
  let unescape := false in
  let '(rPath, unescape) :=
    if UseRawPath cfg && bool_decide (0 < length (URL_RawPath req))
    then (URL_RawPath req, UnescapePathValues cfg)
    else (rPath, unescape) in
  let rPath := if RemoveExtraSlash cfg then cleanPath rPath else rPath in
  match serve_method (trees centre) httpMethod rPath params unescape with
  | Crash k => Crash k
  | Ret (Some s) => Ret s
  | Ret None =>
      match
        (if HandleMethodNotAllowed cfg
         then other_method (trees centre) httpMethod rPath unescape
         else Ret false)
      with
      | Crash k => Crash k
      | Ret true => Ret (Failed StatusMethodNotAllowed (allNoMethod cfg))
      | Ret false => Ret (Failed StatusNotFound (allNoRoute cfg))
      end
  end.

(** [ServeHTTP] (web.go:263-274): the context of the pool is reset, which
    empties its parameters and keeps their capacity ([c.Params[0:0]],
    context.go:57), and the request is handled. *)
Definition ServeHTTP (centre : Centre) (pooled : Params) (req : Request)
  : outcome served :=
  handleHTTPRequest centre req (mkParams [] (cap pooled)).

End Serve.

(** ** Order of the children *)

(** Children in descending order of priority. *)
Fixpoint by_priority (cs : list node) : Prop :=
  match cs with
  | [] => True
  | c :: cs' =>
      Forall (fun d => (priority d <= priority c)%Z) cs' /\ by_priority cs'
  end.

(** ** More examples *)

(** Examples: a tree with the routes "/a/:x", "/a/:x/b" and "/f/*rest",
    a tree with the two static routes "/a" and "/b", and a registry with
    routes under two methods. *)
Definition example_tree : node :=
  fst (addRoute
         (fst (addRoute (fst (addRoute newTree (B "/a/:x") (Some [1])))
                 (B "/a/:x/b") (Some [2])))
         (B "/f/*rest") (Some [3])).

Definition example_routes : list (str * list HandlerFunc) :=
  [(B "/f/*rest", [3]); (B "/a/:x/b", [2]); (B "/a/:x", [1])].

Definition example_leaves : node :=
  fst (addRoute (fst (addRoute newTree (B "/a") (Some [1])))
         (B "/b") (Some [2])).

Definition example_centre : Centre :=
  fst (Centre_addRoute
         (fst (Centre_addRoute
                 (fst (Centre_addRoute New (B "GET") (B "/a/:x") (Some [1])))
                 (B "GET") (B "/a/:x/b") (Some [2])))
         (B "POST") (B "/f/*rest") (Some [3])).

Definition example_served : list (str * (str * list HandlerFunc)) :=
  [(B "POST", (B "/f/*rest", [3])); (B "GET", (B "/a/:x/b", [2]));
   (B "GET", (B "/a/:x", [1]))].

Definition example_settings : Settings :=
  mkSettings true true false true false (Some [404]) (Some [405]).

(** * Properties *)

(** ** countParams *)

Lemma countParams_loop_exact pth : forall n : Z,
  (0 <= n)%Z -> (n + Z.of_nat (count_sigils pth) < 2 ^ 64)%Z ->
  countParams_loop pth n = (n + Z.of_nat (count_sigils pth))%Z.
Proof.
  induction pth as [|c rest IH]; intros n Hn Hlen; simpl in *; [lia|].
  destruct (is_sigil c).
  - rewrite Z.mod_small by lia. rewrite IH by lia. lia.
  - rewrite IH by lia. lia.
Qed.

Lemma count_sigils_le pth : count_sigils pth <= length pth.
Proof.
  induction pth as [|c rest IH]; simpl; [lia|]. destruct (is_sigil c); lia.
Qed.

(** C10: for a pattern whose length fits a Go [int], [countParams] is the
    number of ':' and '*' bytes when that number is below 255 and exactly
    255 otherwise; the result always fits 8 bits, so the conversion to
    [uint8] does not wrap. *)
Theorem countParams_saturates (pth : str) :
  (Z.of_nat (length pth) < 2 ^ 63)%Z ->
  countParams pth = Z.min (Z.of_nat (count_sigils pth)) 255
  /\ (0 <= countParams pth <= 255)%Z.
Proof.
  intros Hlen. unfold countParams. pose proof (count_sigils_le pth).
  rewrite countParams_loop_exact by lia.
  case_decide; [lia|]. rewrite Z.mod_small by lia. lia.
Qed.

Lemma countParams_saturates_witness :
  countParams (B "/a/:x/*y") = Z.min (Z.of_nat (count_sigils (B "/a/:x/*y"))) 255
  /\ (0 <= countParams (B "/a/:x/*y") <= 255)%Z.
Proof. apply (countParams_saturates (B "/a/:x/*y")). vm_compute. reflexivity. Defined.

(** ** Tactics for lookups in concrete trees *)

Lemma getValue_walk_unfold qu n pth value ue :
  getValue_walk qu n pth value ue
  = getValue_step qu (getValue_walk qu) n pth value ue.
Proof. destruct n; reflexivity. Qed.

Lemma pick_lookup {A} (f : node -> A) cs i : pick f cs i = f <$> (cs !! i).
Proof. revert i; induction cs as [|c cs IH]; intros [|i]; simpl; auto. Qed.

Ltac drop_nil_absurd :=
  exfalso;
  match goal with
  | H : drop _ _ = [] |- _ =>
      apply (f_equal length) in H; rewrite length_drop in H; simpl in *; lia
  end.

Ltac absurd_eq :=
  exfalso;
  match goal with
  | H : @eq ascii _ _ |- _ => vm_compute in H; discriminate H
  | H : @eq nodeType _ _ |- _ => discriminate H
  | H : @eq bool _ _ |- _ => discriminate H
  end.

Ltac look_step :=
  match goal with
  | |- context [decide ?P] => destruct (decide P)
  | |- context [match drop ?k ?q with _ => _ end] => destruct (drop k q) eqn:?
  end; cbn -[decide take drop length] in *.

(** Explores every branch of a lookup in a concrete tree. *)
Ltac look_auto :=
  repeat (first [progress (unfold getValue_step) | look_step];
          try absurd_eq; try drop_nil_absurd);
  try reflexivity.

(** ** Trailing-slash hints *)

(** C2: with only "/foo" registered, the lookup of "/foo/" finds no
    handlers and suggests the redirect; with only "/foo/" registered, the
    lookup of "/foo" does the same; in both trees the lookup of "/bar"
    finds no handlers and suggests nothing. *)
Theorem tsr_hints (qu : str -> option str) (h : list HandlerFunc)
    (po : Params) (unescape : bool) :
  let r1 := addRoute newTree (B "/foo") (Some h) in
  let r2 := addRoute newTree (B "/foo/") (Some h) in
  snd r1 = Done /\ snd r2 = Done
  /\ getValue qu (fst r1) (B "/foo/") po unescape = Ret (mkValue None po true [])
  /\ getValue qu (fst r2) (B "/foo") po unescape = Ret (mkValue None po true [])
  /\ getValue qu (fst r1) (B "/bar") po unescape = Ret (mkValue None po false [])
  /\ getValue qu (fst r2) (B "/bar") po unescape = Ret (mkValue None po false []).
Proof. destruct po. repeat split. Qed.

(** ** Catch-all capture *)

(** C3: after registering "/files/*filepath", the lookup of
    "/files/a/b/c" (with an empty parameter buffer of any capacity, and a
    decoder that leaves the escape-free text "/a/b/c" alone) returns the
    route's handlers and exactly one parameter, named "filepath", whose
    value is "/a/b/c"; the lookup of "/files" returns no handlers. *)
Theorem catchAll_capture (qu : str -> option str) (h : list HandlerFunc)
    (c : nat) (unescape : bool) :
  qu (B "/a/b/c") = Some (B "/a/b/c") ->
  let r := addRoute newTree (B "/files/*filepath") (Some h) in
  snd r = Done
  /\ getValue qu (fst r) (B "/files/a/b/c") (mkParams [] c) unescape
     = Ret (mkValue (Some h)
              (mkParams [mkParam (B "filepath") (B "/a/b/c")] (Nat.max c 1))
              false (B "/files/*filepath"))
  /\ (exists v, getValue qu (fst r) (B "/files") (mkParams [] c) unescape = Ret v
                /\ v_handlers v = None).
Proof.
  intros Hqu r. split; [reflexivity|]. split.
  - subst r. replace (Nat.max c 1) with (if decide (c < 1) then 1 else c)
      by (case_decide; lia).
    cbv [B list_ascii_of_string] in Hqu.
    destruct c as [|c], unescape; vm_compute; try rewrite Hqu; reflexivity.
  - eexists. split; reflexivity.
Qed.

Lemma catchAll_capture_witness :
  let qu := fun s : str => Some s in
  let r := addRoute newTree (B "/files/*filepath") (Some [7]) in
  snd r = Done
  /\ getValue qu (fst r) (B "/files/a/b/c") (mkParams [] 0) true
     = Ret (mkValue (Some [7])
              (mkParams [mkParam (B "filepath") (B "/a/b/c")] (Nat.max 0 1))
              false (B "/files/*filepath"))
  /\ (exists v, getValue qu (fst r) (B "/files") (mkParams [] 0) true = Ret v
                /\ v_handlers v = None).
Proof. apply (catchAll_capture (fun s => Some s) [7] 0 true). reflexivity. Defined.

(** ** Wildcard and static routes exclude each other *)

(** Lookups in the tree holding only "/user/profile". *)
Lemma lookup_profile_only (qu : str -> option str) h2 q po ue :
  found_handlers
    (getValue qu (fst (addRoute newTree (B "/user/profile") (Some h2))) q po ue)
  = Some (if decide (q = B "/user/profile") then Some h2 else None).
Proof.
  set (t := fst _). vm_compute in t. subst t.
  destruct (decide (q = B "/user/profile")) as [->|Hne]; [reflexivity|].
  unfold getValue. rewrite getValue_walk_unfold. unfold getValue_step.
  cbv [B list_ascii_of_string] in *. cbn -[decide take drop length].
  look_auto. contradiction.
Qed.

(** Lookups in the same tree after the rejected registration of
    "/user/:name", which has split the root edge. *)
Lemma lookup_profile_split (qu : str -> option str) h1 h2 q po ue :
  let r1 := addRoute newTree (B "/user/profile") (Some h2) in
  let r2 := addRoute (fst r1) (B "/user/:name") (Some h1) in
  found_handlers (getValue qu (fst r2) q po ue)
  = Some (if decide (q = B "/user/profile") then Some h2 else None).
Proof.
  intros r1 r2. set (t := fst r2). vm_compute in t. subst t.
  destruct (decide (q = B "/user/profile")) as [->|Hne]; [reflexivity|].
  unfold getValue. rewrite getValue_walk_unfold. unfold getValue_step.
  cbv [B list_ascii_of_string] in *. cbn -[decide take drop length getValue_walk].
  set (user := ["/"; "u"; "s"; "e"; "r"; "/"]%char) in *.
  set (profile := ["p"; "r"; "o"; "f"; "i"; "l"; "e"]%char) in *.
  change (_ :: _ :: _ :: _ :: _ :: _ :: profile) with (user ++ profile) in *.
  look_auto.
  exfalso. apply Hne.
  match goal with H : _ /\ take _ _ = _ |- _ => destruct H as [_ Htk] end.
  match goal with H : drop _ _ = _ |- _ => rename H into Hd end.
  match goal with H : _ :: _ = profile |- _ => rewrite H in Hd end.
  rewrite <- (take_drop (length user) q), Htk, Hd. reflexivity.
Qed.

(** C4: registering "/user/:name" and then "/user/profile" panics, so
    does the reverse order, and so does "/user/:id" after "/user/:name";
    after each of the three failed calls every lookup returns the handler
    chain it returned before the call. *)
Theorem wildcard_static_exclusion (qu : str -> option str)
    (h1 h2 : list HandlerFunc) :
  let a := addRoute newTree (B "/user/:name") (Some h1) in
  let a' := addRoute (fst a) (B "/user/profile") (Some h2) in
  let b := addRoute newTree (B "/user/profile") (Some h2) in
  let b' := addRoute (fst b) (B "/user/:name") (Some h1) in
  let c' := addRoute (fst a) (B "/user/:id") (Some h2) in
  snd a = Done /\ snd b = Done
  /\ snd a' = Panicked WildcardConflict
  /\ snd b' = Panicked WildcardChildConflict
  /\ snd c' = Panicked WildcardConflict
  /\ forall q po ue,
       found_handlers (getValue qu (fst a') q po ue)
       = found_handlers (getValue qu (fst a) q po ue)
       /\ found_handlers (getValue qu (fst b') q po ue)
          = found_handlers (getValue qu (fst b) q po ue)
       /\ found_handlers (getValue qu (fst c') q po ue)
          = found_handlers (getValue qu (fst a) q po ue).
Proof.
  intros a a' b b' c'. do 5 (split; [reflexivity|]).
  intros q po ue. split; [|split].
  - subst a a'. vm_compute. reflexivity.
  - subst b b'. rewrite lookup_profile_split, lookup_profile_only. reflexivity.
  - subst a c'. vm_compute. reflexivity.
Qed.

(** ** One step of a lookup, by the shape of the node *)

Section Shapes.
Variable qu : str -> option str.

Lemma app_eq_self_l (p x : str) : p ++ x = p -> x = [].
Proof.
  intros E. apply (f_equal length) in E. rewrite length_app in E.
  destruct x; [reflexivity|simpl in E; lia].
Qed.

(** The node reached with exactly its own path left returns its handlers. *)
Lemma getValue_exact n h value ue :
  handlers n = Some h ->
  getValue_walk qu n (path n) value ue
  = Ret (set_v_fullPath (fullPath n) (set_v_handlers (Some h) value)).
Proof.
  intros Hh. rewrite getValue_walk_unfold. unfold getValue_step.
  rewrite decide_True by reflexivity. rewrite Hh. reflexivity.
Qed.

(** With more path left, a node without wildcard child hands over to the
    child indexed by the next byte. *)
Lemma getValue_static n c rest i ch value ue :
  wildChild n = false ->
  index_of c (indices n) = Some i ->
  children n !! i = Some ch ->
  getValue_walk qu n (path n ++ c :: rest) value ue
  = getValue_walk qu ch (c :: rest) value ue.
Proof.
  intros Hw Hi Hch. rewrite getValue_walk_unfold. unfold getValue_step.
  rewrite decide_False by (intros E; apply app_eq_self_l in E; discriminate).
  rewrite decide_True
    by (split; [rewrite length_app; simpl; lia | apply take_app_length]).
  rewrite Hw. simpl negb. cbv iota. rewrite drop_app_length. rewrite Hi.
  rewrite pick_lookup, Hch. reflexivity.
Qed.

Lemma param_end_no_slash v rest k :
  no_slash v -> (rest = [] \/ head rest = Some slash) ->
  param_end (v ++ rest) k = k + length v.
Proof.
  intros Hv Hrest. revert k. induction Hv as [|c v Hc Hv IH]; intros k; simpl.
  - destruct Hrest as [->|Hh]; [simpl; lia|].
    destruct rest as [|c rest]; [discriminate|]. simpl in *.
    injection Hh as ->. rewrite decide_True by reflexivity. lia.
  - rewrite decide_False by assumption. rewrite IH. lia.
Qed.

(** A parameter node that ends the path returns its handlers. *)
Lemma getValue_param_last n ch cs sg nm h val value value' ue :
  wildChild n = true ->
  children n = ch :: cs ->
  nType ch = param ->
  path ch = sg :: nm ->
  handlers ch = Some h ->
  val <> [] -> no_slash val ->
  save_param qu ch (Some nm) val value ue = Ret value' ->
  getValue_walk qu n (path n ++ val) value ue
  = Ret (set_v_fullPath (fullPath ch) (set_v_handlers (Some h) value')).
Proof.
  intros Hw Hcs Hty Hp Hh Hne Hns Hsave.
  rewrite getValue_walk_unfold. unfold getValue_step.
  rewrite decide_False by (intros E; apply app_eq_self_l in E; contradiction).
  rewrite decide_True.
  2:{ split; [rewrite length_app; destruct val; [contradiction|simpl; lia]
               | apply take_app_length]. }
  rewrite Hw, Hcs. simpl negb. cbv iota. rewrite Hty. rewrite drop_app_length.
  pose proof (param_end_no_slash val [] 0 Hns (or_introl eq_refl)) as He.
  rewrite app_nil_r in He. rewrite He. simpl "+".
  rewrite firstn_all. unfold slice_from. rewrite Hp. simpl length.
  rewrite decide_True by lia. simpl drop. rewrite drop_0. rewrite Hsave.
  rewrite decide_False by lia. rewrite Hh. reflexivity.
Qed.

(** A parameter node followed by more path hands over to its child. *)
Lemma getValue_param_more n ch cs sg nm c2 cs2 val rest value value' ue :
  wildChild n = true ->
  children n = ch :: cs ->
  nType ch = param ->
  path ch = sg :: nm ->
  children ch = c2 :: cs2 ->
  val <> [] -> no_slash val ->
  head rest = Some slash ->
  save_param qu ch (Some nm) val value ue = Ret value' ->
  getValue_walk qu n (path n ++ val ++ rest) value ue
  = getValue_walk qu c2 rest value' ue.
Proof.
  intros Hw Hcs Hty Hp Hc2 Hne Hns Hrest Hsave.
  rewrite getValue_walk_unfold. unfold getValue_step.
  rewrite decide_False.
  2:{ intros E. apply app_eq_self_l in E. destruct val; [contradiction|discriminate]. }
  rewrite decide_True.
  2:{ split; [rewrite !length_app; destruct val; [contradiction|simpl; lia]
               | apply take_app_length]. }
  rewrite Hw, Hcs. simpl negb. cbv iota. rewrite Hty. rewrite drop_app_length.
  rewrite (param_end_no_slash val rest 0 Hns (or_intror Hrest)). simpl "+".
  rewrite take_app_length. unfold slice_from. rewrite Hp. simpl length.
  rewrite decide_True by lia. simpl drop. rewrite drop_0. rewrite Hsave.
  destruct rest as [|r rest]; [discriminate|].
  rewrite decide_True by (rewrite length_app; simpl; lia).
  rewrite Hc2. simpl length. rewrite decide_True by lia.
  simpl pick. rewrite drop_app_length. reflexivity.
Qed.

(** A catch-all node takes all the path that is left. *)
Lemma getValue_catchAll n ch cs a b nm rest value value' ue :
  wildChild n = true ->
  children n = ch :: cs ->
  nType ch = catchAll ->
  path ch = a :: b :: nm ->
  rest <> [] ->
  save_param qu ch (Some nm) rest value ue = Ret value' ->
  getValue_walk qu n (path n ++ rest) value ue
  = Ret (set_v_fullPath (fullPath ch) (set_v_handlers (handlers ch) value')).
Proof.
  intros Hw Hcs Hty Hp Hne Hsave.
  rewrite getValue_walk_unfold. unfold getValue_step.
  rewrite decide_False by (intros E; apply app_eq_self_l in E; contradiction).
  rewrite decide_True.
  2:{ split; [rewrite length_app; destruct rest; [contradiction|simpl; lia]
               | apply take_app_length]. }
  rewrite Hw, Hcs. simpl negb. cbv iota. rewrite Hty. rewrite drop_app_length.
  unfold slice_from. rewrite Hp. simpl length.
  rewrite decide_True by lia. simpl drop. rewrite drop_0. rewrite Hsave.
  reflexivity.
Qed.

(** Saving a parameter into a buffer that is empty, or has room for the
    [k] parameters still to come: no parameter is lost, and the capacity
    grows only when it is below [maxParams]. *)
Lemma save_param_room n nm val value ue k :
  maxParams n = Z.of_nat k -> 0 < k ->
  elems (v_params value) = []
  \/ length (elems (v_params value)) + k <= cap (v_params value) ->
  save_param qu n (Some nm) val value ue
  = Ret (set_v_params
           (mkParams (elems (v_params value) ++ [mkParam nm (stored qu ue val)])
              (if decide (cap (v_params value) < k) then k
               else cap (v_params value)))
           value).
Proof.
  intros Hm Hk Hroom. unfold save_param, stored. rewrite Hm, Nat2Z.id.
  destruct (decide (cap (v_params value) < k)) as [Hlt|Hge]; simpl.
  - destruct Hroom as [He|Hr]; [|lia]. rewrite He. simpl.
    rewrite decide_False by lia. reflexivity.
  - rewrite decide_False; [reflexivity|].
    destruct Hroom as [He|Hr]; [rewrite He; simpl|]; lia.
Qed.

End Shapes.

(** ** Patterns and their captures *)

Lemma segment_after s : segment s ++ after s = s.
Proof.
  unfold after. induction s as [|c s IH]; simpl; [reflexivity|].
  case_decide; simpl; [reflexivity|]. f_equal. exact IH.
Qed.

Lemma segment_no_slash s : no_slash (segment s).
Proof.
  induction s as [|c s IH]; simpl; [constructor|].
  case_decide; constructor; assumption.
Qed.

Lemma after_head s : after s = [] \/ head (after s) = Some slash.
Proof.
  unfold after. induction s as [|c s IH]; simpl; [left; reflexivity|].
  case_decide; simpl; [right; congruence|exact IH].
Qed.

Lemma is_sigil_slash : is_sigil slash = false.
Proof. reflexivity. Qed.

Lemma findWildcard_end_spec s : forall e valid,
  findWildcard_end s e valid
  = (if decide (after s = []) then None else Some (e + length (segment s)),
     valid && bool_decide (count_sigils (segment s) = 0)).
Proof.
  unfold after.
  induction s as [|c s IH]; intros e valid; simpl.
  - rewrite andb_true_r. reflexivity.
  - destruct (decide (c = slash)) as [->|Hc]; simpl.
    + rewrite andb_true_r. f_equal. f_equal. lia.
    + rewrite !IH. destruct (is_sigil c); simpl.
      * rewrite ?andb_false_r.
        case_decide; [reflexivity|]. do 2 f_equal. lia.
      * case_decide; [reflexivity|]. do 2 f_equal. lia.
Qed.

Lemma findWildcard_none pth : forall s,
  count_sigils pth = 0 -> findWildcard_from pth s = ([], (-1)%Z, false).
Proof.
  induction pth as [|c pth IH]; intros s Hc; simpl in *; [reflexivity|].
  destruct (is_sigil c); [lia|]. apply IH. lia.
Qed.

Lemma findWildcard_some pth : forall s,
  0 < count_sigils pth ->
  exists pre sg tl,
    pth = pre ++ sg :: tl /\ count_sigils pre = 0 /\ is_sigil sg = true
    /\ findWildcard_from pth s
       = (sg :: segment tl, Z.of_nat (s + length pre),
          bool_decide (count_sigils (segment tl) = 0)).
Proof.
  induction pth as [|c pth IH]; intros s Hc; simpl in *; [lia|].
  destruct (is_sigil c) eqn:Hs.
  - exists [], c, pth. repeat split; [assumption|].
    rewrite findWildcard_end_spec. simpl. rewrite Nat.add_0_r.
    case_decide as Ha.
    + f_equal. f_equal. f_equal. rewrite <- (segment_after pth) at 1.
      rewrite Ha. apply app_nil_r.
    + f_equal. f_equal. f_equal. rewrite <- (segment_after pth) at 2.
      apply take_app_length.
  - destruct (IH (S s)) as (pre & sg & tl & -> & Hpre & Hsg & Hf); [lia|].
    exists (c :: pre), sg, tl. simpl. rewrite Hs. repeat split; try assumption.
    rewrite Hf. f_equal. f_equal. lia.
Qed.

Lemma count_sigils_app a b : count_sigils (a ++ b) = count_sigils a + count_sigils b.
Proof. induction a as [|c a IH]; simpl; [reflexivity|]. rewrite IH. lia. Qed.

Lemma substitute_go_plain pre rest vals :
  count_sigils pre = 0 ->
  substitute_go false (pre ++ rest) vals = pre ++ substitute_go false rest vals.
Proof.
  induction pre as [|c pre IH]; intros Hc; simpl in *; [reflexivity|].
  destruct (is_sigil c); [lia|]. f_equal. apply IH. lia.
Qed.

Lemma substitute_go_name tl vals :
  substitute_go true tl vals = substitute_go false (after tl) vals.
Proof.
  unfold after. induction tl as [|c tl IH]; simpl; [reflexivity|].
  destruct (decide (c = slash)) as [->|Hc]; simpl; [reflexivity|]. exact IH.
Qed.

Lemma captures_go_plain pre rest :
  count_sigils pre = 0 ->
  captures_go false (pre ++ rest) = captures_go false rest.
Proof.
  induction pre as [|c pre IH]; intros Hc; simpl in *; [reflexivity|].
  destruct (is_sigil c); [lia|]. apply IH. lia.
Qed.

Lemma captures_go_name tl : captures_go true tl = captures_go false (after tl).
Proof.
  unfold after. induction tl as [|c tl IH]; simpl; [reflexivity|].
  destruct (decide (c = slash)) as [->|Hc]; simpl.
  - reflexivity.
  - rewrite bool_decide_eq_false_2 by assumption. exact IH.
Qed.

Lemma captures_none p : count_sigils p = 0 -> captures p = [].
Proof.
  intros H. unfold captures. rewrite <- (app_nil_r p).
  rewrite captures_go_plain by assumption. reflexivity.
Qed.

Lemma substitute_none p vals : count_sigils p = 0 -> substitute p vals = p.
Proof.
  intros H. unfold substitute. rewrite <- (app_nil_r p) at 1.
  rewrite substitute_go_plain by assumption. simpl. apply app_nil_r.
Qed.

(** ** Round trip of a registration into an empty tree *)

Lemma insertChild_loop_finish fuel n numParams pth fullPth hs :
  (numParams <= 0)%Z ->
  insertChild_loop fuel n numParams pth fullPth hs
  = (set_fullPath fullPth (set_handlers hs (set_path pth n)), Done).
Proof.
  intros H. destruct fuel; simpl; rewrite decide_False by lia; reflexivity.
Qed.

Lemma set_nType_same n : set_nType (nType n) n = n.
Proof. destruct n; reflexivity. Qed.

Lemma captures_split pre sg tl :
  count_sigils pre = 0 -> is_sigil sg = true ->
  captures (pre ++ sg :: tl) = (sg, segment tl) :: captures (after tl).
Proof.
  intros Hp Hs. unfold captures. rewrite captures_go_plain by assumption.
  simpl. rewrite Hs. f_equal. apply captures_go_name.
Qed.

Lemma substitute_split pre sg tl v vs :
  count_sigils pre = 0 -> is_sigil sg = true ->
  substitute (pre ++ sg :: tl) (v :: vs) = pre ++ v ++ substitute (after tl) vs.
Proof.
  intros Hp Hs. unfold substitute. rewrite substitute_go_plain by assumption.
  simpl. rewrite Hs. do 2 f_equal. apply substitute_go_name.
Qed.

Lemma count_sigils_split pre sg tl :
  count_sigils pre = 0 -> is_sigil sg = true ->
  count_sigils (pre ++ sg :: tl)
  = 1 + count_sigils (segment tl) + count_sigils (after tl).
Proof.
  intros Hp Hs. rewrite count_sigils_app, Hp. simpl. rewrite Hs.
  rewrite <- (segment_after tl) at 1. rewrite count_sigils_app. lia.
Qed.

Lemma substitute_head_slash s vals :
  head s = Some slash -> head (substitute s vals) = Some slash.
Proof.
  destruct s as [|c s]; [discriminate|]. simpl. intros [= ->]. reflexivity.
Qed.

Lemma sigil_cases sg : is_sigil sg = true -> sg = colon \/ sg = star.
Proof.
  unfold is_sigil. intros H. apply orb_true_iff in H.
  destruct H as [H|H]; apply bool_decide_eq_true in H; auto.
Qed.

Ltac at_own_path p :=
  lazymatch goal with
  | |- getValue_walk ?q ?N (p ++ ?r) ?v ?u = ?R =>
      change (getValue_walk q N (path N ++ r) v u = R)
  end.

Section Roundtrip.
Variable qu : str -> option str.
Variable ue : bool.
Variable h : list HandlerFunc.
Variable fullPth : str.

Lemma insertChild_roundtrip : forall fuel n numParams pth n',
  insertChild_loop fuel n numParams pth fullPth (Some h) = (n', Done) ->
  numParams = Z.of_nat (count_sigils pth) -> count_sigils pth <= 255 ->
  children n = [] -> path n = [] -> wildChild n = false ->
  forall ty vals value,
    values_ok pth vals -> room value (count_sigils pth) ->
    getValue_walk qu (set_nType ty n') (substitute pth vals) value ue
    = Ret (mkValue (Some h)
             (mkParams (elems (v_params value) ++ expected_params qu ue pth vals)
                (grown value (count_sigils pth)))
             (v_tsr value) fullPth).
Proof.
  induction fuel as [|fuel IH]; intros n numParams pth n' Hins Hnum Hle Hcs Hpath Hwc
    ty vals value Hvals Hroom.
  all: destruct (decide (count_sigils pth = 0)) as [Hz|Hnz].
  1,3: rewrite insertChild_loop_finish in Hins by lia;
    injection Hins as <-;
    rewrite substitute_none by assumption;
    unfold values_ok, expected_params, grown in *;
    rewrite captures_none in * by assumption;
    inversion Hvals; subst; simpl zip_with; rewrite app_nil_r;
    rewrite Hz; rewrite decide_False by lia;
    change pth with (path (set_nType ty (set_fullPath fullPth
                       (set_handlers (Some h) (set_path pth n))))) at 2;
    erewrite getValue_exact by reflexivity;
    destruct value as [vh [ve vc] vt vf]; reflexivity.
  - simpl in Hins. rewrite decide_True in Hins by lia. discriminate.
  - destruct (findWildcard_some pth 0) as (pre & sg & tl & Hpth & Hpre & Hsg & Hfw);
      [lia|].
    pose proof (count_sigils_split pre sg tl Hpre Hsg) as Hcount.
    rewrite <- Hpth in Hcount.
    simpl in Hins. rewrite decide_True in Hins by lia.
    unfold findWildcard in Hins. rewrite Hfw in Hins. simpl "+" in Hins.
    cbv beta iota zeta in Hins.
    rewrite decide_False in Hins by lia.
    destruct (bool_decide (count_sigils (segment tl) = 0)) eqn:Hvalid;
      [|discriminate].
    apply bool_decide_eq_true in Hvalid. simpl negb in Hins. cbv iota in Hins.
    destruct (decide (length (sg :: segment tl) < 2)); [discriminate|].
    rewrite Hcs in Hins. simpl length in Hins.
    rewrite decide_False in Hins by lia.
    assert (Hlen : length pth = length pre + S (length (segment tl) + length (after tl))).
    { rewrite Hpth, length_app. simpl. rewrite <- (segment_after tl) at 1.
      rewrite length_app. lia. }
    destruct (decide ((sg :: segment tl) !! 0 = Some colon)) as [Hcolon|Hstar].
    + (* param *)
      simpl in Hcolon. injection Hcolon as ->.
      assert (Hpair :
        (if decide (0 < Z.of_nat (length pre))%Z
         then (set_path (take (Z.to_nat (Z.of_nat (length pre))) pth) n,
               drop (Z.to_nat (Z.of_nat (length pre))) pth)
         else (n, pth)) = (set_path pre n, colon :: tl)).
      { destruct (decide (0 < Z.of_nat (length pre))%Z) as [Hp|Hp].
        { rewrite Nat2Z.id, Hpth, take_app_length, drop_app_length. reflexivity. }
        destruct pre; [|simpl in Hp; lia]. simpl in Hpth. rewrite Hpth.
        f_equal. destruct n; simpl in Hpath; rewrite Hpath; reflexivity. }
      rewrite Hpair in Hins. clear Hpair. cbv beta iota zeta in Hins.
      unfold values_ok in Hvals. rewrite Hpth in Hvals.
      rewrite captures_split in Hvals by assumption.
      destruct vals as [|v vs]; [inversion Hvals|].
      apply Forall2_cons_1 in Hvals as [Hv Hvs].
      destruct (Hv eq_refl) as [Hvne Hvns]. clear Hv.
      rewrite Hpth at 1. rewrite substitute_split by assumption.
      unfold expected_params. rewrite Hpth at 1.
      rewrite captures_split by assumption. simpl zip_with.
      assert (Hsave : forall ch, maxParams ch = numParams ->
        save_param qu ch (Some (segment tl)) v value ue
        = Ret (set_v_params
                 (mkParams (elems (v_params value)
                            ++ [mkParam (segment tl) (stored qu ue v)])
                    (grown value (count_sigils pth))) value)).
      { intros ch Hch. apply save_param_room; [congruence|lia|exact Hroom]. }
      simpl length in Hins.
      destruct (decide (S (length (segment tl)) < S (length tl))) as [Hmore|Hlast].
      * (* more path after the parameter *)
        assert (Hdrop : drop (S (length (segment tl))) (colon :: tl) = after tl)
          by reflexivity.
        rewrite Hdrop in Hins. clear Hdrop.
        destruct (insertChild_loop fuel _ _ (after tl) fullPth (Some h))
          as [child2 st] eqn:Hrec.
        injection Hins as <- ->.
        assert (Hafter : head (after tl) = Some slash).
        { destruct (after_head tl) as [Ha|Ha]; [|exact Ha].
          exfalso. rewrite <- (segment_after tl) in Hmore at 2.
          rewrite Ha, app_nil_r in Hmore. lia. }
        at_own_path pre.
        erewrite (getValue_param_more qu _ _ [] colon (segment tl) child2 []);
          [|reflexivity..|exact Hvne|exact Hvns
           |apply substitute_head_slash; exact Hafter|apply Hsave; reflexivity].
        rewrite <- (set_nType_same child2).
        erewrite IH; [|exact Hrec| | | | | |exact Hvs|].
        -- simpl. unfold grown. simpl. rewrite <- app_assoc. simpl.
           f_equal. f_equal. f_equal.
           repeat case_decide; lia.
        -- unfold decr8. rewrite Hnum. rewrite Z.mod_small by lia. lia.
        -- lia.
        -- reflexivity.
        -- reflexivity.
        -- reflexivity.
        -- unfold room, grown in *. simpl. rewrite length_app. simpl.
          right. case_decide; destruct Hroom as [He|Hr]; try rewrite He; simpl; lia.
      * (* the parameter ends the pattern *)
        injection Hins as <-.
        assert (Ha : after tl = []).
        { destruct (after tl) eqn:E; [reflexivity|]. exfalso.
          rewrite <- (segment_after tl) in Hlast at 2. rewrite E in Hlast.
          rewrite length_app in Hlast. simpl in Hlast. lia. }
        rewrite Ha in *. unfold captures in Hvs. simpl in Hvs. inversion Hvs; subst vs.
        unfold substitute. simpl substitute_go. rewrite app_nil_r.
        at_own_path pre.
        erewrite (getValue_param_last qu _ _ [] colon (segment tl));
          [|reflexivity..|exact Hvne|exact Hvns|apply Hsave; reflexivity].
        simpl. unfold grown. reflexivity.
    + (* catchAll *)
      assert (sg = star) as ->.
      { destruct (sigil_cases sg Hsg) as [-> | ->]; [|reflexivity].
        exfalso. apply Hstar. reflexivity. }
      clear Hstar.
      destruct (decide (_ \/ _)) as [|Hend]; [discriminate|].
      rewrite Hpath in Hins. simpl length in Hins.
      match type of Hins with
      | context [decide (?a < ?b /\ ?c)] =>
          destruct (decide (a < b /\ c)) as [[? _]|_]; [lia|]
      end.
      destruct (decide (Z.of_nat (length pre) - 1 < 0)%Z) as [|Hi];
        [discriminate|].
      destruct (decide (pth !! Z.to_nat (Z.of_nat (length pre) - 1) <> Some slash))
        as [|Hslash]; [discriminate|].
      apply dec_stable in Hslash.
      assert (Ha : after tl = []).
      { destruct (after tl) eqn:E; [reflexivity|]. exfalso. apply Hend. left.
        rewrite Hlen. simpl length. lia. }
      assert (Htl : segment tl = tl).
      { rewrite <- (segment_after tl) at 2. rewrite Ha. symmetry. apply app_nil_r. }
      assert (Hk : count_sigils pth = 1) by (rewrite Hcount, Ha; simpl; lia).
      destruct (exists_last (l := pre)) as (pre' & x & Hpre').
      { intros ->. simpl in Hi. lia. }
      assert (Hidx : Z.to_nat (Z.of_nat (length pre) - 1) = length pre').
      { rewrite Hpre', length_app. simpl. lia. }
      rewrite Hidx in *.
      assert (x = slash) as ->.
      { rewrite Hpth, Hpre', <- app_assoc in Hslash. cbn [app] in Hslash.
        pose proof (list_lookup_middle pre' (star :: tl) x (length pre') eq_refl)
          as Hm.
        assert (Some x = Some slash) as [= ->]; [|reflexivity].
        rewrite <- Hslash. symmetry. exact Hm. }
      assert (Hpth' : pth = pre' ++ slash :: star :: tl).
      { rewrite Hpth, Hpre', <- app_assoc. reflexivity. }
      rewrite Hpth' in Hins. rewrite take_app_length, drop_app_length in Hins.
      unfold values_ok in Hvals. rewrite Hpth in Hvals.
      rewrite captures_split in Hvals by assumption. rewrite Ha in Hvals.
      destruct vals as [|v vs]; [inversion Hvals|].
      apply Forall2_cons_1 in Hvals as [_ Hvs].
      unfold captures in Hvs. simpl in Hvs. inversion Hvs; subst vs.
      rewrite Hpth at 1. rewrite substitute_split by assumption. rewrite Ha.
      unfold expected_params. rewrite Hpth at 1.
      rewrite captures_split by assumption. rewrite Ha. simpl zip_with.
      unfold substitute. simpl substitute_go. rewrite app_nil_r.
      rewrite Hpre', <- app_assoc. simpl app.
      injection Hins as <-.
      assert (Hw : wildChild n = false) by exact Hwc.
      match goal with
      | |- context [decide (maxParams ?m < 1)%Z] =>
          destruct (decide (maxParams m < 1)%Z)
      end.
      all: at_own_path pre'.
      all: erewrite (getValue_static qu _ slash v 0);
        [|exact Hwc|reflexivity|reflexivity].
      all: match goal with
      | |- getValue_walk ?q ?A ?p ?v ?u = ?R =>
          change (getValue_walk q A (path A ++ p) v u = R)
      end.
      all: erewrite (getValue_catchAll qu _ _ [] slash star tl);
        [|reflexivity..|discriminate
         |apply save_param_room with (k := 1);
          [reflexivity|lia|rewrite <- Hk; exact Hroom]].
      all: simpl; unfold grown; rewrite Hk, Htl; reflexivity.
Qed.

End Roundtrip.

Lemma countParams_exact p :
  count_sigils p <= 255 -> countParams p = Z.of_nat (count_sigils p).
Proof.
  intros H. unfold countParams. rewrite countParams_loop_exact by lia.
  case_decide; [lia|]. apply Z.mod_small. lia.
Qed.

(** The round trip for any node that counts as an empty tree. *)
Lemma addRoute_empty_roundtrip (qu : str -> option str) (ue : bool)
    (n : node) (p : str) (h : list HandlerFunc) (vals : list str) (c : nat) :
  path n = [] -> children n = [] -> wildChild n = false ->
  snd (addRoute n p (Some h)) = Done ->
  count_sigils p <= 255 ->
  values_ok p vals ->
  getValue qu (fst (addRoute n p (Some h))) (substitute p vals)
    (mkParams [] c) ue
  = Ret (mkValue (Some h)
           (mkParams (expected_params qu ue p vals)
              (Nat.max c (count_sigils p)))
           false p).
Proof.
  intros Hp Hcs Hw Hdone Hle Hvals. unfold addRoute in *.
  rewrite decide_True in * by (simpl; rewrite Hp, Hcs; split; reflexivity).
  unfold insertChild in *.
  destruct (insertChild_loop _ _ _ p p (Some h)) as [n' st] eqn:Hins.
  destruct st; try discriminate. simpl fst.
  unfold getValue.
  erewrite insertChild_roundtrip;
    [|exact Hins|apply countParams_exact; exact Hle|exact Hle
     |exact Hcs|exact Hp|exact Hw|exact Hvals|left; reflexivity].
  unfold grown. simpl. do 3 f_equal. case_decide; lia.
Qed.

(** The round trip for the first route of a tree, with the whole value
    that the lookup returns: when a pattern with at most 255 captures is
    registered as the first route of a tree, then for every substitution
    giving each ':' capture a non-empty value without '/' and the '*'
    capture any text, the lookup of the substituted path with an empty
    parameter buffer returns exactly the registered handler chain, and
    its parameters are the captures in declaration order, each with the
    substituted value, which for the catch-all is preceded by the '/' in
    front of it (and is decoded when [unescape] is set). *)
Theorem roundtrip_first_route (qu : str -> option str) (ue : bool)
    (p : str) (h : list HandlerFunc) (vals : list str) (c : nat) :
  snd (addRoute newTree p (Some h)) = Done ->
  count_sigils p <= 255 ->
  values_ok p vals ->
  getValue qu (fst (addRoute newTree p (Some h))) (substitute p vals)
    (mkParams [] c) ue
  = Ret (mkValue (Some h)
           (mkParams (expected_params qu ue p vals)
              (Nat.max c (count_sigils p)))
           false p).
Proof. apply addRoute_empty_roundtrip; reflexivity. Qed.

Lemma roundtrip_first_route_witness :
  snd (addRoute newTree (B "/a/:x/*y") (Some [7])) = Done
  /\ count_sigils (B "/a/:x/*y") <= 255
  /\ values_ok (B "/a/:x/*y") [B "v"; B "w/z"]
  /\ getValue (fun s => Some s)
       (fst (addRoute newTree (B "/a/:x/*y") (Some [7])))
       (substitute (B "/a/:x/*y") [B "v"; B "w/z"]) (mkParams [] 0) false
     = Ret (mkValue (Some [7])
              (mkParams
                 (expected_params (fun s => Some s) false (B "/a/:x/*y")
                    [B "v"; B "w/z"])
                 (Nat.max 0 (count_sigils (B "/a/:x/*y"))))
              false (B "/a/:x/*y")).
Proof.
  assert (H1 : snd (addRoute newTree (B "/a/:x/*y") (Some [7])) = Done)
    by reflexivity.
  assert (H2 : count_sigils (B "/a/:x/*y") <= 255) by (vm_compute; lia).
  assert (H3 : values_ok (B "/a/:x/*y") [B "v"; B "w/z"]).
  { unfold values_ok.
    change (captures (B "/a/:x/*y")) with [(colon, B "x"); (star, B "y")].
    constructor; [|constructor; [|constructor]].
    - intros _. split; [discriminate|]. constructor; [discriminate|constructor].
    - intros E. discriminate E. }
  split; [exact H1|]. split; [exact H2|]. split; [exact H3|].
  exact (roundtrip_first_route (fun s => Some s) false (B "/a/:x/*y") [7]
           [B "v"; B "w/z"] 0 H1 H2 H3).
Defined.

(** The claim as stated fails for a catch-all: with "/files/*filepath"
    registered and the value "a" substituted, the lookup of "/files/a"
    does not report the pair (filepath, a).  The conditions of the round
    trip are needed as well: a route registered below a catch-all
    ("/a/*y/:x" after "/a/*y") is not reached, nor is a route with 256
    captures, nor the empty pattern once another route is registered;
    and a buffer that is not empty is handed back with its old entries
    in front, or overrun. *)
Lemma roundtrip_catchAll_counterexample :
  snd (addRoute newTree (B "/files/*filepath") (Some [7])) = Done
  /\ substitute (B "/files/*filepath") [B "a"] = B "/files/a"
  /\ (exists v,
        getValue (fun s => Some s)
          (fst (addRoute newTree (B "/files/*filepath") (Some [7])))
          (B "/files/a") (mkParams [] 0) false = Ret v
        /\ v_handlers v = Some [7]
        /\ elems (v_params v) = [mkParam (B "filepath") (B "/a")]
        /\ elems (v_params v) <> [mkParam (B "filepath") (B "a")])
  /\ (let t := addRoute newTree (B "/a/*y") (Some [1]) in
      let t' := addRoute (fst t) (B "/a/*y/:x") (Some [2]) in
      snd t = Done /\ snd t' = Done
      /\ values_ok (B "/a/*y/:x") [B "w"; B "v"]
      /\ found_handlers
           (getValue (fun s => Some s) (fst t')
              (substitute (B "/a/*y/:x") [B "w"; B "v"]) (mkParams [] 0) false)
         = Some (Some [1]))
  /\ (let t := addRoute newTree (many 256) (Some [7]) in
      snd t = Done /\ count_sigils (many 256) = 256
      /\ values_ok (many 256) (replicate 256 (B "v"))
      /\ found_handlers
           (getValue (fun s => Some s) (fst t)
              (substitute (many 256) (replicate 256 (B "v")))
              (mkParams [] 0) false)
         = Some None)
  /\ (let t := addRoute newTree [] (Some [1]) in
      let t' := addRoute (fst t) (B "/a") (Some [2]) in
      snd t = Done /\ snd t' = Done
      /\ found_handlers
           (getValue (fun s => Some s) (fst t') (substitute [] [])
              (mkParams [] 0) false)
         = Some None)
  /\ (let t := addRoute newTree (B "/a/:x") (Some [1]) in
      snd t = Done
      /\ (exists v,
            getValue (fun s => Some s) (fst t) (substitute (B "/a/:x") [B "v"])
              (mkParams [mkParam (B "k") (B "0")] 2) false = Ret v
            /\ elems (v_params v)
               = [mkParam (B "k") (B "0"); mkParam (B "x") (B "v")])
      /\ getValue (fun s => Some s) (fst t) (substitute (B "/a/:x") [B "v"])
           (mkParams [mkParam (B "k") (B "0")] 1) false
         = Crash RuntimeError).
Proof.
  split; [reflexivity|]. split; [reflexivity|]. split.
  { eexists. split; [vm_compute; reflexivity|]. simpl.
    repeat split. intros E. discriminate E. }
  split.
  { cbv zeta. split; [reflexivity|]. split; [vm_compute; reflexivity|].
    split; [|vm_compute; reflexivity].
    unfold values_ok, no_slash. apply (bool_decide_unpack _). vm_compute. exact I. }
  split.
  { cbv zeta. split; [vm_compute; reflexivity|].
    split; [vm_compute; reflexivity|].
    split; [|vm_compute; reflexivity].
    unfold values_ok, no_slash. apply (bool_decide_unpack _). vm_compute. exact I. }
  split.
  { cbv zeta. split; [reflexivity|]. split; vm_compute; reflexivity. }
  cbv zeta. split; [reflexivity|]. split; [|vm_compute; reflexivity].
  eexists. split; vm_compute; reflexivity.
Qed.

(** ** Routes that share a capture position *)

Section SharedCapture.
Variable qu : str -> option str.

(** Lookups below a parameter node of capacity demand 1, from an empty
    buffer. *)
Lemma save_first_param n nm v c ue :
  maxParams n = 1%Z ->
  save_param qu n (Some nm) v (mkValue None (mkParams [] c) false []) ue
  = Ret (mkValue None (mkParams [mkParam nm (stored qu ue v)] (Nat.max c 1))
           false []).
Proof.
  intros Hm. rewrite (save_param_room qu n nm v _ ue 1);
    [|exact Hm|lia|left; reflexivity].
  unfold set_v_params. cbn [v_params elems cap app v_handlers v_tsr v_fullPath].
  do 3 f_equal. case_decide; lia.
Qed.

Lemma lookup_shared_capture (t : node) (h1 h2 : list HandlerFunc) f1 ind pr1 pr2
    pr3 mp v c ue :
  t = mkNode (B "/a/") [] 
        [mkNode (B ":x") ind
           [mkNode (B "/b") [] [] (Some h2) pr3 static 0 false (B "/a/:x/b")]
           (Some h1) pr2 param 1 false f1]
        None pr1 root mp true [slash] ->
  v <> [] -> no_slash v ->
  getValue qu t (B "/a/" ++ v) (mkParams [] c) ue
  = Ret (mkValue (Some h1)
           (mkParams [mkParam (B "x") (stored qu ue v)] (Nat.max c 1)) false f1)
  /\ getValue qu t (B "/a/" ++ v ++ B "/b") (mkParams [] c) ue
     = Ret (mkValue (Some h2)
              (mkParams [mkParam (B "x") (stored qu ue v)] (Nat.max c 1))
              false (B "/a/:x/b")).
Proof.
  intros -> Hne Hns. unfold getValue. split.
  - at_own_path (B "/a/").
    erewrite (getValue_param_last qu _ _ [] colon (B "x"));
      [|reflexivity..|exact Hne|exact Hns|apply save_first_param; reflexivity].
    reflexivity.
  - at_own_path (B "/a/").
    erewrite (getValue_param_more qu _ _ [] colon (B "x"));
      [|reflexivity..|exact Hne|exact Hns|reflexivity
       |apply save_first_param; reflexivity].
    match goal with
    | |- getValue_walk ?q ?N _ ?val ?u = ?R =>
        change (getValue_walk q N (path N) val u = R);
        rewrite (getValue_exact q N h2 val u eq_refl)
    end.
    reflexivity.
Qed.

End SharedCapture.

(** C7, as the code has it: "/a/:x" and "/a/:y/b" cannot both be
    registered, in either order (the second call panics on the capture
    name); with the same capture name, "/a/:x" and "/a/:x/b" both
    register without error, in either order and for all handler chains,
    and in the tree that either order leaves each route is reached by lookup
    with its own handler chain, for every non-empty value without '/'. *)
Theorem shared_capture_routes (qu : str -> option str)
    (h1 h2 : list HandlerFunc) (v : str) (c : nat) (ue : bool) :
  v <> [] -> no_slash v ->
  let x := addRoute newTree (B "/a/:x") (Some h1) in
  let xb := addRoute newTree (B "/a/:x/b") (Some h2) in
  let yb := addRoute newTree (B "/a/:y/b") (Some h2) in
  let x_xb := addRoute (fst x) (B "/a/:x/b") (Some h2) in
  let xb_x := addRoute (fst xb) (B "/a/:x") (Some h1) in
  snd x = Done /\ snd xb = Done /\ snd yb = Done
  /\ snd (addRoute (fst x) (B "/a/:y/b") (Some h2)) = Panicked WildcardConflict
  /\ snd (addRoute (fst yb) (B "/a/:x") (Some h1)) = Panicked WildcardConflict
  /\ snd x_xb = Done /\ snd xb_x = Done
  /\ forall t, t = fst x_xb \/ t = fst xb_x ->
       (exists r, getValue qu t (B "/a/" ++ v) (mkParams [] c) ue = Ret r
                  /\ v_handlers r = Some h1
                  /\ elems (v_params r) = [mkParam (B "x") (stored qu ue v)])
       /\ (exists r, getValue qu t (B "/a/" ++ v ++ B "/b") (mkParams [] c) ue
                     = Ret r
                     /\ v_handlers r = Some h2
                     /\ elems (v_params r) = [mkParam (B "x") (stored qu ue v)]).
Proof.
  intros Hne Hns x xb yb x_xb xb_x. do 7 (split; [reflexivity|]).
  intros t [Ht|Ht]; vm_compute in Ht.
  all: destruct (lookup_shared_capture qu t h1 h2 _ _ _ _ _ _ v c ue Ht Hne Hns)
         as [E1 E2].
  all: split; eexists; (split; [eassumption|split; reflexivity]).
Qed.

Lemma shared_capture_routes_witness :
  let qu := fun s : str => Some s in
  let x := addRoute newTree (B "/a/:x") (Some [1]) in
  let xb := addRoute newTree (B "/a/:x/b") (Some [2]) in
  let yb := addRoute newTree (B "/a/:y/b") (Some [2]) in
  let x_xb := addRoute (fst x) (B "/a/:x/b") (Some [2]) in
  let xb_x := addRoute (fst xb) (B "/a/:x") (Some [1]) in
  snd x = Done /\ snd xb = Done /\ snd yb = Done
  /\ snd (addRoute (fst x) (B "/a/:y/b") (Some [2])) = Panicked WildcardConflict
  /\ snd (addRoute (fst yb) (B "/a/:x") (Some [1])) = Panicked WildcardConflict
  /\ snd x_xb = Done /\ snd xb_x = Done
  /\ forall t, t = fst x_xb \/ t = fst xb_x ->
       (exists r, getValue qu t (B "/a/" ++ B "v") (mkParams [] 0) false = Ret r
                  /\ v_handlers r = Some [1]
                  /\ elems (v_params r) = [mkParam (B "x") (stored qu false (B "v"))])
       /\ (exists r, getValue qu t (B "/a/" ++ B "v" ++ B "/b") (mkParams [] 0) false
                     = Ret r
                     /\ v_handlers r = Some [2]
                     /\ elems (v_params r) = [mkParam (B "x") (stored qu false (B "v"))]).
Proof.
  apply (shared_capture_routes (fun s => Some s) [1] [2] (B "v") 0 false).
  - discriminate.
  - repeat constructor; discriminate.
Defined.

(** The claim as stated fails: the second registration panics. *)
Lemma shared_capture_counterexample :
  snd (addRoute newTree (B "/a/:x") (Some [1])) = Done
  /\ snd (addRoute (fst (addRoute newTree (B "/a/:x") (Some [1])))
            (B "/a/:y/b") (Some [2]))
     = Panicked WildcardConflict
  /\ snd (addRoute newTree (B "/a/:y/b") (Some [2])) = Done
  /\ snd (addRoute (fst (addRoute newTree (B "/a/:y/b") (Some [2])))
            (B "/a/:x") (Some [1]))
     = Panicked WildcardConflict.
Proof. repeat split. Qed.

(** ** A catch-all together with other captures *)


(** ** Every stored handler chain is non-empty *)

Lemma tree_all_unfold P n :
  tree_all P n <-> P n /\ Forall (tree_all P) (children n).
Proof.
  destruct n as [p i cs h pr t m w f]. unfold tree_all; fold tree_all. cbn [children].
  assert (H : forall l, (fix go (l : list node) : Prop :=
            match l with
            | [] => True
            | c :: l' => tree_all P c /\ go l'
            end) l <-> Forall (tree_all P) l).
  { induction l as [|c l IH]; simpl.
    - split; [constructor|trivial].
    - split.
      + intros [Hc Hl]. constructor; [exact Hc|apply IH; exact Hl].
      + intros Hf. inversion Hf; subst. split; [assumption|apply IH; assumption]. }
  rewrite H. reflexivity.
Qed.

Lemma tree_all_node P n :
  P n -> Forall (tree_all P) (children n) -> tree_all P n.
Proof. intros. apply tree_all_unfold. auto. Qed.

Lemma tree_all_here P n : tree_all P n -> P n.
Proof. intros H. apply tree_all_unfold in H. tauto. Qed.

Lemma tree_all_children P n : tree_all P n -> Forall (tree_all P) (children n).
Proof. intros H. apply tree_all_unfold in H. tauto. Qed.

Section Handlers.
Variable hs : HandlersChain.
Hypothesis Hhs : chain_ok hs.

Local Abbreviation ok := (tree_all handlers_ok).

Lemma ok_fresh p i pr t m w f : ok (mkNode p i [] None pr t m w f).
Proof. apply tree_all_node; [discriminate|constructor]. Qed.

Lemma ok_rebuild n n' :
  ok n -> handlers n' = handlers n \/ handlers n' = hs \/ handlers n' = None ->
  Forall ok (children n') -> ok n'.
Proof.
  intros Hn Hh Hc. apply tree_all_node; [|exact Hc].
  unfold handlers_ok. destruct Hh as [->|[->| ->]];
    [apply (tree_all_here _ _ Hn)|exact Hhs|discriminate].
Qed.

Lemma ok_same n n' :
  ok n -> handlers n' = handlers n -> children n' = children n -> ok n'.
Proof.
  intros Hn Hh Hc. apply tree_all_node.
  - unfold handlers_ok. rewrite Hh. apply (tree_all_here _ _ Hn).
  - rewrite Hc. apply (tree_all_children _ _ Hn).
Qed.

Lemma ok_set_children n cs : ok n -> Forall ok cs -> ok (set_children cs n).
Proof.
  intros Hn Hc. apply tree_all_node; [apply (tree_all_here _ _ Hn)|exact Hc].
Qed.

Lemma ok_set_handlers n : ok n -> ok (set_handlers hs n).
Proof.
  intros Hn. apply tree_all_node; [exact Hhs|apply (tree_all_children _ _ Hn)].
Qed.

Lemma ok_set_handlers_None n : ok n -> ok (set_handlers None n).
Proof.
  intros Hn. apply tree_all_node; [discriminate|apply (tree_all_children _ _ Hn)].
Qed.

Lemma ok_raise k n : ok n -> ok (raise_maxParams k n).
Proof.
  intros Hn. unfold raise_maxParams. case_decide; [|exact Hn].
  eapply ok_same; [exact Hn|reflexivity..].
Qed.

Lemma ok_bump n : ok n -> ok (bump_priority n).
Proof. intros Hn. eapply ok_same; [exact Hn|reflexivity..]. Qed.

Lemma ok_one c : ok c -> Forall ok [c].
Proof. intros. constructor; [assumption|constructor]. Qed.

Lemma ok_set_path v n : ok n -> ok (set_path v n).
Proof. intros Hn. eapply ok_same; [exact Hn|reflexivity..]. Qed.
Lemma ok_set_indices v n : ok n -> ok (set_indices v n).
Proof. intros Hn. eapply ok_same; [exact Hn|reflexivity..]. Qed.
Lemma ok_set_wildChild v n : ok n -> ok (set_wildChild v n).
Proof. intros Hn. eapply ok_same; [exact Hn|reflexivity..]. Qed.
Lemma ok_set_maxParams v n : ok n -> ok (set_maxParams v n).
Proof. intros Hn. eapply ok_same; [exact Hn|reflexivity..]. Qed.
Lemma ok_set_fullPath v n : ok n -> ok (set_fullPath v n).
Proof. intros Hn. eapply ok_same; [exact Hn|reflexivity..]. Qed.
Lemma ok_set_nType v n : ok n -> ok (set_nType v n).
Proof. intros Hn. eapply ok_same; [exact Hn|reflexivity..]. Qed.

Lemma ok_leaf p i pr t m w f : ok (mkNode p i [] hs pr t m w f).
Proof. apply tree_all_node; [exact Hhs|constructor]. Qed.

Ltac ok_solve :=
  first
    [ assumption
    | apply ok_fresh
    | apply ok_leaf
    | apply ok_set_children;
        [ok_solve
        |first [assumption | repeat (constructor; [ok_solve|]); constructor]]
    | apply ok_set_handlers; ok_solve
    | apply ok_set_handlers_None; ok_solve
    | apply ok_raise; ok_solve
    | apply ok_bump; ok_solve
    | apply ok_set_path; ok_solve
    | apply ok_set_indices; ok_solve
    | apply ok_set_wildChild; ok_solve
    | apply ok_set_maxParams; ok_solve
    | apply ok_set_fullPath; ok_solve
    | apply ok_set_nType; ok_solve ].

Lemma insertChild_loop_ok : forall fuel n numParams pth fullPth,
  ok n -> ok (fst (insertChild_loop fuel n numParams pth fullPth hs)).
Proof.
  induction fuel as [|fuel IH]; intros n numParams pth fullPth Hn; simpl.
  - case_decide; simpl; ok_solve.
  - case_decide; simpl; [|ok_solve].
    destruct (findWildcard pth) as [[wildcard i] valid].
    repeat (case_decide || destruct valid || simpl); try ok_solve.
    all: match goal with
         | |- context [insertChild_loop ?fu ?c ?k ?p ?f hs] =>
             pose proof (IH c k p f (ok_fresh _ _ _ _ _ _ _)) as Hrec;
             destruct (insertChild_loop fu c k p f hs) as [child2 st];
             simpl in Hrec |- *
         end.
    all: ok_solve.
Qed.

Lemma insertChild_ok n numParams pth fullPth :
  ok n -> ok (fst (insertChild n numParams pth fullPth hs)).
Proof. apply insertChild_loop_ok. Qed.

Lemma bubble_Forall (Q : node -> Prop) prio : forall k cs,
  Forall Q cs -> Forall Q (fst (bubble cs k prio)).
Proof.
  induction k as [|k IH]; intros cs Hcs; simpl; [exact Hcs|].
  destruct (cs !! k) as [a|] eqn:Ha; [|exact Hcs].
  destruct (cs !! S k) as [b|] eqn:Hb; [|exact Hcs].
  case_decide; [|exact Hcs].
  apply IH. apply Forall_insert; [apply Forall_insert|].
  - exact Hcs.
  - eapply Forall_lookup_1; eassumption.
  - eapply Forall_lookup_1; eassumption.
Qed.

Lemma incrementChildPrio_ok n pos : ok n -> ok (fst (incrementChildPrio n pos)).
Proof.
  intros Hn. unfold incrementChildPrio.
  destruct (children n !! pos) as [c|] eqn:Hc; [|exact Hn].
  pose proof (bubble_Forall ok (incr32 (priority c)) pos
                (<[pos:=bump_priority c]> (children n))) as Hb.
  destruct (bubble _ pos _) as [cs newPos]. simpl in Hb.
  assert (Hcs : Forall ok cs).
  { apply Hb. apply Forall_insert; [apply (tree_all_children _ _ Hn)|].
    apply ok_bump. eapply Forall_lookup_1; [apply (tree_all_children _ _ Hn)|eassumption]. }
  repeat case_decide; simpl; ok_solve.
Qed.

Lemma split_ok n i pth fullPth pfi : ok n -> ok (fst (split n i pth fullPth pfi)).
Proof.
  intros Hn. unfold split.
  match goal with
  | |- context [foldl ?f ?a ?l] =>
      assert (Hchild : ok (foldl f a l))
  end.
  { assert (Hgen : forall l a, ok a -> ok (foldl
        (fun ch v => if decide (maxParams ch < maxParams v)%Z
                     then set_maxParams (maxParams v) ch else ch) a l)).
    { induction l as [|v l IHl]; intros a Ha; simpl; [exact Ha|].
      apply IHl. case_decide; ok_solve. }
    apply Hgen. apply tree_all_node;
      [apply (tree_all_here _ _ Hn)|apply (tree_all_children _ _ Hn)]. }
  case_decide; simpl; ok_solve.
Qed.

Lemma walk_below_ok self n i pth fullPth numParams pfi :
  (forall c p k f, ok c -> ok (fst (self c p k f))) ->
  ok n -> ok (fst (walk_below self n i pth fullPth hs numParams pfi)).
Proof.
  intros IH Hsp. unfold walk_below.
  case_decide; [|case_decide; simpl; ok_solve].
  destruct (wildChild n).
  - destruct (children n) as [|c cs] eqn:Hcs; [exact Hsp|].
    pose proof (tree_all_children _ _ Hsp) as Hch. rewrite Hcs in Hch.
    apply Forall_cons_1 in Hch as [Hc Hrest].
    case_decide.
    + match goal with
      | |- context [self ?a ?b ?c ?d] =>
          pose proof (IH a b c d) as Hrec;
          destruct (self a b c d) as [c' st]
      end.
      simpl in Hrec |- *. apply ok_set_children; [exact Hsp|].
      constructor; [|exact Hrest]. apply Hrec. ok_solve.
    + simpl. apply ok_set_children; [exact Hsp|].
      constructor; [|exact Hrest]. ok_solve.
  - destruct (drop i pth) as [|c rest] eqn:Hd; [exact Hsp|].
    case_decide.
    + destruct (children n) as [|ch cs] eqn:Hcs; [exact Hsp|].
      pose proof (tree_all_children _ _ Hsp) as Hch. rewrite Hcs in Hch.
      apply Forall_cons_1 in Hch as [Hc Hrest].
      match goal with
      | |- context [self ?a ?b ?c ?d] =>
          pose proof (IH a b c d) as Hrec;
          destruct (self a b c d) as [c' st]
      end.
      simpl in Hrec |- *. apply ok_set_children; [exact Hsp|].
      constructor; [|exact Hrest]. apply Hrec. ok_solve.
    + destruct (index_of c (indices n)) as [k|].
      * pose proof (incrementChildPrio_ok n k Hsp) as Hinc.
        destruct (incrementChildPrio n k) as [n2 [k'|]]; simpl in Hinc;
          [|exact Hinc].
        destruct (children n2 !! k') as [ch|] eqn:Hch; [|exact Hinc].
        match goal with
        | |- context [self ?a ?b ?c ?d] =>
            pose proof (IH a b c d) as Hrec;
            destruct (self a b c d) as [c' st]
        end.
        simpl in Hrec |- *. apply ok_set_children; [exact Hinc|].
        apply Forall_insert; [apply (tree_all_children _ _ Hinc)|].
        apply Hrec. eapply Forall_lookup_1;
          [apply (tree_all_children _ _ Hinc)|eassumption].
      * destruct (is_sigil c); simpl negb; cbv iota;
          [apply insertChild_ok; exact Hsp|].
        match goal with
        | |- context [incrementChildPrio ?a ?b] =>
            assert (Hinc : ok (fst (incrementChildPrio a b)));
            [|destruct (incrementChildPrio a b) as [n2 [newPos|]]]
        end.
        { apply incrementChildPrio_ok. apply ok_set_children; [ok_solve|].
          apply Forall_app. split; [apply (tree_all_children _ _ Hsp)|].
          constructor; [apply ok_fresh|constructor]. }
        2: exact Hinc.
        simpl in Hinc.
        match goal with
        | |- context [children n2 !! ?k] =>
            destruct (children n2 !! k) as [ch|] eqn:Hch; [|exact Hinc]
        end.
        match goal with
        | |- context [insertChild ?a ?b ?c ?d hs] =>
            pose proof (insertChild_ok a b c d) as Hrec;
            destruct (insertChild a b c d hs) as [c' st]
        end.
        simpl in Hrec |- *. apply ok_set_children; [exact Hinc|].
        apply Forall_insert; [apply (tree_all_children _ _ Hinc)|].
        apply Hrec. eapply Forall_lookup_1;
          [apply (tree_all_children _ _ Hinc)|eassumption].
Qed.

Lemma walk_ok : forall fuel n pth fullPth numParams pfi,
  ok n -> ok (fst (walk fuel n pth fullPth hs numParams pfi)).
Proof.
  induction fuel as [|fuel IH]; intros n pth fullPth numParams pfi Hn;
    [exact Hn|].
  cbn [walk].
  set (n1 := raise_maxParams numParams n).
  assert (Hn1 : ok n1) by (apply ok_raise; exact Hn).
  clearbody n1. clear Hn n.
  set (i := longestCommonPrefix pth (path n1)). clearbody i.
  match goal with
  | |- context [if decide (i < length (path n1)) then ?a else ?b] =>
      assert (Hsp : ok (fst (if decide (i < length (path n1)) then a else b)))
        by (case_decide; [apply split_ok|]; exact Hn1);
      destruct (if decide (i < length (path n1)) then a else b) as [n ok_]
  end.
  simpl in Hsp. clear Hn1 n1.
  destruct ok_; simpl negb; cbv iota; [|exact Hsp].
  apply walk_below_ok; [|exact Hsp].
  intros c p k f Hc. apply IH. exact Hc.
Qed.

Lemma addRoute_ok n pth : ok n -> ok (fst (addRoute n pth hs)).
Proof.
  intros Hn. unfold addRoute. case_decide.
  - pose proof (insertChild_ok (bump_priority n) (countParams pth) pth pth
                  (ok_bump _ Hn)) as H1.
    destruct (insertChild _ _ _ _ hs) as [n' st]. simpl in H1.
    destruct st; simpl; ok_solve.
  - apply walk_ok. apply ok_bump. exact Hn.
Qed.

End Handlers.

Lemma get_lookup ts m : forall k r,
  get ts m = Some (k, r) ->
  exists t, ts !! k = Some t /\ tree_root t = r.
Proof.
  induction ts as [|t ts IH]; intros k r H; simpl in H; [discriminate|].
  case_decide.
  - injection H as <- <-. exists t. split; reflexivity.
  - destruct (get ts m) as [[k' r']|] eqn:Hg; [|discriminate].
    simpl in H. injection H as <- <-.
    destruct (IH k' r' eq_refl) as (t' & Ht & Hr). exists t'. split; assumption.
Qed.

Lemma newTree_ok : tree_all handlers_ok newTree.
Proof. apply tree_all_node; [discriminate|constructor]. Qed.

Lemma Centre_addRoute_ok c m p h :
  termini_nonempty c -> termini_nonempty (fst (Centre_addRoute c m p h)).
Proof.
  intros Hc. unfold Centre_addRoute.
  destruct p as [|c0 p]; [exact Hc|].
  repeat (case_decide; [exact Hc|]).
  assert (Hh : chain_ok h).
  { destruct h as [[|x l]|]; simpl in *; [lia|discriminate|lia]. }
  destruct (get (trees c) m) as [[k r]|] eqn:Hg.
  - destruct (get_lookup _ _ _ _ Hg) as (t & Ht & <-).
    pose proof (addRoute_ok h Hh (tree_root t) (c0 :: p)) as Hr.
    destruct (addRoute (tree_root t) (c0 :: p) h) as [r' st].
    unfold termini_nonempty in *. simpl in *.
    apply Forall_insert; [exact Hc|]. apply Hr.
    apply (Forall_lookup_1 _ _ _ _ Hc Ht).
  - pose proof (addRoute_ok h Hh newTree (c0 :: p)) as Hr.
    destruct (addRoute newTree (c0 :: p) h) as [r' st].
    unfold termini_nonempty in *. simpl in *.
    apply Forall_insert; [|apply Hr; exact newTree_ok].
    apply Forall_app. split; [exact Hc|].
    constructor; [exact newTree_ok|constructor].
Qed.

(** C9: a call of the registry's [addRoute] with an empty handler chain
    ([nil] or of length 0) panics whatever the method and the pattern,
    leaving the registry as it was; and in every registry built from
    [New()] by calls of [addRoute], every node of every tree carries
    either no handler chain or a non-empty one. *)
Theorem empty_chain_rejected (c : Centre) (m p : str) (h : HandlersChain)
    (c' : Centre) :
  chain_len h = 0 ->
  registered c' ->
  (exists k, Centre_addRoute c m p h = (c, Panicked k))
  /\ termini_nonempty c'.
Proof.
  intros Hlen Hreg. split.
  - unfold Centre_addRoute. destruct p as [|c0 p]; [eexists; reflexivity|].
    repeat (case_decide; [eexists; reflexivity|]). lia.
  - induction Hreg as [|c1 m1 p1 h1 Hreg IH]; [constructor|].
    apply Centre_addRoute_ok. exact IH.
Qed.

Lemma empty_chain_rejected_witness :
  let c' := fst (Centre_addRoute New (B "GET") (B "/a/:x") (Some [7])) in
  (exists k, Centre_addRoute c' (B "GET") (B "/b") (Some []) = (c', Panicked k))
  /\ termini_nonempty c'.
Proof.
  apply (empty_chain_rejected _ (B "GET") (B "/b") (Some [])).
  - reflexivity.
  - apply registered_addRoute. apply registered_New.
Defined.

(** ** maxParams of the root after the first registration *)

(** C5 fails on the code at the first registration into an empty tree:
    after [addRoute("/:x")] the root has [maxParams = 0] while its only
    child, the parameter node, has [maxParams = 1]; the lookup of "/v"
    with an empty buffer whose capacity is the root's [maxParams] saves
    one parameter, into a newly made buffer of capacity 1. *)
Theorem root_maxParams_below_child :
  let r := addRoute newTree (B "/:x") (Some [7]) in
  snd r = Done
  /\ maxParams (fst r) = 0%Z
  /\ (exists c, children (fst r) = [c] /\ nType c = param /\ maxParams c = 1%Z)
  /\ getValue (fun s => Some s) (fst r) (B "/v") (mkParams [] 0) false
     = Ret (mkValue (Some [7]) (mkParams [mkParam (B "x") (B "v")] 1) false
              (B "/:x")).
Proof.
  split; [reflexivity|]. split; [reflexivity|]. split.
  - eexists. split; [reflexivity|]. split; reflexivity.
  - reflexivity.
Qed.

(** ** The indices and children of every node *)

Local Abbreviation inv := (tree_all node_inv).

Lemma lcp_from_shift a : forall b i, lcp_from i a b = i + lcp_from 0 a b.
Proof.
  induction a as [|x a IH]; intros [|y b] i; simpl; try lia.
  case_decide; [|lia]. rewrite (IH b (S i)), (IH b 1). lia.
Qed.

Lemma lcp_cons x a y b :
  longestCommonPrefix (x :: a) (y :: b)
  = if decide (x = y) then S (longestCommonPrefix a b) else 0.
Proof.
  unfold longestCommonPrefix. simpl. case_decide; [|reflexivity].
  rewrite lcp_from_shift. reflexivity.
Qed.

Lemma lcp_nil_r a : longestCommonPrefix a [] = 0.
Proof. destruct a; reflexivity. Qed.

Lemma lcp_nil_l b : longestCommonPrefix [] b = 0.
Proof. reflexivity. Qed.

Lemma lcp_spec a : forall b,
  let i := longestCommonPrefix a b in
  i <= length a /\ i <= length b /\ take i a = take i b
  /\ (i < length a -> i < length b -> a !! i <> b !! i).
Proof.
  induction a as [|x a IH]; intros b.
  - cbn zeta. rewrite lcp_nil_l. simpl. repeat split; lia.
  - destruct b as [|y b].
    + cbn zeta. rewrite lcp_nil_r. simpl. repeat split; lia.
    + cbn zeta. rewrite lcp_cons. case_decide as Hxy.
      * subst y. destruct (IH b) as (H1 & H2 & H3 & H4). simpl.
        repeat split; try lia.
        -- f_equal. exact H3.
        -- intros Ha Hb. apply H4; lia.
      * simpl. repeat split; try lia. intros _ _ [=]. contradiction.
Qed.

Lemma lcp_prefix a b : take (length b) a = b -> longestCommonPrefix a b = length b.
Proof.
  revert a. induction b as [|y b IH]; intros a H.
  - apply lcp_nil_r.
  - destruct a as [|x a]; [discriminate|]. simpl in H. injection H as -> H.
    rewrite lcp_cons, decide_True by reflexivity. simpl. f_equal. apply IH. exact H.
Qed.

Lemma lcp_head a b x :
  head a = Some x -> head b = Some x -> 1 <= longestCommonPrefix a b.
Proof.
  destruct a as [|x' a]; [discriminate|]. destruct b as [|y b]; [discriminate|].
  simpl. intros [= ->] [= ->]. rewrite lcp_cons, decide_True by reflexivity. lia.
Qed.

Lemma bubble_spec prio : forall k cs x cs' k',
  cs !! k = Some x ->
  bubble cs k prio = (cs', k') ->
  k' <= k
  /\ cs' = take k' cs ++ [x] ++ drop k' (take k cs) ++ drop (S k) cs.
Proof.
  induction k as [|k IH]; intros cs x cs' k' Hx Hb; simpl in Hb.
  - injection Hb as <- <-. split; [lia|]. simpl.
    destruct cs as [|y cs]; [discriminate|]. simpl in Hx. injection Hx as ->.
    reflexivity.
  - rewrite Hx in Hb.
    assert (Hstay : cs = take (S k) cs ++ [x] ++ drop (S k) (take (S k) cs)
                         ++ drop (S (S k)) cs).
    { rewrite drop_ge by (rewrite length_take; lia). simpl.
      rewrite <- (take_drop_middle cs (S k) x Hx) at 1. reflexivity. }
    destruct (cs !! k) as [a|] eqn:Ha.
    2:{ injection Hb as <- <-. split; [lia|exact Hstay]. }
    case_decide as Hlt.
    2:{ injection Hb as <- <-. split; [lia|exact Hstay]. }
    assert (Hk : S k < length cs) by (apply lookup_lt_Some in Hx; exact Hx).
    apply IH with (x := x) in Hb.
    2:{ rewrite list_lookup_insert_eq; [reflexivity|]. rewrite length_insert. lia. }
    destruct Hb as [Hle ->]. split; [lia|].
    rewrite !take_insert_ge by lia.
    rewrite (take_S_r cs k a Ha).
    rewrite drop_app_le by (rewrite length_take; lia).
    rewrite drop_insert_lt by lia. 
    rewrite (drop_S (<[S k:=a]> cs) a (S k)).
    2:{ rewrite list_lookup_insert_eq; [reflexivity|lia]. }
    rewrite drop_insert_lt by lia.
    rewrite <- !app_assoc. reflexivity.
Qed.

Lemma set_indices_same n : set_indices (indices n) n = n.
Proof. destruct n; reflexivity. Qed.

Lemma index_for_bump c : index_for (bump_priority c) = index_for c.
Proof. reflexivity. Qed.

Lemma incrementChildPrio_spec n pos n2 k' :
  incrementChildPrio n pos = (n2, Some k') ->
  exists c,
    children n !! pos = Some c /\ k' <= pos
    /\ n2 = set_indices
              (if decide (k' = pos) then indices n else move (indices n) pos k')
              (set_children
                 (take k' (children n) ++ [bump_priority c]
                  ++ drop k' (take pos (children n))
                  ++ drop (S pos) (children n)) n)
    /\ (k' <> pos -> pos < length (indices n)).
Proof.
  unfold incrementChildPrio. intros H.
  destruct (children n !! pos) as [c|] eqn:Hc; [|discriminate].
  exists c. split; [reflexivity|].
  assert (Hpos : pos < length (children n)) by (eapply lookup_lt_Some; eassumption).
  destruct (bubble _ pos _) as [cs k] eqn:Hb.
  apply bubble_spec with (x := bump_priority c) in Hb.
  2:{ apply list_lookup_insert_eq. exact Hpos. }
  destruct Hb as [Hle ->].
  rewrite take_insert_ge in H by lia.
  rewrite take_insert_ge in H by lia.
  rewrite drop_insert_lt in H by lia.
  cbn [indices set_children] in H.
  destruct (decide (k <> pos)) as [Hne|Heq].
  - destruct (decide (pos + 1 <= length (indices n))); [|discriminate].
    injection H as <- <-. split; [lia|]. split; [|intros _; lia].
    rewrite decide_False by lia. reflexivity.
  - injection H as <- <-. apply dec_stable in Heq. subst k.
    split; [lia|]. split; [|intros; lia].
    rewrite decide_True by reflexivity.
    symmetry. apply (set_indices_same (set_children _ n)).
Qed.

Lemma move_fmap {A B} (f : A -> B) l pos k :
  f <$> move l pos k = move (f <$> l) pos k.
Proof.
  unfold move. rewrite !fmap_app, !fmap_take, !fmap_drop, !fmap_take.
  reflexivity.
Qed.

Lemma move_lookup {A} (l : list A) pos k x :
  l !! pos = Some x -> k <= pos ->
  move l pos k = take k l ++ [x] ++ drop k (take pos l) ++ drop (S pos) l.
Proof.
  intros Hx Hk. unfold move. rewrite (drop_S l x pos Hx). simpl.
  replace (pos + 1) with (S pos) by lia. reflexivity.
Qed.

Lemma move_same {A} (l : list A) pos x :
  l !! pos = Some x ->
  take pos l ++ [x] ++ drop pos (take pos l) ++ drop (S pos) l = l.
Proof.
  intros Hx. rewrite drop_ge by (rewrite length_take; lia). simpl.
  apply take_drop_middle. exact Hx.
Qed.

(** Reordering keeps the index string in step with the children. *)
Lemma incrementChildPrio_indexed n pos n2 k' :
  incrementChildPrio n pos = (n2, Some k') ->
  indices n = index_for <$> children n ->
  indices n2 = index_for <$> children n2.
Proof.
  intros H Hidx. destruct (incrementChildPrio_spec _ _ _ _ H)
    as (c & Hc & Hle & -> & Hlt).
  cbn [indices children set_indices set_children].
  rewrite !fmap_app, fmap_take, fmap_drop, fmap_take, fmap_drop. simpl.
  rewrite index_for_bump, <- Hidx.
  assert (Hi : indices n !! pos = Some (index_for c)).
  { rewrite Hidx, list_lookup_fmap, Hc. reflexivity. }
  case_decide as Hk.
  - subst k'. symmetry. apply move_same. exact Hi.
  - apply move_lookup; assumption.
Qed.

Lemma incrementChildPrio_child n pos n2 k' :
  incrementChildPrio n pos = (n2, Some k') ->
  exists c, children n !! pos = Some c
            /\ children n2 !! k' = Some (bump_priority c).
Proof.
  intros H. destruct (incrementChildPrio_spec _ _ _ _ H)
    as (c & Hc & Hle & -> & Hlt).
  exists c. split; [exact Hc|]. cbn [children set_indices set_children].
  assert (Hpos : pos < length (children n)) by (eapply lookup_lt_Some; eassumption).
  rewrite lookup_app_r by (rewrite length_take; lia).
  rewrite length_take. replace (k' - k' `min` length (children n)) with 0 by lia.
  reflexivity.
Qed.

Lemma incrementChildPrio_Forall (Q : node -> Prop) n pos n2 k' :
  incrementChildPrio n pos = (n2, Some k') ->
  (forall c, Q c -> Q (bump_priority c)) ->
  Forall Q (children n) -> Forall Q (children n2).
Proof.
  intros H Hb HQ. destruct (incrementChildPrio_spec _ _ _ _ H)
    as (c & Hc & Hle & -> & Hlt).
  cbn [children set_indices set_children].
  repeat (apply Forall_app; split).
  - apply Forall_take. exact HQ.
  - constructor; [|constructor]. apply Hb. eapply Forall_lookup_1; eassumption.
  - apply Forall_drop, Forall_take. exact HQ.
  - apply Forall_drop. exact HQ.
Qed.

Lemma node_inv_leaf n :
  children n = [] -> indices n = [] -> wildChild n = false -> node_inv n.
Proof.
  intros Hc Hi Hw. unfold node_inv. rewrite Hw, Hc, Hi.
  split; [constructor|]. case_decide; simpl; auto.
Qed.

Lemma inv_leaf n :
  children n = [] -> indices n = [] -> wildChild n = false -> inv n.
Proof.
  intros Hc Hi Hw. apply tree_all_node; [apply node_inv_leaf; assumption|].
  rewrite Hc. constructor.
Qed.

Lemma index_for_head n c : head (path n) = Some c -> index_for n = c.
Proof. unfold index_for. destruct (path n); simpl; congruence. Qed.

Lemma index_for_nil n : path n = [] -> index_for n = slash.
Proof. unfold index_for. intros ->. reflexivity. Qed.

Lemma count_sigils_take_0 k p : count_sigils p = 0 -> count_sigils (take k p) = 0.
Proof.
  intros H. rewrite <- (take_drop k p), count_sigils_app in H. lia.
Qed.

Lemma count_sigils_drop_0 k p : count_sigils p = 0 -> count_sigils (drop k p) = 0.
Proof.
  intros H. rewrite <- (take_drop k p), count_sigils_app in H. lia.
Qed.

Lemma insertChild_loop_inv hs fullPth : forall fuel n numParams pth n',
  insertChild_loop fuel n numParams pth fullPth hs = (n', Done) ->
  children n = [] -> indices n = [] -> wildChild n = false ->
  numParams = Z.of_nat (count_sigils pth) -> count_sigils pth <= 255 ->
  inv n' /\ nType n' = nType n
  /\ (path n = [] ->
      count_sigils (path n') = 0
      /\ forall c, head pth = Some c -> is_sigil c = false -> index_for n' = c)
  /\ (forall c, head pth = Some c -> is_sigil c = true -> path n' = path n).
Proof.
  induction fuel as [|fuel IH]; intros n numParams pth n' Hins Hcs Hidx Hwc Hnum Hle.
  all: destruct (decide (count_sigils pth = 0)) as [Hz|Hnz].
  1,3: rewrite insertChild_loop_finish in Hins by lia;
    injection Hins as <-;
    (split; [apply inv_leaf; assumption|]);
    (split; [reflexivity|]);
    (split; [intros _; split; [exact Hz|intros c Hc _; apply index_for_head; exact Hc]|]);
    intros c Hc Hs; exfalso; destruct pth; [discriminate|];
    simpl in Hc, Hz; injection Hc as ->; rewrite Hs in Hz; lia.
  - simpl in Hins. rewrite decide_True in Hins by lia. discriminate.
  - destruct (findWildcard_some pth 0) as (pre & sg & tl & Hpth & Hpre & Hsg & Hfw);
      [lia|].
    pose proof (count_sigils_split pre sg tl Hpre Hsg) as Hcount.
    rewrite <- Hpth in Hcount.
    simpl in Hins. rewrite decide_True in Hins by lia.
    unfold findWildcard in Hins. rewrite Hfw in Hins. simpl "+" in Hins.
    cbv beta iota zeta in Hins.
    rewrite decide_False in Hins by lia.
    destruct (bool_decide (count_sigils (segment tl) = 0)) eqn:Hvalid;
      [|discriminate].
    apply bool_decide_eq_true in Hvalid. simpl negb in Hins. cbv iota in Hins.
    destruct (decide (length (sg :: segment tl) < 2)); [discriminate|].
    rewrite Hcs in Hins. simpl length in Hins.
    rewrite decide_False in Hins by lia.
    assert (Hhead : forall c, head pth = Some c -> is_sigil c = true -> pre = []).
    { intros c Hc Hs. destruct pre as [|x pre]; [reflexivity|]. exfalso.
      rewrite Hpth in Hc. simpl in Hc, Hpre. injection Hc as ->.
      rewrite Hs in Hpre. lia. }
    assert (Hhead' : forall c, head pth = Some c -> is_sigil c = false ->
                               head pre = Some c).
    { intros c Hc Hs. destruct pre as [|x pre]; [|rewrite Hpth in Hc; exact Hc].
      exfalso. rewrite Hpth in Hc. simpl in Hc. injection Hc as ->. congruence. }
    destruct (decide ((sg :: segment tl) !! 0 = Some colon)) as [Hcolon|Hstar].
    + (* param *)
      simpl in Hcolon. injection Hcolon as ->.
      set (n1 := if decide (0 < Z.of_nat (length pre))%Z
                 then set_path (take (Z.to_nat (Z.of_nat (length pre))) pth) n
                 else n).
      assert (Hpair :
        (if decide (0 < Z.of_nat (length pre))%Z
         then (set_path (take (Z.to_nat (Z.of_nat (length pre))) pth) n,
               drop (Z.to_nat (Z.of_nat (length pre))) pth)
         else (n, pth)) = (n1, colon :: tl)).
      { subst n1. destruct (decide (0 < Z.of_nat (length pre))%Z) as [Hp|Hp].
        { rewrite Nat2Z.id, Hpth, drop_app_length. reflexivity. }
        destruct pre; [|simpl in Hp; lia]. simpl in Hpth. rewrite Hpth.
        reflexivity. }
      rewrite Hpair in Hins. clear Hpair. cbv beta iota zeta in Hins.
      assert (Hn1 : nType n1 = nType n /\ (path n = [] -> path n1 = pre)
                    /\ (pre = [] -> path n1 = path n)).
      { subst n1. destruct (decide (0 < Z.of_nat (length pre))%Z) as [Hp|Hp].
        - split; [reflexivity|]. simpl.
          rewrite Nat2Z.id, Hpth, take_app_length. split; [reflexivity|].
          intros ->. simpl in Hp. lia.
        - destruct pre; [|simpl in Hp; lia]. auto. }
      destruct Hn1 as (Hty1 & Hp1 & Hp1').
      simpl length in Hins.
      destruct (decide (S (length (segment tl)) < S (length tl))) as [Hmore|Hlast].
      * assert (Hdrop : drop (S (length (segment tl))) (colon :: tl) = after tl)
          by reflexivity.
        rewrite Hdrop in Hins. clear Hdrop.
        destruct (insertChild_loop fuel _ _ (after tl) fullPth hs)
          as [child2 st] eqn:Hrec.
        injection Hins as <- ->.
        assert (Hafter : head (after tl) = Some slash).
        { destruct (after_head tl) as [Ha|Ha]; [|exact Ha].
          exfalso. rewrite <- (segment_after tl) in Hmore at 2.
          rewrite Ha, app_nil_r in Hmore. lia. }
        apply IH in Hrec; [|reflexivity..| |lia].
        2:{ unfold decr8. rewrite Hnum. rewrite Z.mod_small by lia. lia. }
        destruct Hrec as (Hinv2 & Hty2 & Hpath2 & _).
        destruct (Hpath2 eq_refl) as [Hc2 Hi2].
        split; [|split; [exact Hty1|split]].
        -- apply tree_all_node.
           ++ unfold node_inv. simpl. eexists. split; [reflexivity|].
              split; [left; reflexivity|]. simpl. rewrite Hvalid. reflexivity.
           ++ simpl. constructor; [|constructor]. apply tree_all_node.
              ** unfold node_inv. simpl. split.
                 --- constructor; [|constructor]. unfold plain_child.
                     rewrite Hty2. simpl. repeat split; [discriminate..|exact Hc2].
                 --- split; [lia|]. split; [|left; reflexivity].
                     constructor; [|constructor]. apply Hi2; [exact Hafter|reflexivity].
              ** simpl. constructor; [exact Hinv2|constructor].
        -- intros Hp. simpl. rewrite (Hp1 Hp). split; [exact Hpre|].
           intros c Hc Hs. apply index_for_head. simpl. rewrite (Hp1 Hp).
           apply Hhead'; assumption.
        -- intros c Hc Hs. simpl. apply Hp1'. eapply Hhead; eassumption.
      * injection Hins as <-.
        split; [|split; [exact Hty1|split]].
        -- apply tree_all_node.
           ++ unfold node_inv. simpl. eexists. split; [reflexivity|].
              split; [left; reflexivity|]. simpl. rewrite Hvalid. reflexivity.
           ++ simpl. constructor; [|constructor]. apply inv_leaf; reflexivity.
        -- intros Hp. simpl. rewrite (Hp1 Hp). split; [exact Hpre|].
           intros c Hc Hs. apply index_for_head. simpl. rewrite (Hp1 Hp).
           apply Hhead'; assumption.
        -- intros c Hc Hs. simpl. apply Hp1'. eapply Hhead; eassumption.
    + (* catchAll *)
      assert (sg = star) as ->.
      { destruct (sigil_cases sg Hsg) as [-> | ->]; [|reflexivity].
        exfalso. apply Hstar. reflexivity. }
      clear Hstar.
      destruct (decide (_ \/ _)) as [|Hend]; [discriminate|].
      match type of Hins with
      | context [decide (?a < ?b /\ ?c)] =>
          destruct (decide (a < b /\ c)) as [|Hnolast]; [discriminate|]
      end.
      destruct (decide (Z.of_nat (length pre) - 1 < 0)%Z) as [|Hi];
        [discriminate|].
      destruct (decide (pth !! Z.to_nat (Z.of_nat (length pre) - 1) <> Some slash))
        as [|Hslash]; [discriminate|].
      apply dec_stable in Hslash.
      assert (Hlen : length pth
                     = length pre + S (length (segment tl) + length (after tl))).
      { rewrite Hpth, length_app. simpl. rewrite <- (segment_after tl) at 1.
        rewrite length_app. lia. }
      assert (Ha : after tl = []).
      { destruct (after tl) eqn:E; [reflexivity|]. exfalso. apply Hend. left.
        rewrite Hlen. simpl length. lia. }
      assert (Htl : segment tl = tl).
      { rewrite <- (segment_after tl) at 2. rewrite Ha. symmetry. apply app_nil_r. }
      destruct (exists_last (l := pre)) as (pre' & x & Hpre').
      { intros ->. simpl in Hi. lia. }
      assert (Hidx' : Z.to_nat (Z.of_nat (length pre) - 1) = length pre').
      { rewrite Hpre', length_app. simpl. lia. }
      rewrite Hidx' in *.
      assert (x = slash) as ->.
      { rewrite Hpth, Hpre', <- app_assoc in Hslash. cbn [app] in Hslash.
        rewrite list_lookup_middle in Hslash by reflexivity. congruence. }
      assert (Hpth' : pth = pre' ++ slash :: star :: tl).
      { rewrite Hpth, Hpre', <- app_assoc. reflexivity. }
      rewrite Hpth' in Hins. rewrite take_app_length, drop_app_length in Hins.
      assert (Hpre0 : count_sigils pre' = 0).
      { rewrite Hpre', count_sigils_app in Hpre. lia. }
      injection Hins as <-.
      set (leaf := mkNode (slash :: star :: tl) [] [] hs 1 catchAll 1 false fullPth).
      set (anchor := set_children [leaf]
                       (bump_priority
                          (mkNode [] [] [] None 0 catchAll 1 true fullPth))).
      assert (Hplain : plain_child anchor).
      { unfold plain_child. simpl. split; [discriminate|]. split; reflexivity. }
      assert (Hanchor : inv anchor).
      { apply tree_all_node.
        - unfold node_inv. simpl. exists leaf. split; [reflexivity|].
          split; [right; reflexivity|]. simpl. rewrite <- Htl, Hvalid. reflexivity.
        - simpl. constructor; [|constructor]. apply inv_leaf; reflexivity. }
      assert (Hai : index_for anchor = slash) by reflexivity.
      clearbody anchor. clear leaf.
      match goal with
      | |- context [set_indices [slash] ?m] => set (n2 := set_indices [slash] m)
      end.
      assert (Hn2 : wildChild n2 = false /\ nType n2 = nType n /\ path n2 = pre'
                    /\ indices n2 = [slash]).
      { subst n2. case_decide; simpl; auto. }
      destruct Hn2 as (Hw2 & Hty2 & Hp2 & Hi2). clearbody n2.
      split; [|split; [|split]].
      * apply tree_all_node; [|simpl; constructor; [exact Hanchor|constructor]].
        unfold node_inv. simpl. rewrite Hw2, Hi2, Hai.
        split; [constructor; [exact Hplain|constructor]|].
        case_decide; simpl; [|reflexivity].
        split; [lia|]. split; [|right; reflexivity].
        constructor; [exact Hai|constructor].
      * simpl. exact Hty2.
      * intros Hp. simpl. rewrite Hp2. split; [exact Hpre0|].
        intros c Hc Hs. unfold index_for. simpl. rewrite Hp2.
        rewrite Hpth' in Hc. destruct pre'; simpl in Hc; congruence.
      * intros c Hc Hs. exfalso. pose proof (Hhead c Hc Hs) as E.
        rewrite E in Hpre'. destruct pre'; discriminate.
Qed.

Lemma same_shape_inv n n' : same_shape n n' -> inv n -> inv n'.
Proof.
  intros (Hp & Hi & Hc & Ht & Hw) Hn. apply tree_all_node.
  - pose proof (tree_all_here _ _ Hn) as H. unfold node_inv in *.
    rewrite Hw, Hc, Ht, Hi. exact H.
  - rewrite Hc. apply (tree_all_children _ _ Hn).
Qed.

Lemma same_shape_face n n' : same_shape n n' -> same_face n n'.
Proof.
  intros (Hp & Hi & Hc & Ht & Hw). unfold same_face, index_for.
  rewrite Hp, Ht. auto.
Qed.

Lemma same_face_trans a b c : same_face a b -> same_face b c -> same_face a c.
Proof.
  intros (H1 & H2 & H3 & H4) (G1 & G2 & G3 & G4). unfold same_face.
  repeat split; try congruence.
  intros Ha. rewrite G4 by congruence. auto.
Qed.

Lemma same_shape_bump n : same_shape n (bump_priority n).
Proof. repeat split. Qed.

Lemma same_shape_raise k n : same_shape n (raise_maxParams k n).
Proof. unfold raise_maxParams. case_decide; repeat split. Qed.

Lemma plain_child_face c c' : same_face c c' -> plain_child c -> plain_child c'.
Proof.
  intros (H1 & H2 & H3 & H4) (P1 & P2 & P3). unfold plain_child.
  rewrite H1, H3. repeat split; try assumption.
  intros Hc. rewrite H4 by exact Hc. auto.
Qed.

Lemma fmap_insert_face (cs : list node) k ch ch' :
  cs !! k = Some ch -> index_for ch' = index_for ch ->
  index_for <$> <[k:=ch']> cs = index_for <$> cs.
Proof.
  intros Hk Hf. rewrite list_fmap_insert, Hf. apply list_insert_id.
  rewrite list_lookup_fmap, Hk. reflexivity.
Qed.

Lemma node_inv_replace n k ch ch' :
  node_inv n -> children n !! k = Some ch -> same_face ch ch' ->
  node_inv (set_children (<[k:=ch']> (children n)) n).
Proof.
  intros Hn Hk Hf. unfold node_inv in *. cbn [wildChild children nType indices set_children].
  destruct (wildChild n).
  - destruct Hn as (c & Hc & Hw & Hcount). rewrite Hc in Hk |- *.
    destruct k as [|k]; [|discriminate]. simpl in Hk. injection Hk as ->.
    destruct Hf as (H1 & H2 & H3 & H4).
    exists ch'. split; [reflexivity|]. unfold wild_type in *. rewrite H1, H3. auto.
  - destruct Hn as [HT Hrest]. split.
    + apply Forall_insert; [exact HT|]. eapply plain_child_face; [exact Hf|].
      eapply Forall_lookup_1; eassumption.
    + pose proof Hf as (H1 & H2 & H3 & H4).
      rewrite (fmap_insert_face _ _ _ _ Hk H2). case_decide; [|exact Hrest].
      destruct Hrest as (Hl & Hs & Hi). rewrite length_insert.
      split; [exact Hl|]. split; [|exact Hi].
      apply Forall_insert; [exact Hs|]. rewrite H2.
      eapply (Forall_lookup_1 _ _ _ _ Hs Hk).
Qed.

Lemma inv_replace n k ch ch' :
  inv n -> children n !! k = Some ch -> same_face ch ch' -> inv ch' ->
  inv (set_children (<[k:=ch']> (children n)) n).
Proof.
  intros Hn Hk Hf Hc. apply tree_all_node.
  - apply node_inv_replace with (ch := ch); [apply (tree_all_here _ _ Hn)|assumption..].
  - simpl. apply Forall_insert; [apply (tree_all_children _ _ Hn)|exact Hc].
Qed.

Lemma inv_child n k ch : inv n -> children n !! k = Some ch -> inv ch.
Proof.
  intros Hn Hk. eapply Forall_lookup_1; [apply (tree_all_children _ _ Hn)|exact Hk].
Qed.

Lemma index_of_Some c ind k : index_of c ind = Some k -> ind !! k = Some c.
Proof.
  revert k. induction ind as [|x ind IH]; intros k H; simpl in H; [discriminate|].
  case_decide.
  - injection H as <-. subst. reflexivity.
  - destruct (index_of c ind) as [j|]; [|discriminate]. simpl in H.
    injection H as <-. simpl. apply IH. reflexivity.
Qed.

Lemma foldl_raise_shape (l : list node) : forall a,
  same_shape a
    (foldl (fun ch v => if decide (maxParams ch < maxParams v)%Z
                        then set_maxParams (maxParams v) ch else ch) a l).
Proof.
  induction l as [|v l IH]; intros a; simpl; [repeat split|].
  specialize (IH (if decide (maxParams a < maxParams v)%Z
                  then set_maxParams (maxParams v) a else a)).
  destruct IH as (H1 & H2 & H3 & H4 & H5).
  case_decide; repeat split; simpl in *; congruence.
Qed.

Lemma split_inv n i pth fullPth pfi m :
  split n i pth fullPth pfi = (m, true) ->
  inv n -> ~ wild_type n -> count_sigils (path n) = 0 ->
  i < length (path n) ->
  inv m /\ nType m = nType n /\ path m = take i pth /\ wildChild m = false.
Proof.
  unfold split. intros H Hn Hnw Hcount Hi.
  match type of H with
  | context [foldl ?f ?a ?l] =>
      pose proof (foldl_raise_shape l a) as Hshape; set (child := foldl f a l) in *
  end.
  cbn [children] in Hshape.
  destruct Hshape as (Hp & Hin & Hc & Ht & Hw). simpl in Hp, Hin, Hc, Ht, Hw.
  assert (Hchild : inv child).
  { apply tree_all_node.
    - pose proof (tree_all_here _ _ Hn) as Hn0. unfold node_inv in *.
      rewrite Hw, Hc, Ht, Hin. simpl. destruct (wildChild n); [exact Hn0|].
      destruct Hn0 as [HT Hrest]. split; [exact HT|].
      destruct (decide (nType n = param)) as [Hpar|Hpar]; [|exact Hrest].
      exfalso. apply Hnw. left. exact Hpar.
    - rewrite Hc. apply (tree_all_children _ _ Hn). }
  assert (Hhead : exists b, drop i (path n) = b :: drop (S i) (path n)).
  { destruct (path n !! i) as [b|] eqn:Hb.
    - exists b. apply drop_S. exact Hb.
    - apply lookup_ge_None in Hb. lia. }
  destruct Hhead as [b Hb].
  clearbody child.
  case_decide; [|discriminate]. injection H as <-.
  split; [|repeat split].
  apply tree_all_node.
  - unfold node_inv. cbn. rewrite Hb. simpl. split.
    + constructor; [|constructor]. unfold plain_child. rewrite Ht, Hp. simpl.
      split; [discriminate|]. split; [discriminate|].
      apply count_sigils_drop_0. exact Hcount.
    + assert (Hidx : index_for child = b).
      { unfold index_for. rewrite Hp, Hb. reflexivity. }
      case_decide as Hpar.
      * exfalso. apply Hnw. left. exact Hpar.
      * rewrite Hidx. reflexivity.
  - cbn. constructor; [exact Hchild|constructor].
Qed.

Lemma insertChild_loop_sigil_children hs fullPth fuel n numParams pth c :
  head pth = Some c -> is_sigil c = true -> (0 < numParams)%Z ->
  children n <> [] ->
  snd (insertChild_loop fuel n numParams pth fullPth hs) <> Done.
Proof.
  intros Hc Hs Hnum Hch. destruct pth as [|x pth]; [discriminate|].
  simpl in Hc. injection Hc as ->.
  destruct fuel as [|fuel]; simpl; rewrite decide_True by lia; [discriminate|].
  unfold findWildcard. simpl. rewrite Hs.
  destruct (findWildcard_end pth 0 true) as [[e|] valid].
  all: cbv beta iota zeta; rewrite decide_False by lia.
  all: destruct valid; simpl negb; cbv iota; [|discriminate].
  all: case_decide; [discriminate|].
  all: rewrite decide_True; [discriminate|].
  all: destruct (children n); [contradiction|simpl; lia].
Qed.

Lemma count_sigils_take_le k p : count_sigils (take k p) <= count_sigils p.
Proof. rewrite <- (take_drop k p) at 2. rewrite count_sigils_app. lia. Qed.

Lemma head_drop_lookup {A} (l : list A) i : head (drop i l) = l !! i.
Proof. rewrite head_lookup, lookup_drop. f_equal. lia. Qed.

Lemma incrementChildPrio_append m c fresh m2 newPos :
  length (indices m) = length (children m) ->
  incrementChildPrio
    (set_children (children m ++ [fresh]) (set_indices (indices m ++ [c]) m))
    (length (indices m)) = (m2, Some newPos) ->
  newPos <= length (children m)
  /\ children m2 = take newPos (children m) ++ [bump_priority fresh]
                   ++ drop newPos (children m)
  /\ indices m2 = take newPos (indices m) ++ [c] ++ drop newPos (indices m)
  /\ nType m2 = nType m /\ path m2 = path m /\ wildChild m2 = wildChild m.
Proof.
  intros Hlen H. apply incrementChildPrio_spec in H.
  destruct H as (x & Hx & Hle & -> & _).
  cbn [children indices set_children set_indices nType path wildChild] in *.
  rewrite Hlen in *.
  rewrite lookup_app_r in Hx by lia. rewrite Nat.sub_diag in Hx.
  simpl in Hx. injection Hx as <-.
  split; [exact Hle|]. split; [|split; [|repeat split]].
  - rewrite take_app_le by lia. rewrite (take_app_length (children m) [fresh]).
    rewrite (drop_ge (children m ++ [fresh]))
      by (rewrite length_app; simpl; lia).
    rewrite app_nil_r. reflexivity.
  - case_decide as Hk.
    + subst newPos. rewrite <- Hlen. rewrite firstn_all, drop_all. reflexivity.
    + unfold move. rewrite <- Hlen in *.
      rewrite take_app_le by lia. rewrite drop_app_length.
      rewrite take_app_length. simpl.
      rewrite (drop_ge (indices m ++ [c])) by (rewrite length_app; simpl; lia).
      rewrite app_nil_r. reflexivity.
Qed.

Section WalkBelow.
Variable hs : HandlersChain.
Variable fullPth : str.
Variable self : node -> str -> Z -> nat -> node * status.
Hypothesis self_inv : forall c p k f c',
  self c p k f = (c', Done) -> inv c -> walk_pre c p k -> walk_post c c' p.

Lemma post_face c c' p :
  walk_post c c' p -> (path c = [] \/ head (path c) = head p) -> same_face c c'.
Proof.
  intros (H1 & H2 & H3 & H4 & H5) Hp. unfold same_face.
  repeat split; auto. intros Hc. apply H4. right. exact Hc.
Qed.

Lemma walk_below_inv m i pth numParams pfi n' :
  walk_below self m i pth fullPth hs numParams pfi = (n', Done) ->
  inv m ->
  count_sigils (drop i pth) <= 255 ->
  numParams = Z.of_nat (count_sigils (drop i pth)) ->
  (wild_type m -> i < length pth -> pth !! i = Some slash) ->
  inv n' /\ nType n' = nType m /\ path n' = path m.
Proof.
  unfold walk_below. intros H Hm Hle Hnum Hnext.
  destruct (decide (i < length pth)) as [Hi|Hi].
  2:{ case_decide; [discriminate|]. injection H as <-.
      split; [|split; reflexivity].
      eapply same_shape_inv; [|exact Hm]. repeat split. }
  remember (drop i pth) as pth' eqn:Hdrop.
  pose proof (tree_all_here _ _ Hm) as Hm0. unfold node_inv in Hm0.
  destruct (wildChild m) eqn:Hw.
  - (* the wildcard child *)
    destruct Hm0 as (c0 & Hc0 & Hwild & Hcount). rewrite Hc0 in H.
    set (c1 := raise_maxParams numParams (bump_priority c0)) in *.
    assert (Hshape : same_shape c0 c1).
    { subst c1. destruct (same_shape_raise numParams (bump_priority c0))
        as (A1 & A2 & A3 & A4 & A5). repeat split; assumption. }
    destruct (decide (_ /\ _)) as [(Hlen & Hpre & Hslash)|]; [|discriminate].
    destruct (self c1 pth' (decr8 numParams) _) as [c' st] eqn:Hrec.
    injection H as <- ->.
    pose proof Hshape as (Sp & Si & Sc & St & Sw).
    assert (Hone : 1 <= count_sigils pth').
    { rewrite <- Hcount, <- Sp, Hpre. apply count_sigils_take_le. }
    apply self_inv in Hrec.
    + assert (Hface : same_face c0 c').
      { eapply same_face_trans; [apply same_shape_face; exact Hshape|].
        apply (post_face _ _ _ Hrec).
        destruct (path c1) as [|x p1] eqn:E; [left; reflexivity|right].
        clear Hrec Hone Hle Hnum Hdrop Hslash.
        destruct pth' as [|y r]; [simpl in Hlen; lia|].
        simpl in Hpre. injection Hpre as -> _. reflexivity. }
      split; [|split; reflexivity].
      change [c'] with (<[0:=c']> [c0]). rewrite <- Hc0.
      apply inv_replace with (ch := c0); [exact Hm|rewrite Hc0; reflexivity
                                         |exact Hface|apply Hrec].
    + eapply same_shape_inv; [exact Hshape|].
      apply (inv_child m 0); [exact Hm|rewrite Hc0; reflexivity].
    + unfold walk_pre. split; [|split; [|split]].
      * intros _. split; [symmetry; exact Hpre|exact Hslash].
      * intros Hn. exfalso. apply Hn. unfold wild_type in *. rewrite St. exact Hwild.
      * exact Hle.
      * rewrite Sp, Hcount. unfold decr8. rewrite Hnum.
        rewrite Z.mod_small by lia. lia.
  - destruct Hm0 as [HT Hrest].
    destruct pth' as [|c rest]; [discriminate|].
    assert (Hc : pth !! i = Some c).
    { rewrite <- head_drop_lookup, <- Hdrop. reflexivity. }
    assert (Hplain_pre : forall ch k, children m !! k = Some ch ->
              index_for ch = c ->
              walk_pre (bump_priority ch) (c :: rest) numParams
              /\ (path (bump_priority ch) = []
                  \/ head (path (bump_priority ch)) = head (c :: rest))).
    { intros ch k Hk Hidx.
      destruct (Forall_lookup_1 _ _ _ _ HT Hk) as (P1 & P2 & P3).
      split.
      - unfold walk_pre. cbn [path nType bump_priority set_priority].
        split; [|split; [|split]].
        + intros [Hpa|Hca]; [contradiction|]. rewrite (P2 Hca). simpl.
          split; [reflexivity|]. right. f_equal.
          rewrite <- Hidx. unfold index_for. rewrite (P2 Hca). reflexivity.
        + intros _. exact P3.
        + exact Hle.
        + rewrite P3, Hnum. lia.
      - simpl. unfold index_for in Hidx. destruct (path ch); [left; reflexivity|].
        right. simpl. congruence. }
    destruct (decide (nType m = param /\ c = slash /\ length (children m) = 1))
      as [(Hpar & -> & Hone)|Hnot].
    + (* a parameter node, followed by '/' *)
      rewrite decide_True in Hrest by exact Hpar.
      destruct Hrest as (_ & Hs & _).
      destruct (children m) as [|ch cs] eqn:Hcs; [discriminate|].
      destruct cs; [|simpl in Hone; lia].
      apply Forall_cons_1 in Hs as [Hidx _].
      destruct (Hplain_pre ch 0 eq_refl Hidx) as [Hpre Hhead].
      destruct (self (bump_priority ch) _ numParams _) as [ch' st] eqn:Hrec.
      injection H as <- ->.
      apply self_inv in Hrec;
        [|eapply same_shape_inv; [apply same_shape_bump|];
          apply (inv_child m 0); [exact Hm|rewrite Hcs; reflexivity]
         |exact Hpre].
      split; [|split; reflexivity].
      change [ch'] with (<[0:=ch']> [ch]). rewrite <- Hcs.
      apply inv_replace with (ch := ch);
        [exact Hm|rewrite Hcs; reflexivity| |apply Hrec].
      eapply same_face_trans; [apply same_shape_face, same_shape_bump|].
      apply (post_face _ _ _ Hrec). exact Hhead.
    + assert (Hindexed : indices m = index_for <$> children m
                         /\ (nType m = param -> children m = [])).
      { case_decide as Hpar; [|split; [exact Hrest|contradiction]].
        destruct Hrest as (Hl & Hs & Hind).
        assert (c = slash) as ->.
        { assert (Some c = Some slash) as [= ->]; [|reflexivity].
          rewrite <- Hc. apply Hnext; [left; exact Hpar|exact Hi]. }
        assert (Hnil : children m = []).
        { destruct (children m) as [|ch [|ch2 cs]]; [reflexivity| |simpl in Hl; lia].
          exfalso. apply Hnot. auto. }
        split; [|intros _; exact Hnil].
        rewrite Hnil in Hind |- *. destruct Hind; assumption. }
      destruct Hindexed as [Hindexed Hparnil].
      destruct (index_of c (indices m)) as [k|] eqn:Hio.
      * (* an existing child *)
        apply index_of_Some in Hio. rewrite Hindexed, list_lookup_fmap in Hio.
        destruct (children m !! k) as [ch|] eqn:Hk; [|discriminate].
        simpl in Hio. injection Hio as Hidx.
        assert (Hnpar : nType m <> param).
        { intros Hpar. rewrite (Hparnil Hpar) in Hk. discriminate. }
        destruct (incrementChildPrio m k) as [m2 [k'|]] eqn:Hinc; [|discriminate].
        destruct (incrementChildPrio_child _ _ _ _ Hinc) as (ch0 & Hk0 & Hk').
        rewrite Hk in Hk0. injection Hk0 as <-. rewrite Hk' in H.
        destruct (Hplain_pre ch k Hk Hidx) as [Hpre Hhead].
        destruct (self (bump_priority ch) _ numParams _) as [ch' st] eqn:Hrec.
        injection H as <- ->.
        apply self_inv in Hrec;
          [|eapply same_shape_inv; [apply same_shape_bump|];
            apply (inv_child m k); [exact Hm|exact Hk]
           |exact Hpre].
        pose proof (incrementChildPrio_indexed _ _ _ _ Hinc Hindexed) as Hind2.
        pose proof (incrementChildPrio_spec _ _ _ _ Hinc)
          as (x & _ & _ & Heq & _).
        assert (Hf2 : nType m2 = nType m /\ path m2 = path m
                      /\ wildChild m2 = wildChild m)
          by (rewrite Heq; repeat split).
        destruct Hf2 as (Ht2 & Hp2 & Hw2).
        assert (Hm2 : inv m2).
        { apply tree_all_node.
          - unfold node_inv. rewrite Hw2, Hw, Ht2.
            split; [|rewrite decide_False by exact Hnpar; exact Hind2].
            apply (incrementChildPrio_Forall _ _ _ _ _ Hinc); [|exact HT].
            intros y Hy. eapply plain_child_face; [|exact Hy].
            apply same_shape_face, same_shape_bump.
          - apply (incrementChildPrio_Forall _ _ _ _ _ Hinc);
              [|apply (tree_all_children _ _ Hm)].
            intros y Hy. eapply same_shape_inv; [apply same_shape_bump|exact Hy]. }
        split; [|split; [exact Ht2|exact Hp2]].
        apply inv_replace with (ch := bump_priority ch);
          [exact Hm2|exact Hk'| |apply Hrec].
        apply (post_face _ _ _ Hrec). exact Hhead.
      * destruct (is_sigil c) eqn:Hsig; simpl negb in H; cbv iota in H.
        -- (* a wildcard right here *)
           unfold insertChild in H.
           assert (Hnil : children m = []).
           { destruct (decide (children m = [])) as [|Hne]; [assumption|].
             exfalso.
             eapply (insertChild_loop_sigil_children hs fullPth _ m numParams
                       (c :: rest) c); [reflexivity|exact Hsig| |exact Hne|].
             - rewrite Hnum. simpl. rewrite Hsig. lia.
             - rewrite H. reflexivity. }
           apply insertChild_loop_inv in H;
             [|exact Hnil|rewrite Hindexed, Hnil; reflexivity|exact Hw
              |exact Hnum|exact Hle].
           destruct H as (Hinv & Hty & _ & Hpath).
           split; [exact Hinv|]. split; [exact Hty|].
           apply (Hpath c); [reflexivity|exact Hsig].
        -- (* a new static child *)
           assert (Hlen : length (indices m) = length (children m))
             by (rewrite Hindexed, length_fmap; reflexivity).
           cbn [indices children set_children set_indices] in H.
           rewrite length_app in H. simpl length in H.
           replace (length (indices m) + 1 - 1) with (length (indices m)) in H
             by lia.
           match type of H with
           | context [incrementChildPrio ?a ?b] =>
               destruct (incrementChildPrio a b) as [m2 [newPos|]] eqn:Hinc;
                 [|discriminate]
           end.
           apply incrementChildPrio_append in Hinc; [|exact Hlen].
           destruct Hinc as (Hle' & Hcs2 & Hin2 & Ht2 & Hp2 & Hw2).
           assert (Hl2 : length (children m2) = S (length (children m))).
           { rewrite Hcs2, !length_app, length_take, length_drop. simpl. lia. }
           rewrite decide_True in H by lia.
           assert (Hk : children m2 !! newPos
                        = Some (bump_priority
                                  (mkNode [] [] [] None 0 static numParams false
                                     fullPth))).
           { rewrite Hcs2. rewrite lookup_app_r by (rewrite length_take; lia).
             rewrite length_take.
             replace (newPos - newPos `min` length (children m)) with 0 by lia.
             reflexivity. }
           rewrite Hk in H.
           destruct (insertChild _ numParams (c :: rest) fullPth hs)
             as [ch' st] eqn:Hic.
           injection H as <- ->. unfold insertChild in Hic.
           apply insertChild_loop_inv in Hic;
             [|reflexivity|reflexivity|reflexivity|exact Hnum|exact Hle].
           destruct Hic as (Hinv' & Hty' & Hpath' & _).
           destruct (Hpath' eq_refl) as [Hcount' Hidx'].
           specialize (Hidx' c eq_refl Hsig).
           assert (Hcs' : <[newPos:=ch']> (children m2)
                          = take newPos (children m) ++ [ch']
                            ++ drop newPos (children m)).
           { rewrite Hcs2. rewrite insert_app_r_alt by (rewrite length_take; lia).
             rewrite length_take.
             replace (newPos - newPos `min` length (children m)) with 0 by lia.
             reflexivity. }
           split; [|split; [exact Ht2|exact Hp2]].
           apply tree_all_node.
           ++ unfold node_inv. cbn [wildChild children nType indices set_children].
              rewrite Hw2, Hw, Hcs', Ht2, Hin2. split.
              ** apply Forall_app. split; [apply Forall_take; exact HT|].
                 constructor; [|apply Forall_drop; exact HT].
                 unfold plain_child. rewrite Hty', Hcount'. cbn.
                 repeat split; discriminate.
              ** case_decide as Hpar.
                 --- rewrite (Hparnil Hpar) in *. simpl in Hle'.
                     assert (newPos = 0) as -> by lia.
                     rewrite Hindexed. simpl.
                     assert (c = slash) as ->.
                     { assert (Some c = Some slash) as [= ->]; [|reflexivity].
                       rewrite <- Hc. apply Hnext; [left; exact Hpar|exact Hi]. }
                     split; [lia|]. split; [|right; rewrite Hidx'; reflexivity].
                     constructor; [exact Hidx'|constructor].
                 --- rewrite !fmap_app, fmap_take, fmap_drop. simpl.
                     rewrite Hidx', Hindexed. reflexivity.
           ++ cbn [children set_children]. rewrite Hcs'.
              pose proof (tree_all_children _ _ Hm) as Hch.
              apply Forall_app. split; [apply Forall_take; exact Hch|].
              constructor; [exact Hinv'|apply Forall_drop; exact Hch].
Qed.
End WalkBelow.

Lemma walk_inv hs fullPth : forall fuel n pth numParams pfi n',
  walk fuel n pth fullPth hs numParams pfi = (n', Done) ->
  inv n -> walk_pre n pth numParams -> walk_post n n' pth.
Proof.
  induction fuel as [|fuel IH]; intros n pth numParams pfi n' H Hn Hpre;
    [discriminate|].
  cbn [walk] in H.
  destruct Hpre as (Hwild & Hplain & Hle & Hnum).
  pose proof (same_shape_raise numParams n) as Hshape.
  set (n1 := raise_maxParams numParams n) in *.
  pose proof Hshape as (Sp & Si & Sc & St & Sw).
  assert (Hn1 : inv n1) by (eapply same_shape_inv; eassumption).
  clearbody n1. rewrite Sp in H.
  destruct (lcp_spec pth (path n)) as (Hi1 & Hi2 & Htake & Hdiff).
  remember (longestCommonPrefix pth (path n)) as i eqn:Hieq.
  assert (Hcount : count_sigils pth
                   = count_sigils (take i pth) + count_sigils (drop i pth)).
  { rewrite <- (take_drop i pth) at 1. apply count_sigils_app. }
  assert (Hmid : exists m,
    (if decide (i < length (path n)) then split n1 i pth fullPth pfi
     else (n1, true)) = (m, true)
    \/ snd (if decide (i < length (path n)) then split n1 i pth fullPth pfi
            else (n1, true)) = false).
  { destruct (if decide (i < length (path n)) then _ else _) as [m [|]].
    - exists m. left. reflexivity.
    - exists m. right. reflexivity. }
  destruct Hmid as [m [Hm|Hm]].
  2:{ destruct (if decide (i < length (path n)) then _ else _) as [m' ok_].
      simpl in Hm. subst ok_. discriminate. }
  rewrite Hm in H. simpl negb in H. cbv iota in H.
  assert (Hfacts : inv m /\ nType m = nType n /\ path m = take i pth
                   /\ (i < length (path n) ->
                       ~ wild_type n /\ count_sigils (take i pth) = 0)
                   /\ (~ i < length (path n) -> path m = path n)).
  { destruct (decide (i < length (path n))) as [Hlt|Hge].
    - assert (Hnw : ~ wild_type n).
      { intros Hw. destruct (Hwild Hw) as [Hp _].
        apply lcp_prefix in Hp. lia. }
      assert (Hnw1 : ~ wild_type n1) by (unfold wild_type; rewrite St; exact Hnw).
      apply split_inv in Hm;
        [|exact Hn1|exact Hnw1|rewrite Sp; apply Hplain; exact Hnw|rewrite Sp; exact Hlt].
      destruct Hm as (A1 & A2 & A3 & A4).
      split; [exact A1|]. split; [congruence|]. split; [exact A3|].
      split; [|intros; lia]. intros _. split; [exact Hnw|].
      rewrite Htake. apply count_sigils_take_0. apply Hplain. exact Hnw.
    - injection Hm as <-. split; [exact Hn1|]. split; [exact St|].
      assert (Hfull : take i pth = path n).
      { rewrite Htake. apply take_ge. lia. }
      split; [congruence|]. split; [intros; lia|]. intros _. exact Sp. }
  destruct Hfacts as (Hinvm & Htym & Hpm & Hsplit & Hnosplit).
  assert (Hrest : count_sigils (take i pth) = count_sigils (path n)).
  { destruct (decide (i < length (path n))) as [Hlt|Hge].
    - destruct (Hsplit Hlt) as [Hnw Hz]. rewrite Hz. symmetry. apply Hplain. exact Hnw.
    - rewrite <- Hpm, (Hnosplit Hge). reflexivity. }
  assert (Hself : forall c p k f c',
            (fun c p k f => walk fuel c p fullPth hs k f) c p k f = (c', Done) ->
            inv c -> walk_pre c p k -> walk_post c c' p)
    by (intros c p k f c' Hc Hic Hpc; eapply IH; eassumption).
  apply (walk_below_inv hs fullPth _ Hself) in H; [|exact Hinvm|lia|lia|].
  - destruct H as (Hinv' & Hty' & Hp').
    unfold walk_post. split; [exact Hinv'|]. split; [congruence|].
    split; [rewrite Hp', Hpm; exact Hrest|]. split.
    + intros Hw. rewrite Hp'. apply Hnosplit. intros Hlt.
      destruct (Hsplit Hlt) as [Hnw _]. contradiction.
    + intros Hhead. unfold index_for. rewrite Hp', Hpm.
      destruct (decide (i < length (path n))) as [Hlt|Hge].
      * destruct Hhead as [Hnil|Hhead]; [rewrite Hnil in Hlt; simpl in Hlt; lia|].
        destruct (path n) as [|x p] eqn:Ep; [simpl in Hlt; lia|].
        simpl in Hhead. symmetry in Hhead.
        assert (1 <= i).
        { rewrite Hieq. apply (lcp_head pth (x :: p) x); [exact Hhead|reflexivity]. }
        destruct pth as [|y q]; [discriminate|]. simpl in Hhead. injection Hhead as ->.
        destruct i; [lia|]. reflexivity.
      * rewrite <- Hpm, (Hnosplit Hge). reflexivity.
  - intros Hw Hlt. unfold wild_type in Hw. rewrite Htym in Hw.
    destruct (Hwild Hw) as [Hp Hs].
    assert (Hfull : i = length (path n)).
    { rewrite Hieq. apply lcp_prefix. exact Hp. }
    destruct Hs as [Hs|Hs]; [lia|rewrite Hfull; exact Hs].
Qed.

Lemma tree_all_impl (P Q : node -> Prop) :
  (forall n, P n -> Q n) -> forall n, tree_all P n -> tree_all Q n.
Proof.
  intros HPQ n. induction n as [n IH] using node_ind'. intros H.
  apply tree_all_unfold in H. destruct H as [Hn Hc]. apply tree_all_unfold.
  split; [apply HPQ; exact Hn|].
  induction Hc as [|c cs Hc Hcs IHcs]; constructor.
  - inversion IH; subst. auto.
  - apply IHcs. inversion IH; subst. assumption.
Qed.

Lemma node_inv_indices_ok n : node_inv n -> indices_ok n.
Proof.
  unfold node_inv, indices_ok. destruct (wildChild n).
  - intros (c & Hc & Hw & _). exists c. auto.
  - intros [_ H]. case_decide; [|exact H]. destruct H as (H1 & _ & H2). auto.
Qed.

Lemma addRoute_inv n p hs n' :
  addRoute n p hs = (n', Done) -> count_sigils p <= 255 ->
  root_inv n -> root_inv n'.
Proof.
  unfold addRoute. intros H Hle (Hn & Hnw & Hcount).
  assert (Hb : inv (bump_priority n))
    by (eapply same_shape_inv; [apply same_shape_bump|exact Hn]).
  cbn [path children bump_priority set_priority] in H.
  destruct (decide (length (path n) = 0 /\ length (children n) = 0))
    as [[Hp Hc]|Hne].
  - apply length_zero_iff_nil in Hp, Hc.
    pose proof (tree_all_here _ _ Hn) as Hn0. unfold node_inv in Hn0.
    assert (Hwc : wildChild n = false).
    { destruct (wildChild n); [|reflexivity].
      destruct Hn0 as (c & Hcc & _). congruence. }
    rewrite Hwc, Hc in Hn0. destruct Hn0 as [_ Hind].
    assert (Hi : indices n = []).
    { case_decide; [destruct Hind as (_ & _ & [Hi|Hi]); exact Hi|exact Hind]. }
    unfold insertChild in H.
    destruct (insertChild_loop _ _ _ p p hs) as [n2 st] eqn:Hins.
    destruct st; try discriminate. injection H as <-.
    apply insertChild_loop_inv in Hins;
      [|exact Hc|exact Hi|exact Hwc|apply countParams_exact; exact Hle|exact Hle].
    destruct Hins as (Hinv & Hty & Hpath & _). simpl in Hty, Hpath.
    destruct (Hpath Hp) as [Hz _].
    split; [|split].
    + apply tree_all_node; [|apply (tree_all_children _ _ Hinv)].
      pose proof (tree_all_here _ _ Hinv) as H2. unfold node_inv in *.
      cbn [wildChild children nType indices set_nType].
      destruct (wildChild n2); [exact H2|]. destruct H2 as [HT H2].
      split; [exact HT|]. rewrite decide_False by discriminate.
      case_decide as Hpar; [|exact H2].
      exfalso. apply Hnw. left. congruence.
    + intros [Hpar|Hca]; discriminate.
    + exact Hz.
  - apply walk_inv in H; [|exact Hb|].
    + destruct H as (Hinv & Hty & Hc' & _). split; [exact Hinv|].
      split; [|rewrite Hc'; exact Hcount].
      unfold wild_type in *. rewrite Hty. exact Hnw.
    + unfold walk_pre. cbn [path nType bump_priority set_priority].
      split; [intros Hw; contradiction|]. split; [intros _; exact Hcount|].
      split; [exact Hle|]. rewrite Hcount, countParams_exact by exact Hle. lia.
Qed.

Lemma built_root_inv n : built n -> root_inv n.
Proof.
  induction 1 as [|n p h n' Hb IH Hle Hadd].
  - split; [apply inv_leaf; reflexivity|]. split; [|reflexivity].
    intros [H|H]; discriminate.
  - eapply addRoute_inv; eassumption.
Qed.

(** C6, as the code has it: in every tree built from the empty tree by
    successful [addRoute] calls (patterns with at most 255 captures), a
    node with [wildChild] set has exactly one child, and that child is a
    param or catchAll node; a node without it that is not a param node has
    an index string equal to the first bytes of its children's paths, in
    order, where a child with an empty path counts as '/'; a param node
    has at most one child, and its index string is empty or that one
    byte. *)
Theorem indices_children_invariant (t : node) :
  built t -> tree_all indices_ok t.
Proof.
  intros Hb. apply (tree_all_impl node_inv); [apply node_inv_indices_ok|].
  apply built_root_inv. exact Hb.
Qed.

Lemma built_first_route (p : str) (h : HandlersChain) :
  count_sigils p <= 255 -> snd (addRoute newTree p h) = Done ->
  built (fst (addRoute newTree p h)).
Proof.
  intros Hle Hst. apply (built_add newTree p h); [apply built_new|exact Hle|].
  destruct (addRoute newTree p h) as [n' st]. simpl in *. congruence.
Qed.

Lemma indices_children_invariant_witness :
  built (fst (addRoute newTree (B "/a/:x/b") (Some [7])))
  /\ tree_all indices_ok (fst (addRoute newTree (B "/a/:x/b") (Some [7]))).
Proof.
  assert (Hb : built (fst (addRoute newTree (B "/a/:x/b") (Some [7])))).
  { apply built_first_route; [vm_compute; lia|reflexivity]. }
  split; [exact Hb|].
  exact (indices_children_invariant _ Hb).
Defined.

(** C6 as worded fails on the tree holding the one route "/a/:x/b": the
    param node ":x" has the child "/b" and an empty index string.  It
    fails again on the tree holding "/files/*filepath": the node "/files"
    indexes by '/' a child whose path is empty. *)
Lemma indices_strict_counterexample :
  built (fst (addRoute newTree (B "/a/:x/b") (Some [7])))
  /\ ~ tree_all indices_strict (fst (addRoute newTree (B "/a/:x/b") (Some [7])))
  /\ built (fst (addRoute newTree (B "/files/*filepath") (Some [7])))
  /\ ~ tree_all indices_strict
        (fst (addRoute newTree (B "/files/*filepath") (Some [7]))).
Proof.
  split; [apply built_first_route; [vm_compute; lia|reflexivity]|].
  split.
  { intros H. vm_compute in H.
    destruct H as [_ [[[H _] _] _]]. discriminate H. }
  split; [apply built_first_route; [vm_compute; lia|reflexivity]|].
  intros H. vm_compute in H.
  destruct H as [[_ H] _].
  specialize (H 0 _ eq_refl). discriminate H.
Qed.

(** ** Registration always returns

    The loops of [insertChild] and [addRoute] are modelled with fuel; the
    fuel they are given is never used up, so every registration ends in
    [Done] or in a panic. *)

Lemma height_same a b : children a = children b -> height a = height b.
Proof. destruct a, b; simpl; intros ->; reflexivity. Qed.

Lemma height_children n : Forall (fun c => height c < height n) (children n).
Proof.
  destruct n as [p i cs hd pr ty mp w fp]. cbn [children].
  change (height (mkNode p i cs hd pr ty mp w fp))
    with (S ((fix hs (l : list node) : nat :=
                match l with
                | [] => 0
                | c :: l' => Nat.max (height c) (hs l')
                end) cs)).
  induction cs as [|c cs IH]; constructor.
  - lia.
  - apply Forall_forall. intros x Hx. rewrite Forall_forall in IH.
    specialize (IH x Hx). lia.
Qed.

Lemma height_pos n : 1 <= height n.
Proof. destruct n; simpl; lia. Qed.

Lemma decr8_fuel numParams fuel :
  (0 < numParams)%Z -> Z.to_nat numParams <= S fuel ->
  Z.to_nat (decr8 numParams) <= fuel.
Proof.
  intros Hpos Hle. unfold decr8.
  assert ((numParams - 1) mod 2 ^ 8 <= numParams - 1)%Z
    by (apply Z.mod_le; lia).
  lia.
Qed.

Lemma insertChild_loop_returns : forall fuel n numParams pth fullPth hs,
  Z.to_nat numParams <= fuel ->
  snd (insertChild_loop fuel n numParams pth fullPth hs) <> OutOfFuel.
Proof.
  induction fuel as [|fuel IH]; intros n numParams pth fullPth hs Hle;
    cbn [insertChild_loop]; destruct (decide (0 < numParams)%Z) as [Hpos|Hpos];
    try (simpl; discriminate); [lia|].
  destruct (findWildcard pth) as [[wildcard i] valid].
  repeat (case_decide || match goal with
                         | |- context [negb ?b] => destruct b; cbn [negb]
                         end);
    try (simpl; discriminate).
  all: match goal with
       | |- context [insertChild_loop ?f ?a ?b ?c ?d ?e] =>
           pose proof (IH a b c d e (decr8_fuel _ _ Hpos Hle)) as Hrec;
           destruct (insertChild_loop f a b c d e) as [c2 st]
       end; exact Hrec.
Qed.

Lemma insertChild_returns n numParams pth fullPth hs :
  snd (insertChild n numParams pth fullPth hs) <> OutOfFuel.
Proof. apply insertChild_loop_returns. lia. Qed.

Ltac call_returns H :=
  match goal with
  | |- context [let '(_, _) := ?e in _] =>
      let Hr := fresh "Hr" in
      assert (Hr : snd e <> OutOfFuel) by H;
      destruct e as [? ?]; exact Hr
  end.

Lemma height_bump c : height (bump_priority c) = height c.
Proof. apply height_same. reflexivity. Qed.

Lemma height_raise k c : height (raise_maxParams k c) = height c.
Proof. apply height_same. apply same_shape_raise. Qed.

(** Below a node whose children are all lower than [h], the loop goes on
    only into nodes lower than [h]. *)
Lemma walk_below_returns self n i pth fullPth hs numParams pfi h :
  (forall c p k f, height c < h -> snd (self c p k f) <> OutOfFuel) ->
  Forall (fun c => height c < h) (children n) ->
  snd (walk_below self n i pth fullPth hs numParams pfi) <> OutOfFuel.
Proof.
  intros Hself Hch. unfold walk_below.
  case_decide; [|case_decide; simpl; discriminate].
  destruct (wildChild n).
  - destruct (children n) as [|c cs] eqn:Hc; [simpl; discriminate|].
    apply Forall_cons_1 in Hch as [Hc0 _].
    case_decide; [|simpl; discriminate].
    call_returns ltac:(apply Hself; rewrite height_raise, height_bump; exact Hc0).
  - destruct (drop i pth) as [|x rest] eqn:Hd; [simpl; discriminate|].
    case_decide.
    + destruct (children n) as [|c cs] eqn:Hc; [simpl; discriminate|].
      apply Forall_cons_1 in Hch as [Hc0 _].
      call_returns ltac:(apply Hself; rewrite height_bump; exact Hc0).
    + destruct (index_of x (indices n)) as [k|].
      * destruct (incrementChildPrio n k) as [n2 [k'|]] eqn:Hinc;
          [|simpl; discriminate].
        destruct (children n2 !! k') as [ch|] eqn:Hk; [|simpl; discriminate].
        assert (Hch2 : Forall (fun c => height c < h) (children n2)).
        { eapply incrementChildPrio_Forall; [exact Hinc| |exact Hch].
          intros c Hc. rewrite height_bump. exact Hc. }
        call_returns ltac:(apply Hself;
                           exact (Forall_lookup_1 _ _ _ _ Hch2 Hk)).
      * destruct (is_sigil x); cbn [negb]; [apply insertChild_returns|].
        match goal with
        | |- context [incrementChildPrio ?a ?b] =>
            destruct (incrementChildPrio a b) as [n2 [newPos|]]
        end; [|simpl; discriminate].
        match goal with
        | |- context [children n2 !! ?k] =>
            destruct (children n2 !! k) as [ch|]
        end; [|simpl; discriminate].
        call_returns ltac:(apply insertChild_returns).
Qed.

(** Below a node that indexes no child by the next byte, the loop goes on
    only through the shortcut of a param node. *)
Lemma walk_below_nomatch self m i pth fullPth hs numParams pfi :
  wildChild m = false ->
  (forall x, head (drop i pth) = Some x -> index_of x (indices m) = None) ->
  (forall ch cs k f,
     nType m = param -> children m = ch :: cs ->
     head (drop i pth) = Some slash ->
     snd (self (bump_priority ch) (drop i pth) k f) <> OutOfFuel) ->
  snd (walk_below self m i pth fullPth hs numParams pfi) <> OutOfFuel.
Proof.
  intros Hw Hidx Hself. unfold walk_below.
  case_decide; [|case_decide; simpl; discriminate].
  rewrite Hw.
  destruct (drop i pth) as [|x rest] eqn:Hd; [simpl; discriminate|].
  case_decide as Hsc.
  - destruct Hsc as (Hty & -> & _).
    destruct (children m) as [|c cs] eqn:Hc; [simpl; discriminate|].
    call_returns ltac:(apply (Hself c cs); [exact Hty|reflexivity|reflexivity]).
  - rewrite (Hidx x eq_refl).
    destruct (is_sigil x); cbn [negb]; [apply insertChild_returns|].
    match goal with
    | |- context [incrementChildPrio ?a ?b] =>
        destruct (incrementChildPrio a b) as [n2 [newPos|]]
    end; [|simpl; discriminate].
    match goal with
    | |- context [children n2 !! ?k] =>
        destruct (children n2 !! k) as [ch|]
    end; [|simpl; discriminate].
    call_returns ltac:(apply insertChild_returns).
Qed.

Lemma split_parts n i pth fullPth pfi m :
  split n i pth fullPth pfi = (m, true) ->
  wildChild m = false /\ nType m = nType n
  /\ indices m = take 1 (drop i (path n))
  /\ exists ch, children m = [ch] /\ nType ch = static
                /\ path ch = drop i (path n) /\ children ch = children n.
Proof.
  unfold split. intros H.
  match type of H with
  | context [foldl ?f ?a ?l] =>
      pose proof (foldl_raise_shape l a) as (Hp & _ & Hc & Hty & _);
      remember (foldl f a l) as ch eqn:Hch; clear Hch
  end.
  case_decide; [|discriminate]. injection H as <-.
  cbn [wildChild nType indices children path set_fullPath set_wildChild
       set_handlers set_path set_indices set_children] in *.
  repeat split. exists ch. repeat split; assumption.
Qed.

Lemma index_of_other x b : x <> b -> index_of x [b] = None.
Proof. intros Hne. simpl. rewrite decide_False by exact Hne. reflexivity. Qed.

(** A node entered by an edge whose first byte differs from the next byte
    of the pattern is split at 0, and the loop ends there. *)
Lemma walk_mismatch_returns f c p fullPth hs k pfi x b :
  1 <= f -> nType c <> param ->
  head p = Some x -> head (path c) = Some b -> x <> b ->
  snd (walk f c p fullPth hs k pfi) <> OutOfFuel.
Proof.
  destruct f as [|f]; [lia|]. intros _ Hty Hp Hb Hne. cbn [walk].
  pose proof (same_shape_raise k c) as (Hpath & _ & _ & Hty' & _).
  remember (raise_maxParams k c) as n1 eqn:Hn1. clear Hn1.
  rewrite Hpath.
  destruct p as [|x' p']; [discriminate|]. injection Hp as ->.
  destruct (path c) as [|b' r] eqn:Hpc; [discriminate|]. injection Hb as ->.
  rewrite lcp_cons. destruct (decide (x = b)) as [Heq|_]; [contradiction|].
  rewrite decide_True by (simpl; lia).
  destruct (split n1 0 (x :: p') fullPth pfi) as [m [|]] eqn:Hs;
    [|simpl; discriminate].
  cbn [negb].
  apply split_parts in Hs as (Hw & Htm & Him & _).
  apply walk_below_nomatch; [exact Hw| |].
  - intros y Hy. simpl in Hy. injection Hy as <-.
    rewrite Him, Hpath. apply index_of_other. exact Hne.
  - intros ch cs k0 f0 Hpar. congruence.
Qed.

(** The loop ends before its fuel does, whatever the tree: an iteration
    moves to a child, or to the lower half of a split edge, where the
    next iteration is the last. *)
Lemma walk_returns : forall f n pth fullPth hs numParams pfi,
  height n < f ->
  snd (walk f n pth fullPth hs numParams pfi) <> OutOfFuel.
Proof.
  induction f as [|f IH]; intros n pth fullPth hs numParams pfi Hh; [lia|].
  cbn [walk].
  pose proof (same_shape_raise numParams n) as (Hpath & _ & Hc & Hty & _).
  pose proof (height_raise numParams n) as Hhr.
  remember (raise_maxParams numParams n) as n1 eqn:Hn1. clear Hn1.
  pose proof (lcp_spec pth (path n1)) as Hl. cbn zeta in Hl.
  remember (longestCommonPrefix pth (path n1)) as i eqn:Hi. clear Hi.
  destruct Hl as (_ & _ & _ & Hdiff).
  case_decide as Hlt.
  - destruct (split n1 i pth fullPth pfi) as [m [|]] eqn:Hs;
      [|simpl; discriminate].
    cbn [negb].
    apply split_parts in Hs as (Hw & Htm & Him & ch & Hcm & Htc & Hpc & Hcc).
    destruct (lookup_lt_is_Some_2 _ _ Hlt) as [b Hb].
    apply walk_below_nomatch; [exact Hw| |].
    + intros x Hx. rewrite head_drop_lookup in Hx.
      rewrite Him, (drop_S _ _ _ Hb). cbn [take].
      apply index_of_other. intros ->.
      apply Hdiff; [apply lookup_lt_Some in Hx; exact Hx|exact Hlt|congruence].
    + intros ch' cs k f0 _ Hch' Hx. rewrite head_drop_lookup in Hx.
      rewrite Hcm in Hch'. injection Hch' as <- <-.
      apply (walk_mismatch_returns _ _ _ _ _ _ _ slash b).
      * pose proof (height_pos n). lia.
      * change (nType (bump_priority ch)) with (nType ch). rewrite Htc.
        discriminate.
      * rewrite head_drop_lookup. exact Hx.
      * change (path (bump_priority ch)) with (path ch).
        rewrite Hpc, head_drop_lookup. exact Hb.
      * intros <-. apply Hdiff;
          [apply lookup_lt_Some in Hx; exact Hx|exact Hlt|congruence].
  - cbn [negb]. apply (walk_below_returns _ _ _ _ _ _ _ _ f).
    + intros c p k f0 Hcf. apply IH. exact Hcf.
    + apply Forall_forall. intros c Hcn.
      pose proof (height_children n1) as Hh1. rewrite Forall_forall in Hh1.
      specialize (Hh1 c Hcn). lia.
Qed.

Lemma addRoute_returns n pth hs : snd (addRoute n pth hs) <> OutOfFuel.
Proof.
  unfold addRoute. cbn zeta. case_decide.
  - pose proof (insertChild_returns (bump_priority n) (countParams pth) pth pth hs) as Hr.
    destruct (insertChild (bump_priority n) (countParams pth) pth pth hs)
      as [n' st].
    simpl in Hr. destruct st; simpl; try discriminate. exact Hr.
  - apply walk_returns. lia.
Qed.

Lemma addRoute_done_or_panics n pth hs :
  exists n', addRoute n pth hs = (n', Done)
             \/ exists k, addRoute n pth hs = (n', Panicked k).
Proof.
  pose proof (addRoute_returns n pth hs) as Hr.
  destruct (addRoute n pth hs) as [n' [|k|]]; exists n'.
  - left. reflexivity.
  - right. exists k. reflexivity.
  - contradiction.
Qed.
Lemma find_unfold n q : find n q = find_step find n q.
Proof. destruct n; reflexivity. Qed.

(** The lookup reads neither the priority nor [maxParams]. *)
Lemma find_step_ext self n n' q :
  path n' = path n -> indices n' = indices n -> children n' = children n ->
  handlers n' = handlers n -> wildChild n' = wildChild n ->
  find_step self n' q = find_step self n q.
Proof.
  intros Hp Hi Hc Hh Hw. unfold find_step. rewrite Hp, Hi, Hc, Hh, Hw.
  reflexivity.
Qed.

Lemma find_ext n n' q :
  path n' = path n -> indices n' = indices n -> children n' = children n ->
  handlers n' = handlers n -> wildChild n' = wildChild n ->
  find n' q = find n q.
Proof. intros. rewrite !find_unfold. apply find_step_ext; assumption. Qed.

Lemma find_wild_ext self n n' q :
  path n' = path n -> children n' = children n ->
  handlers n' = handlers n -> nType n' = nType n ->
  find_wild self n' q = find_wild self n q.
Proof.
  intros Hp Hc Hh Ht. unfold find_wild. rewrite Hp, Hc, Hh, Ht. reflexivity.
Qed.

Lemma find_bump n q : find (bump_priority n) q = find n q.
Proof. apply find_ext; reflexivity. Qed.

Lemma find_raise k n q : find (raise_maxParams k n) q = find n q.
Proof. unfold raise_maxParams. case_decide; [|reflexivity]. apply find_ext; reflexivity. Qed.

Lemma sim_refl n : sim n n.
Proof. intros q r H. exact H. Qed.

Lemma sim_trans a b c : sim a b -> sim b c -> sim a c.
Proof. intros H1 H2 q r H. apply H2, H1, H. Qed.

Lemma simW_refl n : simW n n.
Proof. intros q r H. exact H. Qed.

Lemma simW_trans a b c : simW a b -> simW b c -> simW a c.
Proof. intros H1 H2 q r H. apply H2, H1, H. Qed.

Lemma sim_ext n n' :
  path n' = path n -> indices n' = indices n -> children n' = children n ->
  handlers n' = handlers n -> wildChild n' = wildChild n ->
  sim n n'.
Proof. intros ? ? ? ? ? q r H. rewrite <- H. apply find_ext; assumption. Qed.

Lemma simW_ext n n' :
  path n' = path n -> children n' = children n ->
  handlers n' = handlers n -> nType n' = nType n ->
  simW n n'.
Proof. intros ? ? ? ? q r H. rewrite <- H. apply find_wild_ext; assumption. Qed.

(** Replacing the child a lookup goes into. *)
Lemma sim_child n n' k ch ch' :
  path n' = path n -> indices n' = indices n -> handlers n' = handlers n ->
  wildChild n = false -> wildChild n' = false ->
  children n !! k = Some ch ->
  children n' = <[k := ch']> (children n) ->
  sim ch ch' ->
  sim n n'.
Proof.
  intros Hp Hi Hh Hw Hw' Hk Hc Hs q r. rewrite !find_unfold. unfold find_step.
  rewrite Hp, Hi, Hh, Hw, Hw', Hc. cbn [negb].
  case_decide; [tauto|]. case_decide; [|tauto].
  destruct (drop (length (path n)) q) as [|c rest]; [tauto|].
  destruct (index_of c (indices n)) as [i|]; [|tauto].
  rewrite !pick_lookup. destruct (decide (i = k)) as [->|Hne].
  - rewrite list_lookup_insert_eq by (apply lookup_lt_Some in Hk; exact Hk).
    rewrite Hk. simpl. apply Hs.
  - rewrite list_lookup_insert_ne by congruence. tauto.
Qed.

Lemma sim_wild_child n n' c c' cs :
  path n' = path n -> handlers n' = handlers n ->
  wildChild n = true -> wildChild n' = true ->
  children n = c :: cs -> children n' = c' :: cs ->
  simW c c' ->
  sim n n'.
Proof.
  intros Hp Hh Hw Hw' Hc Hc' Hs q r. rewrite !find_unfold. unfold find_step.
  rewrite Hp, Hh, Hw, Hw', Hc, Hc'. cbn [negb].
  case_decide; [tauto|]. case_decide; [|tauto]. apply Hs.
Qed.

Lemma simW_child c c' ch ch' cs :
  path c' = path c -> handlers c' = handlers c -> nType c' = nType c ->
  children c = ch :: cs -> children c' = ch' :: cs ->
  sim ch ch' ->
  simW c c'.
Proof.
  intros Hp Hh Ht Hc Hc' Hs q r. unfold find_wild.
  rewrite Hp, Hh, Ht, Hc, Hc'. destruct (nType c); try tauto.
  destruct (slice_from 1 (path c)); [|tauto].
  case_decide; [|tauto]. cbn [pick].
  destruct (find ch _) as [[h ps]|] eqn:Hf; [|discriminate].
  rewrite (Hs _ _ Hf). tauto.
Qed.

Lemma wdepth_unfold n :
  wdepth n = (if decide (count_sigils (path n) = 0) then 0 else 1)
             + foldr (fun c m => Nat.max (wdepth c) m) 0 (children n).
Proof.
  destruct n as [p i cs hd pr ty mp w fp]. reflexivity.
Qed.

Lemma foldr_max_le {A} (f : A -> nat) l x :
  x ∈ l -> f x <= foldr (fun c m => Nat.max (f c) m) 0 l.
Proof.
  induction l as [|c l IH]; intros Hx; [inversion Hx|].
  apply elem_of_cons in Hx as [->|Hx]; cbn [foldr]; [lia|].
  specialize (IH Hx). lia.
Qed.

Lemma foldr_max_bound {A} (f : A -> nat) l B :
  Forall (fun c => f c <= B) l -> foldr (fun c m => Nat.max (f c) m) 0 l <= B.
Proof. induction 1; cbn [foldr]; lia. Qed.

Lemma wdepth_child n c : c ∈ children n -> wdepth c <= wdepth n.
Proof.
  intros Hc. rewrite (wdepth_unfold n).
  pose proof (foldr_max_le wdepth _ _ Hc). lia.
Qed.

Lemma wdepth_capt_child n c :
  capt n -> c ∈ children n -> 1 + wdepth c <= wdepth n.
Proof.
  intros Hn Hc. rewrite (wdepth_unfold n).
  pose proof (foldr_max_le wdepth _ _ Hc). unfold capt in Hn.
  rewrite decide_False by exact Hn. lia.
Qed.

Lemma wdepth_capt n : capt n -> 1 <= wdepth n.
Proof.
  intros Hn. rewrite (wdepth_unfold n). unfold capt in Hn.
  rewrite decide_False by exact Hn. lia.
Qed.

Lemma bounded_child B n c : bounded B n -> c ∈ children n -> bounded B c.
Proof.
  intros Hb Hc. apply tree_all_children in Hb.
  rewrite list.Forall_forall in Hb. apply Hb, Hc.
Qed.

Lemma bounded_here B n : bounded B n -> capt n -> Z.to_nat (maxParams n) <= B.
Proof. intros Hb. apply (tree_all_here _ _ Hb). Qed.

Lemma bounded_mono B B' n : B <= B' -> bounded B n -> bounded B' n.
Proof.
  intros Hle. apply tree_all_impl. intros d Hd Hc. specialize (Hd Hc). lia.
Qed.

Lemma fits_child n c value :
  fits n value -> c ∈ children n -> fits c value.
Proof.
  intros [He|[Hb Hl]] Hc; [left; exact He|right].
  split; [eapply bounded_child; eassumption|].
  pose proof (wdepth_child _ _ Hc). lia.
Qed.

Section Buffer.
Variable qu : str -> option str.
Variable ue : bool.

(** Saving a capture at a capture node that fits the buffer. *)
Lemma save_param_fits c key val value :
  capt c -> cap_inv c -> fits c value ->
  exists value',
    save_param qu c (Some key) val value ue = Ret value'
    /\ v_handlers value' = v_handlers value
    /\ v_tsr value' = v_tsr value
    /\ elems (v_params value')
       = elems (v_params value) ++ [decoded qu ue (mkParam key val)]
    /\ forall ch, ch ∈ children c -> fits ch value'.
Proof.
  intros Hc Hinv Hfit. destruct (Hinv Hc) as [Hd Hb].
  pose proof (wdepth_capt _ Hc) as H1.
  unfold save_param.
  destruct (decide (cap (v_params value) < Z.to_nat (maxParams c))) as [Hlt|Hge];
    cbv beta iota zeta; cbn [elems cap length].
  - destruct Hfit as [He|[Hb' _]];
      [|pose proof (bounded_here _ _ Hb' Hc); lia].
    rewrite decide_False by lia.
    eexists. split; [reflexivity|].
    split; [reflexivity|]. split; [reflexivity|].
    split; [cbn; rewrite He; reflexivity|].
    intros ch Hch. right. cbn.
    split; [eapply bounded_child; eassumption|].
    pose proof (wdepth_capt_child _ _ Hc Hch). lia.
  - assert (Hroom : length (elems (v_params value)) + 1
                    <= cap (v_params value)).
    { destruct Hfit as [He|[_ Hl]]; [rewrite He; cbn; lia|lia]. }
    rewrite decide_False by lia.
    eexists. split; [reflexivity|].
    split; [reflexivity|]. split; [reflexivity|].
    split; [reflexivity|].
    intros ch Hch. right. cbn. rewrite length_app. cbn.
    pose proof (wdepth_capt_child _ _ Hc Hch).
    destruct Hfit as [He|[Hb' Hl]].
    + split; [|rewrite He; cbn; lia].
      eapply bounded_child; [|exact Hch].
      eapply bounded_mono; [|exact Hb]. lia.
    + split; [eapply bounded_child; eassumption|lia].
Qed.

Lemma find_returns_both n :
  tree_all node_inv n -> tree_all cap_inv n ->
  (forall q value r, find n q = Some r -> fits n value -> returns qu ue n q value r)
  /\ (forall p cs q value r,
        wildChild p = true -> children p = n :: cs -> q <> [] -> capt n ->
        find_wild find n q = Some r -> fits n value ->
        returns qu ue p (path p ++ q) value r).
Proof.
  induction n as [n IH] using node_ind'. intros Hinv Hcap.
  pose proof (tree_all_children _ _ Hinv) as Hinvc.
  pose proof (tree_all_children _ _ Hcap) as Hcapc.
  assert (IHD : forall c, c ∈ children n ->
            forall q value r, find c q = Some r -> fits c value ->
                              returns qu ue c q value r).
  { intros c Hc. rewrite list.Forall_forall in IH, Hinvc, Hcapc.
    apply (IH c Hc); [apply Hinvc, Hc|apply Hcapc, Hc]. }
  split.
  - intros q value r Hf Hfit. rewrite find_unfold in Hf. unfold find_step in Hf.
    unfold returns. rewrite getValue_walk_unfold. unfold getValue_step.
    destruct (decide (q = path n)) as [->|Hne].
    + destruct (handlers n) as [h|] eqn:Hh; [|discriminate]. injection Hf as <-.
      cbn. eexists. split; [reflexivity|]. cbn. rewrite app_nil_r. auto.
    + destruct (decide (_ /\ _)) as [[Hlen Hpre]|]; [|discriminate].
      destruct (wildChild n) eqn:Hw; cbn [negb] in *.
      * destruct (children n) as [|c cs] eqn:Hc; [discriminate|].
        assert (Hcin : c ∈ c :: cs) by left.
        rewrite list.Forall_forall in IH, Hinvc, Hcapc.
        destruct (IH c Hcin (Hinvc c Hcin) (Hcapc c Hcin)) as [_ HW].
        assert (Hq : q = path n ++ drop (length (path n)) q).
        { rewrite <- Hpre at 1. symmetry. apply take_drop. }
        specialize (HW n cs (drop (length (path n)) q) value r Hw Hc).
        rewrite <- Hq in HW. unfold returns in HW.
        rewrite getValue_walk_unfold in HW. unfold getValue_step in HW.
        rewrite decide_False in HW by exact Hne.
        rewrite decide_True in HW by (split; assumption).
        rewrite Hw, Hc in HW. cbn [negb] in HW.
        apply HW; [| |exact Hf|apply (fits_child n); [exact Hfit|rewrite Hc; left]].
        2:{ pose proof (tree_all_here _ _ Hinv) as Hn. unfold node_inv in Hn.
            rewrite Hw in Hn. destruct Hn as (c0 & Hc0 & _ & Hc1).
            rewrite Hc in Hc0. injection Hc0 as -> ->.
            unfold capt. rewrite Hc1. discriminate. }
        intros E. apply (f_equal length) in E. rewrite length_drop in E.
        cbn in E. lia.
      * destruct (drop (length (path n)) q) as [|x rest] eqn:Hd; [discriminate|].
        destruct (index_of x (indices n)) as [i|]; [|discriminate].
        rewrite pick_lookup in Hf. rewrite pick_lookup.
        destruct (children n !! i) as [ch|] eqn:Hch; [|discriminate].
        cbn in Hf. cbn.
        apply IHD; [eapply list_elem_of_lookup_2; exact Hch|exact Hf|].
        eapply fits_child; [exact Hfit|].
        eapply list_elem_of_lookup_2; exact Hch.
  - intros p cs q value r Hw Hc Hq Hcapt Hf Hfit. unfold returns.
    rewrite getValue_walk_unfold. unfold getValue_step.
    rewrite decide_False
      by (intros E; apply app_eq_self_l in E; contradiction).
    rewrite decide_True
      by (split; [rewrite length_app; destruct q; [contradiction|cbn; lia]
                 |apply take_app_length]).
    rewrite Hw, Hc. cbn [negb]. rewrite drop_app_length.
    unfold find_wild in Hf.
    pose proof (tree_all_here _ _ Hcap) as Hcn.
    destruct (nType n) eqn:Hty; try discriminate.
    + (* param *)
      destruct (slice_from 1 (path n)) as [key|] eqn:Hkey; [|discriminate].
      destruct (save_param_fits n key (take (param_end q 0) q) value
                  Hcapt Hcn Hfit) as (v1 & Hs & Hh1 & Ht1 & He1 & Hfit1).
      rewrite Hs.
      destruct (decide (param_end q 0 < length q)) as [Hmore|Hlast].
      * rewrite pick_lookup in Hf.
        destruct (children n !! 0) as [ch|] eqn:Hch; [|discriminate].
        cbn in Hf.
        destruct (find ch (drop (param_end q 0) q)) as [[h ps]|] eqn:Hfc;
          [|discriminate].
        injection Hf as <-.
        assert (Hchin : ch ∈ children n)
          by (eapply list_elem_of_lookup_2; exact Hch).
        rewrite decide_True by (apply lookup_lt_Some in Hch; exact Hch).
        rewrite pick_lookup, Hch. cbn.
        destruct (IHD ch Hchin _ v1 _ Hfc (Hfit1 ch Hchin))
          as (v' & Hr & Hh' & He').
        exists v'. split; [exact Hr|]. split; [exact Hh'|].
        rewrite He', He1. cbn. rewrite <- app_assoc. reflexivity.
      * destruct (handlers n) as [h|] eqn:Hh; [|discriminate].
        injection Hf as <-. cbn.
        eexists. split; [reflexivity|]. cbn. rewrite He1. auto.
    + (* catchAll *)
      destruct (slice_from 2 (path n)) as [key|] eqn:Hkey; [|discriminate].
      destruct (handlers n) as [h|] eqn:Hh; [|discriminate].
      injection Hf as <-.
      destruct (save_param_fits n key q value Hcapt Hcn Hfit)
        as (v1 & Hs & Hh1 & Ht1 & He1 & Hfit1).
      rewrite Hs. eexists. split; [reflexivity|]. cbn. rewrite He1. auto.
Qed.

Lemma find_returns n q value r :
  tree_all node_inv n -> tree_all cap_inv n ->
  find n q = Some r -> fits n value -> returns qu ue n q value r.
Proof. intros Hi Hc. apply (find_returns_both n Hi Hc). Qed.

End Buffer.

(** One turn of the loop of [insertChild] that ends well, by the first
    wildcard of the path. *)
Lemma insertChild_loop_step hs fullPth fuel n numParams pth n' :
  insertChild_loop (S fuel) n numParams pth fullPth hs = (n', Done) ->
  numParams = Z.of_nat (count_sigils pth) -> 0 < count_sigils pth ->
  exists pre sg tl,
    pth = pre ++ sg :: tl /\ count_sigils pre = 0
    /\ count_sigils (segment tl) = 0
    /\ children n = []
    /\ let n1 := if decide (pre = []) then n else set_path pre n in
       let child :=
         bump_priority
           (mkNode (colon :: segment tl) [] [] None 0 param numParams false
              fullPth) in
       (sg = colon /\ after tl <> [] /\ head (after tl) = Some slash
        /\ exists child2,
             insertChild_loop fuel
               (mkNode [] [] [] None 1 static (decr8 numParams) false fullPth)
               (decr8 numParams) (after tl) fullPth hs = (child2, Done)
             /\ n' = set_children [set_children [child2] child]
                       (set_wildChild true n1))
       \/ (sg = colon /\ after tl = []
           /\ n' = set_children [set_handlers hs child] (set_wildChild true n1))
       \/ (sg = star /\ after tl = []
           /\ exists pre',
                pre = pre' ++ [slash]
                /\ (path n = [] \/ path n !! (length (path n) - 1) <> Some slash)
                /\ n' = set_children
                          [set_children
                             [mkNode (slash :: star :: tl) [] [] hs 1 catchAll 1
                                false fullPth]
                             (bump_priority
                                (mkNode [] [] [] None 0 catchAll 1 true fullPth))]
                          (set_indices [slash]
                             (let n2 := set_path pre' n in
                              if decide (maxParams n2 < 1)%Z
                              then set_maxParams 1 n2 else n2))).
Proof.
  intros Hins Hnum Hpos.
  destruct (findWildcard_some pth 0) as (pre & sg & tl & Hpth & Hpre & Hsg & Hfw);
    [lia|].
  exists pre, sg, tl. split; [exact Hpth|]. split; [exact Hpre|].
  simpl in Hins. rewrite decide_True in Hins by lia.
  unfold findWildcard in Hins. rewrite Hfw in Hins. simpl "+" in Hins.
  cbv beta iota zeta in Hins.
  rewrite decide_False in Hins by lia.
  destruct (bool_decide (count_sigils (segment tl) = 0)) eqn:Hvalid;
    [|discriminate].
  apply bool_decide_eq_true in Hvalid. simpl negb in Hins. cbv iota in Hins.
  split; [exact Hvalid|].
  destruct (decide (length (sg :: segment tl) < 2)); [discriminate|].
  destruct (decide (0 < length (children n))) as [|Hcs]; [discriminate|].
  assert (Hnil : children n = [])
    by (destruct (children n); [reflexivity|simpl in Hcs; lia]).
  split; [exact Hnil|].
  assert (Hlen : length pth = length pre + S (length (segment tl) + length (after tl))).
  { rewrite Hpth, length_app. simpl. rewrite <- (segment_after tl) at 1.
    rewrite length_app. lia. }
  destruct (decide ((sg :: segment tl) !! 0 = Some colon)) as [Hcolon|Hstar].
  - simpl in Hcolon. injection Hcolon as ->.
    assert (Hpair :
      (if decide (0 < Z.of_nat (length pre))%Z
       then (set_path (take (Z.to_nat (Z.of_nat (length pre))) pth) n,
             drop (Z.to_nat (Z.of_nat (length pre))) pth)
       else (n, pth))
      = (if decide (pre = []) then n else set_path pre n, colon :: tl)).
    { destruct (decide (0 < Z.of_nat (length pre))%Z) as [Hp|Hp].
      - rewrite Nat2Z.id, Hpth, take_app_length, drop_app_length.
        rewrite decide_False; [reflexivity|]. intros ->. simpl in Hp. lia.
      - destruct pre; [|simpl in Hp; lia]. rewrite decide_True by reflexivity.
        rewrite Hpth. reflexivity. }
    rewrite Hpair in Hins. clear Hpair. cbv beta iota zeta in Hins.
    simpl length in Hins.
    destruct (decide (S (length (segment tl)) < S (length tl))) as [Hmore|Hlast].
    + left.
      assert (Hdrop : drop (S (length (segment tl))) (colon :: tl) = after tl)
        by reflexivity.
      rewrite Hdrop in Hins. clear Hdrop.
      destruct (insertChild_loop fuel _ _ (after tl) fullPth hs)
        as [child2 st] eqn:Hrec.
      injection Hins as <- ->.
      assert (Hafter : head (after tl) = Some slash).
      { destruct (after_head tl) as [Ha|Ha]; [|exact Ha].
        exfalso. rewrite <- (segment_after tl) in Hmore at 2.
        rewrite Ha, app_nil_r in Hmore. lia. }
      split; [reflexivity|]. split; [intros E; rewrite E in Hafter; discriminate|].
      split; [exact Hafter|].
      exists child2. split; reflexivity.
    + right. left. injection Hins as <-.
      assert (Ha : after tl = []).
      { destruct (after tl) eqn:E; [reflexivity|]. exfalso.
        rewrite <- (segment_after tl) in Hlast at 2. rewrite E in Hlast.
        rewrite length_app in Hlast. simpl in Hlast. lia. }
      split; [reflexivity|]. split; [exact Ha|reflexivity].
  - right. right.
    assert (sg = star) as ->.
    { destruct (sigil_cases sg Hsg) as [-> | ->]; [|reflexivity].
      exfalso. apply Hstar. reflexivity. }
    clear Hstar.
    destruct (decide (_ \/ _)) as [|Hend]; [discriminate|].
    destruct (decide (_ /\ _)) as [|Hroot]; [discriminate|].
    destruct (decide (Z.of_nat (length pre) - 1 < 0)%Z) as [|Hi];
      [discriminate|].
    destruct (decide (pth !! Z.to_nat (Z.of_nat (length pre) - 1) <> Some slash))
      as [|Hslash]; [discriminate|].
    apply dec_stable in Hslash.
    assert (Ha : after tl = []).
    { destruct (after tl) eqn:E; [reflexivity|]. exfalso. apply Hend. left.
      rewrite Hlen. simpl length. lia. }
    assert (Htl : segment tl = tl).
    { rewrite <- (segment_after tl) at 2. rewrite Ha. symmetry. apply app_nil_r. }
    destruct (exists_last (l := pre)) as (pre' & x & Hpre').
    { intros ->. simpl in Hi. lia. }
    assert (Hidx : Z.to_nat (Z.of_nat (length pre) - 1) = length pre').
    { rewrite Hpre', length_app. simpl. lia. }
    rewrite Hidx in *.
    assert (x = slash) as ->.
    { rewrite Hpth, Hpre', <- app_assoc in Hslash. cbn [app] in Hslash.
      pose proof (list_lookup_middle pre' (star :: tl) x (length pre') eq_refl)
        as Hm.
      assert (Some x = Some slash) as [= ->]; [|reflexivity].
      rewrite <- Hslash. symmetry. exact Hm. }
    assert (Hpth' : pth = pre' ++ slash :: star :: tl).
    { rewrite Hpth, Hpre', <- app_assoc. reflexivity. }
    rewrite Hpth' in Hins. rewrite take_app_length, drop_app_length in Hins.
    split; [reflexivity|]. split; [exact Ha|].
    exists pre'. split; [exact Hpre'|]. split.
    { destruct (path n) as [|y p] eqn:E; [left; reflexivity|right].
      intros Hl. apply Hroot. split; [simpl; lia|exact Hl]. }
    injection Hins as <-. reflexivity.
Qed.

(** ** One step of [find], by the shape of the node *)

Lemma find_exact n h : handlers n = Some h -> find n (path n) = Some (h, []).
Proof.
  intros Hh. rewrite find_unfold. unfold find_step.
  rewrite decide_True by reflexivity. rewrite Hh. reflexivity.
Qed.

Lemma find_static n c rest i ch :
  wildChild n = false ->
  index_of c (indices n) = Some i ->
  children n !! i = Some ch ->
  find n (path n ++ c :: rest) = find ch (c :: rest).
Proof.
  intros Hw Hi Hch. rewrite find_unfold. unfold find_step.
  rewrite decide_False by (intros E; apply app_eq_self_l in E; discriminate).
  rewrite decide_True
    by (split; [rewrite length_app; simpl; lia | apply take_app_length]).
  rewrite Hw. cbn [negb]. rewrite drop_app_length, Hi, pick_lookup, Hch.
  reflexivity.
Qed.

Lemma find_wildChild n c cs q :
  wildChild n = true -> children n = c :: cs -> q <> [] ->
  find n (path n ++ q) = find_wild find c q.
Proof.
  intros Hw Hc Hq. rewrite find_unfold. unfold find_step.
  rewrite decide_False by (intros E; apply app_eq_self_l in E; contradiction).
  rewrite decide_True
    by (split; [rewrite length_app; destruct q; [contradiction|simpl; lia]
               |apply take_app_length]).
  rewrite Hw, Hc. cbn [negb]. rewrite drop_app_length. reflexivity.
Qed.

Lemma find_wild_param_more c sg nm ch cs v rest :
  nType c = param -> path c = sg :: nm -> children c = ch :: cs ->
  no_slash v -> head rest = Some slash ->
  find_wild find c (v ++ rest)
  = match find ch rest with
    | Some (h, ps) => Some (h, mkParam nm v :: ps)
    | None => None
    end.
Proof.
  intros Ht Hp Hc Hv Hr. unfold find_wild. rewrite Ht, Hp, Hc.
  rewrite (param_end_no_slash v rest 0 Hv (or_intror Hr)). cbn [Nat.add].
  unfold slice_from. rewrite decide_True by (simpl; lia). cbn [drop].
  rewrite decide_True
    by (rewrite length_app; destruct rest; [discriminate|simpl; lia]).
  cbn [pick]. rewrite drop_app_length, take_app_length. reflexivity.
Qed.

Lemma find_wild_param_last c sg nm h v :
  nType c = param -> path c = sg :: nm -> handlers c = Some h ->
  no_slash v ->
  find_wild find c v = Some (h, [mkParam nm v]).
Proof.
  intros Ht Hp Hh Hv. unfold find_wild. rewrite Ht, Hp, Hh.
  pose proof (param_end_no_slash v [] 0 Hv (or_introl eq_refl)) as He.
  rewrite app_nil_r in He. rewrite He. cbn [Nat.add].
  unfold slice_from. rewrite decide_True by (simpl; lia). cbn [drop].
  rewrite decide_False by lia. rewrite firstn_all. reflexivity.
Qed.

Lemma find_wild_catchAll c a b nm h q :
  nType c = catchAll -> path c = a :: b :: nm -> handlers c = Some h ->
  find_wild find c q = Some (h, [mkParam nm q]).
Proof.
  intros Ht Hp Hh. unfold find_wild. rewrite Ht, Hp, Hh.
  unfold slice_from. rewrite decide_True by (simpl; lia). reflexivity.
Qed.

Lemma raw_params_split pre sg tl v vs :
  count_sigils pre = 0 -> is_sigil sg = true ->
  raw_params (pre ++ sg :: tl) (v :: vs)
  = mkParam (segment tl) (if decide (sg = star) then slash :: v else v)
    :: raw_params (after tl) vs.
Proof.
  intros Hpre Hsg. unfold raw_params. rewrite captures_split by assumption.
  reflexivity.
Qed.

Lemma raw_params_none p vals : count_sigils p = 0 -> raw_params p vals = [].
Proof. intros Hz. unfold raw_params. rewrite captures_none by exact Hz. reflexivity. Qed.

Lemma expected_raw qu ue p vals :
  expected_params qu ue p vals = decoded qu ue <$> raw_params p vals.
Proof.
  unfold expected_params, raw_params.
  generalize (captures p). intros l. revert vals.
  induction l as [|c l IH]; intros [|v vs]; try reflexivity.
  cbn [zip_with fmap list_fmap]. rewrite IH. reflexivity.
Qed.

Lemma tree_all_leaf P n : children n = [] -> P n -> tree_all P n.
Proof. intros Hc Hp. apply tree_all_node; [exact Hp|rewrite Hc; constructor]. Qed.

Lemma tree_all_one P n c :
  children n = [c] -> P n -> tree_all P c -> tree_all P n.
Proof.
  intros Hc Hp Hpc. apply tree_all_node; [exact Hp|].
  rewrite Hc. constructor; [exact Hpc|constructor].
Qed.

Lemma wdepth_leaf n :
  children n = [] ->
  wdepth n = if decide (count_sigils (path n) = 0) then 0 else 1.
Proof. intros Hc. rewrite wdepth_unfold, Hc. cbn [foldr]. lia. Qed.

Lemma wdepth_one n c :
  children n = [c] ->
  wdepth n = (if decide (count_sigils (path n) = 0) then 0 else 1) + wdepth c.
Proof. intros Hc. rewrite wdepth_unfold, Hc. cbn [foldr]. lia. Qed.

Lemma not_capt_nil n : path n = [] -> ~ capt n.
Proof. intros Hp Hc. apply Hc. rewrite Hp. reflexivity. Qed.

Lemma sem_inv_plain n :
  ~ wild_type n -> ~ capt n -> (wildChild n = true -> indices n = []) ->
  sem_inv n.
Proof.
  intros Ht Hc Hw. split; [intros Hp; exfalso; apply Ht; left; exact Hp|].
  split; [intros; contradiction|]. split; [intros H; contradiction|].
  split; [exact Hw|]. intros Hp. exfalso. apply Ht. right. exact Hp.
Qed.

Lemma decr8_count k : 0 < k <= 255 -> decr8 (Z.of_nat k) = Z.of_nat (k - 1).
Proof. intros Hk. unfold decr8. rewrite Z.mod_small by lia. lia. Qed.

Lemma head_sigil_pre pre sg tl c (pth : str) :
  pth = pre ++ sg :: tl -> count_sigils pre = 0 ->
  head pth = Some c -> is_sigil c = true -> pre = [].
Proof.
  intros Hpth Hpre Hc Hs. destruct pre as [|x pre]; [reflexivity|]. exfalso.
  rewrite Hpth in Hc. simpl in Hc, Hpre. injection Hc as ->.
  rewrite Hs in Hpre. lia.
Qed.

Lemma count_sigils_sigil sg x :
  is_sigil sg = true -> count_sigils (sg :: x) = S (count_sigils x).
Proof. intros H. simpl. rewrite H. reflexivity. Qed.

Lemma count_sigils_plain c x :
  is_sigil c = false -> count_sigils (c :: x) = count_sigils x.
Proof. intros H. simpl. rewrite H. reflexivity. Qed.

Ltac own_path :=
  lazymatch goal with
  | |- find ?N (?p ++ ?r) = ?R => change (find N (path N ++ r) = R)
  end.

Section InsertSem.
Variable hs : HandlersChain.
Variable fullPth : str.

Lemma insertChild_loop_sem : forall fuel n numParams pth n',
  insertChild_loop fuel n numParams pth fullPth hs = (n', Done) ->
  numParams = Z.of_nat (count_sigils pth) -> count_sigils pth <= 255 ->
  children n = [] -> indices n = [] -> wildChild n = false ->
  (path n = [] \/ exists c, head pth = Some c /\ is_sigil c = true) ->
  ~ capt n -> ~ wild_type n ->
  ~ capt n'
  /\ nType n' = nType n
  /\ (forall c, head pth = Some c -> is_sigil c = true ->
        path n' = path n /\ handlers n' = handlers n)
  /\ tree_all sem_inv n'
  /\ (forall B, count_sigils pth <= B -> bounded B n')
  /\ wdepth n' <= count_sigils pth
  /\ (forall h vals, hs = Some h -> values_ok pth vals ->
        find n' (path n ++ substitute pth vals)
        = Some (h, raw_params pth vals)).
Proof.
  induction fuel as [|fuel IH];
    intros n numParams pth n' Hins Hnum Hle Hcs Hidx Hwc Hhead Hncapt Hnpar.
  all: destruct (decide (count_sigils pth = 0)) as [Hz|Hnz].
  1,3: rewrite insertChild_loop_finish in Hins by lia;
    injection Hins as <-;
    assert (Hp : path n = [])
      by (destruct Hhead as [Hp|(c & Hc & Hs)]; [exact Hp|];
          exfalso; destruct pth; [discriminate|];
          simpl in Hc, Hz; injection Hc as ->; rewrite Hs in Hz; lia);
    assert (Hnc : ~ capt (set_fullPath fullPth (set_handlers hs (set_path pth n))))
      by (intros Hc; apply Hc; exact Hz);
    (split; [exact Hnc|]);
    (split; [reflexivity|]);
    (split; [intros c Hc Hs; exfalso; destruct pth; [discriminate|];
             simpl in Hc, Hz; injection Hc as ->; rewrite Hs in Hz; lia|]);
    (split; [apply tree_all_leaf; [exact Hcs|];
             apply sem_inv_plain; [exact Hnpar|exact Hnc
                                  |intros _; exact Hidx]|]);
    (split; [intros B _; apply tree_all_leaf; [exact Hcs|];
             intros Hc; contradiction|]);
    (split; [rewrite wdepth_leaf by exact Hcs; cbn [path set_fullPath set_handlers set_path];
             rewrite decide_True by exact Hz; lia|]);
    intros h vals -> Hvals; rewrite Hp, substitute_none, raw_params_none by exact Hz;
    cbn [app];
    change pth with (path (set_fullPath fullPth
                       (set_handlers (Some h) (set_path pth n)))) at 2;
    apply find_exact; reflexivity.
  - simpl in Hins. rewrite decide_True in Hins by lia. discriminate.
  - destruct (insertChild_loop_step _ _ _ _ _ _ _ Hins Hnum)
      as (pre & sg & tl & Hpth & Hpre & Hvalid & _ & Hcases); [lia|].
    assert (Hsg : is_sigil sg = true).
    { destruct Hcases as [(-> & _)|[(-> & _)|(-> & _)]]; reflexivity. }
    pose proof (count_sigils_split pre sg tl Hpre Hsg) as Hcount.
    rewrite <- Hpth in Hcount. rewrite Hvalid in Hcount.
    assert (Hpn : path (if decide (pre = []) then n else set_path pre n)
                  = path n ++ pre).
    { destruct (decide (pre = [])) as [->|Hne]; [rewrite app_nil_r; reflexivity|].
      destruct Hhead as [Hp|(c & Hc & Hs)]; [rewrite Hp; reflexivity|].
      exfalso. apply Hne. eapply head_sigil_pre; eassumption. }
    assert (Hother :
              nType (if decide (pre = []) then n else set_path pre n) = nType n
              /\ indices (if decide (pre = []) then n else set_path pre n) = indices n
              /\ handlers (if decide (pre = []) then n else set_path pre n) = handlers n
              /\ wildChild (if decide (pre = []) then n else set_path pre n) = wildChild n
              /\ (forall c, head pth = Some c -> is_sigil c = true ->
                    path (if decide (pre = []) then n else set_path pre n) = path n)).
    { destruct (decide (pre = [])) as [->|Hne]; repeat split.
      intros c Hc Hs. exfalso. apply Hne. eapply head_sigil_pre; eassumption. }
    destruct Hother as (Hty1 & Hin1 & Hh1 & Hw1 & Hp1).
    remember (if decide (pre = []) then n else set_path pre n) as n1 eqn:Hn1.
    clear Hn1.
    assert (Hnc1 : ~ capt n1).
    { unfold capt. rewrite Hpn, count_sigils_app, Hpre. unfold capt in Hncapt. lia. }
    cbv zeta in Hcases.
    destruct Hcases as [(-> & Hane & Hafter & child2 & Hrec & ->)
                       |[(-> & Ha & ->)|(-> & Ha & pre' & Hpre' & Hroot & ->)]].
    + (* a parameter, and more *)
      apply IH in Hrec;
        [|rewrite Hnum, Hcount, decr8_count by lia; f_equal; lia| lia
         |reflexivity|reflexivity|reflexivity|left; reflexivity
         |apply not_capt_nil; reflexivity|intros [Hx|Hx]; discriminate].
      destruct Hrec as (Hc2 & Ht2 & _ & Hsem2 & Hb2 & Hd2 & Hr2).
      set (child := set_children [child2]
                      (bump_priority
                         (mkNode (colon :: segment tl) [] [] None 0 param numParams
                            false fullPth))).
      assert (Hcc : capt child).
      { unfold capt. change (path child) with (colon :: segment tl).
        rewrite count_sigils_sigil by reflexivity. lia. }
      assert (Hdc : wdepth child = 1 + wdepth child2).
      { rewrite (wdepth_one child child2) by reflexivity.
        rewrite decide_False; [reflexivity|]. exact Hcc. }
      assert (Hbc : forall B, count_sigils pth <= B -> bounded B child).
      { intros B HB. apply (tree_all_one _ child child2); [reflexivity| |].
        - intros _. cbn. lia.
        - apply Hb2. lia. }
      assert (Hsc : tree_all sem_inv child).
      { apply (tree_all_one _ child child2); [reflexivity| |exact Hsem2].
        split; [intros _; exact Hcc|].
        split; [|split; [|split; [discriminate|discriminate]]].
        - intros _. split; [reflexivity|]. left. split; [reflexivity|].
          exists (segment tl). split; [reflexivity|].
          split; [apply segment_no_slash|exact Hvalid].
        - intros _. split.
          + rewrite Hdc. cbn [maxParams child set_children bump_priority set_priority].
            rewrite Hnum, Nat2Z.id. lia.
          + cbn [maxParams child set_children bump_priority set_priority].
            apply Hbc. rewrite Hnum, Nat2Z.id. lia. }
      split; [exact Hnc1|]. split; [exact Hty1|].
      split; [intros c Hc Hs; split; [apply (Hp1 c Hc Hs)|exact Hh1]|].
      split; [|split; [|split]].
      * apply (tree_all_one _ _ child); [reflexivity| |exact Hsc].
        apply sem_inv_plain;
          [unfold wild_type; cbn; rewrite Hty1; exact Hnpar|exact Hnc1
          |intros _; cbn; rewrite Hin1; exact Hidx].
      * intros B HB. apply (tree_all_one _ _ child); [reflexivity| |apply Hbc, HB].
        intros Hc. contradiction.
      * rewrite (wdepth_one _ child) by reflexivity.
        cbn [path set_children set_wildChild].
        rewrite decide_True by (unfold capt in Hnc1; lia). lia.
      * intros h vals -> Hvals.
        unfold values_ok in Hvals. rewrite Hpth in Hvals.
        rewrite captures_split in Hvals by assumption.
        destruct vals as [|v vs]; [inversion Hvals|].
        apply Forall2_cons_1 in Hvals as [Hv Hvs].
        destruct (Hv eq_refl) as [Hvne Hvns]. clear Hv.
        rewrite Hpth at 1 2. rewrite substitute_split, raw_params_split by assumption.
        rewrite decide_False by discriminate.
        rewrite app_assoc, <- Hpn. own_path.
        erewrite (find_wildChild _ child []);
          [|reflexivity|reflexivity
           |destruct v; [contradiction|discriminate]].
        erewrite (find_wild_param_more child colon (segment tl) child2 []);
          [|reflexivity|reflexivity|reflexivity|exact Hvns
           |apply substitute_head_slash; exact Hafter].
        specialize (Hr2 h vs eq_refl Hvs). cbn [path app] in Hr2.
        rewrite Hr2. reflexivity.
    + (* a parameter ends the pattern *)
      set (child := set_handlers hs
                      (bump_priority
                         (mkNode (colon :: segment tl) [] [] None 0 param numParams
                            false fullPth))).
      assert (Hcc : capt child).
      { unfold capt. change (path child) with (colon :: segment tl).
        rewrite count_sigils_sigil by reflexivity. lia. }
      assert (Hk : count_sigils pth = 1) by (rewrite Hcount, Ha; simpl; lia).
      assert (Hdc : wdepth child = 1).
      { rewrite wdepth_leaf by reflexivity.
        rewrite decide_False; [reflexivity|]. exact Hcc. }
      assert (Hbc : forall B, count_sigils pth <= B -> bounded B child).
      { intros B HB. apply tree_all_leaf; [reflexivity|].
        intros _. cbn. lia. }
      assert (Hsc : tree_all sem_inv child).
      { apply tree_all_leaf; [reflexivity|].
        split; [intros _; exact Hcc|].
        split; [|split; [|split; [discriminate|discriminate]]].
        - intros _. split; [reflexivity|]. left. split; [reflexivity|].
          exists (segment tl). split; [reflexivity|].
          split; [apply segment_no_slash|exact Hvalid].
        - intros _. split.
          + rewrite Hdc. cbn. lia.
          + apply Hbc. cbn. lia. }
      split; [exact Hnc1|]. split; [exact Hty1|].
      split; [intros c Hc Hs; split; [apply (Hp1 c Hc Hs)|exact Hh1]|].
      split; [|split; [|split]].
      * apply (tree_all_one _ _ child); [reflexivity| |exact Hsc].
        apply sem_inv_plain;
          [unfold wild_type; cbn; rewrite Hty1; exact Hnpar|exact Hnc1
          |intros _; cbn; rewrite Hin1; exact Hidx].
      * intros B HB. apply (tree_all_one _ _ child); [reflexivity| |apply Hbc, HB].
        intros Hc. contradiction.
      * rewrite (wdepth_one _ child) by reflexivity.
        cbn [path set_children set_wildChild].
        rewrite decide_True by (unfold capt in Hnc1; lia). lia.
      * intros h vals -> Hvals.
        unfold values_ok in Hvals. rewrite Hpth in Hvals.
        rewrite captures_split in Hvals by assumption.
        destruct vals as [|v vs]; [inversion Hvals|].
        apply Forall2_cons_1 in Hvals as [Hv Hvs].
        destruct (Hv eq_refl) as [Hvne Hvns]. clear Hv.
        rewrite Ha in Hvs. unfold captures in Hvs. simpl in Hvs.
        inversion Hvs; subst vs.
        rewrite Hpth at 1 2. rewrite substitute_split, raw_params_split by assumption.
        rewrite decide_False by discriminate. rewrite Ha.
        unfold substitute, raw_params. cbn [substitute_go captures captures_go zip_with].
        rewrite app_nil_r.
        rewrite app_assoc, <- Hpn. own_path.
        erewrite (find_wildChild _ child []);
          [|reflexivity|reflexivity|exact Hvne].
        apply (find_wild_param_last child colon (segment tl) h v);
          [reflexivity|reflexivity|reflexivity|exact Hvns].
    + (* a catch-all *)
      assert (Htl : segment tl = tl).
      { rewrite <- (segment_after tl) at 2. rewrite Ha. symmetry. apply app_nil_r. }
      assert (Hk : count_sigils pth = 1) by (rewrite Hcount, Ha; simpl; lia).
      assert (Hp : path n = []).
      { destruct Hhead as [Hp|(c & Hc & Hs)]; [exact Hp|].
        exfalso. assert (pre = []) by (eapply head_sigil_pre; eassumption).
        subst pre. destruct pre'; discriminate. }
      set (leaf := mkNode (slash :: star :: tl) [] [] hs 1 catchAll 1 false fullPth).
      set (mid := set_children [leaf]
                    (bump_priority
                       (mkNode [] [] [] None 0 catchAll 1 true fullPth))).
      assert (Hcl : capt leaf).
      { unfold capt. change (path leaf) with (slash :: star :: tl).
        rewrite count_sigils_plain, count_sigils_sigil by reflexivity. lia. }
      assert (Hbl : forall B, 1 <= B -> bounded B leaf).
      { intros B HB. apply tree_all_leaf; [reflexivity|]. intros _. cbn. lia. }
      assert (Hsl : tree_all sem_inv leaf).
      { apply tree_all_leaf; [reflexivity|].
        split; [discriminate|].
        split; [|split; [|split; [discriminate|intros _ Hx; contradiction]]].
        - intros _. split; [reflexivity|]. right. split; [reflexivity|].
          exists tl. split; [reflexivity|].
          rewrite <- Htl at 1. split; [apply segment_no_slash|].
          rewrite <- Htl. exact Hvalid.
        - intros _. split; [|apply Hbl; cbn; lia].
          rewrite wdepth_leaf by reflexivity. rewrite decide_False by exact Hcl.
          cbn. lia. }
      assert (Hcm : ~ capt mid) by (apply not_capt_nil; reflexivity).
      assert (Hsm : tree_all sem_inv mid).
      { apply (tree_all_one _ mid leaf); [reflexivity| |exact Hsl].
        split; [discriminate|]. split; [intros Hx; contradiction|].
        split; [intros Hx; contradiction|]. split; reflexivity. }
      assert (Hpre0 : count_sigils pre' = 0).
      { rewrite Hpre', count_sigils_app in Hpre. lia. }
      set (n2 := let n2 := set_path pre' n in
                 if decide (maxParams n2 < 1)%Z then set_maxParams 1 n2 else n2).
      assert (Hn2 : path n2 = pre' /\ nType n2 = nType n /\ wildChild n2 = false).
      { subst n2. cbv zeta. case_decide; repeat split; assumption. }
      destruct Hn2 as (Hp2 & Ht2 & Hw2).
      clearbody n2.
      assert (Hnc' : ~ capt (set_children [mid] (set_indices [slash] n2))).
      { unfold capt. cbn. rewrite Hp2, Hpre0. lia. }
      split; [exact Hnc'|]. split; [exact Ht2|].
      split.
      { intros c Hc Hs. exfalso.
        assert (pre = []) by (eapply head_sigil_pre; eassumption).
        subst pre. destruct pre'; discriminate. }
      split; [|split; [|split]].
      * apply (tree_all_one _ _ mid); [reflexivity| |exact Hsm].
        apply sem_inv_plain;
          [unfold wild_type; cbn; rewrite Ht2; exact Hnpar|exact Hnc'
          |cbn; rewrite Hw2; discriminate].
      * intros B HB. apply (tree_all_one _ _ mid); [reflexivity| |].
        -- intros Hc. contradiction.
        -- apply (tree_all_one _ mid leaf); [reflexivity| |apply Hbl; lia].
           intros Hc. contradiction.
      * rewrite (wdepth_one _ mid) by reflexivity.
        rewrite (wdepth_one mid leaf) by reflexivity.
        rewrite (wdepth_leaf leaf) by reflexivity.
        rewrite decide_True by (unfold capt in Hnc'; lia).
        rewrite decide_True by reflexivity.
        rewrite decide_False by exact Hcl. lia.
      * intros h vals -> Hvals.
        unfold values_ok in Hvals. rewrite Hpth in Hvals.
        rewrite captures_split in Hvals by assumption. rewrite Ha in Hvals.
        destruct vals as [|v vs]; [inversion Hvals|].
        apply Forall2_cons_1 in Hvals as [_ Hvs].
        unfold captures in Hvs. simpl in Hvs. inversion Hvs; subst vs.
        rewrite Hpth at 1 2. rewrite substitute_split, raw_params_split by assumption.
        rewrite decide_True by reflexivity. rewrite Ha.
        unfold substitute, raw_params. cbn [substitute_go captures captures_go zip_with].
        rewrite app_nil_r, Hp, Hpre', <- app_assoc. cbn [app].
        rewrite <- Hp2 at 1.
        change (path n2) with (path (set_children [mid] (set_indices [slash] n2))).
        erewrite (find_static _ slash v 0 mid);
          [|exact Hw2|cbn; rewrite decide_True by reflexivity; reflexivity
           |reflexivity].
        change (slash :: v) with (path mid ++ slash :: v).
        erewrite (find_wildChild mid leaf []);
          [|reflexivity|reflexivity|discriminate].
        rewrite Htl.
        apply (find_wild_catchAll leaf slash star tl h); reflexivity.
Qed.

End InsertSem.

Section Cases.
Variable hs : HandlersChain.
Variable fullPth : str.
Variable self : node -> str -> Z -> nat -> node * status.

(** The ways an iteration of the loop of [addRoute] ends well, below the
    split. *)
Lemma walk_below_cases m i pth numParams pfi n' :
  walk_below self m i pth fullPth hs numParams pfi = (n', Done) ->
  inv m ->
  count_sigils (drop i pth) <= 255 ->
  numParams = Z.of_nat (count_sigils (drop i pth)) ->
  (wild_type m -> i < length pth -> pth !! i = Some slash) ->
  (length pth <= i /\ handlers m = None /\ n' = set_handlers hs m)
  \/ (i < length pth
      /\ ((wildChild m = true
           /\ exists c0 c' f,
                children m = [c0] /\ wild_type c0 /\ count_sigils (path c0) = 1
                /\ self (raise_maxParams numParams (bump_priority c0))
                     (drop i pth) (decr8 numParams) f = (c', Done)
                /\ walk_pre (raise_maxParams numParams (bump_priority c0))
                     (drop i pth) (decr8 numParams)
                /\ n' = set_children [c'] m)
          \/ (wildChild m = false /\ nType m = param
              /\ exists ch ch' f,
                   children m = [ch] /\ head (drop i pth) = Some slash
                   /\ plain_child ch /\ index_for ch = slash
                   /\ self (bump_priority ch) (drop i pth) numParams f
                      = (ch', Done)
                   /\ walk_pre (bump_priority ch) (drop i pth) numParams
                   /\ (path ch = [] \/ head (path ch) = head (drop i pth))
                   /\ n' = set_children [ch'] m)
          \/ (wildChild m = false /\ nType m <> param
              /\ indices m = index_for <$> children m
              /\ exists c k k' ch ch' f,
                   head (drop i pth) = Some c
                   /\ index_of c (indices m) = Some k
                   /\ children m !! k = Some ch /\ k' <= k
                   /\ plain_child ch /\ index_for ch = c
                   /\ self (bump_priority ch) (drop i pth) numParams f
                      = (ch', Done)
                   /\ walk_pre (bump_priority ch) (drop i pth) numParams
                   /\ (path ch = [] \/ head (path ch) = head (drop i pth))
                   /\ same_but m n'
                   /\ indices n' = take k' (indices m) ++ [c]
                                   ++ drop k' (take k (indices m))
                                   ++ drop (S k) (indices m)
                   /\ children n' = take k' (children m) ++ [ch']
                                    ++ drop k' (take k (children m))
                                    ++ drop (S k) (children m)
)
          \/ (wildChild m = false
              /\ indices m = index_for <$> children m
              /\ (nType m = param -> children m = [])
              /\ exists c newPos ch',
                   head (drop i pth) = Some c
                   /\ index_of c (indices m) = None /\ is_sigil c = false
                   /\ newPos <= length (children m)
                   /\ insertChild_loop (Z.to_nat numParams)
                        (bump_priority
                           (mkNode [] [] [] None 0 static numParams false
                              fullPth))
                        numParams (drop i pth) fullPth hs = (ch', Done)
                   /\ same_but m n'
                   /\ indices n' = take newPos (indices m) ++ [c]
                                   ++ drop newPos (indices m)
                   /\ children n' = take newPos (children m) ++ [ch']
                                    ++ drop newPos (children m))
          \/ (wildChild m = false /\ children m = [] /\ indices m = []
              /\ ~ wild_type m
              /\ exists c,
                   head (drop i pth) = Some c /\ is_sigil c = true
                   /\ insertChild_loop (Z.to_nat numParams) m numParams
                        (drop i pth) fullPth hs = (n', Done)))).
Proof.
  unfold walk_below. intros H Hm Hle Hnum Hnext.
  destruct (decide (i < length pth)) as [Hi|Hi].
  2:{ left. destruct (decide (handlers m <> None)) as [|Hh]; [discriminate|].
      injection H as <-. split; [lia|]. split; [|reflexivity].
      destruct (handlers m); [exfalso; apply Hh; discriminate|reflexivity]. }
  right. split; [exact Hi|].
  remember (drop i pth) as pth' eqn:Hdrop.
  pose proof (tree_all_here _ _ Hm) as Hm0. unfold node_inv in Hm0.
  destruct (wildChild m) eqn:Hw.
  - (* the wildcard child *)
    left. split; [reflexivity|].
    destruct Hm0 as (c0 & Hc0 & Hwild & Hcount). rewrite Hc0 in H.
    set (c1 := raise_maxParams numParams (bump_priority c0)) in *.
    assert (Hshape : same_shape c0 c1).
    { subst c1. destruct (same_shape_raise numParams (bump_priority c0))
        as (A1 & A2 & A3 & A4 & A5). repeat split; assumption. }
    destruct (decide (_ /\ _)) as [(Hlen & Hpre & Hslash)|]; [|discriminate].
    destruct (self c1 pth' (decr8 numParams) _) as [c' st] eqn:Hrec.
    injection H as <- ->.
    pose proof Hshape as (Sp & Si & Sc & St & Sw).
    assert (Hone : 1 <= count_sigils pth').
    { rewrite <- Hcount, <- Sp, Hpre. apply count_sigils_take_le. }
    exists c0, c'. eexists. split; [exact Hc0|]. split; [exact Hwild|].
    split; [exact Hcount|]. split; [exact Hrec|]. split; [|reflexivity].
    fold c1. unfold walk_pre. split; [|split; [|split]].
    + intros _. split; [symmetry; exact Hpre|exact Hslash].
    + intros Hn. exfalso. apply Hn. unfold wild_type in *. rewrite St. exact Hwild.
    + exact Hle.
    + rewrite Sp, Hcount. unfold decr8. rewrite Hnum.
      rewrite Z.mod_small by lia. lia.
  - right. destruct Hm0 as [HT Hrest].
    destruct pth' as [|c rest]; [discriminate|].
    assert (Hc : pth !! i = Some c).
    { rewrite <- head_drop_lookup, <- Hdrop. reflexivity. }
    assert (Hplain_pre : forall ch k, children m !! k = Some ch ->
              index_for ch = c ->
              walk_pre (bump_priority ch) (c :: rest) numParams
              /\ (path ch = [] \/ head (path ch) = head (c :: rest))).
    { intros ch k Hk Hidx.
      destruct (Forall_lookup_1 _ _ _ _ HT Hk) as (P1 & P2 & P3).
      split.
      - unfold walk_pre. cbn [path nType bump_priority set_priority].
        split; [|split; [|split]].
        + intros [Hpa|Hca]; [contradiction|]. rewrite (P2 Hca). simpl.
          split; [reflexivity|]. right. f_equal.
          rewrite <- Hidx. unfold index_for. rewrite (P2 Hca). reflexivity.
        + intros _. exact P3.
        + exact Hle.
        + rewrite P3, Hnum. lia.
      - simpl. unfold index_for in Hidx. destruct (path ch); [left; reflexivity|].
        right. simpl. congruence. }
    destruct (decide (nType m = param /\ c = slash /\ length (children m) = 1))
      as [(Hpar & -> & Hone)|Hnot].
    + (* a parameter node, followed by '/' *)
      left. split; [reflexivity|]. split; [exact Hpar|].
      rewrite decide_True in Hrest by exact Hpar.
      destruct Hrest as (_ & Hs & _).
      destruct (children m) as [|ch cs] eqn:Hcs; [discriminate|].
      destruct cs; [|simpl in Hone; lia].
      apply Forall_cons_1 in Hs as [Hidx _].
      destruct (Hplain_pre ch 0 eq_refl Hidx) as [Hpre Hhead].
      destruct (self (bump_priority ch) _ numParams _) as [ch' st] eqn:Hrec.
      injection H as <- ->.
      exists ch, ch'. eexists. split; [reflexivity|]. split; [reflexivity|].
      split; [apply (Forall_lookup_1 _ _ 0 _ HT); reflexivity|].
      split; [exact Hidx|]. split; [exact Hrec|]. split; [exact Hpre|].
      split; [exact Hhead|reflexivity].
    + right.
      assert (Hindexed : indices m = index_for <$> children m
                         /\ (nType m = param -> children m = [])).
      { case_decide as Hpar; [|split; [exact Hrest|contradiction]].
        destruct Hrest as (Hl & Hs & Hind).
        assert (c = slash) as ->.
        { assert (Some c = Some slash) as [= ->]; [|reflexivity].
          rewrite <- Hc. apply Hnext; [left; exact Hpar|exact Hi]. }
        assert (Hnil : children m = []).
        { destruct (children m) as [|ch [|ch2 cs]]; [reflexivity| |simpl in Hl; lia].
          exfalso. apply Hnot. auto. }
        split; [|intros _; exact Hnil].
        rewrite Hnil in Hind |- *. destruct Hind; assumption. }
      destruct Hindexed as [Hindexed Hparnil].
      destruct (index_of c (indices m)) as [k|] eqn:Hio.
      * (* an existing child *)
        left. split; [reflexivity|].
        pose proof (index_of_Some _ _ _ Hio) as Hio'.
        rewrite Hindexed, list_lookup_fmap in Hio'.
        destruct (children m !! k) as [ch|] eqn:Hk; [|discriminate].
        simpl in Hio'. injection Hio' as Hidx.
        assert (Hnpar : nType m <> param).
        { intros Hpar. rewrite (Hparnil Hpar) in Hk. discriminate. }
        split; [exact Hnpar|]. split; [exact Hindexed|].
        destruct (incrementChildPrio m k) as [m2 [k'|]] eqn:Hinc; [|discriminate].
        destruct (incrementChildPrio_child _ _ _ _ Hinc) as (ch0 & Hk0 & Hk').
        rewrite Hk in Hk0. injection Hk0 as <-. rewrite Hk' in H.
        destruct (Hplain_pre ch k Hk Hidx) as [Hpre Hhead].
        destruct (self (bump_priority ch) _ numParams _) as [ch' st] eqn:Hrec.
        injection H as <- ->.
        pose proof (incrementChildPrio_spec _ _ _ _ Hinc)
          as (x & Hx & Hkle & Heq & _).
        rewrite Hk in Hx. injection Hx as <-.
        exists c, k, k', ch, ch'. eexists.
        split; [reflexivity|]. split; [exact Hio|]. split; [exact Hk|].
        split; [exact Hkle|].
        split; [apply (Forall_lookup_1 _ _ _ _ HT Hk)|].
        split; [exact Hidx|]. split; [exact Hrec|]. split; [exact Hpre|].
        split; [exact Hhead|].
        assert (Hik : indices m !! k = Some c)
          by (apply index_of_Some; exact Hio).
        rewrite Heq. cbn [path handlers nType wildChild maxParams indices children
                          set_children set_indices].
        split; [repeat split|]. split.
        -- case_decide as Hkk.
           ++ subst k'. symmetry. apply move_same. exact Hik.
           ++ apply move_lookup; assumption.
        -- assert (Hlen : length (take k' (children m)) = k').
           { rewrite length_take. apply lookup_lt_Some in Hk. lia. }
           rewrite insert_app_r_alt by lia. rewrite Hlen, Nat.sub_diag.
           reflexivity.
      * right.
        destruct (is_sigil c) eqn:Hsig; simpl negb in H; cbv iota in H.
        -- (* a wildcard right here *)
           right. split; [reflexivity|].
           unfold insertChild in H.
           assert (Hnil : children m = []).
           { destruct (decide (children m = [])) as [|Hne]; [assumption|].
             exfalso.
             eapply (insertChild_loop_sigil_children hs fullPth _ m numParams
                       (c :: rest) c); [reflexivity|exact Hsig| |exact Hne|].
             - rewrite Hnum. simpl. rewrite Hsig. lia.
             - rewrite H. reflexivity. }
           split; [exact Hnil|].
           split; [rewrite Hindexed, Hnil; reflexivity|].
           split.
           { intros Hwt. specialize (Hnext Hwt Hi). rewrite Hc in Hnext.
             injection Hnext as ->. discriminate. }
           exists c. split; [reflexivity|]. split; [exact Hsig|exact H].
        -- (* a new static child *)
           left. split; [reflexivity|]. split; [exact Hindexed|].
           split; [exact Hparnil|].
           assert (Hlen : length (indices m) = length (children m))
             by (rewrite Hindexed, length_fmap; reflexivity).
           cbn [indices children set_children set_indices] in H.
           rewrite length_app in H. simpl length in H.
           replace (length (indices m) + 1 - 1) with (length (indices m)) in H
             by lia.
           match type of H with
           | context [incrementChildPrio ?a ?b] =>
               destruct (incrementChildPrio a b) as [m2 [newPos|]] eqn:Hinc;
                 [|discriminate]
           end.
           pose proof (incrementChildPrio_spec _ _ _ _ Hinc)
             as (x & _ & _ & Heq & _).
           apply incrementChildPrio_append in Hinc; [|exact Hlen].
           destruct Hinc as (Hle' & Hcs2 & Hin2 & Ht2 & Hp2 & Hw2).
           assert (Hl2 : length (children m2) = S (length (children m))).
           { rewrite Hcs2, !length_app, length_take, length_drop. simpl. lia. }
           rewrite decide_True in H by lia.
           assert (Hk : children m2 !! newPos
                        = Some (bump_priority
                                  (mkNode [] [] [] None 0 static numParams false
                                     fullPth))).
           { rewrite Hcs2. rewrite lookup_app_r by (rewrite length_take; lia).
             rewrite length_take.
             replace (newPos - newPos `min` length (children m)) with 0 by lia.
             reflexivity. }
           rewrite Hk in H.
           destruct (insertChild _ numParams (c :: rest) fullPth hs)
             as [ch' st] eqn:Hic.
           injection H as <- ->. unfold insertChild in Hic.
           exists c, newPos, ch'. split; [reflexivity|]. split; [exact Hio|].
           split; [exact Hsig|]. split; [exact Hle'|]. split; [exact Hic|].
           assert (Hcs' : <[newPos:=ch']> (children m2)
                          = take newPos (children m) ++ [ch']
                            ++ drop newPos (children m)).
           { rewrite Hcs2. rewrite insert_app_r_alt by (rewrite length_take; lia).
             rewrite length_take.
             replace (newPos - newPos `min` length (children m)) with 0 by lia.
             reflexivity. }
           cbn [path handlers nType wildChild maxParams indices children
                set_children].
           split; [|split; [exact Hin2|exact Hcs']].
           rewrite Heq. repeat split.
Qed.

End Cases.

Lemma foldl_raise_handlers (l : list node) : forall a,
  handlers
    (foldl (fun ch v => if decide (maxParams ch < maxParams v)%Z
                        then set_maxParams (maxParams v) ch else ch) a l)
  = handlers a.
Proof.
  induction l as [|x l IH]; intros a; [reflexivity|].
  cbn [foldl]. rewrite IH. case_decide; reflexivity.
Qed.

Lemma split_fields n i pth fullPth pfi m :
  split n i pth fullPth pfi = (m, true) ->
  wildChild m = false /\ nType m = nType n /\ path m = take i pth
  /\ handlers m = None /\ maxParams m = maxParams n
  /\ indices m = take 1 (drop i (path n))
  /\ exists ch, children m = [ch] /\ nType ch = static
                /\ path ch = drop i (path n) /\ children ch = children n
                /\ indices ch = indices n /\ handlers ch = handlers n
                /\ wildChild ch = wildChild n.
Proof.
  unfold split. intros H.
  match type of H with
  | context [foldl ?f ?a ?l] =>
      pose proof (foldl_raise_shape l a) as (Hp & Hi & Hc & Hty & Hw);
      pose proof (foldl_raise_handlers l a) as Hh;
      remember (foldl f a l) as ch eqn:Hch; clear Hch
  end.
  case_decide; [|discriminate]. injection H as <-.
  cbn [wildChild nType indices children path handlers maxParams set_fullPath
       set_wildChild set_handlers set_path set_indices set_children] in *.
  repeat split. exists ch. repeat split; assumption.
Qed.

Section WalkCases.
Variable hs : HandlersChain.
Variable fullPth : str.

(** One iteration of the loop of [addRoute] that ends well: the edge is
    split or not, and the loop goes on below. *)
Lemma walk_cases fuel n pth numParams pfi n' :
  walk (S fuel) n pth fullPth hs numParams pfi = (n', Done) ->
  inv n -> walk_pre n pth numParams ->
  exists i m,
    i <= length pth /\ take i pth = take i (path n)
    /\ ((i < length (path n) /\ ~ wild_type n
         /\ count_sigils (path n) = 0
         /\ (i < length pth -> pth !! i <> path n !! i)
         /\ split (raise_maxParams numParams n) i pth fullPth pfi = (m, true))
        \/ (i = length (path n) /\ take i pth = path n
            /\ m = raise_maxParams numParams n))
    /\ inv m /\ nType m = nType n /\ path m = take i pth
    /\ count_sigils (take i pth) = count_sigils (path n)
    /\ count_sigils (drop i pth) <= 255
    /\ numParams = Z.of_nat (count_sigils (drop i pth))
    /\ (wild_type m -> i < length pth -> pth !! i = Some slash)
    /\ walk_below (fun c p k f => walk fuel c p fullPth hs k f)
         m i pth fullPth hs numParams pfi = (n', Done).
Proof.
  intros H Hn Hpre. cbn [walk] in H.
  destruct Hpre as (Hwild & Hplain & Hle & Hnum).
  pose proof (same_shape_raise numParams n) as Hshape.
  remember (raise_maxParams numParams n) as n1 eqn:Hn1eq.
  pose proof Hshape as (Sp & Si & Sc & St & Sw).
  assert (Hn1 : inv n1) by (eapply same_shape_inv; eassumption).
  rewrite Sp in H.
  destruct (lcp_spec pth (path n)) as (Hi1 & Hi2 & Htake & Hdiff).
  remember (longestCommonPrefix pth (path n)) as i eqn:Hieq.
  assert (Hcount : count_sigils pth
                   = count_sigils (take i pth) + count_sigils (drop i pth)).
  { rewrite <- (take_drop i pth) at 1. apply count_sigils_app. }
  assert (Hmid : exists m,
    (if decide (i < length (path n)) then split n1 i pth fullPth pfi
     else (n1, true)) = (m, true)
    \/ snd (if decide (i < length (path n)) then split n1 i pth fullPth pfi
            else (n1, true)) = false).
  { destruct (if decide (i < length (path n)) then _ else _) as [m [|]].
    - exists m. left. reflexivity.
    - exists m. right. reflexivity. }
  destruct Hmid as [m [Hm|Hm]].
  2:{ destruct (if decide (i < length (path n)) then _ else _) as [m' ok_].
      simpl in Hm. subst ok_. discriminate. }
  rewrite Hm in H. simpl negb in H. cbv iota in H.
  exists i, m. split; [exact Hi1|]. split; [exact Htake|].
  assert (Hfacts : inv m /\ nType m = nType n /\ path m = take i pth
                   /\ (i < length (path n) ->
                       ~ wild_type n /\ count_sigils (take i pth) = 0)
                   /\ (~ i < length (path n) -> path m = path n)).
  { destruct (decide (i < length (path n))) as [Hlt|Hge].
    - assert (Hnw : ~ wild_type n).
      { intros Hw. destruct (Hwild Hw) as [Hp _].
        apply lcp_prefix in Hp. lia. }
      assert (Hnw1 : ~ wild_type n1) by (unfold wild_type; rewrite St; exact Hnw).
      apply split_inv in Hm;
        [|exact Hn1|exact Hnw1|rewrite Sp; apply Hplain; exact Hnw|rewrite Sp; exact Hlt].
      destruct Hm as (A1 & A2 & A3 & A4).
      split; [exact A1|]. split; [congruence|]. split; [exact A3|].
      split; [|intros; lia]. intros _. split; [exact Hnw|].
      rewrite Htake. apply count_sigils_take_0. apply Hplain. exact Hnw.
    - injection Hm as <-. split; [exact Hn1|]. split; [exact St|].
      assert (Hfull : take i pth = path n).
      { rewrite Htake. apply take_ge. lia. }
      split; [congruence|]. split; [intros; lia|]. intros _. exact Sp. }
  destruct Hfacts as (Hinvm & Htym & Hpm & Hsplit & Hnosplit).
  assert (Hrest : count_sigils (take i pth) = count_sigils (path n)).
  { destruct (decide (i < length (path n))) as [Hlt|Hge].
    - destruct (Hsplit Hlt) as [Hnw Hz]. rewrite Hz. symmetry. apply Hplain. exact Hnw.
    - rewrite <- Hpm, (Hnosplit Hge). reflexivity. }
  split.
  { destruct (decide (i < length (path n))) as [Hlt|Hge].
    - left. destruct (Hsplit Hlt) as [Hnw Hz].
      split; [exact Hlt|]. split; [exact Hnw|].
      split; [apply Hplain; exact Hnw|]. split; [|exact Hm].
      intros Hip. apply Hdiff; assumption.
    - right. injection Hm as <-. split; [lia|]. split; [|reflexivity].
      rewrite Htake. apply take_ge. lia. }
  split; [exact Hinvm|]. split; [exact Htym|]. split; [exact Hpm|].
  split; [exact Hrest|]. split; [lia|]. split; [lia|]. split; [|exact H].
  intros Hw Hlt. unfold wild_type in Hw. rewrite Htym in Hw.
  destruct (Hwild Hw) as [Hp Hs].
  assert (Hfull : i = length (path n)).
  { rewrite Hieq. apply lcp_prefix. exact Hp. }
  destruct Hs as [Hs|Hs]; [lia|rewrite Hfull; exact Hs].
Qed.

End WalkCases.

Lemma cw_le n : cw n <= count_sigils (path n).
Proof. unfold cw. case_decide; lia. Qed.

Lemma cw_capt n : capt n -> cw n = 1.
Proof. intros H. unfold cw. rewrite decide_False by exact H. reflexivity. Qed.

Lemma cw_plain n : ~ capt n -> cw n = 0.
Proof.
  intros H. unfold cw. case_decide; [reflexivity|]. exfalso. apply H. assumption.
Qed.

Lemma wdepth_cw n :
  wdepth n = cw n + foldr (fun c m => Nat.max (wdepth c) m) 0 (children n).
Proof. apply wdepth_unfold. Qed.

Lemma wdepth_bound n X :
  Forall (fun c => wdepth c <= X) (children n) -> wdepth n <= cw n + X.
Proof.
  intros H. rewrite wdepth_cw. pose proof (foldr_max_bound wdepth _ _ H). lia.
Qed.

Lemma wdepth_children n :
  Forall (fun c => cw n + wdepth c <= wdepth n) (children n).
Proof.
  apply list.Forall_forall. intros c Hc. rewrite (wdepth_cw n).
  pose proof (foldr_max_le wdepth _ _ Hc). lia.
Qed.

Lemma bounded_node B n :
  bounded B n
  <-> (capt n -> Z.to_nat (maxParams n) <= B) /\ Forall (bounded B) (children n).
Proof. apply tree_all_unfold. Qed.

Lemma capt_dec n : capt n \/ ~ capt n.
Proof. unfold capt. destruct (decide (count_sigils (path n) = 0)); [right|left]; lia. Qed.

Lemma cap_alike_sem n n' :
  cap_alike n n' -> tree_all sem_inv n -> tree_all sem_inv n'.
Proof.
  intros (Hp & Ht & Hw & Hc & Hm & Hi) H. apply tree_all_node.
  - pose proof (tree_all_here _ _ H) as (H1 & H2 & H3 & H4 & H5).
    assert (Hcc : capt n' <-> capt n) by (unfold capt; rewrite Hp; reflexivity).
    split; [rewrite Ht, Hcc; exact H1|]. split; [|split; [|split]].
    + intros Hn'. apply Hcc in Hn'. destruct (H2 Hn') as [A B].
      split; [congruence|]. unfold shape_capt in *. rewrite Ht, Hp. exact B.
    + intros Hn'. apply Hcc in Hn'. destruct (H3 Hn') as [A B].
      assert (Hd : wdepth n' = wdepth n)
        by (rewrite !wdepth_cw; unfold cw; rewrite Hp, Hc; reflexivity).
      rewrite Hd, (Hm Hn'). split; [exact A|].
      apply bounded_node. apply bounded_node in B. rewrite Hc, (Hm Hn').
      split; [lia|apply B].
    + rewrite Hw, Hi. exact H4.
    + rewrite Ht, Hw, Hcc. exact H5.
  - rewrite Hc. apply (tree_all_children _ _ H).
Qed.

Lemma cap_alike_bounded B n n' :
  cap_alike n n' -> bounded B n -> bounded B n'.
Proof.
  intros (Hp & Ht & Hw & Hc & Hm & _) H. apply bounded_node. apply bounded_node in H.
  rewrite Hc. split; [|apply H]. intros Hn'.
  assert (Hn : capt n) by (unfold capt in *; rewrite <- Hp; exact Hn').
  rewrite (Hm Hn). apply H, Hn.
Qed.

Lemma cap_alike_wdepth n n' : cap_alike n n' -> wdepth n' = wdepth n.
Proof.
  intros (Hp & Ht & Hw & Hc & Hm & _). rewrite !wdepth_cw. unfold cw.
  rewrite Hp, Hc. reflexivity.
Qed.

Lemma cap_alike_bump n : cap_alike n (bump_priority n).
Proof. repeat split. Qed.

Lemma cap_alike_handlers hs n : cap_alike n (set_handlers hs n).
Proof. repeat split. Qed.

Lemma cap_alike_raise k n :
  (capt n -> (k <= maxParams n)%Z) -> cap_alike n (raise_maxParams k n).
Proof.
  intros H. unfold raise_maxParams. case_decide as Hlt; repeat split.
  intros Hc. specialize (H Hc). lia.
Qed.

(** A node rebuilt around new children. *)
Lemma sem_inv_rebuild n n' :
  same_but n n' -> sem_inv n ->
  (wildChild n = true -> indices n' = []) ->
  Forall (tree_all sem_inv) (children n') ->
  (capt n -> wdepth n' <= Z.to_nat (maxParams n)
             /\ Forall (bounded (Z.to_nat (maxParams n))) (children n')) ->
  tree_all sem_inv n'.
Proof.
  intros (Hp & Hh & Ht & Hw & Hm) (H1 & H2 & H3 & H4 & H5) Hi Hc Hcap.
  assert (Hcc : capt n' <-> capt n) by (unfold capt; rewrite Hp; reflexivity).
  apply tree_all_node; [|exact Hc].
  split; [rewrite Ht, Hcc; exact H1|]. split; [|split; [|split]].
  - intros Hn'. apply Hcc in Hn'. destruct (H2 Hn') as [A B].
    split; [congruence|]. unfold shape_capt in *. rewrite Ht, Hp. exact B.
  - intros Hn'. apply Hcc in Hn'. destruct (Hcap Hn') as [A B].
    rewrite Hm. split; [exact A|]. apply bounded_node. rewrite Hm.
    split; [lia|exact B].
  - rewrite Hw. exact Hi.
  - rewrite Ht, Hw, Hcc. exact H5.
Qed.

Lemma bounded_rebuild B n n' :
  same_but n n' -> bounded B n ->
  Forall (bounded B) (children n') -> bounded B n'.
Proof.
  intros (Hp & Hh & Ht & Hw & Hm) H Hc. apply bounded_node.
  split; [|exact Hc]. intros Hn'. rewrite Hm.
  apply (bounded_here _ _ H). unfold capt in *. rewrite <- Hp. exact Hn'.
Qed.

Lemma wdepth_rebuild n n' X :
  path n' = path n ->
  Forall (fun c => wdepth c <= X) (children n') ->
  wdepth n' <= cw n + X.
Proof.
  intros Hp H. pose proof (wdepth_bound n' X H) as Hb.
  unfold cw in *. rewrite Hp in Hb. exact Hb.
Qed.

Lemma same_but_refl_children cs n : same_but n (set_children cs n).
Proof. repeat split. Qed.

Lemma child_ok_old m cnt c :
  tree_all sem_inv m -> c ∈ children m -> child_ok m cnt c.
Proof.
  intros Hs Hc. split; [|split].
  - pose proof (tree_all_children _ _ Hs) as H.
    rewrite list.Forall_forall in H. apply H, Hc.
  - intros B HB _. eapply bounded_child; eassumption.
  - pose proof (wdepth_children m) as H. rewrite list.Forall_forall in H.
    specialize (H c Hc). lia.
Qed.

Lemma child_ok_post m cnt c0 c1 c' p :
  c0 ∈ children m ->
  cap_post c1 c' p -> count_sigils p = cnt ->
  (forall B, bounded B c0 -> cnt <= B -> bounded B c1) ->
  wdepth c1 = wdepth c0 ->
  child_ok m cnt c'.
Proof.
  intros Hc (Hs & Hb & Hd) Hp Hb1 Hd1. split; [exact Hs|split].
  - intros B HB Hcnt. apply Hb; [|lia]. apply Hb1; [|exact Hcnt].
    eapply bounded_child; eassumption.
  - pose proof (wdepth_children m) as H. rewrite list.Forall_forall in H.
    specialize (H c0 Hc). lia.
Qed.

Lemma cap_assemble m n' cnt :
  same_but m n' -> tree_all sem_inv m ->
  (wildChild m = true -> indices n' = []) ->
  (capt m -> cw m + cnt <= Z.to_nat (maxParams m)) ->
  Forall (child_ok m cnt) (children n') ->
  tree_all sem_inv n'
  /\ (forall B, bounded B m -> cnt <= B -> bounded B n')
  /\ wdepth n' <= Nat.max (wdepth m) (cw m + cnt).
Proof.
  intros Hsame Hs Hidx Hcap Hch.
  assert (Hd : wdepth n' <= Nat.max (wdepth m) (cw m + cnt)).
  { destruct Hsame as (Hp & _).
    pose proof (wdepth_rebuild m n' (Nat.max (wdepth m) (cw m + cnt) - cw m) Hp)
      as H.
    assert (cw m <= wdepth m) by (rewrite wdepth_cw; lia).
    etransitivity; [apply H|lia].
    eapply list.Forall_impl; [exact Hch|]. intros c (_ & _ & Hc). cbn beta. lia. }
  split; [|split; [|exact Hd]].
  - apply (sem_inv_rebuild m n' Hsame (tree_all_here _ _ Hs) Hidx).
    + eapply list.Forall_impl; [exact Hch|]. intros c (Hc & _). exact Hc.
    + intros Hc. pose proof (tree_all_here _ _ Hs) as (_ & _ & H3 & _).
      destruct (H3 Hc) as [A B]. specialize (Hcap Hc).
      split; [lia|].
      eapply list.Forall_impl; [exact Hch|]. intros c (_ & Hb & _). cbn beta.
      apply Hb; [exact B|lia].
  - intros B HB Hcnt. apply (bounded_rebuild B m n' Hsame HB).
    eapply list.Forall_impl; [exact Hch|]. intros c (_ & Hb & _). cbn beta.
    apply Hb; assumption.
Qed.

Lemma Forall_moved {A} (P : A -> Prop) (cs : list A) k k' y :
  Forall P cs -> P y ->
  Forall P (take k' cs ++ [y] ++ drop k' (take k cs) ++ drop (S k) cs).
Proof.
  intros H Hy. apply Forall_app. split; [apply Forall_take; exact H|].
  constructor; [exact Hy|]. apply Forall_app.
  split; [apply Forall_drop, Forall_take; exact H|apply Forall_drop; exact H].
Qed.

Lemma Forall_inserted {A} (P : A -> Prop) (cs : list A) k y :
  Forall P cs -> P y -> Forall P (take k cs ++ [y] ++ drop k cs).
Proof.
  intros H Hy. apply Forall_app. split; [apply Forall_take; exact H|].
  constructor; [exact Hy|apply Forall_drop; exact H].
Qed.

Lemma wdepth_same n n' :
  path n' = path n -> children n' = children n -> wdepth n' = wdepth n.
Proof. intros Hp Hc. rewrite !wdepth_cw. unfold cw. rewrite Hp, Hc. reflexivity. Qed.

(** Raising [maxParams] of a capture node. *)
Lemma sem_raise k c :
  tree_all sem_inv c ->
  tree_all sem_inv (raise_maxParams k c)
  /\ (forall B, bounded B c -> Z.to_nat k <= B -> bounded B (raise_maxParams k c))
  /\ wdepth (raise_maxParams k c) = wdepth c
  /\ Z.to_nat k <= Z.to_nat (maxParams (raise_maxParams k c)).
Proof.
  intros Hs. unfold raise_maxParams.
  destruct (decide (maxParams c < k)%Z) as [Hlt|Hge].
  - split; [|split; [|split]].
    + apply tree_all_node; [|apply (tree_all_children _ _ Hs)].
      pose proof (tree_all_here _ _ Hs) as (H1 & H2 & H3 & H4 & H5).
      split; [exact H1|]. split; [exact H2|]. split; [|split; [exact H4|exact H5]].
      intros Hc. destruct (H3 Hc) as [A B].
      rewrite (wdepth_same c (set_maxParams k c)) by reflexivity.
      cbn [maxParams set_maxParams]. split; [lia|].
      apply bounded_node. apply bounded_node in B.
      split; [cbn; lia|].
      eapply list.Forall_impl; [apply B|]. intros x. apply bounded_mono. lia.
    + intros B HB Hk. apply bounded_node. apply bounded_node in HB.
      split; [cbn; lia|apply HB].
    + apply wdepth_same; reflexivity.
    + cbn. lia.
  - split; [exact Hs|]. split; [auto|]. split; [reflexivity|]. lia.
Qed.

Section WalkBelowCap.
Variable hs : HandlersChain.
Variable fullPth : str.
Variable self : node -> str -> Z -> nat -> node * status.
Hypothesis self_cap : forall c p k f c',
  self c p k f = (c', Done) -> inv c -> walk_pre c p k ->
  tree_all sem_inv c -> (capt c -> count_sigils p <= Z.to_nat (maxParams c)) ->
  cap_post c c' p.

Lemma walk_below_cap m i pth numParams pfi n' :
  walk_below self m i pth fullPth hs numParams pfi = (n', Done) ->
  inv m ->
  count_sigils (drop i pth) <= 255 ->
  numParams = Z.of_nat (count_sigils (drop i pth)) ->
  (wild_type m -> i < length pth -> pth !! i = Some slash) ->
  tree_all sem_inv m ->
  (capt m -> cw m + count_sigils (drop i pth) <= Z.to_nat (maxParams m)) ->
  tree_all sem_inv n'
  /\ (forall B, bounded B m -> count_sigils (drop i pth) <= B -> bounded B n')
  /\ wdepth n' <= Nat.max (wdepth m) (cw m + count_sigils (drop i pth)).
Proof.
  intros H Hm Hle Hnum Hnext Hsem Hcap.
  pose proof (tree_all_here _ _ Hsem) as (Hs1 & Hs2 & Hs3 & Hs4 & Hs5).
  destruct (walk_below_cases _ _ _ _ _ _ _ _ _ H Hm Hle Hnum Hnext)
    as [(_ & _ & ->)|(Hi & [A|[B|[C|[D|E]]]])].
  - (* the node of the route *)
    split; [eapply cap_alike_sem; [apply cap_alike_handlers|exact Hsem]|].
    split; [intros B HB _; eapply cap_alike_bounded;
            [apply cap_alike_handlers|exact HB]|].
    rewrite (cap_alike_wdepth m) by apply cap_alike_handlers. lia.
  - destruct A as (Hw & c0 & c' & f & Hc0 & Hwt & Hcnt & Hrec & Hpre & ->).
    assert (Hin : c0 ∈ children m) by (rewrite Hc0; left).
    assert (Hs0 : tree_all sem_inv c0).
    { pose proof (tree_all_children _ _ Hsem) as HH.
      rewrite list.Forall_forall in HH. apply HH, Hin. }
    assert (Hsb : tree_all sem_inv (bump_priority c0))
      by (eapply cap_alike_sem; [apply cap_alike_bump|exact Hs0]).
    destruct (sem_raise numParams _ Hsb) as (R1 & R2 & R3 & R4).
    apply self_cap in Hrec; [| |exact Hpre|exact R1|].
    + apply cap_assemble; [apply same_but_refl_children|exact Hsem|exact Hs4
                          |exact Hcap|].
      cbn [children set_children]. constructor; [|constructor].
      eapply (child_ok_post m _ c0); [exact Hin|exact Hrec|reflexivity| |].
      * intros B HB HcB. apply R2; [|rewrite Hnum, Nat2Z.id; exact HcB].
        eapply cap_alike_bounded; [apply cap_alike_bump|exact HB].
      * rewrite R3. apply cap_alike_wdepth, cap_alike_bump.
    + eapply same_shape_inv;
        [|apply (inv_child m 0); [exact Hm|rewrite Hc0; reflexivity]].
      destruct (same_shape_raise numParams (bump_priority c0))
        as (A1 & A2 & A3 & A4 & A5). repeat split; assumption.
    + intros _. assert (Hk : Z.to_nat numParams = count_sigils (drop i pth)) by lia.
      rewrite Hk in R4. exact R4.
  - destruct B as (Hw & Hpar & ch & ch' & f & Hch & Hhd & Hplain & Hidx & Hrec
                   & Hpre & Hhead & ->).
    assert (Hin : ch ∈ children m) by (rewrite Hch; left).
    assert (Hs0 : tree_all sem_inv ch).
    { pose proof (tree_all_children _ _ Hsem) as HH.
      rewrite list.Forall_forall in HH. apply HH, Hin. }
    assert (Hnc : ~ capt ch) by (destruct Hplain as (_ & _ & Hz); unfold capt; lia).
    apply self_cap in Hrec;
      [| |exact Hpre|eapply cap_alike_sem; [apply cap_alike_bump|exact Hs0]
       |intros Hc; contradiction].
    + apply cap_assemble; [apply same_but_refl_children|exact Hsem
                          |rewrite Hw; discriminate|exact Hcap|].
      cbn [children set_children]. constructor; [|constructor].
      eapply (child_ok_post m _ ch); [exact Hin|exact Hrec|reflexivity| |].
      * intros B HB _. eapply cap_alike_bounded; [apply cap_alike_bump|exact HB].
      * apply cap_alike_wdepth, cap_alike_bump.
    + eapply same_shape_inv; [apply same_shape_bump|].
      apply (inv_child m 0); [exact Hm|rewrite Hch; reflexivity].
  - destruct C as (Hw & Hnpar & Hind & c & k & k' & ch & ch' & f & Hhd & Hio & Hk
                   & Hkle & Hplain & Hidx & Hrec & Hpre & Hhead & Hsame & Hin'
                   & Hcs').
    assert (Hin : ch ∈ children m) by (eapply list_elem_of_lookup_2; exact Hk).
    assert (Hs0 : tree_all sem_inv ch).
    { pose proof (tree_all_children _ _ Hsem) as HH.
      rewrite list.Forall_forall in HH. apply HH, Hin. }
    assert (Hnc : ~ capt ch) by (destruct Hplain as (_ & _ & Hz); unfold capt; lia).
    apply self_cap in Hrec;
      [| |exact Hpre|eapply cap_alike_sem; [apply cap_alike_bump|exact Hs0]
       |intros Hc; contradiction].
    + apply cap_assemble; [exact Hsame|exact Hsem|rewrite Hw; discriminate
                          |exact Hcap|].
      rewrite Hcs'. apply Forall_moved.
      * apply list.Forall_forall. intros x Hx. apply child_ok_old; assumption.
      * eapply (child_ok_post m _ ch); [exact Hin|exact Hrec|reflexivity| |].
        -- intros B HB _. eapply cap_alike_bounded; [apply cap_alike_bump|exact HB].
        -- apply cap_alike_wdepth, cap_alike_bump.
    + eapply same_shape_inv; [apply same_shape_bump|].
      apply (inv_child m k); [exact Hm|exact Hk].
  - destruct D as (Hw & Hind & Hparnil & c & newPos & ch' & Hhd & Hio & Hsig
                   & Hnp & Hic & Hsame & Hin' & Hcs').
    apply insertChild_loop_sem in Hic;
      [|exact Hnum|exact Hle|reflexivity|reflexivity|reflexivity|left; reflexivity
       |apply not_capt_nil; reflexivity|intros [Hx|Hx]; discriminate].
    destruct Hic as (_ & _ & _ & I1 & I2 & I3 & _).
    apply cap_assemble; [exact Hsame|exact Hsem|rewrite Hw; discriminate
                        |exact Hcap|].
    rewrite Hcs'. apply Forall_inserted.
    + apply list.Forall_forall. intros x Hx. apply child_ok_old; assumption.
    + split; [exact I1|]. split; [intros B _ HB; apply I2; exact HB|]. lia.
  - destruct E as (Hw & Hnil & Hinil & Hnw & c & Hhd & Hsig & Hic).
    assert (Hnc : ~ capt m).
    { intros Hc. destruct (Hs2 Hc) as [_ [[Hp _]|[Hp _]]]; apply Hnw;
        [left|right]; exact Hp. }
    apply insertChild_loop_sem in Hic;
      [|exact Hnum|exact Hle|exact Hnil|exact Hinil|exact Hw
       |right; exists c; split; assumption|exact Hnc|exact Hnw].
    destruct Hic as (_ & _ & _ & I1 & I2 & I3 & _).
    split; [exact I1|]. split; [intros B _ HB; apply I2; exact HB|]. lia.
Qed.

End WalkBelowCap.

Lemma walk_cap hs fullPth : forall fuel n pth numParams pfi n',
  walk fuel n pth fullPth hs numParams pfi = (n', Done) ->
  inv n -> walk_pre n pth numParams ->
  tree_all sem_inv n ->
  (capt n -> count_sigils pth <= Z.to_nat (maxParams n)) ->
  cap_post n n' pth.
Proof.
  induction fuel as [|fuel IH];
    intros n pth numParams pfi n' H Hn Hpre Hsem Hcap; [discriminate|].
  destruct (walk_cases _ _ _ _ _ _ _ _ H Hn Hpre)
    as (i & m & Hi & Htake & Hsplit & Hinvm & Htym & Hpm & Hcnt & Hle & Hnum
        & Hnext & Hbelow).
  destruct Hpre as (_ & _ & _ & Hnumeq).
  assert (Hsum : count_sigils pth
                 = count_sigils (path n) + count_sigils (drop i pth)).
  { rewrite <- Hcnt. rewrite <- (take_drop i pth) at 1. apply count_sigils_app. }
  assert (Hcw : cw m = cw n) by (unfold cw; rewrite Hpm, Hcnt; reflexivity).
  assert (Hm : tree_all sem_inv m
               /\ (forall B, bounded B n -> bounded B m)
               /\ wdepth m = wdepth n
               /\ (capt m -> maxParams m = maxParams n)).
  { destruct Hsplit as [(Hlt & Hnw & Hz & _ & Hs)|(_ & _ & ->)].
    - apply split_fields in Hs
        as (Sw & St & Sp & Sh & Sm & Si & ch & Sc & Cty & Cp & Cc & Ci & _ & Cw).
      assert (Hncm : ~ capt m).
      { unfold capt. rewrite Hpm, Hcnt, Hz. lia. }
      assert (Hncc : ~ capt ch).
      { unfold capt. rewrite Cp.
        rewrite (count_sigils_drop_0 i); [lia|].
        destruct (same_shape_raise numParams n) as (E & _). rewrite E. exact Hz. }
      assert (Hcc : children ch = children n).
      { rewrite Cc. apply same_shape_raise. }
      split; [|split; [|split]].
      + apply (tree_all_one _ m ch Sc).
        * apply sem_inv_plain; [|exact Hncm|rewrite Sw; discriminate].
          unfold wild_type. rewrite Htym. exact Hnw.
        * apply tree_all_node.
          -- apply sem_inv_plain;
               [unfold wild_type; rewrite Cty; intros [Hx|Hx]; discriminate
               |exact Hncc|].
             rewrite Cw, Ci.
             destruct (same_shape_raise numParams n) as (_ & E2 & _ & _ & E5).
             rewrite E2, E5. apply (tree_all_here _ _ Hsem).
          -- rewrite Hcc. apply (tree_all_children _ _ Hsem).
      + intros B HB. apply bounded_node. split; [intros; contradiction|].
        rewrite Sc. constructor; [|constructor].
        apply bounded_node. split; [intros; contradiction|].
        rewrite Hcc. apply bounded_node in HB. apply HB.
      + rewrite (wdepth_one m ch Sc), !wdepth_cw, Hcc.
        fold (cw m). rewrite (cw_plain m Hncm), (cw_plain ch Hncc).
        rewrite (cw_plain n) by (unfold capt; lia). lia.
      + intros Hc. contradiction.
    - assert (Ha : cap_alike n (raise_maxParams numParams n)).
      { apply cap_alike_raise. intros Hc. specialize (Hcap Hc).
        unfold capt in Hc. lia. }
      split; [eapply cap_alike_sem; eassumption|].
      split; [intros B; apply cap_alike_bounded; exact Ha|].
      split; [apply cap_alike_wdepth; exact Ha|].
      intros Hc. apply Ha. unfold capt in *.
      destruct Ha as (E & _). rewrite <- E. exact Hc. }
  destruct Hm as (Hsm & Hbm & Hdm & Hmm).
  assert (Hself : forall c p k f c',
            (fun c p k f => walk fuel c p fullPth hs k f) c p k f = (c', Done) ->
            inv c -> walk_pre c p k -> tree_all sem_inv c ->
            (capt c -> count_sigils p <= Z.to_nat (maxParams c)) ->
            cap_post c c' p)
    by (intros c p k f c' Hc Hic Hpc Hsc Hcc; eapply IH; eassumption).
  pose proof (cw_le n) as Hcwle.
  apply (walk_below_cap hs fullPth _ Hself) in Hbelow;
    [|exact Hinvm|exact Hle|exact Hnum|exact Hnext|exact Hsm|].
  - destruct Hbelow as (R1 & R2 & R3).
    split; [exact R1|]. split.
    + intros B HB HcB. apply R2; [apply Hbm; exact HB|lia].
    + rewrite Hdm, Hcw in R3. lia.
  - intros Hc. rewrite (Hmm Hc), Hcw.
    assert (Hcn : capt n) by (unfold capt in *; rewrite Hpm, Hcnt in Hc; exact Hc).
    specialize (Hcap Hcn). lia.
Qed.

Lemma addRoute_sem n p hs n' :
  addRoute n p hs = (n', Done) -> count_sigils p <= 255 ->
  root_inv n -> tree_all sem_inv n -> tree_all sem_inv n'.
Proof.
  unfold addRoute. intros H Hle (Hn & Hnw & Hcount) Hsem.
  assert (Hb : inv (bump_priority n))
    by (eapply same_shape_inv; [apply same_shape_bump|exact Hn]).
  assert (Hsb : tree_all sem_inv (bump_priority n))
    by (eapply cap_alike_sem; [apply cap_alike_bump|exact Hsem]).
  cbn [path children bump_priority set_priority] in H.
  destruct (decide (length (path n) = 0 /\ length (children n) = 0))
    as [[Hp Hc]|Hne].
  - apply length_zero_iff_nil in Hp, Hc.
    pose proof (tree_all_here _ _ Hn) as Hn0. unfold node_inv in Hn0.
    assert (Hwc : wildChild n = false).
    { destruct (wildChild n); [|reflexivity].
      destruct Hn0 as (c & Hcc & _). congruence. }
    rewrite Hwc, Hc in Hn0. destruct Hn0 as [_ Hind].
    assert (Hi : indices n = []).
    { case_decide; [destruct Hind as (_ & _ & [Hi|Hi]); exact Hi|exact Hind]. }
    unfold insertChild in H.
    destruct (insertChild_loop _ _ _ p p hs) as [n2 st] eqn:Hins.
    destruct st; try discriminate. injection H as <-.
    apply insertChild_loop_sem in Hins;
      [|apply countParams_exact; exact Hle|exact Hle|exact Hc|exact Hi|exact Hwc
       |left; exact Hp|apply not_capt_nil; exact Hp|exact Hnw].
    destruct Hins as (Hnc & Hty & _ & Hs2 & _).
    apply tree_all_node; [|apply (tree_all_children _ _ Hs2)].
    pose proof (tree_all_here _ _ Hs2) as (_ & _ & _ & H4 & _).
    apply sem_inv_plain; [intros [Hx|Hx]; discriminate|exact Hnc|exact H4].
  - apply walk_cap in H; [apply H|exact Hb| |exact Hsb|].
    + unfold walk_pre. cbn [path nType bump_priority set_priority].
      split; [intros Hw; contradiction|]. split; [intros _; exact Hcount|].
      split; [exact Hle|]. rewrite Hcount, countParams_exact by exact Hle. lia.
    + intros Hc. exfalso. apply Hc. exact Hcount.
Qed.

Lemma built_sem n : built n -> tree_all sem_inv n.
Proof.
  induction 1 as [|n p h n' Hb IH Hle Hadd].
  - apply tree_all_leaf; [reflexivity|].
    apply sem_inv_plain; [intros [Hx|Hx]; discriminate
                         |apply not_capt_nil; reflexivity|discriminate].
  - eapply addRoute_sem; [exact Hadd|exact Hle|apply built_root_inv; exact Hb
                         |exact IH].
Qed.

Lemma sem_cap n : tree_all sem_inv n -> tree_all cap_inv n.
Proof. apply tree_all_impl. intros x (_ & _ & H & _). exact H. Qed.

Lemma index_of_lt c ind k : index_of c ind = Some k -> k < length ind.
Proof. intros H. apply index_of_Some in H. eapply lookup_lt_Some; exact H. Qed.

(** In a node of a well-formed tree every index has its child. *)
Lemma indexed_child n c i :
  node_inv n -> sem_inv n -> index_of c (indices n) = Some i ->
  wildChild n = false /\ exists ch, children n !! i = Some ch /\ plain_child ch.
Proof.
  intros Hn (_ & _ & _ & H4 & _) Hi. unfold node_inv in Hn.
  destruct (wildChild n) eqn:Hw.
  - rewrite (H4 eq_refl) in Hi. discriminate.
  - split; [reflexivity|]. destruct Hn as [HT Hrest].
    assert (Hind : indices n = index_for <$> children n).
    { case_decide; [|exact Hrest]. destruct Hrest as (_ & _ & [He|He]); [|exact He].
      rewrite He in Hi. discriminate. }
    apply index_of_lt in Hi. rewrite Hind, length_fmap in Hi.
    destruct (lookup_lt_is_Some_2 _ _ Hi) as [ch Hch].
    exists ch. split; [exact Hch|]. eapply Forall_lookup_1; eassumption.
Qed.

Section Safe.
Variable qu : str -> option str.

Lemma getValue_safe_both n :
  inv n -> tree_all sem_inv n ->
  (forall q value ue, fits n value ->
     exists v', getValue_walk qu n q value ue = Ret v')
  /\ (forall p cs q value ue,
        wildChild p = true -> children p = n :: cs -> q <> [] ->
        capt n -> fits n value ->
        exists v', getValue_walk qu p (path p ++ q) value ue = Ret v').
Proof.
  induction n as [n IH] using node_ind'. intros Hinv Hsem.
  pose proof (tree_all_children _ _ Hinv) as Hinvc.
  pose proof (tree_all_children _ _ Hsem) as Hsemc.
  pose proof (tree_all_here _ _ Hinv) as Hn.
  pose proof (tree_all_here _ _ Hsem) as Hs.
  rewrite list.Forall_forall in IH, Hinvc, Hsemc.
  assert (IHD : forall c, c ∈ children n ->
            forall q value ue, fits c value ->
              exists v', getValue_walk qu c q value ue = Ret v').
  { intros c Hc. apply (IH c Hc); [apply Hinvc, Hc|apply Hsemc, Hc]. }
  split.
  - intros q value ue Hfit. rewrite getValue_walk_unfold. unfold getValue_step.
    destruct (decide (q = path n)) as [->|Hne].
    + destruct (not_nil _); [eexists; reflexivity|].
      case_decide; [eexists; reflexivity|].
      destruct (index_of slash (indices n)) as [i|] eqn:Hi;
        [|eexists; reflexivity].
      destruct (indexed_child n slash i Hn Hs Hi) as (_ & ch & Hch & Hpl).
      rewrite Hch.
      destruct (_ && _); [eexists; reflexivity|].
      case_decide as Hca; [|eexists; reflexivity].
      assert (Hchin : ch ∈ children n)
        by (eapply list_elem_of_lookup_2; exact Hch).
      pose proof (tree_all_here _ _ (Hsemc ch Hchin)) as (_ & _ & _ & _ & C5).
      pose proof (tree_all_here _ _ (Hinvc ch Hchin)) as Hnch.
      unfold node_inv in Hnch.
      assert (Hnc : ~ capt ch)
        by (destruct Hpl as (_ & _ & Hz); unfold capt; lia).
      rewrite (C5 Hca Hnc) in Hnch. destruct Hnch as (c0 & -> & _).
      eexists; reflexivity.
    + destruct (decide (_ /\ _)) as [[Hlen Hpre]|]; [|eexists; reflexivity].
      destruct (wildChild n) eqn:Hw; cbn [negb].
      * unfold node_inv in Hn. rewrite Hw in Hn.
        destruct Hn as (c & Hc & Hwt & Hcnt). rewrite Hc.
        assert (Hcin : c ∈ children n) by (rewrite Hc; left).
        destruct (IH c Hcin (Hinvc c Hcin) (Hsemc c Hcin)) as [_ HW].
        assert (Hq : q = path n ++ drop (length (path n)) q).
        { rewrite <- Hpre at 1. symmetry. apply take_drop. }
        specialize (HW n [] (drop (length (path n)) q) value ue Hw Hc).
        rewrite <- Hq in HW.
        rewrite getValue_walk_unfold in HW. unfold getValue_step in HW.
        rewrite decide_False in HW by exact Hne.
        rewrite decide_True in HW by (split; assumption).
        rewrite Hw, Hc in HW. cbn [negb] in HW.
        apply HW; [|unfold capt; lia|eapply fits_child; eassumption].
        intros E. apply (f_equal length) in E. rewrite length_drop in E.
        cbn in E. lia.
      * destruct (drop (length (path n)) q) as [|x rest] eqn:Hd.
        { apply (f_equal length) in Hd. rewrite length_drop in Hd.
          cbn in Hd. lia. }
        destruct (index_of x (indices n)) as [i|] eqn:Hi;
          [|eexists; reflexivity].
        destruct (indexed_child n x i Hn Hs Hi) as (_ & ch & Hch & Hpl).
        rewrite pick_lookup, Hch. cbn.
        assert (Hchin : ch ∈ children n)
          by (eapply list_elem_of_lookup_2; exact Hch).
        apply IHD; [exact Hchin|]. eapply fits_child; eassumption.
  - intros p cs q value ue Hw Hc Hq Hcapt Hfit.
    rewrite getValue_walk_unfold. unfold getValue_step.
    rewrite decide_False
      by (intros E; apply app_eq_self_l in E; contradiction).
    rewrite decide_True
      by (split; [rewrite length_app; destruct q; [contradiction|cbn; lia]
                 |apply take_app_length]).
    rewrite Hw, Hc. cbn [negb]. rewrite drop_app_length.
    destruct Hs as (_ & S2 & S3 & _).
    destruct (S2 Hcapt) as [_ [(Hty & nm & Hp & _)|(Hty & nm & Hp & _)]];
      rewrite Hty, Hp; unfold slice_from.
    + rewrite decide_True by (cbn; lia). cbn [drop]. rewrite drop_0. cbv beta iota zeta.
      destruct (save_param_fits qu ue n nm (take (param_end q 0) q) value
                  Hcapt S3 Hfit) as (v1 & Hsv & _ & _ & _ & Hfit1).
      rewrite Hsv.
      destruct (decide (param_end q 0 < length q)).
      * destruct (decide (0 < length (children n))) as [Hlen|];
          [|eexists; reflexivity].
        destruct (children n) as [|ch chs] eqn:Hch; [cbn in Hlen; lia|].
        cbn [pick]. apply IHD; [left|apply Hfit1; left].
      * destruct (not_nil _); [eexists; reflexivity|].
        destruct (children n) as [|c1 [|c2 l]]; eexists; reflexivity.
    + rewrite decide_True by (cbn; lia). cbn [drop]. rewrite drop_0. cbv beta iota zeta.
      destruct (save_param_fits qu ue n nm q value Hcapt S3 Hfit)
        as (v1 & Hsv & _). rewrite Hsv. eexists; reflexivity.
Qed.

(** On a tree built by registrations, a lookup with an empty buffer
    never panics. *)
Lemma getValue_safe t q c ue :
  built t -> exists v, getValue qu t q (mkParams [] c) ue = Ret v.
Proof.
  intros Hb. unfold getValue.
  apply (getValue_safe_both t);
    [apply built_root_inv; exact Hb|apply built_sem; exact Hb|].
  left. reflexivity.
Qed.

(** X3: a lookup in a tree built by successful registrations of patterns
    with at most 255 captures, given an empty buffer of any capacity,
    returns: it indexes no string, child list or buffer out of range,
    whatever the path looked up. *)
Theorem lookup_never_panics t q c ue :
  built t -> exists v, getValue qu t q (mkParams [] c) ue = Ret v.
Proof.
  intros Hb. unfold getValue.
  destruct (built_root_inv _ Hb) as (Hinv & _ & _).
  destruct (getValue_safe_both t Hinv (built_sem _ Hb)) as [Hsafe _].
  apply Hsafe. left. reflexivity.
Qed.

End Safe.


Lemma lookup_never_panics_witness :
  exists v,
    getValue (fun s => Some s)
      (fst (addRoute newTree (B "/a/:x/*y") (Some [7])))
      (B "/a//") (mkParams [] 0) true = Ret v.
Proof.
  apply (lookup_never_panics (fun s => Some s) _ (B "/a//") 0 true).
  apply built_first_route; [vm_compute; lia|reflexivity].
Defined.
Lemma index_of_app x a b :
  index_of x (a ++ b)
  = match index_of x a with
    | Some i => Some i
    | None => (fun j => length a + j) <$> index_of x b
    end.
Proof.
  induction a as [|y a IH]; cbn [app index_of length].
  - destruct (index_of x b); reflexivity.
  - case_decide; [reflexivity|]. rewrite IH.
    destruct (index_of x a); [reflexivity|].
    destruct (index_of x b); reflexivity.
Qed.

Lemma child_at_app x a b cs1 cs2 :
  length a = length cs1 ->
  child_at (a ++ b) (cs1 ++ cs2) x
  = match index_of x a with
    | Some i => cs1 !! i
    | None => child_at b cs2 x
    end.
Proof.
  intros Hl. unfold child_at. rewrite index_of_app.
  destruct (index_of x a) as [i|] eqn:Hi.
  - apply lookup_app_l. rewrite <- Hl. eapply index_of_lt; exact Hi.
  - destruct (index_of x b) as [j|]; [|reflexivity]. cbn.
    rewrite lookup_app_r by lia. f_equal. lia.
Qed.

Lemma index_of_None_app x a b :
  index_of x (a ++ b) = None <-> index_of x a = None /\ index_of x b = None.
Proof.
  rewrite index_of_app. split.
  - intros H. destruct (index_of x a); [discriminate|].
    destruct (index_of x b); [discriminate|]. auto.
  - intros [-> ->]. reflexivity.
Qed.

Lemma index_of_first x ind k :
  index_of x ind = Some k -> index_of x (take k ind) = None.
Proof.
  revert k. induction ind as [|y ind IH]; intros k H; [discriminate|].
  cbn [index_of] in H. destruct (decide (x = y)) as [->|Hne].
  - injection H as <-. reflexivity.
  - destruct (index_of x ind) as [j|] eqn:Hj; [|discriminate].
    cbn in H. injection H as <-. cbn [take index_of].
    rewrite decide_False by exact Hne. rewrite (IH j eq_refl). reflexivity.
Qed.

Lemma index_of_single x c : index_of x [c] = if decide (x = c) then Some 0 else None.
Proof. cbn. case_decide; reflexivity. Qed.

(** The lists after [incrementChildPrio]: the byte [c] and its child moved
    from position [k] to [k' <= k]. *)
Lemma child_at_moved ind cs c k k' y x :
  length ind = length cs -> index_of c ind = Some k -> k' <= k ->
  child_at (take k' ind ++ [c] ++ drop k' (take k ind) ++ drop (S k) ind)
           (take k' cs ++ [y] ++ drop k' (take k cs) ++ drop (S k) cs) x
  = if decide (x = c) then Some y else child_at ind cs x.
Proof.
  intros Hl Hk Hle.
  pose proof (index_of_lt _ _ _ Hk) as Hlt.
  pose proof (index_of_Some _ _ _ Hk) as Hik.
  destruct (lookup_lt_is_Some_2 cs k ltac:(lia)) as [ch Hch].
  assert (Hind : ind = take k' ind ++ drop k' (take k ind) ++ [c] ++ drop (S k) ind).
  { rewrite app_assoc.
    replace (take k' ind) with (take k' (take k ind))
      by (rewrite take_take; f_equal; lia).
    rewrite take_drop. cbn [app]. symmetry. apply take_drop_middle. exact Hik. }
  assert (Hcs : cs = take k' cs ++ drop k' (take k cs) ++ [ch] ++ drop (S k) cs).
  { rewrite app_assoc.
    replace (take k' cs) with (take k' (take k cs))
      by (rewrite take_take; f_equal; lia).
    rewrite take_drop. cbn [app]. symmetry. apply take_drop_middle. exact Hch. }
  assert (L1 : length (take k' ind) = length (take k' cs))
    by (rewrite !length_take; lia).
  assert (L2 : length (drop k' (take k ind)) = length (drop k' (take k cs)))
    by (rewrite !length_drop, !length_take; lia).
  assert (Hfirst : index_of c (take k' ind) = None
                   /\ index_of c (drop k' (take k ind)) = None).
  { pose proof (index_of_first _ _ _ Hk) as Hf.
    rewrite <- (take_drop k' (take k ind)) in Hf.
    apply index_of_None_app in Hf. rewrite take_take in Hf.
    replace (k' `min` k) with k' in Hf by lia. exact Hf. }
  destruct Hfirst as [F1 F2].
  assert (Hold : child_at ind cs x
                 = child_at (take k' ind ++ drop k' (take k ind) ++ [c]
                             ++ drop (S k) ind)
                            (take k' cs ++ drop k' (take k cs) ++ [ch]
                             ++ drop (S k) cs) x)
    by (rewrite <- Hind, <- Hcs; reflexivity).
  rewrite Hold. clear Hold Hind Hcs.
  rewrite !(child_at_app x (take k' ind)) by exact L1.
  destruct (decide (x = c)) as [->|Hne].
  - rewrite F1. rewrite (child_at_app c [c] _ [y]) by reflexivity.
    rewrite index_of_single, decide_True by reflexivity. reflexivity.
  - destruct (index_of x (take k' ind)); [reflexivity|].
    rewrite (child_at_app x [c] _ [y]) by reflexivity.
    rewrite index_of_single, decide_False by exact Hne.
    rewrite !(child_at_app x (drop k' (take k ind))) by exact L2.
    destruct (index_of x (drop k' (take k ind))); [reflexivity|].
    rewrite (child_at_app x [c] _ [ch]) by reflexivity.
    rewrite index_of_single, decide_False by exact Hne. reflexivity.
Qed.

(** The lists after a new byte [c] and its child are put in at [k]. *)
Lemma child_at_inserted ind cs c k y x :
  length ind = length cs -> index_of c ind = None ->
  child_at (take k ind ++ [c] ++ drop k ind) (take k cs ++ [y] ++ drop k cs) x
  = if decide (x = c) then Some y else child_at ind cs x.
Proof.
  intros Hl Hc.
  assert (L1 : length (take k ind) = length (take k cs))
    by (rewrite !length_take; lia).
  rewrite <- (take_drop k ind) in Hc. apply index_of_None_app in Hc as [F1 F2].
  assert (Hold : child_at ind cs x
                 = child_at (take k ind ++ drop k ind) (take k cs ++ drop k cs) x)
    by (rewrite !take_drop; reflexivity).
  rewrite Hold. clear Hold.
  rewrite !(child_at_app x (take k ind)) by exact L1.
  destruct (decide (x = c)) as [->|Hne].
  - rewrite F1. rewrite (child_at_app c [c] _ [y]) by reflexivity.
    rewrite index_of_single, decide_True by reflexivity. reflexivity.
  - destruct (index_of x (take k ind)); [reflexivity|].
    rewrite (child_at_app x [c] _ [y]) by reflexivity.
    rewrite index_of_single, decide_False by exact Hne. reflexivity.
Qed.

(** [find] at a node without wildcard child, in terms of [child_at]. *)
Lemma find_child n x rest :
  wildChild n = false ->
  find n (path n ++ x :: rest)
  = match child_at (indices n) (children n) x with
    | Some ch => find ch (x :: rest)
    | None => None
    end.
Proof.
  intros Hw. rewrite find_unfold. unfold find_step, child_at.
  rewrite decide_False by (intros E; apply app_eq_self_l in E; discriminate).
  rewrite decide_True
    by (split; [rewrite length_app; simpl; lia | apply take_app_length]).
  rewrite Hw. cbn [negb]. rewrite drop_app_length.
  destruct (index_of x (indices n)); [|reflexivity].
  rewrite pick_lookup. destruct (children n !! n0); reflexivity.
Qed.

(** A path that [find] finds at a node starts with the path of the node. *)
Lemma find_prefix n q r : find n q = Some r -> exists s, q = path n ++ s.
Proof.
  rewrite find_unfold. unfold find_step. intros H.
  destruct (decide (q = path n)) as [->|Hne].
  - exists []. rewrite app_nil_r. reflexivity.
  - destruct (decide (_ /\ _)) as [[_ Hp]|]; [|discriminate].
    exists (drop (length (path n)) q). rewrite <- Hp at 1.
    symmetry. apply take_drop.
Qed.

Lemma find_app n s :
  find n (path n ++ s)
  = match s with
    | [] => match handlers n with Some h => Some (h, []) | None => None end
    | x :: _ =>
        if negb (wildChild n) then
          match index_of x (indices n) with
          | Some i =>
              match pick find (children n) i with
              | Some continue => continue s
              | None => None
              end
          | None => None
          end
        else
          match children n with
          | [] => None
          | c :: _ => find_wild find c s
          end
    end.
Proof.
  rewrite find_unfold. unfold find_step. destruct s as [|x s].
  - rewrite app_nil_r, decide_True by reflexivity. reflexivity.
  - rewrite decide_False
      by (intros E; apply app_eq_self_l in E; discriminate).
    rewrite decide_True
      by (split; [rewrite length_app; simpl; lia | apply take_app_length]).
    rewrite drop_app_length. reflexivity.
Qed.

(** Two nodes that differ in their path only find the same below it. *)
Lemma find_shift a b s :
  indices a = indices b -> children a = children b ->
  handlers a = handlers b -> wildChild a = wildChild b ->
  find a (path a ++ s) = find b (path b ++ s).
Proof.
  intros Hi Hc Hh Hw. rewrite !find_app, Hi, Hc, Hh, Hw. reflexivity.
Qed.

Lemma sim_split n i pth fullPth pfi m :
  split n i pth fullPth pfi = (m, true) -> i < length (path n) ->
  take i pth = take i (path n) ->
  sim n m.
Proof.
  intros Hs Hi Htake q r Hq.
  apply split_fields in Hs
    as (Sw & St & Sp & Sh & Sm & Si & ch & Sc & Cty & Cp & Cc & Ci & Ch & Cw).
  destruct (find_prefix _ _ _ Hq) as [s ->].
  destruct (lookup_lt_is_Some_2 _ _ Hi) as [b Hb].
  assert (Hd : drop i (path n) = b :: drop (S i) (path n))
    by (apply drop_S; exact Hb).
  rewrite <- Hq.
  rewrite <- (take_drop i (path n)) at 1. rewrite <- Htake, <- Sp, <- app_assoc.
  rewrite Hd. cbn [app].
  rewrite (find_static m b _ 0 ch Sw);
    [|rewrite Si, Hd; cbn; rewrite decide_True by reflexivity; reflexivity
     |rewrite Sc; reflexivity].
  change (b :: drop (S i) (path n) ++ s) with ((b :: drop (S i) (path n)) ++ s).
  rewrite <- Hd, <- Cp. apply find_shift; assumption.
Qed.

Lemma sim_set_handlers hs n : handlers n = None -> sim n (set_handlers hs n).
Proof.
  intros Hh q r. rewrite !find_unfold. unfold find_step.
  cbn [path indices children handlers wildChild set_handlers].
  case_decide; [rewrite Hh; discriminate|]. tauto.
Qed.

Lemma simW_set_handlers hs n : handlers n = None -> simW n (set_handlers hs n).
Proof.
  intros Hh q r. unfold find_wild.
  cbn [path nType children handlers set_handlers]. rewrite Hh.
  destruct (nType n); try tauto.
  - destruct (slice_from 1 (path n)); [|tauto].
    case_decide; [tauto|discriminate].
  - destruct (slice_from 2 (path n)); discriminate.
Qed.

Lemma simW_catchAll n n' :
  nType n = catchAll -> same_but n n' -> simW n n'.
Proof.
  intros Ht (Hp & Hh & Ht' & _) q r. unfold find_wild.
  rewrite Ht', Ht, Hp, Hh. tauto.
Qed.

(** A node without children finds its own path only. *)
Lemma find_leaf n q r :
  wildChild n = false -> indices n = [] -> find n q = Some r ->
  q = path n /\ exists h, handlers n = Some h /\ r = (h, []).
Proof.
  intros Hw Hi. rewrite find_unfold. unfold find_step. rewrite Hw, Hi.
  cbn [negb index_of]. intros H.
  destruct (decide (q = path n)) as [->|Hne].
  - split; [reflexivity|]. destruct (handlers n) as [h|]; [|discriminate].
    exists h. split; [reflexivity|]. congruence.
  - destruct (decide (_ /\ _)); [|discriminate].
    destruct (drop (length (path n)) q); discriminate.
Qed.

Lemma probe_plain n q : count_sigils (path n) = 0 -> probe n q = find n q.
Proof. intros H. unfold probe. rewrite decide_True by exact H. reflexivity. Qed.

Lemma probe_capt n q : capt n -> probe n q = find_wild find n q.
Proof. intros H. unfold probe. rewrite decide_False by exact H. reflexivity. Qed.

Lemma not_capt_0 n : ~ capt n -> count_sigils (path n) = 0.
Proof. unfold capt. lia. Qed.

Lemma segment_app nm r :
  no_slash nm -> (r = [] \/ head r = Some slash) ->
  segment (nm ++ r) = nm /\ after (nm ++ r) = r.
Proof.
  intros Hnm Hr. unfold after.
  induction Hnm as [|c nm Hc Hnm IH]; cbn [app segment].
  - destruct Hr as [->|Hr]; [split; reflexivity|].
    destruct r as [|x r]; [discriminate|]. cbn in Hr. injection Hr as ->.
    cbn. rewrite decide_True by reflexivity. split; reflexivity.
  - rewrite decide_False by exact Hc. destruct IH as [-> IH2].
    split; [reflexivity|]. cbn [length drop]. exact IH2.
Qed.

Lemma star_last_app a b : star_last (a ++ b) -> star_last b.
Proof.
  induction a as [|c a IH]; cbn [app star_last]; [tauto|].
  intros [_ H]. apply IH, H.
Qed.

Lemma star_last_star a tl : star_last (a ++ star :: tl) -> no_slash tl.
Proof.
  intros H. apply star_last_app in H. cbn in H. apply H. reflexivity.
Qed.

Lemma no_slash_app_inv a b : no_slash (a ++ b) -> no_slash b.
Proof. unfold no_slash. rewrite Forall_app. tauto. Qed.

Lemma values_ok_plain pre r vals :
  count_sigils pre = 0 -> values_ok (pre ++ r) vals <-> values_ok r vals.
Proof.
  intros H. unfold values_ok, captures. rewrite captures_go_plain by exact H.
  reflexivity.
Qed.

Lemma substitute_plain pre r vals :
  count_sigils pre = 0 -> substitute (pre ++ r) vals = pre ++ substitute r vals.
Proof. apply substitute_go_plain. Qed.

Lemma raw_params_plain pre r vals :
  count_sigils pre = 0 -> raw_params (pre ++ r) vals = raw_params r vals.
Proof.
  intros H. unfold raw_params, captures. rewrite captures_go_plain by exact H.
  reflexivity.
Qed.

Lemma values_ok_nil vals : values_ok [] vals -> vals = [].
Proof. unfold values_ok, captures. cbn. intros H. inversion H. reflexivity. Qed.

(** The pattern left at a capture node, and the values that fit it. *)
Lemma capt_pattern m pth' :
  shape_capt m -> (pth' = [] \/ head pth' = Some slash) ->
  (nType m = param
   /\ exists nm, path m = colon :: nm /\ no_slash nm
      /\ forall vals, values_ok (path m ++ pth') vals ->
           exists v vs, vals = v :: vs /\ v <> [] /\ no_slash v
                        /\ values_ok pth' vs
                        /\ substitute (path m ++ pth') vals
                           = v ++ substitute pth' vs
                        /\ raw_params (path m ++ pth') vals
                           = mkParam nm v :: raw_params pth' vs)
  \/ (nType m = catchAll
      /\ exists nm, path m = slash :: star :: nm /\ no_slash nm
         /\ forall vals, values_ok (path m ++ pth') vals ->
              exists v vs, vals = v :: vs /\ values_ok pth' vs
                           /\ substitute (path m ++ pth') vals
                              = slash :: v ++ substitute pth' vs
                           /\ raw_params (path m ++ pth') vals
                              = mkParam nm (slash :: v) :: raw_params pth' vs).
Proof.
  intros [(Hty & nm & Hp & Hns & Hz)|(Hty & nm & Hp & Hns & Hz)] Hr;
    destruct (segment_app nm pth' Hns Hr) as [Hseg Haft]; [left|right];
    (split; [exact Hty|]); exists nm; (split; [exact Hp|]);
    (split; [exact Hns|]); intros vals Hvals; rewrite Hp in *.
  - change ((colon :: nm) ++ pth') with ([] ++ colon :: (nm ++ pth')) in *.
    unfold values_ok in Hvals.
    rewrite captures_split in Hvals by reflexivity.
    destruct vals as [|v vs]; [inversion Hvals|].
    apply Forall2_cons_1 in Hvals as [Hv Hvs].
    destruct (Hv eq_refl) as [Hvne Hvns]. rewrite Haft in Hvs.
    exists v, vs. split; [reflexivity|]. split; [exact Hvne|].
    split; [exact Hvns|]. split; [exact Hvs|].
    rewrite substitute_split, raw_params_split by reflexivity.
    rewrite Hseg, Haft. rewrite decide_False by discriminate.
    split; reflexivity.
  - change ((slash :: star :: nm) ++ pth')
      with ([slash] ++ star :: (nm ++ pth')) in *.
    unfold values_ok in Hvals.
    rewrite captures_split in Hvals by reflexivity.
    destruct vals as [|v vs]; [inversion Hvals|].
    apply Forall2_cons_1 in Hvals as [Hv Hvs]. rewrite Haft in Hvs.
    exists v, vs. split; [reflexivity|]. split; [exact Hvs|].
    rewrite substitute_split, raw_params_split by reflexivity.
    rewrite Hseg, Haft. rewrite decide_True by reflexivity.
    split; reflexivity.
Qed.

(** A catch-all that ends the pattern has nothing after its name. *)
Lemma star_last_catchAll nm pth' :
  star_last ((slash :: star :: nm) ++ pth') ->
  (pth' = [] \/ head pth' = Some slash) -> pth' = [].
Proof.
  intros Hs [->|Hh]; [reflexivity|]. exfalso.
  change ((slash :: star :: nm) ++ pth') with ([slash] ++ star :: (nm ++ pth')) in Hs.
  apply star_last_star, no_slash_app_inv in Hs.
  destruct pth' as [|x r]; [discriminate|]. cbn in Hh. injection Hh as ->.
  apply Forall_cons_1 in Hs as [Hs _]. contradiction.
Qed.

Lemma plain_not_sigil ch c :
  plain_child ch -> index_for ch = c -> is_sigil c = false.
Proof.
  intros (_ & _ & Hz) <-. unfold index_for.
  destruct (path ch) as [|b p]; [reflexivity|].
  cbn in Hz. destruct (is_sigil b); [lia|reflexivity].
Qed.

Lemma substitute_cons_plain c rest vals :
  is_sigil c = false -> substitute (c :: rest) vals = c :: substitute rest vals.
Proof.
  intros H. apply (substitute_plain [c] rest vals). cbn. rewrite H. reflexivity.
Qed.

Lemma child_sem m c : tree_all sem_inv m -> c ∈ children m -> tree_all sem_inv c.
Proof.
  intros H Hc. pose proof (tree_all_children _ _ H) as HH.
  rewrite list.Forall_forall in HH. apply HH, Hc.
Qed.

Lemma walk_pre_rest c p k :
  walk_pre c p k -> wild_type c ->
  p = path c ++ drop (length (path c)) p
  /\ (drop (length (path c)) p = []
      \/ head (drop (length (path c)) p) = Some slash).
Proof.
  intros (H & _) Hw. destruct (H Hw) as [Htk Hnx]. split.
  - rewrite <- Htk at 1. symmetry. apply take_drop.
  - destruct Hnx as [Hl|Hl]; [left; apply drop_ge; exact Hl|right].
    rewrite head_drop_lookup. exact Hl.
Qed.

Lemma substitute_capt_nonempty c p k vals :
  shape_capt c -> walk_pre c p k -> wild_type c -> values_ok p vals ->
  substitute p vals <> [].
Proof.
  intros Hs Hpre Hw Hvals. destruct (walk_pre_rest _ _ _ Hpre Hw) as [Hp Hr].
  rewrite Hp in Hvals |- *.
  destruct (capt_pattern c _ Hs Hr)
    as [(_ & nm & _ & _ & Hv)|(_ & nm & _ & _ & Hv)].
  - destruct (Hv vals Hvals) as (v & vs & _ & Hvne & _ & _ & -> & _).
    destruct v; [contradiction|discriminate].
  - destruct (Hv vals Hvals) as (v & vs & _ & _ & -> & _). discriminate.
Qed.

Section WalkBelowPr.
Variable hs : HandlersChain.
Variable fullPth : str.
Variable self : node -> str -> Z -> nat -> node * status.
Hypothesis self_pr : forall c p k f c',
  self c p k f = (c', Done) -> inv c -> walk_pre c p k ->
  tree_all sem_inv c -> pr_post hs c c' p.

Lemma walk_below_pr m i pth numParams pfi n' :
  walk_below self m i pth fullPth hs numParams pfi = (n', Done) ->
  inv m ->
  count_sigils (drop i pth) <= 255 ->
  numParams = Z.of_nat (count_sigils (drop i pth)) ->
  (wild_type m -> i < length pth -> pth !! i = Some slash) ->
  tree_all sem_inv m ->
  path m = take i pth ->
  pr_post hs m n' pth.
Proof.
  intros H Hm Hle Hnum Hnext Hsem Hpm.
  pose proof (tree_all_here _ _ Hsem) as (Hs1 & Hs2 & Hs3 & Hs4 & Hs5).
  assert (Hpth : pth = path m ++ drop i pth)
    by (rewrite Hpm; symmetry; apply take_drop).
  assert (Hnext' : wild_type m -> drop i pth = [] \/ head (drop i pth) = Some slash).
  { intros Hw. destruct (decide (i < length pth)) as [Hi|Hi].
    - right. rewrite head_drop_lookup. apply Hnext; assumption.
    - left. apply drop_ge. lia. }
  assert (Hcw : capt m -> wild_type m).
  { intros Hc. destruct (Hs2 Hc) as [_ [[Hp _]|[Hp _]]]; [left|right]; exact Hp. }
  destruct (walk_below_cases _ _ _ _ _ _ _ _ _ H Hm Hle Hnum Hnext)
    as [(Hlen & Hh & ->)|(Hi & [A|[B|[C|[D|E]]]])].
  - (* the node of the route *)
    assert (Hnil : drop i pth = []) by (apply drop_ge; exact Hlen).
    rewrite Hnil, app_nil_r in Hpth.
    split; [reflexivity|]. split.
    + intros q r. unfold probe. cbn [path set_handlers].
      case_decide; [apply sim_set_handlers|apply simW_set_handlers]; exact Hh.
    + intros h vals -> Hstar Hvals. unfold probe. cbn [path set_handlers].
      destruct (decide (count_sigils (path m) = 0)) as [Hz|Hnz].
      * rewrite substitute_none, raw_params_none by (rewrite Hpth; exact Hz).
        rewrite Hpth.
        change (path m) with (path (set_handlers (Some h) m)).
        apply find_exact. reflexivity.
      * destruct (Hs2 Hnz) as [_ Hshape].
        destruct (capt_pattern m [] Hshape (or_introl eq_refl))
          as [(Hty & nm & Hp & Hns & Hv)|(Hty & nm & Hp & Hns & Hv)];
          rewrite app_nil_r, <- Hpth in Hv.
        -- destruct (Hv vals Hvals) as (v & vs & -> & Hvne & Hvns & Hvs & -> & ->).
           apply values_ok_nil in Hvs. subst vs.
           rewrite raw_params_none by reflexivity.
           unfold substitute. cbn [substitute_go]. rewrite app_nil_r.
           apply (find_wild_param_last _ colon nm h v);
             [exact Hty|exact Hp|reflexivity|exact Hvns].
        -- destruct (Hv vals Hvals) as (v & vs & -> & Hvs & -> & ->).
           apply values_ok_nil in Hvs. subst vs.
           rewrite raw_params_none by reflexivity.
           unfold substitute. cbn [substitute_go]. rewrite app_nil_r.
           apply (find_wild_catchAll _ slash star nm h); [exact Hty|exact Hp|reflexivity].
  - (* the wildcard child *)
    destruct A as (Hw & c0 & c' & f & Hc0 & Hwt & Hcnt & Hrec & Hpre & ->).
    assert (Hncm : count_sigils (path m) = 0).
    { destruct (decide (count_sigils (path m) = 0)) as [|Hc]; [assumption|].
      destruct (Hs2 Hc) as [Hf _]. congruence. }
    assert (Hin : c0 ∈ children m) by (rewrite Hc0; left).
    pose proof (child_sem _ _ Hsem Hin) as Hs0.
    assert (Hsb : tree_all sem_inv (bump_priority c0))
      by (eapply cap_alike_sem; [apply cap_alike_bump|exact Hs0]).
    destruct (sem_raise numParams _ Hsb) as (R1 & _).
    pose proof (same_shape_raise numParams (bump_priority c0))
      as (A1 & A2 & A3 & A4 & A5).
    set (c1 := raise_maxParams numParams (bump_priority c0)) in *.
    assert (Hc1 : capt c1) by (unfold capt; rewrite A1; cbn; lia).
    assert (Hinv1 : inv c1).
    { eapply same_shape_inv;
        [|apply (inv_child m 0); [exact Hm|rewrite Hc0; reflexivity]].
      repeat split; assumption. }
    pose proof Hpre as (Hpre1 & _).
    apply self_pr in Hrec; [|exact Hinv1|exact Hpre|exact R1].
    destruct Hrec as (P0 & P1 & P2).
    assert (Hc' : capt c') by (unfold capt in *; rewrite P0; exact Hc1).
    split; [reflexivity|]. split.
    + intros q r. rewrite !probe_plain by exact Hncm.
      apply (sim_wild_child m _ c0 c' []); try reflexivity; try assumption.
      intros q0 r0 Hq0. specialize (P1 q0 r0).
      rewrite (probe_capt c1), (probe_capt c') in P1 by assumption.
      apply P1. rewrite <- Hq0.
      apply find_wild_ext; [exact A1|exact A3| |exact A4].
      subst c1. unfold raise_maxParams. case_decide; reflexivity.
    + intros h vals Hhs Hstar Hvals. rewrite probe_plain by exact Hncm.
      rewrite Hpth in Hvals, Hstar |- *.
      apply values_ok_plain in Hvals; [|exact Hncm].
      apply star_last_app in Hstar.
      rewrite substitute_plain, raw_params_plain by exact Hncm.
      specialize (P2 h vals Hhs Hstar Hvals).
      rewrite probe_capt in P2 by exact Hc'.
      cbn [path set_children].
      change (path m) with (path (set_children [c'] m)).
      rewrite (find_wildChild _ c' []); [exact P2|exact Hw|reflexivity|].
      apply (substitute_capt_nonempty c1 _ (decr8 numParams));
        [|exact Hpre| |exact Hvals].
      * pose proof (tree_all_here _ _ R1) as (_ & S2 & _). apply S2, Hc1.
      * unfold wild_type. rewrite A4. exact Hwt.
  - (* a parameter node, followed by '/' *)
    destruct B as (Hw & Hpar & ch & ch' & f & Hch & Hhd & Hplain & Hidx & Hrec
                   & Hpre & Hhead & ->).
    pose proof (Hs1 Hpar) as Hcm.
    destruct (Hs2 Hcm) as [_ Hshape].
    assert (Hin : ch ∈ children m) by (rewrite Hch; left).
    pose proof (child_sem _ _ Hsem Hin) as Hs0.
    assert (Hz : count_sigils (path ch) = 0) by apply Hplain.
    apply self_pr in Hrec;
      [|eapply same_shape_inv; [apply same_shape_bump|];
        apply (inv_child m 0); [exact Hm|rewrite Hch; reflexivity]
       |exact Hpre
       |eapply cap_alike_sem; [apply cap_alike_bump|exact Hs0]].
    destruct Hrec as (P0 & P1 & P2).
    cbn [path bump_priority set_priority] in P0.
    assert (Hz' : count_sigils (path ch') = 0) by (rewrite P0; exact Hz).
    split; [reflexivity|]. split.
    + intros q r. rewrite !probe_capt by exact Hcm.
      apply (simW_child m _ ch ch' []); try reflexivity; try assumption.
      intros q0 r0 Hq0. specialize (P1 q0 r0).
      rewrite !probe_plain in P1 by assumption.
      apply P1. rewrite find_bump. exact Hq0.
    + intros h vals Hhs Hstar Hvals. rewrite probe_capt by exact Hcm.
      rewrite Hpth in Hvals, Hstar |- *.
      destruct (capt_pattern m _ Hshape (or_intror Hhd))
        as [(_ & nm & Hp & Hns & Hv)|(Hty & _)]; [|congruence].
      destruct (Hv vals Hvals) as (v & vs & -> & Hvne & Hvns & Hvs & -> & ->).
      apply star_last_app in Hstar.
      specialize (P2 h vs Hhs Hstar Hvs). rewrite probe_plain in P2 by exact Hz'.
      rewrite (find_wild_param_more _ colon nm ch' [] v);
        [|exact Hpar|exact Hp|reflexivity|exact Hvns
         |apply substitute_head_slash; exact Hhd].
      rewrite P2. reflexivity.
  - (* an existing child *)
    destruct C as (Hw & Hnpar & Hind & c & k & k' & ch & ch' & f & Hhd & Hio & Hk
                   & Hkle & Hplain & Hidx & Hrec & Hpre & Hhead & Hsame & Hin'
                   & Hcs').
    pose proof Hsame as (Hp' & Hh' & Ht' & Hw' & Hm').
    assert (Hin : ch ∈ children m) by (eapply list_elem_of_lookup_2; exact Hk).
    pose proof (child_sem _ _ Hsem Hin) as Hs0.
    assert (Hz : count_sigils (path ch) = 0) by apply Hplain.
    apply self_pr in Hrec;
      [|eapply same_shape_inv; [apply same_shape_bump|];
        apply (inv_child m k); [exact Hm|exact Hk]
       |exact Hpre
       |eapply cap_alike_sem; [apply cap_alike_bump|exact Hs0]].
    destruct Hrec as (P0 & P1 & P2).
    cbn [path bump_priority set_priority] in P0.
    assert (Hz' : count_sigils (path ch') = 0) by (rewrite P0; exact Hz).
    assert (Hlen : length (indices m) = length (children m))
      by (rewrite Hind, length_fmap; reflexivity).
    assert (Hne : drop i pth <> []).
    { intros E. rewrite E in Hhd. discriminate. }
    split; [rewrite Hp'; reflexivity|].
    destruct (decide (count_sigils (path m) = 0)) as [Hzm|Hcm].
    + assert (Hzn : count_sigils (path n') = 0) by (rewrite Hp'; exact Hzm).
      split.
      * intros q r. rewrite !probe_plain by assumption. intros Hq.
        destruct (find_prefix _ _ _ Hq) as [s ->].
        destruct s as [|x s].
        { rewrite find_app in Hq. rewrite <- Hp', find_app, Hh'. exact Hq. }
        rewrite find_child in Hq by exact Hw.
        rewrite <- Hp', find_child by (rewrite Hw'; exact Hw).
        rewrite Hin', Hcs', (child_at_moved _ _ c k k' ch' x Hlen Hio Hkle).
        destruct (decide (x = c)) as [->|Hxc]; [|exact Hq].
        unfold child_at in Hq. rewrite Hio, Hk in Hq.
        specialize (P1 (c :: s) r). rewrite !probe_plain in P1 by assumption.
        apply P1. rewrite find_bump. exact Hq.
      * intros h vals Hhs Hstar Hvals. rewrite probe_plain by exact Hzn.
        rewrite Hpth in Hvals, Hstar |- *.
        apply values_ok_plain in Hvals; [|exact Hzm].
        apply star_last_app in Hstar.
        rewrite substitute_plain, raw_params_plain by exact Hzm.
        specialize (P2 h vals Hhs Hstar Hvals).
        rewrite probe_plain in P2 by exact Hz'.
        destruct (drop i pth) as [|x rest] eqn:Hd; [contradiction|].
        cbn in Hhd. injection Hhd as ->.
        pose proof (plain_not_sigil _ _ Hplain Hidx) as Hsig.
        rewrite substitute_cons_plain in P2 |- * by exact Hsig.
        rewrite <- Hp', find_child by (rewrite Hw'; exact Hw).
        rewrite Hin', Hcs', (child_at_moved _ _ c k k' ch' c Hlen Hio Hkle).
        rewrite decide_True by reflexivity. exact P2.
    + destruct (Hs2 Hcm) as [_ Hshape].
      assert (Hca : nType m = catchAll).
      { destruct Hshape as [(Hx & _)|(Hx & _)]; [contradiction|exact Hx]. }
      assert (Hcn : capt n') by (unfold capt; rewrite Hp'; exact Hcm).
      split.
      * intros q r. rewrite !probe_capt by assumption.
        apply simW_catchAll; assumption.
      * intros h vals Hhs Hstar Hvals. exfalso.
        destruct Hshape as [(Hx & _)|(_ & nm & Hp & _)]; [contradiction|].
        rewrite Hpth, Hp in Hstar.
        apply Hne. eapply star_last_catchAll; [exact Hstar|].
        apply Hnext'. right. exact Hca.
  - (* a new static child *)
    destruct D as (Hw & Hind & Hparnil & c & newPos & ch' & Hhd & Hio & Hsig
                   & Hnp & Hic & Hsame & Hin' & Hcs').
    pose proof Hsame as (Hp' & Hh' & Ht' & Hw' & Hm').
    apply insertChild_loop_sem in Hic;
      [|exact Hnum|exact Hle|reflexivity|reflexivity|reflexivity|left; reflexivity
       |apply not_capt_nil; reflexivity|intros [Hx|Hx]; discriminate].
    destruct Hic as (Hnc' & _ & _ & _ & _ & _ & HR).
    cbn [path bump_priority set_priority app] in HR.
    assert (Hlen : length (indices m) = length (children m))
      by (rewrite Hind, length_fmap; reflexivity).
    assert (Hne : drop i pth <> []).
    { intros E. rewrite E in Hhd. discriminate. }
    split; [rewrite Hp'; reflexivity|].
    destruct (decide (count_sigils (path m) = 0)) as [Hzm|Hcm].
    + assert (Hzn : count_sigils (path n') = 0) by (rewrite Hp'; exact Hzm).
      split.
      * intros q r. rewrite !probe_plain by assumption. intros Hq.
        destruct (find_prefix _ _ _ Hq) as [s ->].
        destruct s as [|x s].
        { rewrite find_app in Hq. rewrite <- Hp', find_app, Hh'. exact Hq. }
        rewrite find_child in Hq by exact Hw.
        rewrite <- Hp', find_child by (rewrite Hw'; exact Hw).
        rewrite Hin', Hcs', (child_at_inserted _ _ c newPos ch' x Hlen Hio).
        destruct (decide (x = c)) as [->|Hxc]; [|exact Hq].
        unfold child_at in Hq. rewrite Hio in Hq. discriminate.
      * intros h vals Hhs Hstar Hvals. rewrite probe_plain by exact Hzn.
        rewrite Hpth in Hvals, Hstar |- *.
        apply values_ok_plain in Hvals; [|exact Hzm].
        rewrite substitute_plain, raw_params_plain by exact Hzm.
        specialize (HR h vals Hhs Hvals).
        destruct (drop i pth) as [|x rest] eqn:Hd; [contradiction|].
        cbn in Hhd. injection Hhd as ->.
        rewrite substitute_cons_plain in HR |- * by exact Hsig.
        rewrite <- Hp', find_child by (rewrite Hw'; exact Hw).
        rewrite Hin', Hcs', (child_at_inserted _ _ c newPos ch' c Hlen Hio).
        rewrite decide_True by reflexivity. exact HR.
    + destruct (Hs2 Hcm) as [_ Hshape].
      assert (Hcn : capt n') by (unfold capt; rewrite Hp'; exact Hcm).
      pose proof Hshape as Hshape2.
      destruct Hshape as [(Hpar & nm & Hp & Hns & _)|(Hca & nm & Hp & _)].
      * (* a parameter node without children *)
        pose proof (Hparnil Hpar) as Hnil.
        assert (Hc1 : children n' = [ch']).
        { rewrite Hcs', Hnil. destruct newPos; reflexivity. }
        assert (Hhd' : head (drop i pth) = Some slash).
        { destruct (Hnext' (or_introl Hpar)) as [E|E]; [contradiction|exact E]. }
        split.
        -- intros q r. rewrite !probe_capt by assumption.
           unfold find_wild. rewrite Ht', Hpar, Hp', Hh', Hnil, Hc1.
           destruct (slice_from 1 (path m)); [|tauto].
           case_decide; [discriminate|tauto].
        -- intros h vals Hhs Hstar Hvals. rewrite probe_capt by exact Hcn.
           rewrite Hpth in Hvals, Hstar |- *.
           destruct (capt_pattern m _ Hshape2 (or_intror Hhd'))
             as [(_ & nm' & Hpn & Hns' & Hv)|(Hty & _)]; [|congruence].
           destruct (Hv vals Hvals) as (v & vs & -> & Hvne & Hvns & Hvs & -> & ->).
           specialize (HR h vs Hhs Hvs).
           rewrite (find_wild_param_more _ colon nm' ch' [] v);
             [|rewrite Ht'; exact Hpar|rewrite Hp'; exact Hpn|exact Hc1|exact Hvns
              |apply substitute_head_slash; exact Hhd'].
           rewrite HR. reflexivity.
      * split.
        -- intros q r. rewrite !probe_capt by assumption.
           apply simW_catchAll; assumption.
        -- intros h vals Hhs Hstar Hvals. exfalso.
           rewrite Hpth, Hp in Hstar.
           apply Hne. eapply star_last_catchAll; [exact Hstar|].
           apply Hnext'. right. exact Hca.
  - (* a wildcard right here *)
    destruct E as (Hw & Hnil & Hinil & Hnw & c & Hhd & Hsig & Hic).
    assert (Hzm : count_sigils (path m) = 0).
    { destruct (decide (count_sigils (path m) = 0)) as [|Hc]; [assumption|].
      exfalso. apply Hnw, Hcw, Hc. }
    apply insertChild_loop_sem in Hic;
      [|exact Hnum|exact Hle|exact Hnil|exact Hinil|exact Hw
       |right; exists c; split; assumption|unfold capt; lia|exact Hnw].
    destruct Hic as (Hnc' & _ & Hsame' & _ & _ & _ & HR).
    destruct (Hsame' c Hhd Hsig) as [Hp' Hh'].
    assert (Hzn : count_sigils (path n') = 0) by (rewrite Hp'; exact Hzm).
    split; [rewrite Hp'; reflexivity|]. split.
    + intros q r. rewrite !probe_plain by assumption. intros Hq.
      destruct (find_leaf _ _ _ Hw Hinil Hq) as (-> & h & Hh & ->).
      rewrite <- Hp'. apply find_exact. rewrite Hh'. exact Hh.
    + intros h vals Hhs Hstar Hvals. rewrite probe_plain by exact Hzn.
      rewrite Hpth in Hvals |- *.
      apply values_ok_plain in Hvals; [|exact Hzm].
      rewrite raw_params_plain by exact Hzm.
      rewrite substitute_plain by exact Hzm.
      apply HR; assumption.
Qed.

End WalkBelowPr.

Lemma split_sem n k i pth fullPth pfi m :
  split (raise_maxParams k n) i pth fullPth pfi = (m, true) ->
  ~ wild_type n -> count_sigils (path n) = 0 -> count_sigils (path m) = 0 ->
  tree_all sem_inv n -> tree_all sem_inv m.
Proof.
  intros Hs Hnw Hz Hzm Hsem.
  apply split_fields in Hs
    as (Sw & St & Sp & Sh & Sm & Si & ch & Sc & Cty & Cp & Cc & Ci & _ & Cw).
  destruct (same_shape_raise k n) as (E1 & E2 & E3 & E4 & E5).
  assert (Hncc : ~ capt ch).
  { unfold capt. rewrite Cp, E1. rewrite (count_sigils_drop_0 i); [lia|exact Hz]. }
  apply (tree_all_one _ m ch Sc).
  - apply sem_inv_plain; [|unfold capt; lia|rewrite Sw; discriminate].
    unfold wild_type. rewrite St, E4. exact Hnw.
  - apply tree_all_node.
    + apply sem_inv_plain;
        [unfold wild_type; rewrite Cty; intros [Hx|Hx]; discriminate
        |exact Hncc|].
      rewrite Cw, Ci, E2, E5. apply (tree_all_here _ _ Hsem).
    + rewrite Cc, E3. apply (tree_all_children _ _ Hsem).
Qed.

Lemma probe_raise k n q : probe (raise_maxParams k n) q = probe n q.
Proof.
  unfold probe, raise_maxParams.
  destruct (decide (maxParams n < k)%Z); [|reflexivity].
  cbn [path set_maxParams].
  destruct (decide (count_sigils (path n) = 0)); [apply find_ext; reflexivity|].
  apply find_wild_ext; reflexivity.
Qed.

Lemma probe_bump n q : probe (bump_priority n) q = probe n q.
Proof.
  unfold probe. cbn [path bump_priority set_priority].
  destruct (decide (count_sigils (path n) = 0)); [apply find_ext; reflexivity|].
  apply find_wild_ext; reflexivity.
Qed.

Lemma walk_pr hs fullPth : forall fuel n pth numParams pfi n',
  walk fuel n pth fullPth hs numParams pfi = (n', Done) ->
  inv n -> walk_pre n pth numParams ->
  tree_all sem_inv n ->
  pr_post hs n n' pth.
Proof.
  induction fuel as [|fuel IH];
    intros n pth numParams pfi n' H Hn Hpre Hsem; [discriminate|].
  destruct (walk_cases _ _ _ _ _ _ _ _ H Hn Hpre)
    as (i & m & Hi & Htake & Hsplit & Hinvm & Htym & Hpm & Hcnt & Hle & Hnum
        & Hnext & Hbelow).
  assert (Hcm : count_sigils (path m) = count_sigils (path n))
    by (rewrite Hpm; exact Hcnt).
  assert (Hm : tree_all sem_inv m /\ forall q r, probe n q = Some r -> probe m q = Some r).
  { destruct Hsplit as [(Hlt & Hnw & Hz & _ & Hs)|(_ & _ & ->)].
    - split; [eapply split_sem; [exact Hs|exact Hnw|exact Hz|lia|exact Hsem]|].
      intros q r. rewrite !probe_plain by lia. intros Hq.
      eapply sim_split; [exact Hs| | |].
      + destruct (same_shape_raise numParams n) as (E & _). rewrite E. exact Hlt.
      + destruct (same_shape_raise numParams n) as (E & _). rewrite E. exact Htake.
      + rewrite find_raise. exact Hq.
    - split; [apply sem_raise; exact Hsem|].
      intros q r. rewrite probe_raise. tauto. }
  destruct Hm as (Hsm & Hpm').
  assert (Hself : forall c p k f c',
            (fun c p k f => walk fuel c p fullPth hs k f) c p k f = (c', Done) ->
            inv c -> walk_pre c p k -> tree_all sem_inv c ->
            pr_post hs c c' p)
    by (intros c p k f c' Hc Hic Hpc Hsc; eapply IH; eassumption).
  apply (walk_below_pr hs fullPth _ Hself) in Hbelow;
    [|exact Hinvm|exact Hle|exact Hnum|exact Hnext|exact Hsm|exact Hpm].
  destruct Hbelow as (P0 & P1 & P2).
  split; [lia|]. split; [|exact P2].
  intros q r Hq. apply P1, Hpm', Hq.
Qed.

Lemma app_nonempty_l {A} (a b : list A) : b <> [] -> a ++ b <> [].
Proof. intros H E. apply app_eq_nil in E as [_ E]. contradiction. Qed.

Lemma insertChild_live hs fullPth fuel n numParams pth n' :
  insertChild_loop fuel n numParams pth fullPth hs = (n', Done) ->
  numParams = Z.of_nat (count_sigils pth) -> pth <> [] ->
  path n' <> [] \/ children n' <> [].
Proof.
  intros H Hnum Hne. destruct (decide (count_sigils pth = 0)) as [Hz|Hnz].
  - rewrite insertChild_loop_finish in H by lia. injection H as <-.
    left. exact Hne.
  - destruct fuel as [|fuel].
    { simpl in H. rewrite decide_True in H by lia. discriminate. }
    destruct (insertChild_loop_step _ _ _ _ _ _ _ H Hnum)
      as (pre & sg & tl & _ & _ & _ & _ & Hcases); [lia|].
    cbv zeta in Hcases. right.
    destruct Hcases as [(_ & _ & _ & c2 & _ & ->)
                       |[(_ & _ & ->)|(_ & _ & pre' & _ & _ & ->)]];
      discriminate.
Qed.

Lemma walk_live hs fullPth fuel n pth numParams pfi n' :
  walk fuel n pth fullPth hs numParams pfi = (n', Done) ->
  inv n -> walk_pre n pth numParams ->
  path n <> [] \/ children n <> [] ->
  path n' <> [] \/ children n' <> [].
Proof.
  intros H Hn Hpre Hlive. destruct fuel as [|fuel]; [discriminate|].
  destruct (walk_cases _ _ _ _ _ _ _ _ H Hn Hpre)
    as (i & m & Hi & Htake & Hsplit & Hinvm & Htym & Hpm & Hcnt & Hle & Hnum
        & Hnext & Hbelow).
  assert (Hm : path m <> [] \/ children m <> []).
  { destruct Hsplit as [(_ & _ & _ & _ & Hs)|(_ & Hp & ->)].
    - right. apply split_fields in Hs as (_ & _ & _ & _ & _ & _ & ch & -> & _).
      discriminate.
    - destruct (same_shape_raise numParams n) as (E1 & _ & E3 & _).
      rewrite E1, E3. exact Hlive. }
  destruct (walk_below_cases _ _ _ _ _ _ _ _ _ Hbelow Hinvm Hle Hnum Hnext)
    as [(_ & _ & ->)|(_ & [A|[B|[C|[D|E]]]])].
  - exact Hm.
  - destruct A as (_ & c0 & c' & f & _ & _ & _ & _ & _ & ->). right. discriminate.
  - destruct B as (_ & _ & ch & ch' & f & _ & _ & _ & _ & _ & _ & _ & ->).
    right. discriminate.
  - destruct C as (_ & _ & _ & c & k & k' & ch & ch' & f & _ & _ & _ & _ & _ & _
                   & _ & _ & _ & _ & _ & ->).
    right. apply app_nonempty_l. discriminate.
  - destruct D as (_ & _ & _ & c & newPos & ch' & _ & _ & _ & _ & _ & _ & _ & ->).
    right. apply app_nonempty_l. discriminate.
  - destruct E as (_ & Hnil & _ & _ & c & Hhd & Hsig & Hic).
    eapply insertChild_live; [exact Hic|exact Hnum|].
    intros E. rewrite E in Hhd. discriminate.
Qed.

Lemma addRoute_live n p hs n' :
  addRoute n p hs = (n', Done) -> count_sigils p <= 255 -> p <> [] ->
  root_inv n -> path n' <> [] \/ children n' <> [].
Proof.
  unfold addRoute. intros H Hle Hne (Hn & Hnw & Hcount).
  cbn [path children bump_priority set_priority] in H.
  destruct (decide (length (path n) = 0 /\ length (children n) = 0))
    as [[Hp Hc]|Hlive].
  - unfold insertChild in H.
    destruct (insertChild_loop _ _ _ p p hs) as [n2 st] eqn:Hins.
    destruct st; try discriminate. injection H as <-.
    cbn [path children set_nType].
    eapply insertChild_live; [exact Hins|apply countParams_exact; exact Hle
                             |exact Hne].
  - eapply walk_live; [exact H| | |].
    + eapply same_shape_inv; [apply same_shape_bump|exact Hn].
    + unfold walk_pre. cbn [path nType bump_priority set_priority].
      split; [intros Hw; contradiction|]. split; [intros _; exact Hcount|].
      split; [exact Hle|]. rewrite Hcount, countParams_exact by exact Hle. lia.
    + cbn [path children bump_priority set_priority].
      destruct (path n); [|left; discriminate].
      destruct (children n); [|right; discriminate].
      exfalso. apply Hlive. split; reflexivity.
Qed.

Lemma addRoute_pr n p hs n' :
  addRoute n p hs = (n', Done) -> count_sigils p <= 255 ->
  root_inv n -> tree_all sem_inv n -> root_live n ->
  sim n n'
  /\ (forall h vals, hs = Some h -> star_last p -> values_ok p vals ->
        find n' (substitute p vals) = Some (h, raw_params p vals)).
Proof.
  unfold addRoute. intros H Hle (Hn & Hnw & Hcount) Hsem Hlive.
  assert (Hb : inv (bump_priority n))
    by (eapply same_shape_inv; [apply same_shape_bump|exact Hn]).
  assert (Hsb : tree_all sem_inv (bump_priority n))
    by (eapply cap_alike_sem; [apply cap_alike_bump|exact Hsem]).
  cbn [path children bump_priority set_priority] in H.
  destruct (decide (length (path n) = 0 /\ length (children n) = 0))
    as [[Hp Hc]|Hne].
  - apply length_zero_iff_nil in Hp, Hc.
    pose proof (tree_all_here _ _ Hn) as Hn0. unfold node_inv in Hn0.
    assert (Hwc : wildChild n = false).
    { destruct (wildChild n); [|reflexivity].
      destruct Hn0 as (c & Hcc & _). congruence. }
    rewrite Hwc, Hc in Hn0. destruct Hn0 as [_ Hind].
    assert (Hi : indices n = []).
    { case_decide; [destruct Hind as (_ & _ & [Hi|Hi]); exact Hi|exact Hind]. }
    assert (Hh : handlers n = None).
    { destruct Hlive as [Hh|[Hx|Hx]]; [exact Hh|contradiction..]. }
    unfold insertChild in H.
    destruct (insertChild_loop _ _ _ p p hs) as [n2 st] eqn:Hins.
    destruct st; try discriminate. injection H as <-.
    apply insertChild_loop_sem in Hins;
      [|apply countParams_exact; exact Hle|exact Hle|exact Hc|exact Hi|exact Hwc
       |left; exact Hp|apply not_capt_nil; exact Hp|exact Hnw].
    destruct Hins as (_ & _ & _ & _ & _ & _ & HR).
    cbn [path bump_priority set_priority] in HR. rewrite Hp in HR.
    split.
    + intros q r Hq. apply find_leaf in Hq as (_ & h & Hh' & _);
        [congruence|exact Hwc|exact Hi].
    + intros h vals Hhs _ Hvals. rewrite <- (HR h vals Hhs Hvals).
      apply find_ext; reflexivity.
  - apply walk_pr in H; [|exact Hb| |exact Hsb].
    + destruct H as (P0 & P1 & P2).
      cbn [path bump_priority set_priority] in P0.
      assert (Hz' : count_sigils (path n') = 0) by lia.
      split.
      * intros q r Hq. specialize (P1 q r).
        rewrite probe_bump, !probe_plain in P1 by assumption. apply P1, Hq.
      * intros h vals Hhs Hstar Hvals. specialize (P2 h vals Hhs Hstar Hvals).
        rewrite probe_plain in P2 by exact Hz'. exact P2.
    + unfold walk_pre. cbn [path nType bump_priority set_priority].
      split; [intros Hw; contradiction|]. split; [intros _; exact Hcount|].
      split; [exact Hle|]. rewrite Hcount, countParams_exact by exact Hle. lia.
Qed.

Lemma built_with_built rs t : built_with rs t -> built t.
Proof.
  induction 1 as [|rs n p h n' Hb IH Hne Hle Hadd]; [apply built_new|].
  eapply built_add; eassumption.
Qed.

Lemma built_with_live rs t : built_with rs t -> root_live t.
Proof.
  destruct 1 as [|rs n p h n' Hb Hne Hle Hadd]; [left; reflexivity|].
  right. eapply addRoute_live; [exact Hadd|exact Hle|exact Hne|].
  apply built_root_inv. eapply built_with_built. exact Hb.
Qed.

(** Every route of a tree is found by [find]. *)
Lemma built_with_find rs t p h vals :
  built_with rs t -> (p, h) ∈ rs -> star_last p -> values_ok p vals ->
  find t (substitute p vals) = Some (h, raw_params p vals).
Proof.
  induction 1 as [|rs n p0 h0 n' Hb IH Hne Hle Hadd]; intros Hin Hstar Hvals.
  - inversion Hin.
  - pose proof (built_with_built _ _ Hb) as Hbn.
    destruct (addRoute_pr _ _ _ _ Hadd Hle (built_root_inv _ Hbn)
                (built_sem _ Hbn) (built_with_live _ _ Hb)) as [Hsim Hnew].
    apply elem_of_cons in Hin as [[= -> ->]|Hin].
    + apply Hnew; [reflexivity|exact Hstar|exact Hvals].
    + apply Hsim, IH; assumption.
Qed.

Section Complete.
Variable qu : str -> option str.

Lemma save_param_handlers n key val value ue value' :
  save_param qu n key val value ue = Ret value' ->
  v_handlers value' = v_handlers value
  /\ exists k, key = Some k.
Proof.
  unfold save_param. intros H. case_decide; [discriminate|].
  destruct key as [k|]; [|discriminate]. injection H as <-.
  split; [reflexivity|]. exists k. reflexivity.
Qed.

(** What [getValue] returns with handlers, [find] finds. *)
Lemma getValue_find_both n :
  (forall q value ue v' h,
     v_handlers value = None ->
     getValue_walk qu n q value ue = Ret v' -> v_handlers v' = Some h ->
     exists ps, find n q = Some (h, ps))
  /\ (forall p cs q value ue v' h,
        wildChild p = true -> children p = n :: cs -> q <> [] ->
        v_handlers value = None ->
        getValue_walk qu p (path p ++ q) value ue = Ret v' ->
        v_handlers v' = Some h ->
        exists ps, find_wild find n q = Some (h, ps)).
Proof.
  induction n as [n IH] using node_ind'.
  rewrite list.Forall_forall in IH.
  assert (IHD : forall c, c ∈ children n ->
            forall q value ue v' h,
              v_handlers value = None ->
              getValue_walk qu c q value ue = Ret v' -> v_handlers v' = Some h ->
              exists ps, find c q = Some (h, ps)).
  { intros c Hc. apply (IH c Hc). }
  split.
  - intros q value ue v' h Hnone. rewrite getValue_walk_unfold, find_unfold.
    unfold getValue_step, find_step.
    destruct (decide (q = path n)) as [->|Hne].
    + destruct (handlers n) as [h0|] eqn:Hh; cbn [not_nil v_handlers set_v_handlers].
      * intros [= <-] Hv. cbn in Hv. injection Hv as ->. eexists; reflexivity.
      * intros Hr Hv. exfalso.
        repeat (match type of Hr with
                | context [if ?b then _ else _] => destruct b
                | context [match ?x with _ => _ end] => destruct x
                end; try discriminate);
          injection Hr as <-; cbn in Hv; discriminate.
    + destruct (decide (_ /\ _)) as [[Hlen Hpre]|].
      2:{ intros [= <-] Hv. cbn in Hv. congruence. }
      destruct (wildChild n) eqn:Hw; cbn [negb].
      * destruct (children n) as [|c cs] eqn:Hc; [discriminate|].
        intros Hr Hv.
        assert (Hcin : c ∈ c :: cs) by left.
        destruct (IH c Hcin) as [_ HW].
        assert (Hq : q = path n ++ drop (length (path n)) q).
        { rewrite <- Hpre at 1. symmetry. apply take_drop. }
        apply (HW n cs (drop (length (path n)) q) value ue v' h Hw Hc);
          [|exact Hnone| |exact Hv].
        { intros E. apply (f_equal length) in E. rewrite length_drop in E.
          cbn in E. lia. }
        rewrite <- Hq. rewrite getValue_walk_unfold. unfold getValue_step.
        rewrite decide_False by exact Hne.
        rewrite decide_True by (split; assumption).
        rewrite Hw, Hc. cbn [negb]. exact Hr.
      * destruct (drop (length (path n)) q) as [|x rest] eqn:Hd; [discriminate|].
        destruct (index_of x (indices n)) as [i|].
        2:{ intros [= <-] Hv. cbn in Hv. congruence. }
        rewrite !pick_lookup.
        destruct (children n !! i) as [ch|] eqn:Hch; [|discriminate].
        cbn. apply IHD; [eapply list_elem_of_lookup_2; exact Hch|exact Hnone].
  - intros p cs q value ue v' h Hw Hc Hq Hnone.
    rewrite getValue_walk_unfold. unfold getValue_step.
    rewrite decide_False
      by (intros E; apply app_eq_self_l in E; contradiction).
    rewrite decide_True
      by (split; [rewrite length_app; destruct q; [contradiction|cbn; lia]
                 |apply take_app_length]).
    rewrite Hw, Hc. cbn [negb]. rewrite drop_app_length.
    unfold find_wild. destruct (nType n); try discriminate.
    + destruct (save_param _ _ _ _ _ _) as [v1|] eqn:Hs; [|discriminate].
      apply save_param_handlers in Hs as [Hh1 [key Hkey]]. rewrite Hkey.
      rewrite Hnone in Hh1.
      destruct (decide (param_end q 0 < length q)).
      * destruct (decide (0 < length (children n))) as [Hl|].
        2:{ intros [= <-] Hv. cbn in Hv. congruence. }
        rewrite !pick_lookup.
        destruct (children n !! 0) as [ch|] eqn:Hch; [|discriminate].
        cbn. intros Hr Hv.
        destruct (IHD ch (list_elem_of_lookup_2 _ _ _ Hch) _ _ _ _ _ Hh1 Hr Hv)
          as [ps Hf].
        rewrite Hf. eexists; reflexivity.
      * destruct (handlers n) as [h0|] eqn:Hh;
          cbn [not_nil v_handlers set_v_handlers].
        -- intros [= <-] Hv. cbn in Hv. injection Hv as ->. eexists; reflexivity.
        -- intros Hr Hv. exfalso.
           destruct (children n) as [|c1 [|c2 l]]; injection Hr as <-;
             cbn in Hv; discriminate.
    + destruct (save_param _ _ _ _ _ _) as [v1|] eqn:Hs; [|discriminate].
      apply save_param_handlers in Hs as [Hh1 [key Hkey]]. rewrite Hkey.
      intros [= <-] Hv. cbn in Hv. rewrite Hv. eexists; reflexivity.
Qed.

Lemma getValue_find n q po ue v h :
  getValue qu n q po ue = Ret v -> v_handlers v = Some h ->
  exists ps, find n q = Some (h, ps).
Proof. apply (getValue_find_both n). reflexivity. Qed.

End Complete.

Lemma addRoute_cap n p hs n' :
  addRoute n p hs = (n', Done) -> count_sigils p <= 255 ->
  root_inv n -> tree_all sem_inv n ->
  (forall B, bounded B n -> count_sigils p <= B -> bounded B n')
  /\ wdepth n' <= Nat.max (wdepth n) (count_sigils p).
Proof.
  unfold addRoute. intros H Hle (Hn & Hnw & Hcount) Hsem.
  assert (Hb : inv (bump_priority n))
    by (eapply same_shape_inv; [apply same_shape_bump|exact Hn]).
  assert (Hsb : tree_all sem_inv (bump_priority n))
    by (eapply cap_alike_sem; [apply cap_alike_bump|exact Hsem]).
  cbn [path children bump_priority set_priority] in H.
  destruct (decide (length (path n) = 0 /\ length (children n) = 0))
    as [[Hp Hc]|Hne].
  - apply length_zero_iff_nil in Hp, Hc.
    pose proof (tree_all_here _ _ Hn) as Hn0. unfold node_inv in Hn0.
    assert (Hwc : wildChild n = false).
    { destruct (wildChild n); [|reflexivity].
      destruct Hn0 as (c & Hcc & _). congruence. }
    rewrite Hwc, Hc in Hn0. destruct Hn0 as [_ Hind].
    assert (Hi : indices n = []).
    { case_decide; [destruct Hind as (_ & _ & [Hi|Hi]); exact Hi|exact Hind]. }
    unfold insertChild in H.
    destruct (insertChild_loop _ _ _ p p hs) as [n2 st] eqn:Hins.
    destruct st; try discriminate. injection H as <-.
    apply insertChild_loop_sem in Hins;
      [|apply countParams_exact; exact Hle|exact Hle|exact Hc|exact Hi|exact Hwc
       |left; exact Hp|apply not_capt_nil; exact Hp|exact Hnw].
    destruct Hins as (_ & _ & _ & _ & I2 & I3 & _).
    split.
    + intros B _ HB. specialize (I2 B HB). apply bounded_node in I2.
      apply bounded_node. exact I2.
    + rewrite (wdepth_same n2) by reflexivity. lia.
  - apply walk_cap in H; [|exact Hb| |exact Hsb|].
    + destruct H as (_ & R2 & R3). split.
      * intros B HB HcB. apply R2; [|exact HcB].
        eapply cap_alike_bounded; [apply cap_alike_bump|exact HB].
      * rewrite (cap_alike_wdepth n (bump_priority n)) in R3 by apply cap_alike_bump. exact R3.
    + unfold walk_pre. cbn [path nType bump_priority set_priority].
      split; [intros Hw; contradiction|]. split; [intros _; exact Hcount|].
      split; [exact Hle|]. rewrite Hcount, countParams_exact by exact Hle. lia.
    + intros Hc. exfalso. apply Hc. exact Hcount.
Qed.

(** A tree asks for no buffer larger than the largest number of captures
    of its routes, and captures no more than that on any way down. *)
Lemma built_with_bounded rs t m :
  built_with rs t -> (forall p h, (p, h) ∈ rs -> count_sigils p <= m) ->
  bounded m t /\ wdepth t <= m.
Proof.
  induction 1 as [|rs n p h n' Hb IH Hne Hle Hadd]; intros Hm.
  - split; [|rewrite wdepth_leaf by reflexivity; rewrite decide_True by reflexivity; lia].
    apply tree_all_leaf; [reflexivity|].
    intros Hc. exfalso. apply Hc. reflexivity.
  - pose proof (built_with_built _ _ Hb) as Hbn.
    destruct IH as [IH1 IH2].
    { intros p0 h0 Hin. apply (Hm p0 h0). right. exact Hin. }
    assert (Hp : count_sigils p <= m) by (apply (Hm p h); left).
    destruct (addRoute_cap _ _ _ _ Hadd Hle (built_root_inv _ Hbn)
                (built_sem _ Hbn)) as [A1 A2].
    split; [apply A1; assumption|lia].
Qed.

Section Keeps.
Variable qu : str -> option str.

Lemma save_param_keeps n key val value ue value' :
  Z.to_nat (maxParams n) <= cap (v_params value) ->
  save_param qu n key val value ue = Ret value' ->
  cap (v_params value') = cap (v_params value)
  /\ length (elems (v_params value')) = S (length (elems (v_params value))).
Proof.
  unfold save_param. intros Hm H.
  destruct (decide (cap (v_params value) < Z.to_nat (maxParams n)));
    [lia|]. cbv beta iota zeta in H.
  destruct (decide (cap (v_params value) < length (elems (v_params value)) + 1));
    [discriminate|]. destruct key; [|discriminate].
  injection H as <-. cbn. rewrite length_app. cbn. lia.
Qed.

(** With a buffer as large as any capture node asks for, the lookup keeps
    the buffer and saves at most [wdepth] parameters. *)
Lemma getValue_keeps_both n :
  inv n ->
  (forall q value ue v',
     bounded (cap (v_params value)) n ->
     getValue_walk qu n q value ue = Ret v' ->
     cap (v_params v') = cap (v_params value)
     /\ length (elems (v_params v'))
        <= length (elems (v_params value)) + wdepth n)
  /\ (forall p cs q value ue v',
        wildChild p = true -> children p = n :: cs -> q <> [] -> capt n ->
        bounded (cap (v_params value)) n ->
        getValue_walk qu p (path p ++ q) value ue = Ret v' ->
        cap (v_params v') = cap (v_params value)
        /\ length (elems (v_params v'))
           <= length (elems (v_params value)) + wdepth n).
Proof.
  induction n as [n IH] using node_ind'. intros Hinv.
  pose proof (tree_all_children _ _ Hinv) as Hinvc.
  rewrite list.Forall_forall in IH, Hinvc.
  assert (IHD : forall c, c ∈ children n ->
            forall q value ue v',
              bounded (cap (v_params value)) c ->
              getValue_walk qu c q value ue = Ret v' ->
              cap (v_params v') = cap (v_params value)
              /\ length (elems (v_params v'))
                 <= length (elems (v_params value)) + wdepth c).
  { intros c Hc. apply (IH c Hc), Hinvc, Hc. }
  assert (Hsame : forall (value v' : nodeValue),
            v_params v' = v_params value ->
            cap (v_params v') = cap (v_params value)
            /\ length (elems (v_params v'))
               <= length (elems (v_params value)) + wdepth n).
  { intros value v' ->. split; [reflexivity|lia]. }
  split.
  - intros q value ue v' Hb. rewrite getValue_walk_unfold. unfold getValue_step.
    destruct (decide (q = path n)) as [->|Hne].
    + intros Hr. apply Hsame.
      repeat (match type of Hr with
              | context [if ?b then _ else _] => destruct b
              | context [match ?x with _ => _ end] => destruct x
              end; try discriminate);
        injection Hr as <-; reflexivity.
    + destruct (decide (_ /\ _)) as [[Hlen Hpre]|].
      2:{ intros [= <-]. apply Hsame. reflexivity. }
      destruct (wildChild n) eqn:Hw; cbn [negb].
      * pose proof (tree_all_here _ _ Hinv) as Hn. unfold node_inv in Hn.
        rewrite Hw in Hn. destruct Hn as (c & Hc & Hwt & Hcnt). rewrite Hc.
        intros Hr.
        assert (Hcin : c ∈ children n) by (rewrite Hc; left).
        destruct (IH c Hcin (Hinvc c Hcin)) as [_ HW].
        assert (Hq : q = path n ++ drop (length (path n)) q).
        { rewrite <- Hpre at 1. symmetry. apply take_drop. }
        pose proof (wdepth_child _ _ Hcin) as Hd.
        enough (cap (v_params v') = cap (v_params value)
                /\ length (elems (v_params v'))
                   <= length (elems (v_params value)) + wdepth c) by lia.
        apply (HW n [] (drop (length (path n)) q) value ue v' Hw Hc);
          [|unfold capt; lia|eapply bounded_child; eassumption|].
        { intros E. apply (f_equal length) in E. rewrite length_drop in E.
          cbn in E. lia. }
        rewrite <- Hq. rewrite getValue_walk_unfold. unfold getValue_step.
        rewrite decide_False by exact Hne.
        rewrite decide_True by (split; assumption).
        rewrite Hw, Hc. cbn [negb]. exact Hr.
      * destruct (drop (length (path n)) q) as [|x rest] eqn:Hd; [discriminate|].
        destruct (index_of x (indices n)) as [i|].
        2:{ intros [= <-]. apply Hsame. reflexivity. }
        rewrite pick_lookup.
        destruct (children n !! i) as [ch|] eqn:Hch; [|discriminate].
        cbn. intros Hr.
        assert (Hchin : ch ∈ children n)
          by (eapply list_elem_of_lookup_2; exact Hch).
        pose proof (wdepth_child _ _ Hchin) as Hdd.
        destruct (IHD ch Hchin _ _ _ _ (bounded_child _ _ _ Hb Hchin) Hr). lia.
  - intros p cs q value ue v' Hw Hc Hq Hcapt Hb.
    rewrite getValue_walk_unfold. unfold getValue_step.
    rewrite decide_False
      by (intros E; apply app_eq_self_l in E; contradiction).
    rewrite decide_True
      by (split; [rewrite length_app; destruct q; [contradiction|cbn; lia]
                 |apply take_app_length]).
    rewrite Hw, Hc. cbn [negb]. rewrite drop_app_length.
    pose proof (bounded_here _ _ Hb Hcapt) as Hmax.
    pose proof (wdepth_capt _ Hcapt) as H1.
    destruct (nType n); try discriminate.
    + destruct (save_param _ _ _ _ _ _) as [v1|] eqn:Hs; [|discriminate].
      apply save_param_keeps in Hs as [K1 K2]; [|exact Hmax].
      assert (Hsame1 : forall v', v_params v' = v_params v1 ->
                cap (v_params v') = cap (v_params value)
                /\ length (elems (v_params v'))
                   <= length (elems (v_params value)) + wdepth n).
      { intros v0 ->. split; [exact K1|lia]. }
      destruct (decide (param_end q 0 < length q)).
      * destruct (decide (0 < length (children n))) as [Hl|].
        2:{ intros [= <-]. apply Hsame1. reflexivity. }
        rewrite pick_lookup.
        destruct (children n !! 0) as [ch|] eqn:Hch; [|discriminate].
        cbn. intros Hr.
        assert (Hchin : ch ∈ children n)
          by (eapply list_elem_of_lookup_2; exact Hch).
        pose proof (wdepth_capt_child _ _ Hcapt Hchin) as Hdd.
        assert (Hb1 : bounded (cap (v_params v1)) ch)
          by (rewrite K1; eapply bounded_child; eassumption).
        destruct (IHD ch Hchin _ _ _ _ Hb1 Hr) as [E1 E2].
        split; [congruence|lia].
      * intros Hr. apply Hsame1.
        repeat (match type of Hr with
                | context [if ?b then _ else _] => destruct b
                | context [match ?x with _ => _ end] => destruct x
                end; try discriminate);
          injection Hr as <-; reflexivity.
    + destruct (save_param _ _ _ _ _ _) as [v1|] eqn:Hs; [|discriminate].
      apply save_param_keeps in Hs as [K1 K2]; [|exact Hmax].
      intros [= <-]. cbn. split; [exact K1|lia].
Qed.

End Keeps.

Section Final.
Variable qu : str -> option str.

Lemma find_getValue t q c ue h ps :
  built t -> find t q = Some (h, ps) ->
  exists v, getValue qu t q (mkParams [] c) ue = Ret v
            /\ v_handlers v = Some h
            /\ elems (v_params v) = decoded qu ue <$> ps.
Proof.
  intros Hb Hf.
  pose proof (built_root_inv _ Hb) as (Hi & _ & _).
  pose proof (sem_cap _ (built_sem _ Hb)) as Hc.
  destruct (find_returns qu ue t q (mkValue None (mkParams [] c) false [])
              (h, ps) Hi Hc Hf) as (v & Hv & Hh & Hp).
  { left. reflexivity. }
  exists v. split; [exact Hv|]. split; [exact Hh|exact Hp].
Qed.


(** X2: in a tree built by successful registrations of non-empty
    patterns with at most 255 captures each, a further successful
    registration of a pattern with at most 255 captures takes no route
    away: a lookup with an empty buffer that returned handlers before it
    returns, with an empty buffer of any capacity, the same handlers and
    the same parameters after it. *)
Theorem registration_keeps_lookups rs t p hs t' q c c' ue v h :
  built_with rs t -> count_sigils p <= 255 ->
  addRoute t p hs = (t', Done) ->
  getValue qu t q (mkParams [] c) ue = Ret v -> v_handlers v = Some h ->
  exists v', getValue qu t' q (mkParams [] c') ue = Ret v'
             /\ v_handlers v' = Some h
             /\ elems (v_params v') = elems (v_params v).
Proof.
  intros Hb Hle Hadd Hg Hh.
  pose proof (built_with_built _ _ Hb) as Hbt.
  destruct (getValue_find qu _ _ _ _ _ _ Hg Hh) as [ps Hf].
  destruct (find_getValue _ _ c ue _ _ Hbt Hf) as (v0 & G0 & _ & P0).
  rewrite Hg in G0. injection G0 as <-.
  destruct (addRoute_pr _ _ _ _ Hadd Hle (built_root_inv _ Hbt)
              (built_sem _ Hbt) (built_with_live _ _ Hb)) as [Hsim _].
  assert (Hbt' : built t') by (econstructor; eassumption).
  destruct (find_getValue t' q c' ue h ps Hbt' (Hsim _ _ Hf))
    as (v' & G1 & H1 & P1).
  exists v'. split; [exact G1|]. split; [exact H1|]. congruence.
Qed.

(** X4: when no registered pattern has more than [m] captures, a lookup
    that is given an empty buffer of capacity at least [m] returns that
    buffer, not a larger one allocated on the way, with at most [m]
    parameters in it. *)
Theorem lookup_keeps_buffer rs t m q c ue v :
  built_with rs t -> (forall p h, (p, h) ∈ rs -> count_sigils p <= m) ->
  m <= c -> getValue qu t q (mkParams [] c) ue = Ret v ->
  cap (v_params v) = c /\ length (elems (v_params v)) <= m.
Proof.
  intros Hb Hm Hc Hg.
  destruct (built_with_bounded _ _ _ Hb Hm) as [B1 B2].
  pose proof (built_root_inv _ (built_with_built _ _ Hb)) as (Hi & _ & _).
  destruct (getValue_keeps_both qu t Hi) as [K _].
  destruct (K q (mkValue None (mkParams [] c) false []) ue v) as [K1 K2].
  - cbn. eapply bounded_mono; [|exact B1]. exact Hc.
  - exact Hg.
  - cbn in K1, K2. split; [exact K1|lia].
Qed.

End Final.

Lemma built_with_next rs n p h :
  built_with rs n -> p <> [] -> count_sigils p <= 255 ->
  snd (addRoute n p (Some h)) = Done ->
  built_with ((p, h) :: rs) (fst (addRoute n p (Some h))).
Proof.
  intros Hb Hne Hle Hst. apply (built_with_add rs n p h); try assumption.
  destruct (addRoute n p (Some h)) as [n' st]. simpl in *. congruence.
Qed.

(** The tree that holds "/a/:x", then "/a/:x/b", then "/f/*rest". *)
Lemma three_routes :
  built_with [(B "/f/*rest", [3]); (B "/a/:x/b", [2]); (B "/a/:x", [1])]
    (fst (addRoute
            (fst (addRoute (fst (addRoute newTree (B "/a/:x") (Some [1])))
                    (B "/a/:x/b") (Some [2])))
            (B "/f/*rest") (Some [3]))).
Proof.
  apply built_with_next; [|discriminate|vm_compute; lia|vm_compute; reflexivity].
  apply built_with_next; [|discriminate|vm_compute; lia|vm_compute; reflexivity].
  apply built_with_next; [|discriminate|vm_compute; lia|vm_compute; reflexivity].
  apply built_with_new.
Qed.

Lemma values_ok_one (p nm v : str) :
  captures p = [(colon, nm)] -> v <> [] -> no_slash v -> values_ok p [v].
Proof.
  intros Hc Hv Hs. unfold values_ok. rewrite Hc.
  constructor; [|constructor]. intros _. split; assumption.
Qed.


Lemma registration_keeps_lookups_witness :
  exists v',
    getValue (fun s => Some s)
      (fst (addRoute
              (fst (addRoute
                      (fst (addRoute
                              (fst (addRoute newTree (B "/a/:x") (Some [1])))
                              (B "/a/:x/b") (Some [2])))
                      (B "/f/*rest") (Some [3])))
              (B "/a/:x/c") (Some [4])))
      (B "/a/42/b") (mkParams [] 5) false = Ret v'
    /\ v_handlers v' = Some [2]
    /\ elems (v_params v') = [mkParam (B "x") (B "42")].
Proof.
  apply (registration_keeps_lookups (fun s => Some s) _ _ (B "/a/:x/c")
           (Some [4]) _ (B "/a/42/b") 0 5 false
           (mkValue (Some [2]) (mkParams [mkParam (B "x") (B "42")] 1) false
              (B "/a/:x/b"))
           [2] three_routes);
    [vm_compute; lia|vm_compute; reflexivity|vm_compute; reflexivity
    |reflexivity].
Defined.

Lemma lookup_keeps_buffer_witness :
  cap (v_params
         (mkValue (Some [2]) (mkParams [mkParam (B "x") (B "42")] 4) false
            (B "/a/:x/b"))) = 4
  /\ length (elems (v_params
         (mkValue (Some [2]) (mkParams [mkParam (B "x") (B "42")] 4) false
            (B "/a/:x/b")))) <= 1.
Proof.
  apply (lookup_keeps_buffer (fun s => Some s) _ _ 1 (B "/a/42/b") 4 false
           _ three_routes).
  - intros p h Hin.
    repeat (apply elem_of_cons in Hin as [Hin|Hin];
            [injection Hin as -> _; vm_compute; lia|]).
    inversion Hin.
  - lia.
  - vm_compute. reflexivity.
Defined.
(** * Trees with several routes *)

(** ** The round trip of registration and lookup *)

Section RoundTrip.
Variable qu : str -> option str.

(** C1, as the code has it: in a tree built by successful registrations
    of non-empty patterns with at most 255 captures each, every
    registered pattern in which no '/' follows a '*' is found, whatever
    was registered before or after it: for every substitution giving
    each ':' capture a non-empty value without '/' and the '*' capture
    any text, the lookup of the substituted path with an empty parameter
    buffer of any capacity returns exactly the handler chain registered
    for the pattern, and its parameters are the captures of the pattern
    in declaration order, each with the substituted value, which for the
    catch-all is preceded by the '/' in front of it (and is decoded when
    [unescape] is set). *)
Theorem roundtrip_registered rs t p h vals c ue :
  built_with rs t -> (p, h) ∈ rs -> star_last p -> values_ok p vals ->
  exists v,
    getValue qu t (substitute p vals) (mkParams [] c) ue = Ret v
    /\ v_handlers v = Some h
    /\ elems (v_params v) = expected_params qu ue p vals
    /\ length (elems (v_params v)) = length (captures p).
Proof.
  intros Hb Hin Hs Hv.
  pose proof (built_with_find _ _ _ _ _ Hb Hin Hs Hv) as Hf.
  destruct (find_getValue qu _ _ c ue _ _ (built_with_built _ _ Hb) Hf)
    as (v & H1 & H2 & H3).
  rewrite <- expected_raw in H3.
  exists v. split; [exact H1|]. split; [exact H2|]. split; [exact H3|].
  rewrite H3. unfold expected_params. rewrite length_zip_with.
  unfold values_ok in Hv. apply Forall2_length in Hv. lia.
Qed.

End RoundTrip.

Lemma roundtrip_registered_witness :
  exists v,
    getValue (fun s => Some s)
      (fst (addRoute
              (fst (addRoute (fst (addRoute newTree (B "/a/:x") (Some [1])))
                      (B "/a/:x/b") (Some [2])))
              (B "/f/*rest") (Some [3])))
      (substitute (B "/f/*rest") [B "a/b.txt"]) (mkParams [] 0) true = Ret v
    /\ v_handlers v = Some [3]
    /\ elems (v_params v)
       = expected_params (fun s => Some s) true (B "/f/*rest") [B "a/b.txt"]
    /\ length (elems (v_params v)) = length (captures (B "/f/*rest")).
Proof.
  apply (roundtrip_registered (fun s => Some s) _ _ (B "/f/*rest") [3]
           [B "a/b.txt"] 0 true three_routes).
  - left.
  - vm_compute. repeat split; try discriminate.
    intros _. repeat constructor; discriminate.
  - unfold values_ok. change (captures (B "/f/*rest")) with [(star, B "rest")].
    constructor; [|constructor]. intros E. discriminate E.
Defined.

(** ** A catch-all together with other captures *)





Section CatchAll.
Variable qu : str -> option str.



End CatchAll.

(** * The list of routes *)

(** ** The routes held by a tree *)

Lemma termini_unfold pre n :
  termini pre n = here pre n ++ (children n ≫= termini (pre ++ path n)).
Proof.
  destruct n as [p i cs hd pr ty mp w fp]. unfold here. simpl.
  destruct hd; simpl; repeat f_equal.
  all: induction cs as [|c cs IH]; [reflexivity|]; cbn; f_equal; exact IH.
Qed.

Lemma termini_same pre n n' :
  path n' = path n -> handlers n' = handlers n -> children n' = children n ->
  termini pre n' = termini pre n.
Proof.
  intros Hp Hh Hc. rewrite !termini_unfold. unfold here. rewrite Hp, Hh, Hc.
  reflexivity.
Qed.

Lemma termini_raise k pre n : termini pre (raise_maxParams k n) = termini pre n.
Proof. unfold raise_maxParams. case_decide; apply termini_same; reflexivity. Qed.

Lemma termini_bump pre n : termini pre (bump_priority n) = termini pre n.
Proof. apply termini_same; reflexivity. Qed.

Lemma new_route_app pre a b hs :
  new_route (pre ++ a) b hs = new_route pre (a ++ b) hs.
Proof. destruct hs; [|reflexivity]. cbn. rewrite app_assoc. reflexivity. Qed.

Lemma termini_leaf pre n : children n = [] -> termini pre n = here pre n.
Proof. intros Hc. rewrite termini_unfold, Hc. cbn. apply app_nil_r. Qed.

Lemma termini_one pre n c :
  children n = [c] -> termini pre n = here pre n ++ termini (pre ++ path n) c.
Proof. intros Hc. rewrite termini_unfold, Hc. cbn. rewrite app_nil_r. reflexivity. Qed.

Section InsertRoutes.
Variable hs : HandlersChain.
Variable fullPth : str.

Lemma insertChild_loop_routes : forall fuel n numParams pth n',
  insertChild_loop fuel n numParams pth fullPth hs = (n', Done) ->
  numParams = Z.of_nat (count_sigils pth) -> count_sigils pth <= 255 ->
  children n = [] ->
  (path n = [] /\ handlers n = None
   \/ exists c, head pth = Some c /\ is_sigil c = true) ->
  forall pre, termini pre n' = here pre n ++ new_route pre (path n ++ pth) hs.
Proof.
  induction fuel as [|fuel IH]; intros n numParams pth n' Hins Hnum Hle Hcs Hhead pre.
  all: destruct (decide (count_sigils pth = 0)) as [Hz|Hnz].
  1,3: rewrite insertChild_loop_finish in Hins by lia;
    injection Hins as <-;
    destruct Hhead as [[Hp Hh]|(c & Hc & Hs)];
      [|exfalso; destruct pth; [discriminate|];
        simpl in Hc, Hz; injection Hc as ->; rewrite Hs in Hz; lia];
    rewrite termini_leaf by exact Hcs;
    unfold here; cbn [path handlers set_fullPath set_handlers set_path];
    rewrite Hp, Hh; reflexivity.
  - simpl in Hins. rewrite decide_True in Hins by lia. discriminate.
  - apply insertChild_loop_step in Hins; [|exact Hnum|lia].
    destruct Hins as (p0 & sg & tl & Hpth & Hp0 & Hseg & _ & Hcase).
    cbv zeta in Hcase.
    assert (Hn1 : forall X : node,
              X = (if decide (p0 = []) then n else set_path p0 n) ->
              path X ++ sg :: tl = path n ++ pth
              /\ new_route pre (path X) (handlers X) = here pre n).
    { intros X ->. destruct (decide (p0 = [])) as [->|Hne].
      - rewrite Hpth. split; reflexivity.
      - cbn [handlers path set_path].
        destruct Hhead as [[Hp Hh]|(c & Hc & Hs)].
        + unfold here. rewrite Hp, Hh, Hpth. split; reflexivity.
        + exfalso. rewrite Hpth in Hc. destruct p0 as [|x p0]; [contradiction|].
          simpl in Hc, Hp0. injection Hc as ->. rewrite Hs in Hp0. lia. }
    assert (Hst : sg :: tl = (sg :: segment tl) ++ after tl).
    { cbn. f_equal. symmetry. apply segment_after. }
    destruct Hcase as [(-> & Hne & Hsl & child2 & Hrec & ->)
                      |[(-> & Haf & ->)|(-> & Haf & p' & Hp' & _ & ->)]].
    + (* a parameter, and more *)
      destruct (Hn1 _ eq_refl) as (H2 & H3).
      set (n1 := if decide (p0 = []) then n else set_path p0 n) in *.
      assert (Hcnt : count_sigils pth = S (count_sigils (after tl))).
      { rewrite Hpth, count_sigils_app, Hp0, Hst, count_sigils_app.
        rewrite count_sigils_sigil by reflexivity. lia. }
      apply IH with (pre := (pre ++ path n1) ++ colon :: segment tl) in Hrec;
        [|rewrite Hnum, decr8_count by lia; f_equal; lia|lia|reflexivity
         |left; split; reflexivity].
      erewrite termini_one by reflexivity.
      erewrite termini_one by reflexivity.
      unfold here at 1 2.
      cbn [path handlers set_children set_wildChild bump_priority set_priority
           new_route app].
      rewrite H3, Hrec. unfold here at 2. cbn [path handlers new_route app].
      f_equal. rewrite !new_route_app. f_equal.
      rewrite <- H2, Hst. reflexivity.
    + (* a parameter that ends the pattern *)
      destruct (Hn1 _ eq_refl) as (H2 & H3).
      set (n1 := if decide (p0 = []) then n else set_path p0 n) in *.
      erewrite termini_one by reflexivity.
      rewrite termini_leaf by reflexivity.
      unfold here at 1 2.
      cbn [path handlers set_children set_wildChild bump_priority set_priority
           set_handlers].
      rewrite H3. f_equal. rewrite new_route_app. f_equal.
      rewrite <- H2, Hst, Haf, app_nil_r. reflexivity.
    + (* a catch-all *)
      destruct Hhead as [[Hp Hh]|(c & Hc & Hs)].
      2:{ exfalso. rewrite (head_sigil_pre _ _ _ _ _ Hpth Hp0 Hc Hs) in Hp'.
          destruct p'; discriminate. }
      assert (Hpath : forall X : node,
                X = (let n2 := set_path p' n in
                     if decide (maxParams n2 < 1)%Z
                     then set_maxParams 1 n2 else n2) ->
                path X = p' /\ handlers X = None).
      { intros X ->. cbv zeta.
        destruct (decide (maxParams (set_path p' n) < 1)%Z);
          (split; [reflexivity|exact Hh]). }
      destruct (Hpath _ eq_refl) as [E1 E2]. clear Hpath.
      remember (let n2 := set_path p' n in
                if decide (maxParams n2 < 1)%Z
                then set_maxParams 1 n2 else n2) as X eqn:HX.
      clear HX.
      erewrite termini_one by reflexivity.
      erewrite termini_one by reflexivity.
      rewrite termini_leaf by reflexivity.
      unfold here.
      cbn [path handlers set_children set_indices bump_priority set_priority].
      rewrite E1, E2, Hp, Hh. cbn [new_route app].
      rewrite !new_route_app. f_equal. rewrite Hpth, Hp'.
      rewrite <- app_assoc. reflexivity.
Qed.
End InsertRoutes.

Lemma bind_moved {A B} (f : A -> list B) (cs : list A) k k' ch ch' :
  cs !! k = Some ch -> k' <= k ->
  (take k' cs ++ [ch'] ++ drop k' (take k cs) ++ drop (S k) cs) ≫= f
  ≡ₚ f ch' ++ (delete k cs ≫= f).
Proof.
  intros Hk Hle.
  assert (Hperm : take k' cs ++ [ch'] ++ drop k' (take k cs) ++ drop (S k) cs
                  ≡ₚ ch' :: delete k cs).
  { rewrite delete_take_drop.
    rewrite <- (take_drop k' (take k cs)) at 2.
    rewrite take_take, Nat.min_l by lia.
    rewrite <- !app_assoc. cbn [app].
    rewrite <- Permutation_middle. reflexivity. }
  rewrite Hperm. reflexivity.
Qed.

Lemma bind_delete {A B} (f : A -> list B) (cs : list A) k ch :
  cs !! k = Some ch -> cs ≫= f ≡ₚ f ch ++ (delete k cs ≫= f).
Proof.
  intros Hk. rewrite (delete_Permutation cs k ch Hk) at 1. reflexivity.
Qed.

Lemma bind_inserted {A B} (f : A -> list B) (cs : list A) k ch' :
  (take k cs ++ [ch'] ++ drop k cs) ≫= f ≡ₚ f ch' ++ (cs ≫= f).
Proof.
  assert (Hperm : take k cs ++ [ch'] ++ drop k cs ≡ₚ ch' :: cs).
  { cbn [app]. rewrite <- Permutation_middle, take_drop. reflexivity. }
  rewrite Hperm. reflexivity.
Qed.

Section WalkBelowRoutes.
Variable hs : HandlersChain.
Variable fullPth : str.
Variable self : node -> str -> Z -> nat -> node * status.
Hypothesis self_rt : forall c p k f c',
  self c p k f = (c', Done) -> inv c -> walk_pre c p k -> rt_post hs c c' p.

Lemma walk_below_routes m i pth numParams pfi n' :
  walk_below self m i pth fullPth hs numParams pfi = (n', Done) ->
  inv m ->
  count_sigils (drop i pth) <= 255 ->
  numParams = Z.of_nat (count_sigils (drop i pth)) ->
  (wild_type m -> i < length pth -> pth !! i = Some slash) ->
  path m = take i pth ->
  rt_post hs m n' pth.
Proof.
  intros H Hm Hle Hnum Hnext Hpm pre.
  assert (Hpth : pth = path m ++ drop i pth)
    by (rewrite Hpm; symmetry; apply take_drop).
  pose proof (tree_all_children _ _ Hm) as Hmc.
  assert (Hnew : new_route (pre ++ path m) (drop i pth) hs = new_route pre pth hs).
  { rewrite new_route_app, <- Hpth. reflexivity. }
  destruct (walk_below_cases _ _ _ _ _ _ _ _ _ H Hm Hle Hnum Hnext)
    as [(Hlen & Hh & ->)|(Hi & [A|[B|[C|[D|E]]]])].
  - (* the node of the route *)
    assert (Hnil : drop i pth = []) by (apply drop_ge; exact Hlen).
    rewrite Hnil, app_nil_r in Hpth.
    rewrite !termini_unfold. unfold here.
    cbn [path handlers children set_handlers]. rewrite Hh, <- Hpth.
    cbn [new_route app]. rewrite Permutation_app_comm. reflexivity.
  - destruct A as (Hw & c0 & c' & f & Hc0 & _ & _ & Hrec & Hpre & ->).
    rewrite (termini_one _ (set_children [c'] m) c' eq_refl), (termini_one _ m c0 Hc0).
    unfold here. cbn [path handlers set_children].
    rewrite <- app_assoc. apply Permutation_app_head.
    rewrite (self_rt _ _ _ _ _ Hrec); [|
      eapply same_shape_inv; [apply same_shape_raise|];
      eapply same_shape_inv; [apply same_shape_bump|];
      rewrite Hc0 in Hmc; apply (Forall_inv Hmc)|exact Hpre].
    rewrite termini_raise, termini_bump, Hnew. reflexivity.
  - destruct B as (Hw & Hty & ch & ch' & f & Hch & _ & _ & _ & Hrec & Hpre & _ & ->).
    rewrite (termini_one _ (set_children [ch'] m) ch' eq_refl), (termini_one _ m ch Hch).
    unfold here. cbn [path handlers set_children].
    rewrite <- app_assoc. apply Permutation_app_head.
    rewrite (self_rt _ _ _ _ _ Hrec); [|
      eapply same_shape_inv; [apply same_shape_bump|];
      rewrite Hch in Hmc; apply (Forall_inv Hmc)|exact Hpre].
    rewrite termini_bump, Hnew. reflexivity.
  - destruct C as (Hw & Hty & Hind & c & k & k' & ch & ch' & f & Hc & Hio & Hk
                   & Hk' & _ & _ & Hrec & Hpre & _ & (Sp & Sh & _) & _ & Hcs).
    rewrite !termini_unfold. unfold here. rewrite Sp, Sh, Hcs.
    rewrite <- app_assoc. apply Permutation_app_head.
    rewrite (bind_moved _ _ _ _ _ _ Hk Hk').
    rewrite (bind_delete _ _ _ _ Hk).
    rewrite (self_rt _ _ _ _ _ Hrec); [|
      eapply same_shape_inv; [apply same_shape_bump|];
      rewrite list.Forall_forall in Hmc; apply Hmc;
      eapply list_elem_of_lookup_2; exact Hk|exact Hpre].
    rewrite termini_bump, Hnew.
    rewrite <- !app_assoc. apply Permutation_app_head.
    apply Permutation_app_comm.
  - destruct D as (Hw & Hind & _ & c & newPos & ch' & Hc & Hio & Hsig & Hnp
                   & Hins & (Sp & Sh & _) & _ & Hcs).
    rewrite !termini_unfold. unfold here. rewrite Sp, Sh, Hcs.
    rewrite <- app_assoc. apply Permutation_app_head.
    rewrite bind_inserted.
    rewrite (insertChild_loop_routes hs fullPth _ _ _ _ _ Hins);
      [|exact Hnum|exact Hle|reflexivity
       |left; split; reflexivity].
    unfold here. cbn [path handlers bump_priority set_priority new_route app].
    rewrite Hnew. apply Permutation_app_comm.
  - destruct E as (Hw & Hcs & _ & _ & c & Hc & Hsig & Hins).
    rewrite (insertChild_loop_routes hs fullPth _ _ _ _ _ Hins);
      [|exact Hnum|exact Hle|exact Hcs
       |right; exists c; split; assumption].
    rewrite (termini_leaf _ m Hcs). rewrite <- Hpth. reflexivity.
Qed.

End WalkBelowRoutes.

Lemma termini_split n k i pth fullPth pfi m pre :
  split (raise_maxParams k n) i pth fullPth pfi = (m, true) ->
  take i pth = take i (path n) ->
  termini pre m = termini pre n.
Proof.
  intros Hs Htake.
  apply split_fields in Hs
    as (Sw & St & Sp & Sh & Sm & Si & ch & Sc & Cty & Cp & Cc & Ci & Ch & Cw).
  destruct (same_shape_raise k n) as (E1 & E2 & E3 & E4 & E5).
  assert (Hh : handlers (raise_maxParams k n) = handlers n)
    by (unfold raise_maxParams; case_decide; reflexivity).
  rewrite (termini_one _ m ch Sc). unfold here. rewrite Sh. cbn [new_route app].
  rewrite (termini_unfold _ ch), (termini_unfold pre n). unfold here.
  rewrite Cp, Cc, Ch, Hh, E1, E3, Sp, Htake.
  rewrite new_route_app, <- !app_assoc, !take_drop. reflexivity.
Qed.

Lemma walk_routes hs fullPth : forall fuel n pth numParams pfi n',
  walk fuel n pth fullPth hs numParams pfi = (n', Done) ->
  inv n -> walk_pre n pth numParams ->
  rt_post hs n n' pth.
Proof.
  induction fuel as [|fuel IH];
    intros n pth numParams pfi n' H Hn Hpre; [discriminate|].
  destruct (walk_cases _ _ _ _ _ _ _ _ H Hn Hpre)
    as (i & m & Hi & Htake & Hsplit & Hinvm & Htym & Hpm & Hcnt & Hle & Hnum
        & Hnext & Hbelow).
  assert (Hm : forall pre, termini pre m = termini pre n).
  { intros pre. destruct Hsplit as [(Hlt & Hnw & Hz & _ & Hs)|(_ & _ & ->)].
    - eapply termini_split; eassumption.
    - apply termini_raise. }
  assert (Hself : forall c p k f c',
            (fun c p k f => walk fuel c p fullPth hs k f) c p k f = (c', Done) ->
            inv c -> walk_pre c p k -> rt_post hs c c' p)
    by (intros c p k f c' Hc Hic Hpc; eapply IH; eassumption).
  apply (walk_below_routes hs fullPth _ Hself) in Hbelow;
    [|exact Hinvm|exact Hle|exact Hnum|exact Hnext|exact Hpm].
  intros pre. rewrite (Hbelow pre), Hm. reflexivity.
Qed.

Lemma addRoute_routes n p hs n' :
  addRoute n p hs = (n', Done) -> count_sigils p <= 255 ->
  root_inv n -> root_live n ->
  rt_post hs n n' p.
Proof.
  unfold addRoute. intros H Hle (Hn & Hnw & Hcount) Hlive pre.
  assert (Hb : inv (bump_priority n))
    by (eapply same_shape_inv; [apply same_shape_bump|exact Hn]).
  cbn [path children bump_priority set_priority] in H.
  destruct (decide (length (path n) = 0 /\ length (children n) = 0))
    as [[Hp Hc]|Hne].
  - apply length_zero_iff_nil in Hp, Hc.
    assert (Hh : handlers n = None).
    { destruct Hlive as [Hh|[Hh|Hh]]; [exact Hh|contradiction|contradiction]. }
    unfold insertChild in H.
    destruct (insertChild_loop _ _ _ p p hs) as [n2 st] eqn:Hins.
    destruct st; try discriminate. injection H as <-.
    apply insertChild_loop_routes with (pre := pre) in Hins;
      [|apply countParams_exact; exact Hle|exact Hle|exact Hc
       |left; split; assumption].
    rewrite (termini_same pre n2 (set_nType root n2)) by reflexivity.
    rewrite Hins. rewrite (termini_leaf _ n Hc).
    unfold here. cbn [path handlers bump_priority set_priority].
    rewrite Hp, Hh. reflexivity.
  - apply walk_routes in H; [|exact Hb|].
    + rewrite (H pre), termini_bump. reflexivity.
    + unfold walk_pre. cbn [path nType bump_priority set_priority].
      split; [intros Hw; contradiction|]. split; [intros _; exact Hcount|].
      split; [exact Hle|]. rewrite Hcount, countParams_exact by exact Hle. lia.
Qed.

(** The nodes that hold handlers are the registered routes. *)
Lemma built_with_termini rs t : built_with rs t -> termini [] t ≡ₚ rs.
Proof.
  induction 1 as [|rs n p h n' Hb IH Hne Hle Hadd]; [reflexivity|].
  pose proof (built_with_built _ _ Hb) as Hbn.
  rewrite (addRoute_routes _ _ _ _ Hadd Hle (built_root_inv _ Hbn)
             (built_with_live _ _ Hb) []).
  rewrite IH. cbn [new_route app]. rewrite Permutation_app_comm. reflexivity.
Qed.

Section Listing.
Variable nameOfFunction : option HandlerFunc -> str.

Lemma iterate_termini n : forall pre m acc,
  iterate nameOfFunction pre m acc n = acc ++ listed nameOfFunction m (termini pre n).
Proof.
  induction n as [n IH] using node_ind'. intros pre m acc.
  rewrite termini_unfold.
  destruct n as [p i cs hd pr ty mp w fp].
  cbn [iterate path handlers children] in *.
  unfold listed. rewrite list.filter_app, fmap_app, app_assoc.
  match goal with
  | |- foldl _ ?a _ = ?b ++ _ => assert (Ha : a = b)
  end.
  { unfold here. cbn [path handlers]. destruct hd as [h|]; cbn [chain_len new_route].
    - destruct (decide (0 < length h)) as [Hl|Hl].
      + rewrite filter_cons_True by (cbn; destruct h; [cbn in Hl; lia|discriminate]).
        reflexivity.
      + rewrite filter_cons_False
          by (cbn; destruct h; [tauto|cbn in Hl; lia]).
        cbn. rewrite app_nil_r. reflexivity.
    - cbn. rewrite app_nil_r. reflexivity. }
  rewrite Ha. clear Ha.
  match goal with
  | |- foldl _ ?a _ = _ => generalize a
  end.
  induction cs as [|c cs IHcs]; intros a.
  - cbn. rewrite app_nil_r. reflexivity.
  - cbn [foldl mbind list_bind]. 
    rewrite (Forall_inv IH). rewrite IHcs by exact (Forall_inv_tail IH).
    cbn. rewrite list.filter_app, fmap_app, app_assoc. reflexivity.
Qed.

Lemma listed_perm m l l' : l ≡ₚ l' -> listed nameOfFunction m l ≡ₚ listed nameOfFunction m l'.
Proof. intros H. unfold listed. rewrite H. reflexivity. Qed.

Lemma listed_all m l :
  Forall (fun r => r.2 <> []) l -> listed nameOfFunction m l = route_of nameOfFunction m <$> l.
Proof.
  intros H. unfold listed. f_equal.
  induction H as [|x l Hx H IH]; [reflexivity|].
  rewrite filter_cons_True by exact Hx. f_equal. exact IH.
Qed.

(** X6: on a tree built by successful registrations of non-empty patterns
    with at most 255 captures each, all with non-empty chains, [iterate]
    called with the empty path appends to the routes it is given one
    entry per registered route, in some order: the entry has the method
    passed, the registered pattern as its path and the last handler of
    the registered chain (with its name). *)
Theorem iterate_lists_routes rs t m acc :
  built_with rs t -> Forall (fun r => r.2 <> []) rs ->
  exists l, iterate nameOfFunction [] m acc t = acc ++ l
            /\ l ≡ₚ route_of nameOfFunction m <$> rs.
Proof.
  intros Hb Hne. rewrite iterate_termini.
  exists (listed nameOfFunction m (termini [] t)). split; [reflexivity|].
  rewrite (listed_perm _ _ _ (built_with_termini _ _ Hb)).
  rewrite listed_all by exact Hne. reflexivity.
Qed.

End Listing.

(** ** The routes of the registry *)

Lemma get_Some (ts : list methodTree) m k r :
  get ts m = Some (k, r) ->
  ts !! k = Some (mkMethodTree m r)
  /\ forall j t, j < k -> ts !! j = Some t -> method t <> m.
Proof.
  revert k. induction ts as [|t ts IH]; intros k H; [discriminate|].
  cbn [get] in H. destruct (decide (method t = m)) as [Hm|Hm].
  - injection H as <- <-. split; [destruct t; cbn in *; subst; reflexivity|].
    intros j t' Hj. lia.
  - destruct (get ts m) as [[k0 r0]|] eqn:Hg; [|discriminate].
    injection H as <- <-. destruct (IH _ eq_refl) as [H1 H2].
    split; [exact H1|]. intros [|j] t' Hj Ht'.
    + injection Ht' as <-. exact Hm.
    + apply (H2 j); [lia|exact Ht'].
Qed.

Lemma get_None (ts : list methodTree) m :
  get ts m = None -> Forall (fun t => method t <> m) ts.
Proof.
  induction ts as [|t ts IH]; intros H; [constructor|].
  cbn [get] in H. destruct (decide (method t = m)) as [Hm|Hm]; [discriminate|].
  constructor; [exact Hm|]. apply IH.
  destruct (get ts m) as [[k0 r0]|]; [discriminate|reflexivity].
Qed.

Lemma get_insert_same (ts : list methodTree) m k r r' :
  get ts m = Some (k, r) ->
  get (<[k := mkMethodTree m r']> ts) m = Some (k, r').
Proof.
  revert k. induction ts as [|t ts IH]; intros k H; [discriminate|].
  cbn [get] in H. destruct (decide (method t = m)) as [Hm|Hm].
  - injection H as <- <-. cbn. rewrite decide_True by reflexivity. reflexivity.
  - destruct (get ts m) as [[k0 r0]|] eqn:Hg; [|discriminate].
    injection H as <- <-.
    change (get (t :: <[k0 := mkMethodTree m r']> ts) m = Some (S k0, r')).
    cbn [get]. rewrite decide_False by exact Hm.
    rewrite (IH _ eq_refl). reflexivity.
Qed.

Lemma get_insert_other (ts : list methodTree) m m' k t r' :
  ts !! k = Some t -> method t = m -> m' <> m ->
  get (<[k := mkMethodTree m r']> ts) m' = get ts m'.
Proof.
  revert k. induction ts as [|t0 ts IH]; intros k Hk Hm Hne; [discriminate|].
  destruct k as [|k].
  - injection Hk as ->. cbn. rewrite !decide_False by congruence. reflexivity.
  - change (get (t0 :: <[k := mkMethodTree m r']> ts) m' = get (t0 :: ts) m').
    cbn [get]. rewrite (IH k Hk Hm Hne). reflexivity.
Qed.

Lemma get_app_other (ts : list methodTree) t0 m :
  method t0 <> m -> get (ts ++ [t0]) m = get ts m.
Proof.
  intros Hne. induction ts as [|t ts IH].
  - cbn. rewrite decide_False by exact Hne. reflexivity.
  - cbn. rewrite IH. reflexivity.
Qed.

Lemma get_app_new (ts : list methodTree) t0 :
  get ts (method t0) = None ->
  get (ts ++ [t0]) (method t0) = Some (length ts, tree_root t0).
Proof.
  induction ts as [|t ts IH]; intros H.
  - cbn. rewrite decide_True by reflexivity. reflexivity.
  - cbn [get] in H. destruct (decide (method t = method t0)); [discriminate|].
    cbn. rewrite decide_False by assumption. rewrite IH; [reflexivity|].
    destruct (get ts (method t0)) as [[? ?]|]; [discriminate|reflexivity].
Qed.

(** What a successful registration does to the registry. *)
Lemma Centre_addRoute_Done c m p h c' :
  Centre_addRoute c m p (Some h) = (c', Done) ->
  p <> [] /\ head p = Some slash /\ m <> [] /\ h <> []
  /\ exists (ts : list methodTree) k r r',
       (get (trees c) m = Some (k, r) /\ ts = trees c
        \/ get (trees c) m = None /\ k = length (trees c) /\ r = newTree
           /\ ts = trees c ++ [mkMethodTree m newTree])
       /\ get ts m = Some (k, r)
       /\ addRoute r p (Some h) = (r', Done)
       /\ trees c' = <[k := mkMethodTree m r']> ts.
Proof.
  unfold Centre_addRoute. intros H.
  destruct p as [|x p]; [discriminate|].
  destruct (decide (x <> slash)) as [|Hx]; [discriminate|].
  destruct (decide (m = [])) as [|Hm]; [discriminate|].
  destruct (decide (~ 0 < chain_len (Some h))) as [|Hh]; [discriminate|].
  assert (x = slash) as -> by (destruct (decide (x = slash)); tauto).
  split; [discriminate|]. split; [reflexivity|]. split; [exact Hm|].
  split; [intros ->; apply Hh; cbn; lia|].
  destruct (get (trees c) m) as [[k r]|] eqn:Hg.
  - destruct (addRoute r (slash :: p) (Some h)) as [r' st] eqn:Ha.
    injection H as <- ->.
    exists (trees c), k, r, r'. split; [left; split; reflexivity|].
    split; [exact Hg|]. split; [exact Ha|reflexivity].
  - destruct (addRoute newTree (slash :: p) (Some h)) as [r' st] eqn:Ha.
    injection H as <- ->.
    exists (trees c ++ [mkMethodTree m newTree]), (length (trees c)), newTree, r'.
    split; [right; repeat split|].
    split; [apply (get_app_new (trees c) (mkMethodTree m newTree)); exact Hg|].
    split; [exact Ha|reflexivity].
Qed.

(** Every route of the registry is held by the tree of its method. *)
Lemma serving_tree rs c :
  serving rs c ->
  Forall (fun t => exists l, built_with l (tree_root t)) (trees c)
  /\ forall m p h, (m, (p, h)) ∈ rs ->
       exists k r l, get (trees c) m = Some (k, r) /\ built_with l r
                     /\ (p, h) ∈ l.
Proof.
  induction 1 as [|rs c m p h c' Hs [IH1 IH2] Hle Hadd].
  - split; [constructor|]. intros m p h Hin. inversion Hin.
  - apply Centre_addRoute_Done in Hadd
      as (Hp & _ & Hm & Hh & ts & k & r & r' & Hcase & Hg & Ha & Ht).
    assert (Hts : Forall (fun t => exists l, built_with l (tree_root t)) ts).
    { destruct Hcase as [[_ ->]|(_ & _ & _ & ->)]; [exact IH1|].
      apply Forall_app. split; [exact IH1|].
      constructor; [|constructor]. exists []. apply built_with_new. }
    destruct (get_Some _ _ _ _ Hg) as [Hk _].
    assert (Hr : exists l, built_with l r).
    { rewrite list.Forall_forall in Hts.
      apply (Hts (mkMethodTree m r)). eapply list_elem_of_lookup_2. exact Hk. }
    split.
    + rewrite Ht. apply Forall_insert; [exact Hts|].
      destruct Hr as [l Hl]. exists ((p, h) :: l). cbn.
      apply (built_with_add l r p h r' Hl Hp Hle Ha).
    + intros m0 p0 h0 Hin.
      assert (Hold : get (trees c) m0 = get ts m0 \/ m0 = m).
      { destruct Hcase as [[_ ->]|(_ & _ & _ & ->)]; [left; reflexivity|].
        destruct (decide (m0 = m)) as [|Hne]; [right; assumption|left].
        symmetry. apply get_app_other. cbn. congruence. }
      rewrite Ht.
      destruct (decide (m0 = m)) as [->|Hne].
      * rewrite (get_insert_same _ _ _ _ r' Hg).
        apply elem_of_cons in Hin as [Hin|Hin].
        -- injection Hin as -> ->. destruct Hr as [l Hl].
           exists k, r', ((p, h) :: l). split; [reflexivity|].
           split; [apply (built_with_add l r p h r' Hl Hp Hle Ha)|left].
        -- destruct (IH2 _ _ _ Hin) as (k0 & r0 & l & G & B & I).
           assert (Hsame : get ts m = Some (k0, r0)).
           { destruct Hcase as [[_ ->]|(Hn & _)]; [exact G|congruence]. }
           rewrite Hg in Hsame. injection Hsame as <- <-.
           exists k, r', ((p, h) :: l). split; [reflexivity|].
           split; [apply (built_with_add l r p h r' B Hp Hle Ha)|right; exact I].
      * rewrite (get_insert_other _ m m0 k _ r' Hk eq_refl Hne).
        apply elem_of_cons in Hin as [Hin|Hin]; [congruence|].
        destruct (IH2 _ _ _ Hin) as (k0 & r0 & l & G & B & I).
        exists k0, r0, l. split; [|split; assumption].
        destruct Hold as [<-|]; [exact G|contradiction].
Qed.

Section Listing.
Variable nameOfFunction : option HandlerFunc -> str.

Lemma Routes_unfold c :
  Routes nameOfFunction c
  = trees c ≫= (fun t => listed nameOfFunction (method t)
                            (termini [] (tree_root t))).
Proof.
  unfold Routes.
  rewrite <- (app_nil_l (trees c ≫= _)).
  generalize (@nil Route).
  induction (trees c) as [|t ts IH]; intros acc.
  - cbn. rewrite app_nil_r. reflexivity.
  - cbn [foldl]. rewrite IH, iterate_termini. cbn. rewrite app_assoc.
    reflexivity.
Qed.

(** X7: for a registry built from [New()] by successful calls of
    [Centre.addRoute] with patterns of at most 255 captures, [Routes]
    lists the registered routes, each once, in some order: one entry per
    registration, with its method, its pattern as the path, and the last
    handler of its chain (with its name). *)
Theorem Routes_lists_registered rs c :
  serving rs c ->
  Routes nameOfFunction c
  ≡ₚ (fun r => route_of nameOfFunction r.1 r.2) <$> rs.
Proof.
  induction 1 as [|rs c m p h c' Hs IH Hle Hadd]; [reflexivity|].
  destruct (serving_tree _ _ Hs) as [Hall _].
  apply Centre_addRoute_Done in Hadd
    as (Hp & _ & Hm & Hh & ts & k & r & r' & Hcase & Hg & Ha & Ht).
  rewrite Routes_unfold, Ht. rewrite Routes_unfold in IH.
  remember (fun t => listed nameOfFunction (method t) (termini [] (tree_root t)))
    as f eqn:Hf.
  assert (Hts : ts ≫= f = trees c ≫= f
                /\ Forall (fun t => exists l, built_with l (tree_root t)) ts).
  { destruct Hcase as [[_ ->]|(_ & _ & _ & ->)]; [split; [reflexivity|exact Hall]|].
    split.
    - rewrite bind_app. cbn. rewrite Hf. cbn. rewrite !app_nil_r. reflexivity.
    - apply Forall_app. split; [exact Hall|].
      constructor; [|constructor]. exists []. apply built_with_new. }
  destruct Hts as [Hbind Hts].
  destruct (get_Some _ _ _ _ Hg) as [Hk _].
  assert (Hr : exists l, built_with l r).
  { rewrite list.Forall_forall in Hts.
    apply (Hts (mkMethodTree m r)). eapply list_elem_of_lookup_2. exact Hk. }
  destruct Hr as [l Hl].
  pose proof (built_with_built _ _ Hl) as Hbr.
  pose proof (addRoute_routes _ _ _ _ Ha Hle (built_root_inv _ Hbr)
                (built_with_live _ _ Hl) []) as Hrt.
  cbn [fmap list_fmap]. rewrite <- IH, <- Hbind.
  assert (Hins : <[k := mkMethodTree m r']> ts
                 ≡ₚ mkMethodTree m r' :: delete k ts).
  { rewrite insert_take_drop by (apply lookup_lt_Some in Hk; exact Hk).
    rewrite delete_take_drop, <- Permutation_middle. reflexivity. }
  rewrite Hins. rewrite (bind_delete f ts k _ Hk).
  cbn [mbind list_bind].
  assert (Hft : forall x y, f (mkMethodTree x y) = listed nameOfFunction x (termini [] y))
    by (intros; subst f; reflexivity).
  rewrite !Hft.
  rewrite (listed_perm _ _ _ _ Hrt). unfold listed.
  rewrite list.filter_app, fmap_app. cbn [new_route app].
  rewrite filter_cons_True by exact Hh. cbn.
  rewrite <- Permutation_middle, app_nil_r. reflexivity.
Qed.

End Listing.
(** * What a lookup returns *)

Lemma termini_here pre n h :
  handlers n = Some h -> (pre ++ path n, h) ∈ termini pre n.
Proof.
  intros Hh. rewrite termini_unfold. apply elem_of_app. left.
  unfold here. rewrite Hh. left.
Qed.

Lemma termini_child pre n c x :
  c ∈ children n -> x ∈ termini (pre ++ path n) c -> x ∈ termini pre n.
Proof.
  intros Hc Hx. rewrite termini_unfold. apply elem_of_app. right.
  apply list_elem_of_bind. exists c. split; assumption.
Qed.

(** What a lookup finds is the chain of a node of the tree. *)
Lemma find_termini n : forall pre q h ps,
  find n q = Some (h, ps) \/ find_wild find n q = Some (h, ps) ->
  exists p, (p, h) ∈ termini pre n.
Proof.
  induction n as [n IH] using node_ind'. intros pre q h ps H.
  rewrite list.Forall_forall in IH.
  assert (Hchild : forall c q' ps', c ∈ children n ->
            find c q' = Some (h, ps') \/ find_wild find c q' = Some (h, ps') ->
            exists p, (p, h) ∈ termini pre n).
  { intros c q' ps' Hin Hc.
    destruct (IH c Hin (pre ++ path n) q' h ps' Hc) as [p Hp'].
    exists p. eapply termini_child; eassumption. }
  assert (Hpick : forall i q' ps',
            match pick find (children n) i with
            | Some continue => continue q'
            | None => None
            end = Some (h, ps') ->
            exists p, (p, h) ∈ termini pre n).
  { intros i q' ps' Hp. rewrite pick_lookup in Hp.
    destruct (children n !! i) as [ch|] eqn:Hch; [|discriminate].
    cbn in Hp.
    assert (Hin : ch ∈ children n) by (eapply list_elem_of_lookup_2; exact Hch).
    apply (Hchild ch q' ps' Hin (or_introl Hp)). }
  destruct H as [H|H].
  - rewrite find_unfold in H. unfold find_step in H.
    destruct (decide (q = path n)).
    { destruct (handlers n) as [h0|] eqn:Hh; [|discriminate].
      injection H as <- <-. eexists. apply termini_here. exact Hh. }
    destruct (decide (_ /\ _)); [|discriminate].
    destruct (wildChild n); cbn [negb] in H.
    + destruct (children n) as [|c cs] eqn:Hcs; [discriminate|].
      apply (Hchild c _ ps (list_elem_of_here _ _) (or_intror H)).
    + destruct (drop (length (path n)) q) as [|x rest]; [discriminate|].
      destruct (index_of x (indices n)) as [i|]; [|discriminate].
      eapply Hpick. exact H.
  - unfold find_wild in H. destruct (nType n); try discriminate.
    + destruct (slice_from 1 (path n)) as [key|]; [|discriminate].
      destruct (decide (param_end q 0 < length q)).
      * match type of H with
        | match ?s with _ => _ end = _ => destruct s as [[h1 ps1]|] eqn:Hs
        end; [|discriminate].
        injection H as <- _. eapply Hpick. exact Hs.
      * destruct (handlers n) as [h0|] eqn:Hh; [|discriminate].
        injection H as <- <-. eexists. apply termini_here. exact Hh.
    + destruct (slice_from 2 (path n)); [|discriminate].
      destruct (handlers n) as [h0|] eqn:Hh; [|discriminate].
      injection H as <- <-. eexists. apply termini_here. exact Hh.
Qed.

Section Sound.
Variable qu : str -> option str.

(** X5: in a tree built by successful registrations of non-empty patterns
    with at most 255 captures each, a lookup returns no chain of its
    own making: whatever the path and the buffer, a chain that it
    returns is the chain registered for some pattern. *)
Theorem lookup_returns_registered rs t q po ue v h :
  built_with rs t ->
  getValue qu t q po ue = Ret v -> v_handlers v = Some h ->
  exists p, (p, h) ∈ rs.
Proof.
  intros Hb Hg Hh.
  destruct (getValue_find qu _ _ _ _ _ _ Hg Hh) as [ps Hf].
  destruct (find_termini t [] q h ps (or_introl Hf)) as [p Hp].
  exists p. rewrite <- (built_with_termini _ _ Hb). exact Hp.
Qed.

End Sound.

(** ** Parameters by name *)

Lemma Get_from_zip (g : ascii * str -> str -> str) (caps : list (ascii * str)) :
  forall vals i sg name val,
    caps !! i = Some (sg, name) -> vals !! i = Some val ->
    (forall j sg', j < i -> caps !! j <> Some (sg', name)) ->
    Get_from (zip_with (fun cap v => mkParam cap.2 (g cap v)) caps vals) name
    = (g (sg, name) val, true).
Proof.
  induction caps as [|[sg0 nm0] caps IH]; intros vals i sg name val Hc Hv Hfirst;
    [discriminate|].
  destruct vals as [|v vals]; [discriminate|].
  destruct i as [|i].
  - injection Hc as -> ->. injection Hv as ->. cbn.
    rewrite decide_True by reflexivity. reflexivity.
  - cbn in Hc, Hv. cbn [zip_with Get_from Key].
    destruct (decide ((sg0, nm0).2 = name)) as [Heq|Hne].
    + exfalso. cbn in Heq. subst nm0. apply (Hfirst 0 sg0); [lia|reflexivity].
    + apply (IH vals i sg name val Hc Hv).
      intros j sg' Hj. apply (Hfirst (S j) sg'). lia.
Qed.

Lemma Get_from_missing ps name :
  Forall (fun e => Key e <> name) ps -> Get_from ps name = ([], false).
Proof.
  induction 1 as [|e ps He _ IH]; [reflexivity|].
  cbn. rewrite decide_False by exact He. exact IH.
Qed.

Section ByName.
Variable qu : str -> option str.

(** X8: in a tree built by successful registrations of non-empty patterns
    with at most 255 captures each, for a registered pattern in which no
    '/' follows a '*', looked up (with an empty buffer) with values
    written for its captures (those of ':' captures non-empty and free
    of '/'): [Get] with the name of a capture, at the first capture of
    that name, returns the value written for it (decoded when [unescape]
    is set, a catch-all value with the '/' in front of it) and [true],
    and [ByName] returns that value. *)
Theorem capture_by_name rs t p h vals c ue i sg name val :
  built_with rs t -> (p, h) ∈ rs -> star_last p -> values_ok p vals ->
  captures p !! i = Some (sg, name) -> vals !! i = Some val ->
  (forall j sg', j < i -> captures p !! j <> Some (sg', name)) ->
  exists v,
    getValue qu t (substitute p vals) (mkParams [] c) ue = Ret v
    /\ Get (v_params v) name
       = (stored qu ue (if decide (sg = star) then slash :: val else val), true)
    /\ ByName (v_params v) name
       = stored qu ue (if decide (sg = star) then slash :: val else val).
Proof.
  intros Hb Hin Hs Hv Hc Hval Hfirst.
  pose proof (built_with_find _ _ _ _ _ Hb Hin Hs Hv) as Hf.
  destruct (find_getValue qu _ _ c ue _ _ (built_with_built _ _ Hb) Hf)
    as (v & H1 & H2 & H3).
  exists v. split; [exact H1|].
  rewrite <- expected_raw in H3.
  assert (HG : Get (v_params v) name
               = (stored qu ue (if decide (sg = star) then slash :: val else val),
                  true)).
  { unfold Get. rewrite H3. unfold expected_params.
    apply (Get_from_zip
             (fun cap v => stored qu ue
                (if decide (cap.1 = star) then slash :: v else v))
             _ _ i sg name val Hc Hval Hfirst). }
  split; [exact HG|]. unfold ByName. rewrite HG. reflexivity.
Qed.

(** X9: under the same conditions, for a name that is the name of no
    capture of the pattern, [Get] returns the empty string and [false],
    and [ByName] the empty string. *)
Theorem unknown_name_empty rs t p h vals c ue name :
  built_with rs t -> (p, h) ∈ rs -> star_last p -> values_ok p vals ->
  name ∉ (snd <$> captures p) ->
  exists v,
    getValue qu t (substitute p vals) (mkParams [] c) ue = Ret v
    /\ Get (v_params v) name = ([], false)
    /\ ByName (v_params v) name = [].
Proof.
  intros Hb Hin Hs Hv Hno.
  pose proof (built_with_find _ _ _ _ _ Hb Hin Hs Hv) as Hf.
  destruct (find_getValue qu _ _ c ue _ _ (built_with_built _ _ Hb) Hf)
    as (v & H1 & H2 & H3).
  exists v. split; [exact H1|].
  rewrite <- expected_raw in H3.
  assert (HG : Get (v_params v) name = ([], false)).
  { unfold Get. rewrite H3. apply Get_from_missing.
    unfold expected_params. clear -Hno.
    revert vals. induction (captures p) as [|cap caps IH]; intros vals.
    - constructor.
    - destruct vals as [|v vals]; [constructor|]. cbn.
      constructor.
      + cbn. intros E. apply Hno. cbn. rewrite <- E. left.
      + apply IH. intros E. apply Hno. cbn. right. exact E. }
  split; [exact HG|]. unfold ByName. rewrite HG. reflexivity.
Qed.

End ByName.

(** * Serving a request *)

Section Dispatch.
Variable qu : str -> option str.
Variable cleanPath : str -> str.
Variable cfg : Settings.

Lemma serve_method_get_None (ts : list methodTree) m q ps ue :
  get ts m = None -> serve_method qu cfg ts m q ps ue = Ret None.
Proof.
  induction ts as [|t ts IH]; intros H; [reflexivity|].
  cbn [get] in H. cbn [serve_method].
  destruct (decide (method t = m)) as [|Hne]; [discriminate|].
  rewrite decide_True by exact Hne. apply IH.
  destruct (get ts m) as [[? ?]|]; [discriminate|reflexivity].
Qed.

Lemma serve_method_get_Some (ts : list methodTree) m q ps ue k r :
  get ts m = Some (k, r) ->
  serve_method qu cfg ts m q ps ue
  = serve_method qu cfg [mkMethodTree m r] m q ps ue.
Proof.
  revert k. induction ts as [|t ts IH]; intros k H; [discriminate|].
  cbn [get] in H. cbn [serve_method].
  destruct (decide (method t = m)) as [He|Hne].
  - injection H as <- <-. cbn [method tree_root].
    rewrite !decide_False by (intros E; apply E; assumption || reflexivity).
    destruct (getValue _ _ _ _ _); [|reflexivity].
    repeat (match goal with
            | |- context [if ?b then _ else _] => destruct b
            end; try reflexivity).
  - rewrite decide_True by exact Hne.
    destruct (get ts m) as [[k0 r0]|] eqn:Hg; [|discriminate].
    injection H as <- <-. apply (IH _ eq_refl).
Qed.

Lemma serve_method_safe (ts : list methodTree) m q c ue :
  Forall (fun t => exists l, built_with l (tree_root t)) ts ->
  exists s, serve_method qu cfg ts m q (mkParams [] c) ue = Ret s.
Proof.
  induction 1 as [|t ts [l Hl] _ IH]; [eexists; reflexivity|].
  cbn [serve_method]. case_decide; [exact IH|].
  destruct (getValue_safe qu (tree_root t) q c ue (built_with_built _ _ Hl))
    as [v ->].
  repeat (match goal with
          | |- context [if ?b then _ else _] => destruct b
          end; try (eexists; reflexivity)).
Qed.

Lemma other_method_safe (ts : list methodTree) m q ue :
  Forall (fun t => exists l, built_with l (tree_root t)) ts ->
  exists b, other_method qu ts m q ue = Ret b.
Proof.
  induction 1 as [|t ts [l Hl] _ IH]; [eexists; reflexivity|].
  cbn [other_method]. case_decide; [exact IH|].
  destruct (getValue_safe qu (tree_root t) q 0 ue (built_with_built _ _ Hl))
    as [v ->].
  destruct (not_nil _); [eexists; reflexivity|exact IH].
Qed.

Lemma other_method_hit (ts : list methodTree) m q ue t v h :
  Forall (fun t => exists l, built_with l (tree_root t)) ts ->
  t ∈ ts -> method t <> m ->
  getValue qu (tree_root t) q (mkParams [] 0) ue = Ret v ->
  v_handlers v = Some h ->
  other_method qu ts m q ue = Ret true.
Proof.
  intros Hall Hin Hne Hg Hh.
  induction Hall as [|t0 ts [l Hl] _ IH]; [inversion Hin|].
  cbn [other_method].
  apply elem_of_cons in Hin as [<-|Hin].
  - rewrite decide_False by exact Hne. rewrite Hg, Hh. reflexivity.
  - case_decide; [apply IH; exact Hin|].
    destruct (getValue_safe qu (tree_root t0) q 0 ue (built_with_built _ _ Hl))
      as [v0 ->].
    destruct (not_nil _); [reflexivity|apply IH; exact Hin].
Qed.

(** X10: for a registry built from [New()] by successful calls of
    [Centre.addRoute] with patterns of at most 255 captures, with
    [UseRawPath] and [RemoveExtraSlash] off: a request whose method and
    path are those of a registered route, the path being the pattern (in
    which no '/' follows a '*') with values written for its captures
    (those of ':' captures non-empty and free of '/'), is handled with
    the chain registered for the route and with the captured parameters,
    whatever the parameters of the pooled context were. *)
Theorem served_route rs c m p h vals pooled req :
  serving rs c -> (m, (p, h)) ∈ rs -> star_last p -> values_ok p vals ->
  UseRawPath cfg = false -> RemoveExtraSlash cfg = false ->
  Request_Method req = m -> URL_Path req = substitute p vals ->
  exists ps fp,
    ServeHTTP qu cleanPath cfg c pooled req = Ret (Handled (Some h) ps fp)
    /\ elems ps = expected_params qu false p vals.
Proof.
  intros Hs Hin Hstar Hvals Hraw Hrm Hm Hq.
  destruct (serving_tree _ _ Hs) as [_ Htree].
  destruct (Htree _ _ _ Hin) as (k & r & l & Hg & Hb & Hl).
  pose proof (built_with_find _ _ _ _ _ Hb Hl Hstar Hvals) as Hf.
  destruct (find_getValue qu _ _ (cap pooled) false _ _
              (built_with_built _ _ Hb) Hf) as (v & H1 & H2 & H3).
  unfold ServeHTTP, handleHTTPRequest. rewrite Hraw, Hrm, Hm, Hq.
  cbn [andb]. rewrite (serve_method_get_Some _ _ _ _ _ _ _ Hg).
  cbn [serve_method method tree_root].
  rewrite decide_False by (intros E; apply E; reflexivity).
  rewrite H1, H2. cbn [not_nil].
  eexists _, _. split; [reflexivity|].
  rewrite expected_raw. exact H3.
Qed.

(** X11: for such a registry, with [UseRawPath] and [RemoveExtraSlash]
    off: a request whose method has a tree and is not "CONNECT", and
    whose path is not "/", is never answered with the 404 or the 405
    error: it is handled by a route, redirected, or left without any
    answer of the router. *)
Theorem known_method_no_error rs c pooled req :
  serving rs c ->
  get (trees c) (Request_Method req) <> None ->
  Request_Method req <> B "CONNECT" ->
  UseRawPath cfg = false -> RemoveExtraSlash cfg = false ->
  URL_Path req <> [slash] ->
  exists s, ServeHTTP qu cleanPath cfg c pooled req = Ret s
            /\ forall code hs, s <> Failed code hs.
Proof.
  intros Hs Hget Hcon Hraw Hrm Hq.
  destruct (serving_tree _ _ Hs) as [Hall _].
  destruct (get (trees c) (Request_Method req)) as [[k r]|] eqn:Hg;
    [clear Hget|contradiction].
  unfold ServeHTTP, handleHTTPRequest. rewrite Hraw, Hrm. cbn [andb].
  rewrite (serve_method_get_Some _ _ _ _ _ _ _ Hg).
  cbn [serve_method method tree_root].
  rewrite decide_False by (intros E; apply E; reflexivity).
  assert (Hb : exists l, built_with l r).
  { rewrite list.Forall_forall in Hall.
    apply (Hall (mkMethodTree (Request_Method req) r)).
    eapply list_elem_of_lookup_2. apply (get_Some _ _ _ _ Hg). }
  destruct Hb as [l Hl].
  destruct (getValue_safe qu r (URL_Path req) (cap pooled) false
              (built_with_built _ _ Hl)) as [v ->].
  destruct (not_nil (v_handlers v)).
  { eexists. split; [reflexivity|]. discriminate. }
  rewrite decide_True by (split; assumption).
  destruct (v_tsr v && RedirectTrailingSlash cfg);
    (eexists; split; [reflexivity|discriminate]).
Qed.

(** X12: for a registry built from [New()] by successful calls of
    [Centre.addRoute] with patterns of at most 255 captures,
    [ServeHTTP] panics in no lookup, whatever the request, the settings
    and the parameters of the pooled context. *)
Theorem serve_never_panics rs c pooled req :
  serving rs c -> exists s, ServeHTTP qu cleanPath cfg c pooled req = Ret s.
Proof.
  intros Hs. destruct (serving_tree _ _ Hs) as [Hall _].
  unfold ServeHTTP, handleHTTPRequest.
  destruct (UseRawPath cfg && bool_decide (0 < length (URL_RawPath req)));
    cbv beta iota zeta.
  all: match goal with
       | |- context [serve_method qu cfg ?ts ?m ?q (mkParams [] ?c) ?ue] =>
           destruct (serve_method_safe ts m q c ue Hall) as [s ->];
           destruct s as [s|]; [eexists; reflexivity|];
           destruct (HandleMethodNotAllowed cfg);
           [destruct (other_method_safe ts m q ue Hall) as [b ->];
            destruct b; eexists; reflexivity
           |eexists; reflexivity]
       end.
Qed.

(** X13: for such a registry, with [HandleMethodNotAllowed] on and
    [UseRawPath] and [RemoveExtraSlash] off: a request whose method has
    no tree, and whose path is that of a route registered for another
    method (the pattern, in which no '/' follows a '*', with values
    written for its captures), is answered with the 405 error and the
    chain [allNoMethod]. *)
Theorem method_not_allowed_answer rs c m m' p h vals pooled req :
  serving rs c -> (m', (p, h)) ∈ rs -> star_last p -> values_ok p vals ->
  get (trees c) m = None ->
  HandleMethodNotAllowed cfg = true ->
  UseRawPath cfg = false -> RemoveExtraSlash cfg = false ->
  Request_Method req = m -> URL_Path req = substitute p vals ->
  ServeHTTP qu cleanPath cfg c pooled req
  = Ret (Failed StatusMethodNotAllowed (allNoMethod cfg)).
Proof.
  intros Hs Hin Hstar Hvals Hnone Hna Hraw Hrm Hm Hq.
  destruct (serving_tree _ _ Hs) as [Hall Htree].
  destruct (Htree _ _ _ Hin) as (k & r & l & Hg & Hb & Hl).
  pose proof (built_with_find _ _ _ _ _ Hb Hl Hstar Hvals) as Hf.
  destruct (find_getValue qu _ _ 0 false _ _
              (built_with_built _ _ Hb) Hf) as (v & H1 & H2 & H3).
  unfold ServeHTTP, handleHTTPRequest. rewrite Hraw, Hrm, Hna, Hm, Hq.
  cbn [andb]. rewrite (serve_method_get_None _ _ _ _ _ Hnone).
  destruct (get_Some _ _ _ _ Hg) as [Hk _].
  rewrite (other_method_hit (trees c) m (substitute p vals) false
             (mkMethodTree m' r) v h Hall);
    [reflexivity|eapply list_elem_of_lookup_2; exact Hk| |exact H1|exact H2].
  cbn. intros ->. rewrite Hg in Hnone. discriminate.
Qed.

End Dispatch.
(** * The helper functions *)

(** ** incrementChildPrio *)

Lemma by_priority_app l1 l2 :
  by_priority (l1 ++ l2)
  <-> by_priority l1 /\ by_priority l2
      /\ Forall (fun a => Forall (fun d => (priority d <= priority a)%Z) l2) l1.
Proof.
  induction l1 as [|a l1 IH]; cbn.
  - split; [intros H; repeat split; [exact H|constructor]|tauto].
  - split.
    + intros [H1 H2]. apply Forall_app in H1 as [H1 H1'].
      apply IH in H2 as (H2 & H3 & H4).
      repeat split; try assumption. constructor; assumption.
    + intros ([H1 H2] & H3 & H4). apply list.Forall_cons in H4 as [H4 H5].
      split; [apply Forall_app; split; assumption|].
      apply IH. repeat split; assumption.
Qed.

Lemma bubble_prio prio : forall k cs x cs' k',
  cs !! k = Some x ->
  bubble cs k prio = (cs', k') ->
  (forall j a, k' <= j < k -> cs !! j = Some a -> (priority a < prio)%Z)
  /\ (forall a, 0 < k' -> cs !! (k' - 1) = Some a -> ~ (priority a < prio)%Z).
Proof.
  induction k as [|k IH]; intros cs x cs' k' Hx Hb; simpl in Hb.
  - injection Hb as <- <-. split; intros; lia.
  - rewrite Hx in Hb.
    destruct (cs !! k) as [a|] eqn:Ha.
    2:{ injection Hb as <- <-. split; [intros; lia|].
        intros a _. simpl. rewrite Nat.sub_0_r, Ha. discriminate. }
    case_decide as Hlt.
    2:{ injection Hb as <- <-. split; [intros; lia|].
        intros a0 _. simpl. rewrite Nat.sub_0_r, Ha. intros [= <-]. exact Hlt. }
    assert (Hk : S k < length cs) by (apply lookup_lt_Some in Hx; exact Hx).
    assert (Hx' : <[k:=x]> (<[S k:=a]> cs) !! k = Some x).
    { rewrite list_lookup_insert_eq; [reflexivity|]. rewrite length_insert. lia. }
    destruct (bubble_spec _ _ _ _ _ _ Hx' Hb) as [Hle _].
    apply IH with (x := x) in Hb; [|exact Hx'].
    destruct Hb as [H1 H2].
    assert (Hold : forall j, j < k -> <[k:=x]> (<[S k:=a]> cs) !! j = cs !! j).
    { intros j Hj. rewrite !list_lookup_insert_ne by lia. reflexivity. }
    split.
    + intros j a0 Hj Hj'. destruct (decide (j = k)) as [->|Hne].
      * rewrite Ha in Hj'. injection Hj' as <-. exact Hlt.
      * apply (H1 j); [lia|]. rewrite Hold by lia. exact Hj'.
    + intros a0 Hpos Ha0. apply (H2 a0 Hpos). rewrite Hold by lia. exact Ha0.
Qed.

Lemma incr32_small p : (0 <= p < 2 ^ 32 - 1)%Z -> incr32 p = (p + 1)%Z.
Proof. intros H. unfold incr32. apply Z.mod_small. lia. Qed.

Lemma by_priority_take k cs : by_priority cs -> by_priority (take k cs).
Proof.
  intros H. rewrite <- (take_drop k cs) in H. apply by_priority_app in H. tauto.
Qed.

Lemma by_priority_drop k cs : by_priority cs -> by_priority (drop k cs).
Proof.
  intros H. rewrite <- (take_drop k cs) in H. apply by_priority_app in H. tauto.
Qed.

Lemma by_priority_lookup cs i j a b :
  by_priority cs -> i < j -> cs !! i = Some a -> cs !! j = Some b ->
  (priority b <= priority a)%Z.
Proof.
  revert i j. induction cs as [|c cs IH]; intros i j Hs Hij Ha Hb;
    [discriminate|]. destruct Hs as [H1 H2].
  destruct j as [|j]; [lia|]. cbn in Hb. destruct i as [|i].
  - injection Ha as <-. rewrite list.Forall_forall in H1. apply H1.
    eapply list_elem_of_lookup_2. exact Hb.
  - apply (IH i j H2); [lia|exact Ha|exact Hb].
Qed.

(** X17: [incrementChildPrio] that returns [newPos], on children in
    descending order of priority whose child at [pos] has a priority
    below 2^32 - 1: the child has its priority raised by one and is
    moved left to [newPos <= pos]; the other children keep their order;
    the children are again in descending order of priority; and if the
    index string listed the first bytes of the children before, it does
    so afterwards. *)
Theorem incrementChildPrio_sorted n pos n2 newPos c :
  incrementChildPrio n pos = (n2, Some newPos) ->
  children n !! pos = Some c ->
  (0 <= priority c < 2 ^ 32 - 1)%Z ->
  by_priority (children n) ->
  newPos <= pos
  /\ children n2 !! newPos = Some (bump_priority c)
  /\ priority (bump_priority c) = (priority c + 1)%Z
  /\ delete newPos (children n2) = delete pos (children n)
  /\ by_priority (children n2)
  /\ (indices n = index_for <$> children n ->
      indices n2 = index_for <$> children n2).
Proof.
  intros H Hc Hrange Hsorted.
  pose proof (incrementChildPrio_indexed _ _ _ _ H) as Hidx.
  pose proof H as H0.
  unfold incrementChildPrio in H0. rewrite Hc in H0.
  destruct (bubble _ pos _) as [cs k] eqn:Hb.
  assert (Hpos : pos < length (children n)) by (eapply lookup_lt_Some; eassumption).
  assert (Hx : <[pos:=bump_priority c]> (children n) !! pos
               = Some (bump_priority c))
    by (apply list_lookup_insert_eq; exact Hpos).
  destruct (bubble_spec _ _ _ _ _ _ Hx Hb) as [Hle Hcs].
  destruct (bubble_prio _ _ _ _ _ _ Hx Hb) as [Hlow Hhigh].
  assert (Hk : k = newPos).
  { destruct (decide (k <> pos)).
    - destruct (decide (pos + 1 <= length (indices (set_children cs n))));
        [|discriminate]. injection H0 as _ <-. reflexivity.
    - injection H0 as _ <-. reflexivity. }
  subst k.
  assert (Hn2 : children n2 = cs).
  { destruct (decide (newPos <> pos)).
    - destruct (decide (pos + 1 <= length (indices (set_children cs n))));
        [|discriminate]. injection H0 as <-. reflexivity.
    - injection H0 as <-. reflexivity. }
  clear H0.
  rewrite take_insert_ge in Hcs by lia.
  rewrite take_insert_ge in Hcs by lia.
  rewrite drop_insert_lt in Hcs by lia.
  rewrite Hn2, Hcs.
  assert (Hprio : priority (bump_priority c) = (priority c + 1)%Z).
  { cbn [priority bump_priority set_priority]. apply incr32_small. exact Hrange. }
  split; [exact Hle|]. split.
  { rewrite lookup_app_r by (rewrite length_take; lia).
    rewrite length_take. replace (newPos - newPos `min` length (children n)) with 0 by lia.
    reflexivity. }
  split; [exact Hprio|]. split.
  { assert (Hlen : length (take newPos (children n)) = newPos)
      by (rewrite length_take; lia).
    rewrite <- Hlen at 1. cbn [app]. rewrite delete_middle.
    rewrite delete_take_drop.
    rewrite <- (take_drop newPos (take pos (children n))) at 2.
    rewrite take_take, Nat.min_l by lia. rewrite <- app_assoc. reflexivity. }
  split; [|rewrite <- Hcs, <- Hn2; exact Hidx].
  (* the order *)
  set (A := take newPos (children n)).
  set (M := drop newPos (take pos (children n))).
  set (D := drop (S pos) (children n)).
  assert (Hsplit : children n = A ++ M ++ [c] ++ D).
  { subst A M D. rewrite <- (take_drop_middle _ _ _ Hc) at 1.
    rewrite <- (take_drop newPos (take pos (children n))) at 1.
    rewrite take_take, Nat.min_l by lia. rewrite <- !app_assoc. reflexivity. }
  rewrite Hsplit in Hsorted.
  apply by_priority_app in Hsorted as (SA & Hsorted & AM).
  apply by_priority_app in Hsorted as (SM & Hsorted & MD).
  cbn [app by_priority] in Hsorted. destruct Hsorted as [CD SD].
  assert (HM : Forall (fun d => (priority d < priority c + 1)%Z) M).
  { apply list.Forall_forall. intros d Hd.
    apply list_elem_of_lookup_1 in Hd as [j Hj]. unfold M in Hj.
    rewrite lookup_drop in Hj. pose proof Hj as Hj2.
    apply lookup_take_Some in Hj2 as [Hj2 Hlt].
    rewrite <- Hprio.
    change (priority (bump_priority c)) with (incr32 (priority c)).
    apply (Hlow (newPos + j)); [lia|].
    rewrite list_lookup_insert_ne by lia. exact Hj2. }
  assert (HA : Forall (fun a => (priority c + 1 <= priority a)%Z) A).
  { destruct (decide (newPos = 0)) as [->|Hnz]; [subst A; constructor|].
    destruct (children n !! (newPos - 1)) as [a|] eqn:Ha.
    2:{ apply lookup_ge_None in Ha. lia. }
    assert (Hge : (priority c + 1 <= priority a)%Z).
    { pose proof (Hhigh a ltac:(lia)) as Hh.
      rewrite list_lookup_insert_ne in Hh by lia. specialize (Hh Ha).
      change (incr32 (priority c)) with (priority (bump_priority c)) in Hh.
      rewrite Hprio in Hh. lia. }
    apply list.Forall_forall. intros d Hd.
    apply list_elem_of_lookup_1 in Hd as [j Hj]. unfold A in Hj.
    apply lookup_take_Some in Hj as [Hj Hlt].
    destruct (decide (j = newPos - 1)) as [->|Hne]; [congruence|].
    assert (Hsa : by_priority A) by exact SA.
    assert (priority a <= priority d)%Z; [|lia].
    apply (by_priority_lookup A j (newPos - 1)); [exact SA|lia| |].
    - unfold A. rewrite lookup_take_lt by lia. exact Hj.
    - unfold A. rewrite lookup_take_lt by lia. exact Ha. }
  apply by_priority_app. split; [exact SA|]. split.
  - cbn [app by_priority]. split.
    + apply Forall_app. split.
      * eapply list.Forall_impl; [exact HM|]. intros d Hd; cbv beta in *; rewrite Hprio; lia.
      * eapply list.Forall_impl; [exact CD|]. intros d Hd; cbv beta in *; rewrite Hprio; lia.
    + apply by_priority_app. split; [exact SM|]. split; [exact SD|].
      eapply list.Forall_impl; [exact MD|]. intros a Ha. cbv beta in *.
      apply list.Forall_cons in Ha as [_ Ha]. exact Ha.
  - rewrite list.Forall_forall in AM, HA. apply list.Forall_forall. intros a Ha.
    constructor; [rewrite Hprio; apply HA; exact Ha|].
    specialize (AM a Ha). apply Forall_app in AM as [AM1 AM2].
    apply Forall_app. split; [exact AM1|].
    cbn in AM2. apply list.Forall_cons in AM2 as [_ AM2]. exact AM2.
Qed.

(** ** longestCommonPrefix, findWildcard and the trees of other methods *)

(** X15: [longestCommonPrefix] returns the length of the longest common
    prefix of its arguments: it exceeds the length of neither, the two
    strings agree on that many bytes, and they agree on no more. *)
Theorem longestCommonPrefix_longest a b :
  take (longestCommonPrefix a b) a = take (longestCommonPrefix a b) b
  /\ longestCommonPrefix a b <= length a
  /\ longestCommonPrefix a b <= length b
  /\ forall j, j <= length a -> j <= length b -> take j a = take j b ->
       j <= longestCommonPrefix a b.
Proof.
  destruct (lcp_spec a b) as (H1 & H2 & H3 & H4).
  split; [exact H3|]. split; [exact H1|]. split; [exact H2|].
  intros j Ha Hb Hj.
  destruct (decide (j <= longestCommonPrefix a b)) as [|Hgt]; [assumption|].
  exfalso. apply H4; [lia|lia|].
  assert (Hl : forall (l : str), longestCommonPrefix a b < j -> j <= length l ->
            l !! longestCommonPrefix a b = take j l !! longestCommonPrefix a b).
  { intros l Hlt _. rewrite lookup_take_lt by lia. reflexivity. }
  rewrite (Hl a), (Hl b), Hj by lia. reflexivity.
Qed.

Lemma first_sigil_unique pre : forall sg tl pre' sg' tl',
  pre ++ sg :: tl = pre' ++ sg' :: tl' ->
  count_sigils pre = 0 -> count_sigils pre' = 0 ->
  is_sigil sg = true -> is_sigil sg' = true ->
  pre = pre' /\ sg = sg' /\ tl = tl'.
Proof.
  induction pre as [|x pre IH]; intros sg tl [|y pre'] sg' tl' Heq Hp Hp' Hs Hs';
    cbn in *.
  - injection Heq as -> ->. repeat split.
  - injection Heq as -> ->. rewrite Hs in Hp'. lia.
  - injection Heq as -> <-. rewrite Hs' in Hp. lia.
  - injection Heq as <- Heq.
    destruct (is_sigil x); [lia|].
    destruct (IH _ _ _ _ _ Heq Hp Hp' Hs Hs') as (-> & -> & ->).
    repeat split.
Qed.

(** X16: [findWildcard] finds the first wildcard: for a path made of a
    part without ':' and '*', then a ':' or '*', then the rest, it
    returns the wildcard from that byte up to the next '/' (or the end),
    the length of the first part as its index, and as validity that the
    wildcard holds no second ':' or '*'. *)
Theorem findWildcard_first pre sg tl :
  count_sigils pre = 0 -> is_sigil sg = true ->
  findWildcard (pre ++ sg :: tl)
  = (sg :: segment tl, Z.of_nat (length pre),
     bool_decide (count_sigils (segment tl) = 0)).
Proof.
  intros Hpre Hsg. unfold findWildcard.
  destruct (findWildcard_some (pre ++ sg :: tl) 0)
    as (pre' & sg' & tl' & Heq & Hpre' & Hsg' & ->).
  { rewrite count_sigils_app, count_sigils_sigil by exact Hsg. lia. }
  destruct (first_sigil_unique _ _ _ _ _ _ Heq Hpre Hpre' Hsg Hsg')
    as (<- & <- & <-).
  reflexivity.
Qed.

Lemma findWildcard_absent pth :
  count_sigils pth = 0 -> findWildcard pth = ([], (-1)%Z, false).
Proof. apply findWildcard_none. Qed.

(** X14: a call of [Centre.addRoute] for a method, whether it succeeds
    or panics, leaves the tree found for every other method as it was. *)
Theorem registration_other_methods c m p hs m' :
  m' <> m ->
  get (trees (fst (Centre_addRoute c m p hs))) m' = get (trees c) m'.
Proof.
  intros Hne. unfold Centre_addRoute.
  destruct p as [|x p]; [reflexivity|].
  destruct (decide (x <> slash)); [reflexivity|].
  destruct (decide (m = [])); [reflexivity|].
  destruct (decide (~ 0 < chain_len hs)); [reflexivity|].
  destruct (get (trees c) m) as [[k r]|] eqn:Hg.
  - destruct (addRoute r (x :: p) hs) as [r' st]. cbn [fst trees].
    destruct (get_Some _ _ _ _ Hg) as [Hk _].
    apply (get_insert_other (trees c) m m' k _ r' Hk eq_refl Hne).
  - destruct (addRoute newTree (x :: p) hs) as [r' st]. cbn [fst trees].
    etransitivity.
    + apply (get_insert_other (trees c ++ [mkMethodTree m newTree]) m m'
               (length (trees c)) (mkMethodTree m newTree) r');
        [rewrite lookup_app_r, Nat.sub_diag by lia; reflexivity|reflexivity
        |exact Hne].
    + apply get_app_other. cbn. congruence.
Qed.
(** * The theorems at work on examples *)

Lemma example_tree_built : built_with example_routes example_tree.
Proof.
  unfold example_routes, example_tree.
  apply built_with_next; [|discriminate|vm_compute; lia|vm_compute; reflexivity].
  apply built_with_next; [|discriminate|vm_compute; lia|vm_compute; reflexivity].
  apply built_with_next; [|discriminate|vm_compute; lia|vm_compute; reflexivity].
  apply built_with_new.
Qed.

Lemma serving_next rs c m p h :
  serving rs c -> count_sigils p <= 255 ->
  snd (Centre_addRoute c m p (Some h)) = Done ->
  serving ((m, (p, h)) :: rs) (fst (Centre_addRoute c m p (Some h))).
Proof.
  intros Hs Hle Hst. apply (serving_add rs c m p h); try assumption.
  destruct (Centre_addRoute c m p (Some h)) as [c' st]. simpl in *. congruence.
Qed.

Lemma example_centre_serving : serving example_served example_centre.
Proof.
  unfold example_served, example_centre.
  apply serving_next; [|vm_compute; lia|vm_compute; reflexivity].
  apply serving_next; [|vm_compute; lia|vm_compute; reflexivity].
  apply serving_next; [|vm_compute; lia|vm_compute; reflexivity].
  apply serving_New.
Qed.

Lemma example_values : values_ok (B "/a/:x/b") [B "42"].
Proof.
  apply (values_ok_one _ (B "x")); [reflexivity|discriminate|].
  repeat constructor; discriminate.
Qed.

Lemma example_star : star_last (B "/a/:x/b").
Proof. vm_compute. repeat split; discriminate. Qed.

Lemma lookup_returns_registered_witness :
  exists p, (p, [2]) ∈ example_routes.
Proof.
  apply (lookup_returns_registered (fun s => Some s) example_routes example_tree
           (B "/a/42/b") (mkParams [] 0) false
           (mkValue (Some [2]) (mkParams [mkParam (B "x") (B "42")] 1) false
              (B "/a/:x/b")) [2] example_tree_built);
    [vm_compute; reflexivity|reflexivity].
Defined.

Lemma iterate_lists_routes_witness :
  exists l, iterate (fun _ => []) [] (B "GET") [] example_tree = [] ++ l
            /\ l ≡ₚ route_of (fun _ => []) (B "GET") <$> example_routes.
Proof.
  apply (iterate_lists_routes (fun _ => []) example_routes example_tree (B "GET") []
           example_tree_built).
  repeat constructor; discriminate.
Defined.

Lemma Routes_lists_registered_witness :
  Routes (fun _ => []) example_centre
  ≡ₚ (fun r => route_of (fun _ => []) r.1 r.2) <$> example_served.
Proof.
  apply (Routes_lists_registered (fun _ => []) example_served example_centre
           example_centre_serving).
Defined.

Lemma capture_by_name_witness :
  exists v,
    getValue (fun s => Some s) example_tree (substitute (B "/a/:x/b") [B "42"])
      (mkParams [] 0) false = Ret v
    /\ Get (v_params v) (B "x")
       = (stored (fun s => Some s) false
            (if decide (colon = star) then slash :: B "42" else B "42"), true)
    /\ ByName (v_params v) (B "x")
       = stored (fun s => Some s) false
           (if decide (colon = star) then slash :: B "42" else B "42").
Proof.
  apply (capture_by_name (fun s => Some s) example_routes example_tree
           (B "/a/:x/b") [2] [B "42"] 0 false 0 colon (B "x") (B "42")
           example_tree_built).
  - right. left.
  - exact example_star.
  - exact example_values.
  - reflexivity.
  - reflexivity.
  - intros j sg' Hj. lia.
Defined.

Lemma unknown_name_empty_witness :
  exists v,
    getValue (fun s => Some s) example_tree (substitute (B "/a/:x/b") [B "42"])
      (mkParams [] 0) false = Ret v
    /\ Get (v_params v) (B "y") = ([], false)
    /\ ByName (v_params v) (B "y") = [].
Proof.
  apply (unknown_name_empty (fun s => Some s) example_routes example_tree
           (B "/a/:x/b") [2] [B "42"] 0 false (B "y") example_tree_built).
  - right. left.
  - exact example_star.
  - exact example_values.
  - vm_compute. intros H. apply elem_of_cons in H as [H|H]; [discriminate H|inversion H].
Defined.

Lemma served_route_witness :
  exists ps fp,
    ServeHTTP (fun s => Some s) (fun s => s) example_settings example_centre
      (mkParams [] 0) (mkRequest (B "GET") (B "/a/42/b") [])
    = Ret (Handled (Some [2]) ps fp)
    /\ elems ps = expected_params (fun s => Some s) false (B "/a/:x/b") [B "42"].
Proof.
  apply (served_route (fun s => Some s) (fun s => s) example_settings
           example_served example_centre (B "GET") (B "/a/:x/b") [2] [B "42"]
           (mkParams [] 0) (mkRequest (B "GET") (B "/a/42/b") [])
           example_centre_serving).
  - right. left.
  - exact example_star.
  - exact example_values.
  - reflexivity.
  - reflexivity.
  - reflexivity.
  - reflexivity.
Defined.

Lemma known_method_no_error_witness :
  exists s,
    ServeHTTP (fun s => Some s) (fun s => s) example_settings example_centre
      (mkParams [] 0) (mkRequest (B "GET") (B "/nothing/here") []) = Ret s
    /\ forall code hs, s <> Failed code hs.
Proof.
  apply (known_method_no_error (fun s => Some s) (fun s => s) example_settings
           example_served example_centre (mkParams [] 0)
           (mkRequest (B "GET") (B "/nothing/here") [])
           example_centre_serving).
  - vm_compute. discriminate.
  - discriminate.
  - reflexivity.
  - reflexivity.
  - discriminate.
Defined.

Lemma serve_never_panics_witness :
  exists s,
    ServeHTTP (fun s => Some s) (fun s => s) example_settings example_centre
      (mkParams [] 0) (mkRequest (B "PUT") (B "/a//") (B "/%zz")) = Ret s.
Proof.
  apply (serve_never_panics (fun s => Some s) (fun s => s) example_settings
           example_served example_centre (mkParams [] 0)
           (mkRequest (B "PUT") (B "/a//") (B "/%zz"))
           example_centre_serving).
Defined.

Lemma method_not_allowed_answer_witness :
  ServeHTTP (fun s => Some s) (fun s => s) example_settings example_centre
    (mkParams [] 0) (mkRequest (B "PUT") (B "/a/42/b") [])
  = Ret (Failed StatusMethodNotAllowed (allNoMethod example_settings)).
Proof.
  apply (method_not_allowed_answer (fun s => Some s) (fun s => s) example_settings
           example_served example_centre (B "PUT") (B "GET") (B "/a/:x/b") [2]
           [B "42"] (mkParams [] 0) (mkRequest (B "PUT") (B "/a/42/b") [])
           example_centre_serving).
  - right. left.
  - exact example_star.
  - exact example_values.
  - vm_compute. reflexivity.
  - reflexivity.
  - reflexivity.
  - reflexivity.
  - reflexivity.
  - reflexivity.
Defined.

Lemma registration_other_methods_witness :
  get (trees (fst (Centre_addRoute example_centre (B "PUT") (B "/a/:y")
                     (Some [9]))))
    (B "GET")
  = get (trees example_centre) (B "GET").
Proof.
  apply (registration_other_methods example_centre (B "PUT") (B "/a/:y")
           (Some [9]) (B "GET")).
  discriminate.
Defined.

Lemma findWildcard_first_witness :
  findWildcard (B "/a/" ++ colon :: B "x/b")
  = (colon :: segment (B "x/b"), Z.of_nat (length (B "/a/")),
     bool_decide (count_sigils (segment (B "x/b")) = 0)).
Proof.
  apply (findWildcard_first (B "/a/") colon (B "x/b")); reflexivity.
Defined.

Lemma incrementChildPrio_sorted_witness :
  exists n2 c,
    0 <= 1
    /\ children n2 !! 0 = Some (bump_priority c)
    /\ priority (bump_priority c) = (priority c + 1)%Z
    /\ delete 0 (children n2) = delete 1 (children example_leaves)
    /\ by_priority (children n2)
    /\ (indices example_leaves = index_for <$> children example_leaves ->
        indices n2 = index_for <$> children n2).
Proof.
  eexists _, _.
  apply (incrementChildPrio_sorted example_leaves 1
           (fst (incrementChildPrio example_leaves 1)) 0
           (mkNode (B "b") [] [] (Some [2]) 1 static 0 false (B "/b"))).
  - vm_compute. reflexivity.
  - vm_compute. reflexivity.
  - vm_compute. split; [discriminate|reflexivity].
  - vm_compute. repeat constructor; discriminate.
Defined.
